(** * The JSON value core of sql/json_dom.cc

    A shallow embedding of the DOM value algebra, the wrapper facade, the
    total order, the sort-key and hash-key codecs, the text-parser handler
    and the partial in-place update of sql/json_dom.cc, followed by the
    properties the specification states about them.

    Conventions.
    - [uchar] values and all fixed-width integers are [Z]; wrap-around is
      written out where the source relies on it.
    - [std::string] is [string]; raw byte buffers are [list Z].
    - Allocation failure ([new (std::nothrow)] returning NULL, the paths
      marked "purecov: inspected" in the source) is not modelled: every
      allocation succeeds.
    - Parent back-pointers of DOM nodes are not stored: the tree shape
      determines them. *)

From Stdlib Require Import ZArith QArith Qabs Qpower List Bool Lia String Ascii.
From stdpp Require Import base list.
Import ListNotations.

#[local] Unset Default Proof Using.
#[local] Open Scope Z_scope.

(** ** Bytes and the C library *)

(** The unsigned value of a [char]. *)
Definition uchar_of_ascii (c : ascii) : Z := Z.of_N (N_of_ascii c).

(** The bytes of a [std::string], as unsigned chars. *)
Definition uchars (s : string) : list Z := map uchar_of_ascii (list_ascii_of_string s).

(** [memcmp(s1, s2, n)]: the difference of the first pair of differing
    bytes (compared as unsigned chars) among the first [n], or 0.  Callers
    never pass an [n] larger than either buffer; reading past the end of a
    list yields 0 here. *)
Fixpoint memcmp (s1 s2 : list Z) (n : nat) {struct n} : Z :=
  match n with
  | O => 0
  | S n' =>
    match s1, s2 with
    | c1 :: t1, c2 :: t2 => if c1 =? c2 then memcmp t1 t2 n' else c1 - c2
    | _, _ => 0
    end
  end.

(** Little-endian store of the low [n] bytes of [v] ([int2store],
    [int4store], [int8store]). *)
Fixpoint int_store (n : nat) (v : Z) : list Z :=
  match n with
  | O => []
  | S n' => (v mod 256) :: int_store n' (v / 256)
  end.

Definition int2store (v : Z) : list Z := int_store 2 (v mod 2 ^ 16).
Definition int4store (v : Z) : list Z := int_store 4 (v mod 2 ^ 32).
Definition int8store (v : Z) : list Z := int_store 8 (v mod 2 ^ 64).

(** ** compare_numbers *)

(** The operations [<] and [==] that the template [compare_numbers<T>]
    uses at each of its instantiations. *)
Class Comparable (T : Type) := {
  lt_op : T -> T -> bool;
  eq_op : T -> T -> bool
}.

#[export] Instance Comparable_Z : Comparable Z :=
  {| lt_op := Z.ltb; eq_op := Z.eqb |}.

#[export] Instance Comparable_nat : Comparable nat :=
  {| lt_op := Nat.ltb; eq_op := Nat.eqb |}.

(** [bool] promotes to [int]: false is 0 and true is 1. *)
#[export] Instance Comparable_bool : Comparable bool :=
  {| lt_op := fun a b => negb a && b; eq_op := Bool.eqb |}.

Definition compare_numbers {T : Type} `{Comparable T} (val1 val2 : T) : Z :=
  if lt_op val1 val2 then -1 else if eq_op val1 val2 then 0 else 1.

(** ** Doubles

    A finite IEEE 754 binary64 value is an integer multiple of 2^-1074.
    [d_mag] is that multiple for the absolute value and [d_neg] the sign
    bit, so +0.0 and -0.0 are distinct records of equal value.  NaN and
    the infinities are not represented: a [Json_double] never holds them
    (the parser rejects them). *)
Record double := mk_double { d_neg : bool; d_mag : Z }.

(** The magnitude has at most 53 significant bits and is below 2^1024. *)
Definition is_double (d : double) : bool :=
  (0 <=? d_mag d) && (Z.log2 (d_mag d) <? 2098) &&
  (let k := Z.log2 (d_mag d) - 52 in
   (k <=? 0) || (d_mag d mod 2 ^ k =? 0)).

(** The value of a double, in units of 2^-1074. *)
Definition d_scaled (d : double) : Z :=
  if d_neg d then - d_mag d else d_mag d.

(** The rational a double denotes. *)
Definition double_value (d : double) : Q := Qmake (d_scaled d) (2 ^ 1074)%positive.

#[export] Instance Comparable_double : Comparable double :=
  {| lt_op := fun a b => d_scaled a <? d_scaled b;
     eq_op := fun a b => d_scaled a =? d_scaled b |}.

(** Round a non-negative multiple of 2^-1074 to 53 significant bits, ties
    to even. *)
Definition round_to_double (n : Z) : Z :=
  let k := Z.log2 n - 52 in
  if k <=? 0 then n
  else
    let q := n / 2 ^ k in
    let r := n mod 2 ^ k in
    let half := 2 ^ (k - 1) in
    let q' := if (half <? r) || ((r =? half) && Z.odd q) then q + 1 else q in
    q' * 2 ^ k.

(** [static_cast<double>(b)] for a [longlong] and [ulonglong2double(b)]
    for a [ulonglong]: the nearest double. *)
Definition double_of_int (b : Z) : double :=
  mk_double (b <? 0) (round_to_double (Z.abs b * 2 ^ 1074)).

(** The 64 bits of the IEEE encoding. *)
Definition double_bits (d : double) : Z :=
  let s := d_mag d in
  let k := Z.log2 s - 52 in
  (if d_neg d then 2 ^ 63 else 0) +
  (if s <? 2 ^ 52 then s else (k + 1) * 2 ^ 52 + (s / 2 ^ k - 2 ^ 52)).

Definition float8store (d : double) : list Z := int_store 8 (double_bits d).

(** ** The decimal library

    [my_decimal] and its arithmetic live outside sql/json_dom.cc.  The
    interface below lists the operations the file calls; [dec_value] is
    the rational a decimal denotes and only serves to state the contract
    of the operations. *)

(** Result codes of [double2decimal]. *)
Inductive dec_result := E_DEC_OK | E_DEC_TRUNCATED | E_DEC_OVERFLOW | E_DEC_OTHER.

Class Decimal_library := {
  my_decimal : Type;
  dec_value : my_decimal -> Q;
  dec_sign : my_decimal -> bool;
  my_decimal_is_zero : my_decimal -> bool;
  my_decimal_cmp : my_decimal -> my_decimal -> Z;
  longlong2decimal : Z -> my_decimal;
  ulonglong2decimal : Z -> my_decimal;
  double2decimal : double -> dec_result * my_decimal;
  decimal2double : my_decimal -> double;
  my_decimal2string : my_decimal -> list Z
}.

(** The sign of a rational as an [int] in {-1, 0, 1}. *)
Definition Z_of_comparison (c : comparison) : Z :=
  match c with Lt => -1 | Eq => 0 | Gt => 1 end.

(** The contract of the decimal library, as json_dom.cc relies on it (see
    the comments of [compare_json_decimal_double], [compare_json_double_int]
    and [Json_wrapper::compare]). *)
Class Decimal_laws `{Decimal_library} : Prop := {
  (** [my_decimal_cmp] is an exact three-way comparison, except that it
      tells -0 from 0. *)
  my_decimal_cmp_antisym : forall a b, my_decimal_cmp a b = - my_decimal_cmp b a;
  my_decimal_cmp_exact : forall a b,
    my_decimal_is_zero a && my_decimal_is_zero b = false ->
    my_decimal_cmp a b = Z_of_comparison (dec_value a ?= dec_value b)%Q;
  my_decimal_is_zero_spec : forall a,
    my_decimal_is_zero a = true <-> (dec_value a == 0)%Q;
  dec_sign_spec : forall a,
    my_decimal_is_zero a = false -> (dec_sign a = true <-> (dec_value a < 0)%Q);
  (** Integers convert exactly. *)
  longlong2decimal_exact : forall b, (dec_value (longlong2decimal b) == inject_Z b)%Q;
  ulonglong2decimal_exact : forall b, (dec_value (ulonglong2decimal b) == inject_Z b)%Q;
  (** [double2decimal] converts exactly when it reports E_DEC_OK, which it
      does whenever the double has a decimal of equal value; a truncated
      result is strictly closer to zero; an overflowing double is larger in
      absolute value than every decimal. *)
  double2decimal_codes : forall d,
    fst (double2decimal d) <> E_DEC_OTHER;
  double2decimal_ok : forall d,
    fst (double2decimal d) = E_DEC_OK ->
    (dec_value (snd (double2decimal d)) == double_value d)%Q;
  double2decimal_complete : forall d a,
    (dec_value a == double_value d)%Q -> fst (double2decimal d) = E_DEC_OK;
  double2decimal_truncated : forall d,
    fst (double2decimal d) = E_DEC_TRUNCATED ->
    (Qabs (dec_value (snd (double2decimal d))) < Qabs (double_value d))%Q;
  double2decimal_overflow : forall d a,
    fst (double2decimal d) = E_DEC_OVERFLOW ->
    (Qabs (dec_value a) < Qabs (double_value d))%Q;
  (** [decimal2double] yields the double nearest to the value: the result
      depends on the value only, is that value when it is a double, and
      is what the conversion of an integer to double yields when the
      value is an integer. *)
  decimal2double_magnitude : forall a, 0 <= d_mag (decimal2double a);
  decimal2double_value : forall a b,
    (dec_value a == dec_value b)%Q -> decimal2double a = decimal2double b;
  decimal2double_exact : forall a d,
    is_double d = true -> (dec_value a == double_value d)%Q ->
    d_scaled (decimal2double a) = d_scaled d;
  decimal2double_int : forall a b,
    (dec_value a == inject_Z b)%Q ->
    d_scaled (decimal2double a) = d_scaled (double_of_int b)
}.

(** ** Kinds *)

(** [enum_json_type], in declaration order. *)
Inductive enum_json_type :=
  | J_NULL | J_DECIMAL | J_INT | J_UINT | J_DOUBLE | J_STRING | J_OBJECT
  | J_ARRAY | J_BOOLEAN | J_DATE | J_TIME | J_DATETIME | J_TIMESTAMP
  | J_OPAQUE | J_ERROR.

(** [static_cast<int>] of a kind. *)
Definition json_type_index (t : enum_json_type) : nat :=
  match t with
  | J_NULL => 0 | J_DECIMAL => 1 | J_INT => 2 | J_UINT => 3 | J_DOUBLE => 4
  | J_STRING => 5 | J_OBJECT => 6 | J_ARRAY => 7 | J_BOOLEAN => 8
  | J_DATE => 9 | J_TIME => 10 | J_DATETIME => 11 | J_TIMESTAMP => 12
  | J_OPAQUE => 13 | J_ERROR => 14
  end%nat.

Definition enum_json_type_eqb (a b : enum_json_type) : bool :=
  Nat.eqb (json_type_index a) (json_type_index b).

(** [enum_field_types] is the one-byte type code of the host; the codes
    json_dom.cc names are those of the host's field-type header. *)
Definition enum_field_types := Z.
Definition MYSQL_TYPE_NULL : enum_field_types := 6.
Definition MYSQL_TYPE_TIMESTAMP : enum_field_types := 7.
Definition MYSQL_TYPE_DATE : enum_field_types := 10.
Definition MYSQL_TYPE_TIME : enum_field_types := 11.
Definition MYSQL_TYPE_DATETIME : enum_field_types := 12.
Definition MYSQL_TYPE_NEWDECIMAL : enum_field_types := 246.

(** A [MYSQL_TIME] is represented by its packed 64-bit value, the result
    of [TIME_to_longlong_packed]. *)
Definition MYSQL_TIME := Z.
Definition TIME_to_longlong_packed (t : MYSQL_TIME) : Z := t.

(** The maximum depth of a document (JSON_DOCUMENT_MAX_DEPTH). *)
Definition JSON_DOCUMENT_MAX_DEPTH : nat := 100.

(** ** Object keys and the object map *)

(** [Json_key_comparator::operator()]: shorter keys first, keys of equal
    length by their bytes. *)
Definition Json_key_comparator (key1 key2 : string) : bool :=
  if negb (Nat.eqb (String.length key1) (String.length key2))
  then Nat.ltb (String.length key1) (String.length key2)
  else memcmp (uchars key1) (uchars key2) (String.length key1) <? 0.

(** Two keys are equivalent for the map when neither is less than the
    other. *)
Definition key_equiv (key1 key2 : string) : bool :=
  negb (Json_key_comparator key1 key2) && negb (Json_key_comparator key2 key1).

Section Object_map.
Context {A : Type}.

(** [Json_object_map] is a [std::map] ordered by [Json_key_comparator]:
    its entries in iteration order. *)
Definition object_map := list (string * A).

(** [m.find(key)]. *)
Fixpoint map_find (key : string) (m : object_map) : option A :=
  match m with
  | [] => None
  | (k, v) :: rest => if key_equiv key k then Some v else map_find key rest
  end.

(** [m.insert(std::make_pair(key, value))]: the map, and whether the pair
    was inserted.  The search descends by the comparator, as the tree
    does. *)
Fixpoint map_insert (key : string) (value : A) (m : object_map) : object_map * bool :=
  match m with
  | [] => ([(key, value)], true)
  | (k, v) :: rest =>
    if Json_key_comparator key k then ((key, value) :: (k, v) :: rest, true)
    else if Json_key_comparator k key then
      let (rest', inserted) := map_insert key value rest in ((k, v) :: rest', inserted)
    else ((k, v) :: rest, false)
  end.

(** [iter->second= value] for the iterator that [m.find(key)] returned. *)
Fixpoint map_assign (key : string) (value : A) (m : object_map) : object_map :=
  match m with
  | [] => []
  | (k, v) :: rest =>
    if key_equiv key k then (k, value) :: rest else (k, v) :: map_assign key value rest
  end.

(** The invariant of the map: keys strictly increasing. *)
Fixpoint map_sorted (m : object_map) : bool :=
  match m with
  | [] => true
  | (k, _) :: rest =>
    match rest with
    | [] => true
    | (k', _) :: _ => Json_key_comparator k k' && map_sorted rest
    end
  end.

End Object_map.

Arguments object_map : clear implicits.

(** ** DOM values *)

(** [my_gcvt], the host's conversion of a double to text, is called by
    json_dom.cc and defined elsewhere. *)
Class String_library := {
  my_gcvt : double -> list Z
}.

(** A double as rapidjson or [my_strtod] hands it to the handler: finite,
    or not ([std::isfinite] fails). *)
Inductive parsed_double := Finite (d : double) | Non_finite.

(** ** The binary reader and paths: names json_dom.cc uses *)

Module json_binary.

(** [json_binary::Value::enum_type]. *)
Inductive enum_type :=
  | OBJECT | ARRAY | STRING | INT | UINT | DOUBLE
  | LITERAL_NULL | LITERAL_TRUE | LITERAL_FALSE | OPAQUE | ERROR.

End json_binary.

(** [enum_json_path_leg_type]. *)
Inductive enum_json_path_leg_type :=
  | jpl_member | jpl_array_cell | jpl_array_range
  | jpl_member_wildcard | jpl_array_cell_wildcard | jpl_ellipsis.

(** Modelled from the spec: a path leg ([Json_path_leg], declared in the
    path header).  Legs are member(name), member wildcard, array
    cell(index) where the index may count from the end, cell wildcard,
    array range(begin, end), and ellipsis. *)
Record Json_path_leg := mk_leg {
  m_leg_type : enum_json_path_leg_type;
  m_member_name : string;
  m_first_array_index : nat;
  m_first_array_index_from_end : bool;
  m_last_array_index : nat;
  m_last_array_index_from_end : bool
}.

(** Modelled from the spec: [Json_array_index], an index resolved
    against the length of an array. *)
Record Json_array_index := mk_index {
  position : nat;
  within_bounds : bool
}.

Definition resolve_index (index : nat) (from_end : bool) (array_length : nat)
  : Json_array_index :=
  mk_index
    (if from_end
     then (if Nat.ltb index array_length then array_length - index - 1 else 0)%nat
     else Nat.min index array_length)
    (Nat.ltb index array_length).

Definition first_array_index (leg : Json_path_leg) (array_length : nat) :=
  resolve_index (m_first_array_index leg) (m_first_array_index_from_end leg) array_length.

Definition last_array_index (leg : Json_path_leg) (array_length : nat) :=
  resolve_index (m_last_array_index leg) (m_last_array_index_from_end leg) array_length.

(** Modelled from the spec: the half-open range of positions a cell
    wildcard or a range leg matches. *)
Definition get_array_range (leg : Json_path_leg) (array_length : nat) : nat * nat :=
  match m_leg_type leg with
  | jpl_array_cell_wildcard => (0%nat, array_length)
  | _ =>
    let last := last_array_index leg array_length in
    (position (first_array_index leg array_length),
     if within_bounds last then S (position last) else position last)
  end.

(** Modelled from the spec: a leg is auto-wrap eligible when it is
    array_cell(0) or a cell wildcard. *)
Definition is_autowrap (leg : Json_path_leg) : bool :=
  match m_leg_type leg with
  | jpl_array_cell =>
    Nat.eqb (m_first_array_index leg) 0 && negb (m_first_array_index_from_end leg)
  | jpl_array_cell_wildcard => true
  | _ => false
  end.

Scheme All for list.
Scheme All for prod.

Section Dom.
Context `{DL : Decimal_library} `{SL : String_library}.

Inductive Json_dom : Type :=
  | Json_null
  | Json_boolean (m_v : bool)
  | Json_int (m_i : Z)
  | Json_uint (m_i : Z)
  | Json_double (m_f : double)
  | Json_decimal (m_dec : my_decimal)
  | Json_string (m_str : string)
  | Json_opaque (m_mytype : enum_field_types) (m_val : string)
  | Json_datetime (m_t : MYSQL_TIME) (m_field_type : enum_field_types)
  | Json_array (m_v : list Json_dom)
  | Json_object (m_map : list (string * Json_dom)).

Definition Json_object_map := object_map Json_dom.

(** [Json_dom::json_type()]. *)
Definition json_type (d : Json_dom) : enum_json_type :=
  match d with
  | Json_null => J_NULL
  | Json_boolean _ => J_BOOLEAN
  | Json_int _ => J_INT
  | Json_uint _ => J_UINT
  | Json_double _ => J_DOUBLE
  | Json_decimal _ => J_DECIMAL
  | Json_string _ => J_STRING
  | Json_opaque _ _ => J_OPAQUE
  | Json_datetime _ m_field_type =>
    if m_field_type =? MYSQL_TYPE_TIME then J_TIME
    else if m_field_type =? MYSQL_TYPE_DATETIME then J_DATETIME
    else if m_field_type =? MYSQL_TYPE_DATE then J_DATE
    else if m_field_type =? MYSQL_TYPE_TIMESTAMP then J_TIMESTAMP
    else J_NULL
  | Json_array _ => J_ARRAY
  | Json_object _ => J_OBJECT
  end.

(** [Json_array::depth()], [Json_object::depth()]; scalars have depth 1. *)
Fixpoint depth (d : Json_dom) : nat :=
  match d with
  | Json_array m_v =>
    1 + fold_right (fun child deepest_child => Nat.max deepest_child (depth child)) 0%nat m_v
  | Json_object m_map =>
    1 + fold_right (fun kv deepest_child => Nat.max deepest_child (depth (snd kv))) 0%nat m_map
  | _ => 1
  end.

(** [Json_array::insert_alias]: insert at [index], or at the end when the
    index points past the end. *)
Definition insert_alias (m_v : list Json_dom) (index : nat) (value : option Json_dom)
  : bool * list Json_dom :=
  match value with
  | None => (true, m_v)
  | Some v =>
    let pos := Nat.min (length m_v) index in
    (false, firstn pos m_v ++ v :: skipn pos m_v)
  end.

Definition append_alias (m_v : list Json_dom) (value : option Json_dom) :=
  insert_alias m_v (length m_v) value.

(** [Json_array::consume]. *)
Fixpoint Json_array_consume (m_v other : list Json_dom) : bool * list Json_dom :=
  match other with
  | [] => (false, m_v)
  | x :: rest =>
    let (err, m_v') := append_alias m_v (Some x) in
    if err then (true, m_v') else Json_array_consume m_v' rest
  end.

(** [Json_object::add_alias]: the error flag and the map afterwards.  A
    value that was not inserted is released. *)
Definition add_alias (m_map : Json_object_map) (key : string) (value : option Json_dom)
  : bool * Json_object_map :=
  match value with
  | None => (true, m_map)
  | Some v =>
    let ret := map_insert key v m_map in
    (false, fst ret)
  end.

(** [Json_object::get]. *)
Definition get (m_map : Json_object_map) (key : string) : option Json_dom :=
  map_find key m_map.

(** [Json_object::cardinality]. *)
Definition cardinality (m_map : Json_object_map) : nat := length m_map.

(** ** Merge *)

(** [wrap_in_array]: the one-element array [Json_array(dom)]. *)
Definition wrap_in_array (dom : Json_dom) : Json_dom :=
  Json_array (snd (append_alias [] (Some dom))).

(** [make_mergeable]: arrays and objects are mergeable as they are, all
    other values are wrapped in an array. *)
Definition make_mergeable (candidate : Json_dom) : Json_dom :=
  match json_type candidate with
  | J_ARRAY | J_OBJECT => candidate
  | _ => wrap_in_array candidate
  end.

(** The loop of [Json_object::consume], for a given merge of the values of
    a duplicate key. *)
Definition consume_with (merge : Json_dom -> Json_dom -> option Json_dom) :=
  fix consume (this_map other_map : Json_object_map) {struct other_map}
    : bool * Json_object_map :=
    match other_map with
    | [] => (false, this_map)
    | (key, value) :: rest =>
      match map_find key this_map with
      | None =>
        let (err, this_map') := add_alias this_map key (Some value) in
        if err then (true, this_map') else consume this_map' rest
      | Some this_value =>
        match merge this_value value with
        | None => (true, this_map)
        | Some merged => consume (map_assign key merged this_map) rest
        end
      end
    end.

(** [merge_doms]; [None] is the NULL result.  In the branch where both
    sides are objects the right side is the argument itself, which
    [make_mergeable] returned unchanged. *)
Fixpoint merge_doms (left right : Json_dom) {struct right} : option Json_dom :=
  let left := make_mergeable left in
  let right' := make_mergeable right in
  let left_is_array := enum_json_type_eqb (json_type left) J_ARRAY in
  let right_is_array := enum_json_type_eqb (json_type right') J_ARRAY in
  if left_is_array || right_is_array then
    let left := if left_is_array then left else wrap_in_array left in
    let right' := if right_is_array then right' else wrap_in_array right' in
    match left, right' with
    | Json_array this_v, Json_array other_v =>
      let (err, v) := Json_array_consume this_v other_v in
      if err then None else Some (Json_array v)
    | _, _ => None
    end
  else
    match left, right with
    | Json_object this_map, Json_object other_map =>
      let (err, m) := consume_with merge_doms this_map other_map in
      if err then None else Some (Json_object m)
    | _, _ => None
    end.

(** [Json_object::consume]. *)
Definition Json_object_consume := consume_with merge_doms.

(** ** The wrapper

    A wrapper holds either a DOM or a binary value.  The record below is
    the DOM-holding state ([m_is_dom] is true); binary values belong to
    the binary reader, which is outside json_dom.cc, and are treated in
    the section on partial update. *)
Record Json_wrapper := mk_wrapper {
  m_dom_value : option Json_dom;
  m_dom_alias : bool
}.

(** [Json_wrapper::Json_wrapper(Json_dom *dom_value)]. *)
Definition Json_wrapper_of_dom (dom_value : option Json_dom) : Json_wrapper :=
  {| m_dom_value := dom_value;
     m_dom_alias := match dom_value with None => true | Some _ => false end |}.

(** [Json_wrapper::empty()]: a DOM wrapper without a DOM. *)
Definition empty (w : Json_wrapper) : bool :=
  match m_dom_value w with None => true | Some _ => false end.

(** [Json_wrapper::type()]. *)
Definition wrapper_type (w : Json_wrapper) : enum_json_type :=
  if empty w then J_ERROR
  else match m_dom_value w with
       | Some d => json_type d
       | None => J_ERROR
       end.

(** [Json_wrapper::length()]. *)
Definition wrapper_length (w : Json_wrapper) : nat :=
  if empty w then 0%nat
  else match m_dom_value w with
       | Some (Json_array m_v) => length m_v
       | Some (Json_object m_map) => cardinality m_map
       | _ => 1%nat
       end.

(** [Json_wrapper::depth()]. *)
Definition wrapper_depth (w : Json_wrapper) : nat :=
  if empty w then 0%nat
  else match m_dom_value w with
       | Some d => depth d
       | None => 0%nat
       end.

(** ** Comparison *)

Definition double_zero : double := mk_double false 0.

(** [compare_json_decimal_double]. *)
Definition compare_json_decimal_double (a : my_decimal) (b : double) : Z :=
  let a_is_zero := my_decimal_is_zero a in
  let a_is_negative := dec_sign a && negb a_is_zero in
  let b_is_negative := lt_op b double_zero in
  if negb (Bool.eqb a_is_negative b_is_negative) then
    (if a_is_negative then -1 else 1)
  else
    let b_is_zero := eq_op b double_zero in
    if a_is_zero then (if b_is_zero then 0 else -1)
    else if b_is_zero then 1
    else
      let (code, b_dec) := double2decimal b in
      match code with
      | E_DEC_OK => my_decimal_cmp a b_dec
      | E_DEC_OVERFLOW => if a_is_negative then 1 else -1
      | E_DEC_TRUNCATED =>
        let cmp := my_decimal_cmp a b_dec in
        if cmp =? 0 then (if a_is_negative then 1 else -1) else cmp
      | E_DEC_OTHER => 1
      end.

(** [compare_json_decimal_int]. *)
Definition compare_json_decimal_int (a : my_decimal) (b : Z) : Z :=
  if my_decimal_is_zero a then
    (if b =? 0 then 0 else if 0 <? b then -1 else 1)
  else if b =? 0 then
    (if dec_sign a then -1 else 1)
  else if negb (Bool.eqb (dec_sign a) (b <? 0)) then
    (if b <? 0 then 1 else -1)
  else
    my_decimal_cmp a (longlong2decimal b).

(** [compare_json_decimal_uint]. *)
Definition compare_json_decimal_uint (a : my_decimal) (b : Z) : Z :=
  if my_decimal_is_zero a then
    (if b =? 0 then 0 else -1)
  else if dec_sign a then -1
  else if b =? 0 then 1
  else my_decimal_cmp a (ulonglong2decimal b).

(** [compare_json_double_int]. *)
Definition compare_json_double_int (a : double) (b : Z) : Z :=
  let b_double := double_of_int b in
  if lt_op a b_double then -1
  else if lt_op b_double a then 1
  else - compare_json_decimal_double (longlong2decimal b) a.

(** [compare_json_double_uint]. *)
Definition compare_json_double_uint (a : double) (b : Z) : Z :=
  let b_double := double_of_int b in
  if lt_op a b_double then -1
  else if lt_op b_double a then 1
  else - compare_json_decimal_double (ulonglong2decimal b) a.

(** [compare_json_int_uint]. *)
Definition compare_json_int_uint (a b : Z) : Z :=
  if a <? 0 then -1 else compare_numbers a b.

(** [compare_json_strings]. *)
Definition compare_json_strings (str1 : list Z) (str1_len : nat)
                                (str2 : list Z) (str2_len : nat) : Z :=
  let cmp := memcmp str1 str2 (Nat.min str1_len str2_len) in
  if negb (cmp =? 0) then cmp
  else compare_numbers str1_len str2_len.

(** [type_comparison], one row per kind of the left operand. *)
Definition type_comparison : list (list Z) :=
  [ (* NULL *)      [0; -1; -1; -1; -1; -1; -1; -1; -1; -1; -1; -1; -1; -1; -1];
    (* DECIMAL *)   [1;  0;  0;  0;  0; -1; -1; -1; -1; -1; -1; -1; -1; -1; -1];
    (* INT *)       [1;  0;  0;  0;  0; -1; -1; -1; -1; -1; -1; -1; -1; -1; -1];
    (* UINT *)      [1;  0;  0;  0;  0; -1; -1; -1; -1; -1; -1; -1; -1; -1; -1];
    (* DOUBLE *)    [1;  0;  0;  0;  0; -1; -1; -1; -1; -1; -1; -1; -1; -1; -1];
    (* STRING *)    [1;  1;  1;  1;  1;  0; -1; -1; -1; -1; -1; -1; -1; -1; -1];
    (* OBJECT *)    [1;  1;  1;  1;  1;  1;  0; -1; -1; -1; -1; -1; -1; -1; -1];
    (* ARRAY *)     [1;  1;  1;  1;  1;  1;  1;  0; -1; -1; -1; -1; -1; -1; -1];
    (* BOOLEAN *)   [1;  1;  1;  1;  1;  1;  1;  1;  0; -1; -1; -1; -1; -1; -1];
    (* DATE *)      [1;  1;  1;  1;  1;  1;  1;  1;  1;  0; -1; -1; -1; -1; -1];
    (* TIME *)      [1;  1;  1;  1;  1;  1;  1;  1;  1;  1;  0; -1; -1; -1; -1];
    (* DATETIME *)  [1;  1;  1;  1;  1;  1;  1;  1;  1;  1;  1;  0;  0; -1; -1];
    (* TIMESTAMP *) [1;  1;  1;  1;  1;  1;  1;  1;  1;  1;  1;  0;  0; -1; -1];
    (* OPAQUE *)    [1;  1;  1;  1;  1;  1;  1;  1;  1;  1;  1;  1;  1;  0; -1];
    (* ERROR *)     [1;  1;  1;  1;  1;  1;  1;  1;  1;  1;  1;  1;  1;  1;  1] ].

(** [type_comparison[static_cast<int>(a)][static_cast<int>(b)]]. *)
Definition type_comparison_at (a b : enum_json_type) : Z :=
  nth (json_type_index b) (nth (json_type_index a) type_comparison []) 0.

(** The accessors of a DOM-holding wrapper.  Each one down-casts the DOM
    to the class it expects; on a DOM of another class the cast is
    undefined in the source and a default is returned here. *)
Definition get_int (d : Json_dom) : Z :=
  match d with Json_int i => i | _ => 0 end.
Definition get_uint (d : Json_dom) : Z :=
  match d with Json_uint u => u | _ => 0 end.
Definition get_double (d : Json_dom) : double :=
  match d with Json_double f => f | _ => double_zero end.
Definition get_decimal_data (d : Json_dom) : bool * my_decimal :=
  match d with
  | Json_decimal m => (false, m)
  | _ => (false, longlong2decimal 0)
  end.
Definition get_boolean (d : Json_dom) : bool :=
  match d with Json_boolean b => b | _ => false end.
Definition get_data (d : Json_dom) : list Z :=
  match json_type d with
  | J_STRING => match d with Json_string s => uchars s | _ => [] end
  | _ => match d with Json_opaque _ v => uchars v | _ => [] end
  end.
Definition get_data_length (d : Json_dom) : nat :=
  match json_type d with
  | J_STRING => match d with Json_string s => String.length s | _ => 0%nat end
  | _ => match d with Json_opaque _ v => String.length v | _ => 0%nat end
  end.
Definition field_type (d : Json_dom) : enum_field_types :=
  match d with Json_opaque t _ => t | _ => 0 end.
Definition get_datetime (d : Json_dom) : MYSQL_TIME :=
  match d with Json_datetime t _ => t | _ => 0 end.

(** [Json_datetime::to_packed], through [get_datetime_packed]. *)
Definition get_datetime_packed (d : Json_dom) : list Z :=
  int8store (TIME_to_longlong_packed (get_datetime d)).

(** The loop over the common prefix of two arrays: the first non-zero
    comparison, if any. *)
Definition compare_elements_with (cmp_fn : Json_dom -> Json_dom -> Z) :=
  fix loop (a b : list Json_dom) {struct a} : option Z :=
    match a, b with
    | x :: a', y :: b' =>
      let cmp := cmp_fn x y in
      if negb (cmp =? 0) then Some cmp else loop a' b'
    | _, _ => None
    end.

(** The loop over the members of two objects of equal size, driven by the
    iterator of the first. *)
Definition compare_members_with (cmp_fn : Json_dom -> Json_dom -> Z) :=
  fix loop (m1 m2 : Json_object_map) {struct m1} : Z :=
    match m1 with
    | [] => 0
    | (k1, v1) :: r1 =>
      match m2 with
      | [] => 0
      | (k2, v2) :: r2 =>
        let cmp := compare_json_strings (uchars k1) (String.length k1)
                                        (uchars k2) (String.length k2) in
        if negb (cmp =? 0) then cmp
        else
          let cmp := cmp_fn v1 v2 in
          if negb (cmp =? 0) then cmp else loop r1 r2
      end
    end.

(** [Json_wrapper::compare], on the DOMs of two non-empty wrappers. *)
Fixpoint compare (this other : Json_dom) {struct this} : Z :=
  let this_type := json_type this in
  let other_type := json_type other in
  let cmp := type_comparison_at this_type other_type in
  if negb (cmp =? 0) then cmp
  else
    match this_type with
    | J_ARRAY =>
      match this, other with
      | Json_array a, Json_array b =>
        let size_a := length a in
        let size_b := length b in
        match compare_elements_with compare a b with
        | Some cmp => cmp
        | None => compare_numbers size_a size_b
        end
      | _, _ => 1
      end
    | J_OBJECT =>
      match this, other with
      | Json_object m1, Json_object m2 =>
        let cmp := compare_numbers (cardinality m1) (cardinality m2) in
        if negb (cmp =? 0) then cmp
        else compare_members_with compare m1 m2
      | _, _ => 1
      end
    | J_STRING =>
      compare_json_strings (get_data this) (get_data_length this)
                           (get_data other) (get_data_length other)
    | J_INT =>
      match other_type with
      | J_INT => compare_numbers (get_int this) (get_int other)
      | J_UINT => compare_json_int_uint (get_int this) (get_uint other)
      | J_DOUBLE => - compare_json_double_int (get_double other) (get_int this)
      | J_DECIMAL =>
        let (err, b_dec) := get_decimal_data other in
        if err then 1 else - compare_json_decimal_int b_dec (get_int this)
      | _ => 1
      end
    | J_UINT =>
      match other_type with
      | J_UINT => compare_numbers (get_uint this) (get_uint other)
      | J_INT => - compare_json_int_uint (get_int other) (get_uint this)
      | J_DOUBLE => - compare_json_double_uint (get_double other) (get_uint this)
      | J_DECIMAL =>
        let (err, b_dec) := get_decimal_data other in
        if err then 1 else - compare_json_decimal_uint b_dec (get_uint this)
      | _ => 1
      end
    | J_DOUBLE =>
      match other_type with
      | J_DOUBLE => compare_numbers (get_double this) (get_double other)
      | J_INT => compare_json_double_int (get_double this) (get_int other)
      | J_UINT => compare_json_double_uint (get_double this) (get_uint other)
      | J_DECIMAL =>
        let (err, other_dec) := get_decimal_data other in
        if err then 1 else - compare_json_decimal_double other_dec (get_double this)
      | _ => 1
      end
    | J_DECIMAL =>
      let (err_a, a_dec) := get_decimal_data this in
      if err_a then 1
      else
        match other_type with
        | J_DECIMAL =>
          let (err_b, b_dec) := get_decimal_data other in
          if err_b then 1
          else if my_decimal_is_zero a_dec && my_decimal_is_zero b_dec then 0
          else my_decimal_cmp a_dec b_dec
        | J_INT => compare_json_decimal_int a_dec (get_int other)
        | J_UINT => compare_json_decimal_uint a_dec (get_uint other)
        | J_DOUBLE => compare_json_decimal_double a_dec (get_double other)
        | _ => 1
        end
    | J_BOOLEAN => compare_numbers (get_boolean this) (get_boolean other)
    | J_DATETIME | J_TIMESTAMP =>
      compare_numbers (TIME_to_longlong_packed (get_datetime this))
                      (TIME_to_longlong_packed (get_datetime other))
    | J_TIME | J_DATE =>
      compare_numbers (TIME_to_longlong_packed (get_datetime this))
                      (TIME_to_longlong_packed (get_datetime other))
    | J_OPAQUE =>
      let cmp := compare_numbers (field_type this) (field_type other) in
      if cmp =? 0 then
        compare_json_strings (get_data this) (get_data_length this)
                             (get_data other) (get_data_length other)
      else cmp
    | J_NULL => 0
    | J_ERROR => 1
    end.

(** [Json_wrapper::compare] on two wrappers that hold DOMs. *)
Definition wrapper_compare (this other : Json_wrapper) : Z :=
  match m_dom_value this, m_dom_value other with
  | Some a, Some b => compare a b
  | _, _ => type_comparison_at (wrapper_type this) (wrapper_type other)
  end.

(** ** Sort keys *)

(** [Wrapper_sort_key]: the memory at the caller's pointer, of which
    the first [m_length] bytes are the buffer, and the position of the
    next byte to write. *)
Record Wrapper_sort_key := mk_sort_key {
  m_buffer : list Z;
  m_length : nat;
  m_pos : nat
}.

Definition remaining (k : Wrapper_sort_key) : nat := (m_length k - m_pos k)%nat.

(** Store [bytes] at consecutive positions from [pos] of the memory
    [buf].  The memory may be longer than the buffer it begins with
    ([m_length] says where the buffer ends), and a store past the
    buffer changes the bytes after it; only a store past the end of the
    memory that is modelled is lost. *)
Fixpoint store_bytes (buf : list Z) (pos : nat) (bytes : list Z) : list Z :=
  match bytes with
  | [] => buf
  | b :: rest => store_bytes (<[pos := b]> buf) (S pos) rest
  end.

(** [Wrapper_sort_key::append]. *)
Definition key_append (k : Wrapper_sort_key) (ch : Z) : Wrapper_sort_key :=
  if Nat.ltb (m_pos k) (m_length k)
  then mk_sort_key (<[m_pos k := ch]> (m_buffer k)) (m_length k) (S (m_pos k))
  else k.

(** [Wrapper_sort_key::pad_till].  A target position before the current
    one makes [num_chars] negative, which the cast to [size_t] turns into
    a count larger than any buffer. *)
Definition pad_till (k : Wrapper_sort_key) (pad_character : Z) (pos : nat)
  : Wrapper_sort_key :=
  let num_chars :=
    if Nat.ltb pos (m_pos k) then remaining k
    else Nat.min (remaining k) (pos - m_pos k) in
  mk_sort_key (store_bytes (m_buffer k) (m_pos k) (repeat pad_character num_chars))
              (m_length k) (m_pos k + num_chars).

(** Modelled from the spec: [copy_integer<false>], which json_dom.cc
    calls and does not define.  The source is little-endian; the
    [to_length] most significant bytes are written most significant
    first ("big-endian"), and the sign bit of a signed value is inverted
    so that the bytes order as the integers do. *)
Definition copy_integer (to_length : nat) (from : list Z) (is_unsigned : bool)
  : list Z :=
  let from_length := length from in
  let taken := rev (skipn (from_length - Nat.min from_length to_length) from) in
  match taken with
  | [] => []
  | b :: rest => (if is_unsigned then b else Z.lxor b 128) :: rest
  end.

(** [Wrapper_sort_key::copy_int]. *)
Definition copy_int (k : Wrapper_sort_key) (target_length : nat) (from : list Z)
                    (is_unsigned : bool) : Wrapper_sort_key :=
  let to_length := Nat.min (remaining k) target_length in
  mk_sort_key
    (if Nat.eqb to_length 0 then m_buffer k
     else store_bytes (m_buffer k) (m_pos k) (copy_integer to_length from is_unsigned))
    (m_length k) (m_pos k + to_length).

Definition VARLEN_PREFIX : nat := 4.

(** [Wrapper_sort_key::append_str_and_len]. *)
Definition append_str_and_len (k : Wrapper_sort_key) (str : list Z) (len : nat)
  : Wrapper_sort_key :=
  let space_for_len :=
    if Nat.leb len (remaining k) then 0%nat
    else Nat.min VARLEN_PREFIX (remaining k) in
  let space_for_str := (remaining k - space_for_len)%nat in
  let copy_len := Nat.min len space_for_str in
  let k1 := mk_sort_key (store_bytes (m_buffer k) (m_pos k) (firstn copy_len str))
                        (m_length k) (m_pos k + copy_len) in
  if Nat.eqb space_for_str 0 then k1
  else copy_int k1 space_for_len (int4store (Z.of_nat len)) true.

(** The kind tags of the sort key. *)
Definition JSON_KEY_NULL : Z := 0.
Definition JSON_KEY_NUMBER_NEG : Z := 1.
Definition JSON_KEY_NUMBER_ZERO : Z := 2.
Definition JSON_KEY_NUMBER_POS : Z := 3.
Definition JSON_KEY_STRING : Z := 4.
Definition JSON_KEY_OBJECT : Z := 5.
Definition JSON_KEY_ARRAY : Z := 6.
Definition JSON_KEY_FALSE : Z := 7.
Definition JSON_KEY_TRUE : Z := 8.
Definition JSON_KEY_DATE : Z := 9.
Definition JSON_KEY_TIME : Z := 10.
Definition JSON_KEY_DATETIME : Z := 11.
Definition JSON_KEY_OPAQUE : Z := 12.

(** [MAX_NUMBER_SORT_PAD]: max(DBL_DIG, DECIMAL_MAX_POSSIBLE_PRECISION) +
    VARLEN_PREFIX + 3, with DBL_DIG = 15 and a decimal precision of at
    most 81 digits. *)
Definition MAX_NUMBER_SORT_PAD : nat := (Nat.max 15 81 + VARLEN_PREFIX + 3)%nat.

(** [std::find_if(first, last, p) - first] on a list. *)
Fixpoint find_index (p : Z -> bool) (l : list Z) : nat :=
  match l with
  | [] => 0%nat
  | c :: rest => if p c then 0%nat else S (find_index p rest)
  end.

Definition is_non_zero_digit (c : Z) : bool := (49 <=? c) && (c <=? 57).

(** [my_isdigit(&my_charset_numeric, c)]. *)
Definition my_isdigit (c : Z) : bool := (48 <=? c) && (c <=? 57).

(** The decimal digits of a non-negative number, least significant first;
    [fuel] bounds their count. *)
Fixpoint decimal_digits_rev (fuel : nat) (n : Z) : list Z :=
  match fuel with
  | O => []
  | S fuel' =>
    (48 + n mod 10) :: (if n / 10 =? 0 then [] else decimal_digits_rev fuel' (n / 10))
  end.

(** [longlong10_to_str(val, dst, radix)] for radix -10 (signed) and 10
    (unsigned): the decimal text of a 64-bit integer. *)
Definition longlong10_to_str (val : Z) : list Z :=
  if val <? 0 then 45 :: rev (decimal_digits_rev 20 (- val))
  else rev (decimal_digits_rev 20 val).

(** [my_strtoll(s, &endp, 10)] on the exponent of a number in scientific
    format: an optional sign and digits. *)
Definition my_strtoll (s : list Z) : Z :=
  let digits_value (l : list Z) :=
    fold_left (fun acc c => 10 * acc + (c - 48))
              (firstn (find_index (fun c => negb (my_isdigit c)) l) l) 0 in
  match s with
  | 45 :: rest => - digits_value rest
  | 43 :: rest => digits_value rest
  | _ => digits_value s
  end.

(** [make_json_numeric_sort_key].  [std::find] never returns a null
    pointer, so the branch of the source guarded by [!dec_point] is not
    taken; without a decimal point [dec_point] is [end_of_digits] and the
    "non-negative exponent" branch counts the digits. *)
Definition make_json_numeric_sort_key (from : list Z) (negative : bool)
                                      (to : Wrapper_sort_key) : Wrapper_sort_key :=
  let len := length from in
  let end_of_digits := find_index (Z.eqb 101) from in
  let first_significant_digit :=
    find_index is_non_zero_digit (firstn end_of_digits from) in
  if Nat.eqb first_significant_digit end_of_digits then
    key_append to JSON_KEY_NUMBER_ZERO
  else
    let exp :=
      if negb (Nat.eqb end_of_digits len) then
        my_strtoll (skipn (S end_of_digits) from)
      else
        let dec_point := find_index (Z.eqb 46) (firstn end_of_digits from) in
        if Nat.ltb first_significant_digit dec_point then
          Z.of_nat dec_point - Z.of_nat first_significant_digit - 1
        else
          Z.of_nat dec_point - Z.of_nat first_significant_digit in
    let to := if negative then key_append to JSON_KEY_NUMBER_NEG
              else key_append to JSON_KEY_NUMBER_POS in
    let exp := if negative then - exp else exp in
    let exp_buff := int2store exp in
    let to := copy_int to 2 exp_buff false in
    let to :=
      fold_left
        (fun to ch =>
           if my_isdigit ch then
             (if negative then key_append to ((57 - ch + 48) mod 256)
              else key_append to ch)
           else to)
        (skipn first_significant_digit (firstn end_of_digits from)) to in
    pad_till to (if negative then 57 else 48) MAX_NUMBER_SORT_PAD.

(** The warning that [make_sort_key] pushes for objects and arrays:
    ER_NOT_SUPPORTED_YET, "sorting of non-scalar JSON values". *)
Inductive warning := ER_NOT_SUPPORTED_YET_sorting_of_non_scalar.

(** [Json_wrapper::make_sort_key(to, to_length)] on the DOM of a wrapper:
    the buffer and position afterwards ([key.pos()] is the result of the
    source) and the warnings pushed. *)
Definition make_sort_key (this : Json_dom) (to : list Z) (to_length : nat)
  : Wrapper_sort_key * list warning :=
  let key := mk_sort_key to to_length 0 in
  let jtype := json_type this in
  match jtype with
  | J_NULL => (key_append key JSON_KEY_NULL, [])
  | J_DECIMAL =>
    let (err, dec) := get_decimal_data this in
    if err then (key, [])
    else (make_json_numeric_sort_key (my_decimal2string dec) (dec_sign dec) key, [])
  | J_INT =>
    let i := get_int this in
    (make_json_numeric_sort_key (longlong10_to_str i) (i <? 0) key, [])
  | J_UINT =>
    let ui := get_uint this in
    (make_json_numeric_sort_key (longlong10_to_str ui) false key, [])
  | J_DOUBLE =>
    let dbl := get_double this in
    (make_json_numeric_sort_key (my_gcvt dbl) (lt_op dbl double_zero) key, [])
  | J_STRING =>
    let key := key_append key JSON_KEY_STRING in
    (append_str_and_len key (get_data this) (get_data_length this), [])
  | J_OBJECT | J_ARRAY =>
    let key := key_append key (if enum_json_type_eqb jtype J_OBJECT
                               then JSON_KEY_OBJECT else JSON_KEY_ARRAY) in
    let len := int4store (Z.of_nat (wrapper_length (Json_wrapper_of_dom (Some this)))) in
    (copy_int key 4 len true, [ER_NOT_SUPPORTED_YET_sorting_of_non_scalar])
  | J_BOOLEAN =>
    (key_append key (if get_boolean this then JSON_KEY_TRUE else JSON_KEY_FALSE), [])
  | J_DATE | J_TIME | J_DATETIME | J_TIMESTAMP =>
    let key :=
      if enum_json_type_eqb jtype J_DATE then key_append key JSON_KEY_DATE
      else if enum_json_type_eqb jtype J_TIME then key_append key JSON_KEY_TIME
      else key_append key JSON_KEY_DATETIME in
    (copy_int key 8 (get_datetime_packed this) false, [])
  | J_OPAQUE =>
    let key := key_append key JSON_KEY_OPAQUE in
    let key := key_append key (field_type this mod 256) in
    (append_str_and_len key (get_data this) (get_data_length this), [])
  | J_ERROR => (key, [])
  end.

(** ** Hash keys *)

(** [Wrapper_hash_key::add_to_crc] on the 64-bit accumulator;
    [ha_checksum] is a 32-bit type, so the right shift is by 24. *)
Definition add_to_crc (m_crc : Z) (ch : Z) : Z :=
  ((Z.shiftl m_crc 8 mod 2 ^ 64 + ch mod 256) + Z.shiftr m_crc 24) mod 2 ^ 64.

Definition add_character (m_crc : Z) (ch : Z) : Z := add_to_crc m_crc ch.

(** [Wrapper_hash_key::add_string]. *)
Definition add_string (m_crc : Z) (str : list Z) (len : nat) : Z :=
  fold_left add_to_crc (firstn len str) m_crc.

(** [Wrapper_hash_key::add_integer]. *)
Definition add_integer (m_crc : Z) (ll : Z) : Z :=
  add_string m_crc (int8store ll) 8.

(** [Wrapper_hash_key::add_double]: -0.0 and +0.0 get the same key. *)
Definition add_double (m_crc : Z) (d : double) : Z :=
  if eq_op d double_zero then add_character m_crc 0
  else add_string m_crc (float8store d) 8.

(** [Json_wrapper::make_hash_key(hash_val)] on the DOM of a wrapper. *)
Fixpoint make_hash_key (this : Json_dom) (hash_val : Z) : Z :=
  let m_crc := hash_val in
  match json_type this with
  | J_NULL => add_character m_crc JSON_KEY_NULL
  | J_DECIMAL =>
    let (err, dec) := get_decimal_data this in
    if err then m_crc else add_double m_crc (decimal2double dec)
  | J_INT => add_double m_crc (double_of_int (get_int this))
  | J_UINT => add_double m_crc (double_of_int (get_uint this))
  | J_DOUBLE => add_double m_crc (get_double this)
  | J_STRING | J_OPAQUE => add_string m_crc (get_data this) (get_data_length this)
  | J_OBJECT =>
    match this with
    | Json_object m_map =>
      fold_left
        (fun m_crc pair =>
           let m_crc := add_string m_crc (uchars (fst pair)) (String.length (fst pair)) in
           let t := m_crc in
           add_integer m_crc (make_hash_key (snd pair) t))
        m_map (add_character m_crc JSON_KEY_OBJECT)
    | _ => m_crc
    end
  | J_ARRAY =>
    match this with
    | Json_array m_v =>
      fold_left
        (fun m_crc elt =>
           let t := m_crc in
           add_integer m_crc (make_hash_key elt t))
        m_v (add_character m_crc JSON_KEY_ARRAY)
    | _ => m_crc
    end
  | J_BOOLEAN =>
    add_character m_crc (if get_boolean this then JSON_KEY_TRUE else JSON_KEY_FALSE)
  | J_DATE | J_TIME | J_DATETIME | J_TIMESTAMP =>
    add_string m_crc (get_datetime_packed this) 8
  | J_ERROR => m_crc
  end.

(** ** The text parser's handler *)

(** Errors raised through [my_error]; [m_da] below is the diagnostics
    area of the session that receives them. *)
Inductive error_code := ER_JSON_DOCUMENT_TOO_DEEP.

(** [check_json_depth]: whether the depth exceeds the maximum, and the
    error raised if so. *)
Definition check_json_depth (depth : nat) : bool * list error_code :=
  if Nat.ltb JSON_DOCUMENT_MAX_DEPTH depth then (true, [ER_JSON_DOCUMENT_TOO_DEEP])
  else (false, []).

Inductive enum_state :=
  | expect_anything | expect_array_value | expect_object_key
  | expect_object_value | expect_eof.

(** Where an open container sits in its parent.  The source links a new
    container into its parent at once and fills it in place; here the
    contents of an open container are written back to that place when
    the container is closed.  [At_nowhere] is a container that
    [add_alias] did not insert because its key was taken: the source
    has deleted it and goes on using the pointer, so what the handlers
    return once such a container is read is not what the program does;
    [feed_defined] below tells the runs in which that never happens. *)
Inductive placement :=
  | At_root
  | At_index (i : nat)
  | At_key (k : string)
  | At_nowhere.

(** [Rapid_json_handler].  [m_open] is [m_current_element] followed by
    its chain of [parent()]s, each with its contents so far; it is empty
    when [m_current_element] is null. *)
Record Rapid_json_handler := mk_handler {
  m_state : enum_state;
  m_dom_as_built : option Json_dom;
  m_open : list (Json_dom * placement);
  m_depth : nat;
  m_key : string;
  m_da : list error_code
}.

Definition Rapid_json_handler_new : Rapid_json_handler :=
  mk_handler expect_anything None [] 0 EmptyString [].

(** [get_built_doc]. *)
Definition get_built_doc (h : Rapid_json_handler) : option Json_dom :=
  m_dom_as_built h.

(** [seeing_value]: whether parsing should continue, the handler
    afterwards, and the place the value was put at.  A value under a
    taken key is deleted by [add_alias], which reports no error: the
    place is [At_nowhere] then, and for a container the result is
    meaningful only as far as [feed_defined] holds. *)
Definition seeing_value (h : Rapid_json_handler) (value : option Json_dom)
  : bool * Rapid_json_handler * placement :=
  match value with
  | None => (false, h, At_nowhere)
  | Some v =>
    let (too_deep, errs) := check_json_depth (m_depth h + 1) in
    let h := mk_handler (m_state h) (m_dom_as_built h) (m_open h) (m_depth h)
                        (m_key h) (m_da h ++ errs) in
    if too_deep then (false, h, At_nowhere)
    else
      match m_state h with
      | expect_anything =>
        (true,
         mk_handler expect_eof (Some v) (m_open h) (m_depth h) (m_key h) (m_da h),
         At_root)
      | expect_array_value =>
        match m_open h with
        | (Json_array elems, pl) :: parents =>
          let (err, elems') := append_alias elems (Some v) in
          if err then (false, h, At_nowhere)
          else
            (true,
             mk_handler (m_state h) (m_dom_as_built h)
                        ((Json_array elems', pl) :: parents)
                        (m_depth h) (m_key h) (m_da h),
             At_index (length elems))
        | _ => (false, h, At_nowhere)
        end
      | expect_object_value =>
        match m_open h with
        | (Json_object members, pl) :: parents =>
          let inserted := snd (map_insert (m_key h) v members) in
          let (err, members') := add_alias members (m_key h) (Some v) in
          (negb err,
           mk_handler expect_object_key (m_dom_as_built h)
                      ((Json_object members', pl) :: parents)
                      (m_depth h) (m_key h) (m_da h),
           if inserted then At_key (m_key h) else At_nowhere)
        | _ => (false, h, At_nowhere)
        end
      | _ => (false, h, At_nowhere)
      end
  end.

(** The tail shared by [StartObject] and [StartArray]: the new container
    becomes the current element, also when [seeing_value] has deleted
    it (placed [At_nowhere]); [current_element_live] is false then. *)
Definition start_container (h : Rapid_json_handler) (container : Json_dom)
                           (state : enum_state) : bool * Rapid_json_handler :=
  let '(success, h, pl) := seeing_value h (Some container) in
  (success,
   mk_handler state (m_dom_as_built h) ((container, pl) :: m_open h)
              (S (m_depth h)) (m_key h) (m_da h)).

(** Write the contents of a closed container back to its place. *)
Definition write_back (content : Json_dom) (pl : placement) (parent : Json_dom)
  : Json_dom :=
  match pl, parent with
  | At_index i, Json_array elems => Json_array (<[i := content]> elems)
  | At_key k, Json_object members => Json_object (map_assign k content members)
  | _, _ => parent
  end.

(** [end_object_or_array]. *)
Definition end_object_or_array (h : Rapid_json_handler) : Rapid_json_handler :=
  let m_depth := Nat.pred (m_depth h) in
  match m_open h with
  | [] => mk_handler (m_state h) (m_dom_as_built h) [] m_depth (m_key h) (m_da h)
  | (content, pl) :: [] =>
    mk_handler expect_eof
               (match pl with At_root => Some content | _ => m_dom_as_built h end)
               [] m_depth (m_key h) (m_da h)
  | (content, pl) :: (parent, ppl) :: ancestors =>
    let parent := write_back content pl parent in
    mk_handler
      (if enum_json_type_eqb (json_type parent) J_OBJECT then expect_object_key
       else expect_array_value)
      (m_dom_as_built h) ((parent, ppl) :: ancestors) m_depth (m_key h) (m_da h)
  end.

(** The callbacks of rapidjson's handler concept, as events. *)
Inductive event :=
  | Null
  | Bool (b : bool)
  | Int (i : Z)
  | Uint (u : Z)
  | Int64 (i : Z)
  | Uint64 (ui64 : Z)
  | Double (d : parsed_double)
  | String (str : string)
  | StartObject
  | Key (str : string)
  | EndObject
  | StartArray
  | EndArray.

(** One callback of [Rapid_json_handler]: whether parsing should
    continue, and the handler afterwards.  ([RawNumber] converts its text
    with [my_strtod] and calls [Double]; it is the [Double] event here.) *)
Definition handle (h : Rapid_json_handler) (e : event) : bool * Rapid_json_handler :=
  match e with
  | Null => fst (seeing_value h (Some Json_null))
  | Bool b => fst (seeing_value h (Some (Json_boolean b)))
  | Int i => fst (seeing_value h (Some (Json_int i)))
  | Uint u => fst (seeing_value h (Some (Json_int u)))
  | Int64 i => fst (seeing_value h (Some (Json_int i)))
  | Uint64 ui64 => fst (seeing_value h (Some (Json_uint ui64)))
  | Double Non_finite => (false, h)
  | Double (Finite d) => fst (seeing_value h (Some (Json_double d)))
  | String str => fst (seeing_value h (Some (Json_string str)))
  | StartObject => start_container h (Json_object []) expect_object_key
  | EndObject => (true, end_object_or_array h)
  | StartArray => start_container h (Json_array []) expect_array_value
  | EndArray => (true, end_object_or_array h)
  | Key str =>
    let (too_deep, errs) := check_json_depth (m_depth h + 1) in
    let h := mk_handler (m_state h) (m_dom_as_built h) (m_open h) (m_depth h)
                        (m_key h) (m_da h ++ errs) in
    if too_deep then (false, h)
    else (true, mk_handler expect_object_value (m_dom_as_built h) (m_open h)
                           (m_depth h) str (m_da h))
  end.

(** The reader hands the events of a text to the handler in order and
    stops at the first callback that returns false: the number of events
    accepted, whether all were, and the handler afterwards. *)
Fixpoint feed (h : Rapid_json_handler) (events : list event)
  : nat * bool * Rapid_json_handler :=
  match events with
  | [] => (0%nat, true, h)
  | e :: rest =>
    let (continue, h') := handle h e in
    if continue then
      let '(n, ok, h'') := feed h' rest in (S n, ok, h'')
    else (0%nat, false, h')
  end.

(** *** Where the callbacks are defined

    [m_current_element] is a raw pointer.  A container whose key is
    taken is deleted by [add_alias], and [StartObject] and [StartArray]
    make the deleted object the current element all the same: the
    handlers above carry it as an open container placed [At_nowhere].
    The next callback that reads through the pointer has no defined
    behaviour in the source, whatever the functions above return
    there. *)

(** Whether [m_current_element] points to a live container: it is not
    null, and the container was not deleted when it was opened. *)
Definition current_element_live (h : Rapid_json_handler) : bool :=
  match m_open h with
  | [] => false
  | (_, At_nowhere) :: _ => false
  | _ :: _ => true
  end.

(** Whether the callback for [e] reads through [m_current_element]:
    [seeing_value] does so past its depth check, to append to the open
    array or to add to the open object, and [end_object_or_array] asks
    the current element for its parent.  [Key] only stores the key. *)
Definition reads_current_element (h : Rapid_json_handler) (e : event) : bool :=
  match e with
  | EndObject | EndArray => true
  | Key _ | Double Non_finite => false
  | _ =>
    negb (fst (check_json_depth (m_depth h + 1))) &&
    match m_state h with
    | expect_array_value | expect_object_value => true
    | _ => false
    end
  end.

(** Whether every callback that [feed] makes on [events] is defined:
    none reads through a null or dangling [m_current_element]. *)
Fixpoint feed_defined (h : Rapid_json_handler) (events : list event) : bool :=
  match events with
  | [] => true
  | e :: rest =>
    (negb (reads_current_element h e) || current_element_live h) &&
    (let (continue, h') := handle h e in
     if continue then feed_defined h' rest else true)
  end.

(** The events of a document: what the reader emits on its text. *)
Fixpoint events_of (d : Json_dom) : list event :=
  match d with
  | Json_null => [Null]
  | Json_boolean b => [Bool b]
  | Json_int i => [Int64 i]
  | Json_uint u => [Uint64 u]
  | Json_double f => [Double (Finite f)]
  | Json_string s => [String s]
  | Json_array m_v => StartArray :: flat_map events_of m_v ++ [EndArray]
  | Json_object m_map =>
    StartObject :: flat_map (fun kv => Key (fst kv) :: events_of (snd kv)) m_map
                ++ [EndObject]
  | Json_decimal _ | Json_opaque _ _ | Json_datetime _ _ => []
  end.

(** ** The reader

    Modelled from the spec: the push parser (rapidjson's [Reader]) that
    [Json_dom::parse] drives is not part of json_dom.cc.  The model
    covers the texts made of arrays, objects, strings without escapes,
    integers of at most 64 bits and the three literals; it calls the
    handler token by token, stops at the first callback that returns
    false, and reports the byte offset of the token it stopped at. *)
Inductive token :=
  | T_lbracket | T_rbracket | T_lbrace | T_rbrace | T_comma | T_colon
  | T_string (s : string)
  | T_number (negative : bool) (n : Z)
  | T_true | T_false | T_null
  | T_bad.

Inductive lexer_state :=
  | Lx_idle
  | Lx_string (start : nat) (acc : list ascii)
  | Lx_number (start : nat) (negative : bool) (acc : Z).

Definition digit_of_ascii (c : ascii) : option Z :=
  let n := uchar_of_ascii c in
  if (48 <=? n) && (n <=? 57) then Some (n - 48) else None.

Definition is_space (c : ascii) : bool :=
  let n := uchar_of_ascii c in
  (n =? 32) || (n =? 9) || (n =? 10) || (n =? 13).

(** The token of a structural character. *)
Definition structural (c : ascii) : option token :=
  match uchar_of_ascii c with
  | 91 => Some T_lbracket
  | 93 => Some T_rbracket
  | 123 => Some T_lbrace
  | 125 => Some T_rbrace
  | 44 => Some T_comma
  | 58 => Some T_colon
  | _ => None
  end.

Fixpoint tokenize (text : list ascii) (off : nat) (st : lexer_state)
  : list (nat * token) :=
  match text with
  | [] =>
    match st with
    | Lx_idle => []
    | Lx_string start _ => [(start, T_bad)]
    | Lx_number start negative acc => [(start, T_number negative acc)]
    end
  | c :: rest =>
    match st with
    | Lx_string start acc =>
      if uchar_of_ascii c =? 34
      then (start, T_string (string_of_list_ascii (rev acc))) :: tokenize rest (S off) Lx_idle
      else if uchar_of_ascii c =? 92 then [(off, T_bad)]
      else tokenize rest (S off) (Lx_string start (c :: acc))
    | Lx_number start negative acc =>
      match digit_of_ascii c with
      | Some dgt => tokenize rest (S off) (Lx_number start negative (10 * acc + dgt))
      | None =>
        (start, T_number negative acc) ::
        (if is_space c then tokenize rest (S off) Lx_idle
         else match structural c with
              | Some t => (off, t) :: tokenize rest (S off) Lx_idle
              | None => [(off, T_bad)]
              end)
      end
    | Lx_idle =>
      if is_space c then tokenize rest (S off) Lx_idle
      else
        match structural c with
        | Some t => (off, t) :: tokenize rest (S off) Lx_idle
        | None =>
          match digit_of_ascii c with
          | Some dgt => tokenize rest (S off) (Lx_number off false dgt)
          | None =>
            if uchar_of_ascii c =? 34 then tokenize rest (S off) (Lx_string off [])
            else if uchar_of_ascii c =? 45 then tokenize rest (S off) (Lx_number off true 0)
            else
              match c :: rest with
              | "t" :: "r" :: "u" :: "e" :: rest' =>
                (off, T_true) :: tokenize rest' (off + 4) Lx_idle
              | "f" :: "a" :: "l" :: "s" :: "e" :: rest' =>
                (off, T_false) :: tokenize rest' (off + 5) Lx_idle
              | "n" :: "u" :: "l" :: "l" :: rest' =>
                (off, T_null) :: tokenize rest' (off + 4) Lx_idle
              | _ => [(off, T_bad)]
              end%char
          end
        end
    end
  end.

(** What the grammar allows next. *)
Inductive expecting :=
  | X_value (allow_close : bool)
  | X_key (allow_close : bool)
  | X_colon
  | X_comma_or_close
  | X_end.

Inductive parse_result :=
  | Parse_ok (h : Rapid_json_handler)
  | Parse_terminated (offset : nat) (h : Rapid_json_handler)
  | Parse_syntax_error (offset : nat) (h : Rapid_json_handler).

(** The event of a number token; with [numbers_as_double] every number
    reaches the handler as a double. *)
Definition event_of_number (numbers_as_double negative : bool) (n : Z) : option event :=
  let v := if negative then - n else n in
  if numbers_as_double then
    (if n <? 2 ^ 64 then Some (Double (Finite (double_of_int v))) else None)
  else if negative then
    (if n <=? 2 ^ 31 then Some (Int v)
     else if n <=? 2 ^ 63 then Some (Int64 v) else None)
  else
    (if n <? 2 ^ 32 then Some (Uint v)
     else if n <? 2 ^ 64 then Some (Uint64 v) else None).

Definition scalar_event (numbers_as_double : bool) (t : token) : option event :=
  match t with
  | T_string s => Some (String s)
  | T_number negative n => event_of_number numbers_as_double negative n
  | T_true => Some (Bool true)
  | T_false => Some (Bool false)
  | T_null => Some Null
  | _ => None
  end.

Definition after_value (stack : list bool) : expecting :=
  match stack with [] => X_end | _ => X_comma_or_close end.

(** [stack] holds, innermost first, whether each open container is an
    object. *)
Fixpoint drive (numbers_as_double : bool) (toks : list (nat * token)) (end_off : nat)
               (stack : list bool) (exp : expecting) (h : Rapid_json_handler)
  : parse_result :=
  match toks with
  | [] =>
    match exp with
    | X_end => Parse_ok h
    | _ => Parse_syntax_error end_off h
    end
  | (off, t) :: rest =>
    let call (e : event) (stack : list bool) (exp : expecting) :=
      let (continue, h') := handle h e in
      if continue then drive numbers_as_double rest end_off stack exp h'
      else Parse_terminated off h' in
    let close (is_object : bool) :=
      match stack with
      | top :: below =>
        if Bool.eqb top is_object
        then call (if is_object then EndObject else EndArray) below (after_value below)
        else Parse_syntax_error off h
      | [] => Parse_syntax_error off h
      end in
    match exp with
    | X_value allow_close =>
      match t with
      | T_lbracket => call StartArray (false :: stack) (X_value true)
      | T_lbrace => call StartObject (true :: stack) (X_key true)
      | T_rbracket => if allow_close then close false else Parse_syntax_error off h
      | _ =>
        match scalar_event numbers_as_double t with
        | Some e => call e stack (after_value stack)
        | None => Parse_syntax_error off h
        end
      end
    | X_key allow_close =>
      match t with
      | T_string s => call (Key s) stack X_colon
      | T_rbrace => if allow_close then close true else Parse_syntax_error off h
      | _ => Parse_syntax_error off h
      end
    | X_colon =>
      match t with
      | T_colon => drive numbers_as_double rest end_off stack (X_value false) h
      | _ => Parse_syntax_error off h
      end
    | X_comma_or_close =>
      match t with
      | T_comma =>
        drive numbers_as_double rest end_off stack
              (match stack with true :: _ => X_key false | _ => X_value false end) h
      | T_rbracket => close false
      | T_rbrace => close true
      | _ => Parse_syntax_error off h
      end
    | X_end => Parse_syntax_error off h
    end
  end.

(** [reader.Parse(ss, handler)]. *)
Definition Reader_Parse (numbers_as_double : bool) (text : string)
                        (h : Rapid_json_handler) : parse_result :=
  drive numbers_as_double (tokenize (list_ascii_of_string text) 0 Lx_idle)
        (String.length text) [] (X_value false) h.

(** The outcome of [Json_dom::parse(text, length, syntaxerr, offset,
    handle_numbers_as_double)]: the DOM or NULL, the error offset and
    whether a syntax error message was set, and the errors raised on the
    way. *)
Record parse_outcome := mk_outcome {
  parsed_dom : option Json_dom;
  error_offset : option nat;
  syntaxerr : bool;
  raised : list error_code
}.

Definition Json_dom_parse (text : string) (handle_numbers_as_double : bool)
  : parse_outcome :=
  match Reader_Parse handle_numbers_as_double text Rapid_json_handler_new with
  | Parse_ok h => mk_outcome (get_built_doc h) None false (m_da h)
  | Parse_terminated off h => mk_outcome None (Some off) true (m_da h)
  | Parse_syntax_error off h => mk_outcome None (Some off) true (m_da h)
  end.

(** ** Partial update of a binary value *)

Section Partial_update.

(** The binary reader ([json_binary::Value] and the functions around it)
    is used by json_dom.cc and defined elsewhere; it is a parameter
    here. *)
Context {Value : Type}.

(** A wrapper in either state: over a DOM, or over a binary value
    ([m_is_dom] false). *)
Inductive any_wrapper :=
  | Dom_wrapper (w : Json_wrapper)
  | Binary_wrapper (m_value : Value).

Context (type : Value -> json_binary.enum_type)
        (value_field_type : Value -> enum_field_types)
        (element_count : Value -> nat)
        (element : Value -> nat -> Value)
        (lookup : Value -> string -> Value)
        (lookup_index : Value -> string -> nat)
        (large_format : Value -> bool).

(** [space_needed(thd, value, large, &needed)]: the bytes needed, or an
    error. *)
Context (space_needed : any_wrapper -> bool -> option nat).

(** [parent.has_space(pos, needed, &offset)]: the offset of the free
    space if there is enough of it. *)
Context (has_space : Value -> nat -> nat -> option nat).

(** [value.raw_binary(thd, buf)]: the bytes appended to [buf], or an
    error. *)
Context (raw_binary : Value -> option (list Z)).

(** [parent.update_in_shadow(field, pos, new_value, data_offset, needed,
    original, destination)] receives the destination as a [char *]: it
    stores bytes at offsets of the destination buffer, whose length it
    cannot change.  The stores it performs, given the contents of the
    original and of the destination, or an error. *)
Context (update_in_shadow :
           Value -> nat -> any_wrapper -> nat -> nat -> list Z -> list Z ->
           option (list (nat * Z))).

(** [parse_binary(data, length)]. *)
Context (parse_binary : list Z -> Value).

(** [bjson2json]. *)
Definition bjson2json (bintype : json_binary.enum_type) : enum_json_type :=
  match bintype with
  | json_binary.STRING => J_STRING
  | json_binary.INT => J_INT
  | json_binary.UINT => J_UINT
  | json_binary.DOUBLE => J_DOUBLE
  | json_binary.LITERAL_TRUE | json_binary.LITERAL_FALSE => J_BOOLEAN
  | json_binary.LITERAL_NULL => J_NULL
  | json_binary.ARRAY => J_ARRAY
  | json_binary.OBJECT => J_OBJECT
  | json_binary.ERROR => J_ERROR
  | json_binary.OPAQUE => J_OPAQUE
  end.

(** [Json_wrapper::type()] of a wrapper over a binary value. *)
Definition binary_type (m_value : Value) : enum_json_type :=
  let typ := type m_value in
  match typ with
  | json_binary.OPAQUE =>
    let ftyp := value_field_type m_value in
    if ftyp =? MYSQL_TYPE_NEWDECIMAL then J_DECIMAL
    else if ftyp =? MYSQL_TYPE_DATETIME then J_DATETIME
    else if ftyp =? MYSQL_TYPE_DATE then J_DATE
    else if ftyp =? MYSQL_TYPE_TIME then J_TIME
    else if ftyp =? MYSQL_TYPE_TIMESTAMP then J_TIMESTAMP
    else bjson2json typ
  | _ => bjson2json typ
  end.

(** [Json_wrapper::length()] of a wrapper over a binary value. *)
Definition binary_length (m_value : Value) : nat :=
  match type m_value with
  | json_binary.ARRAY | json_binary.OBJECT => element_count m_value
  | _ => 1%nat
  end.

(** [is_seek_done]. *)
Definition is_seek_done {T : Type} (hits : list T) (only_need_one : bool) : bool :=
  only_need_one && Nat.ltb 0 (length hits).

(** [Json_wrapper::seek_no_ellipsis] on a binary value.  [legs] are the
    legs of the path from [current_leg] up to [last_leg]; the result is
    the error flag and the hits. *)
Fixpoint seek_legs (auto_wrap only_need_one : bool) (legs : list Json_path_leg)
                   (this : Value) (hits : list Value) {struct legs}
  : bool * list Value :=
  match legs with
  | [] => (false, hits ++ [this])
  | path_leg :: rest =>
    let jtype := binary_type this in
    if auto_wrap && negb (enum_json_type_eqb jtype J_ARRAY) && is_autowrap path_leg
    then seek_legs auto_wrap only_need_one rest this hits
    else
      let each (cells : list nat) :=
        (fix loop (cells : list nat) (hits : list Value) : bool * list Value :=
           match cells with
           | [] => (false, hits)
           | idx :: more =>
             if is_seek_done hits only_need_one then (false, hits)
             else
               let (err, hits') :=
                 seek_legs auto_wrap only_need_one rest (element this idx) hits in
               if err then (true, hits') else loop more hits'
           end) cells hits in
      match m_leg_type path_leg with
      | jpl_member =>
        match jtype with
        | J_OBJECT =>
          let member := lookup this (m_member_name path_leg) in
          if negb (enum_json_type_eqb (binary_type member) J_ERROR)
          then seek_legs auto_wrap only_need_one rest member hits
          else (false, hits)
        | _ => (false, hits)
        end
      | jpl_member_wildcard =>
        match jtype with
        | J_OBJECT => each (seq 0 (element_count this))
        | _ => (false, hits)
        end
      | jpl_array_cell =>
        if enum_json_type_eqb jtype J_ARRAY then
          let idx := first_array_index path_leg (binary_length this) in
          if within_bounds idx
          then seek_legs auto_wrap only_need_one rest (element this (position idx)) hits
          else (false, hits)
        else (false, hits)
      | jpl_array_range | jpl_array_cell_wildcard =>
        if enum_json_type_eqb jtype J_ARRAY then
          let (m_begin, m_end) := get_array_range path_leg (binary_length this) in
          each (seq m_begin (m_end - m_begin))
        else (false, hits)
      | jpl_ellipsis => (true, hits)
      end
  end.

Definition seek_no_ellipsis (this : Value) (path : list Json_path_leg)
                            (hits : list Value) (current_leg last_leg : nat)
                            (auto_wrap only_need_one : bool) : bool * list Value :=
  seek_legs auto_wrap only_need_one
            (firstn (last_leg - current_leg) (skipn current_leg path)) this hits.

(** Perform the stores of [update_in_shadow] on the destination
    buffer. *)
Definition apply_stores (stores : list (nat * Z)) (destination : list Z) : list Z :=
  fold_left (fun buf st => <[fst st := snd st]> buf) stores destination.

(** The outcome of [attempt_binary_update]: an error (the function
    returns true), or the flags it reports together with the result
    buffer and the binary value of the wrapper afterwards. *)
Inductive update_outcome :=
  | Update_error
  | Update_done (partially_updated replaced_path : bool)
                (result : list Z) (m_value : Value).

(** The part of [attempt_binary_update] after the element to replace has
    been found. *)
Definition update_element (m_value : Value) (field : list Z) (parent : Value)
                          (element_pos : nat) (new_value : any_wrapper)
                          (result : list Z) : update_outcome :=
  match space_needed new_value (large_format parent) with
  | None => Update_error
  | Some needed =>
    let space :=
      if Nat.ltb 0 needed then has_space parent element_pos needed else Some 0%nat in
    match space with
    | None => Update_done false false result m_value
    | Some data_offset =>
      let filled :=
        match result with
        | [] =>
          match raw_binary m_value with
          | None => None
          | Some bytes => Some (result ++ bytes, field)
          end
        | _ => Some (result, result)
        end in
      match filled with
      | None => Update_error
      | Some (result, original) =>
        match update_in_shadow parent element_pos new_value data_offset needed
                               original result with
        | None => Update_error
        | Some stores =>
          let result := apply_stores stores result in
          Update_done true true result (parse_binary result)
        end
      end
    end
  end.

(** [Json_wrapper::attempt_binary_update] on a wrapper over the binary
    value [m_value]; [field] is the binary that [field->get_binary()]
    returns. *)
Definition attempt_binary_update (m_value : Value) (field : list Z)
                                 (path : list Json_path_leg)
                                 (new_value : any_wrapper) (replace : bool)
                                 (result : list Z) : update_outcome :=
  let leg_count := length path in
  if Nat.eqb leg_count 0 then Update_done false false result m_value
  else
    let (err, hits) :=
      seek_no_ellipsis m_value path [] 0 (leg_count - 1) false true in
    if err then Update_error
    else
      match hits, nth_error path (leg_count - 1) with
      | [], _ => Update_done true false result m_value
      | _ :: _, None => Update_error
      | parent :: _, Some last_leg =>
        match type parent with
        | json_binary.OBJECT =>
          match m_leg_type last_leg with
          | jpl_member =>
            let element_pos := lookup_index parent (m_member_name last_leg) in
            if Nat.eqb element_pos (element_count parent)
            then Update_done replace false result m_value
            else update_element m_value field parent element_pos new_value result
          | _ => Update_done replace false result m_value
          end
        | json_binary.ARRAY =>
          match m_leg_type last_leg with
          | jpl_array_cell =>
            let idx := first_array_index last_leg (element_count parent) in
            if negb (within_bounds idx)
            then Update_done replace false result m_value
            else update_element m_value field parent (position idx) new_value result
          | _ => Update_done true false result m_value
          end
        | _ =>
          Update_done
            (replace ||
             match m_leg_type last_leg with jpl_array_cell => false | _ => true end)
            false result m_value
        end
      end.

End Partial_update.

End Dom.

(** ** Instances used to exercise the definitions *)

(** A decimal library restricted to integers. *)
#[export] Instance Integer_decimals : Decimal_library := {|
  my_decimal := Z;
  dec_value := inject_Z;
  dec_sign := fun a => a <? 0;
  my_decimal_is_zero := fun a => a =? 0;
  my_decimal_cmp := fun a b => Z_of_comparison (a ?= b);
  longlong2decimal := fun b => b;
  ulonglong2decimal := fun b => b;
  double2decimal := fun d =>
    if d_scaled d mod 2 ^ 1074 =? 0 then (E_DEC_OK, d_scaled d / 2 ^ 1074)
    else (E_DEC_TRUNCATED, Z.quot (d_scaled d) (2 ^ 1074));
  decimal2double := double_of_int;
  my_decimal2string := longlong10_to_str
|}.

(** A number formatter that prints the integer part of a double. *)
#[export] Instance Integer_part_gcvt : String_library := {|
  my_gcvt := fun d => longlong10_to_str (Z.quot (d_scaled d) (2 ^ 1074))
|}.

(** A binary reader for one format: an array of one-byte unsigned
    integers, each stored inline in its entry. *)
Inductive byte_array_value :=
  | Byte_array (bytes : list Z)
  | Byte_element (b : Z)
  | Byte_error.

Definition byte_array_type (v : byte_array_value) : json_binary.enum_type :=
  match v with
  | Byte_array _ => json_binary.ARRAY
  | Byte_element _ => json_binary.UINT
  | Byte_error => json_binary.ERROR
  end.

Definition byte_array_count (v : byte_array_value) : nat :=
  match v with Byte_array bytes => length bytes | _ => 0%nat end.

Definition byte_array_element (v : byte_array_value) (i : nat) : byte_array_value :=
  match v with
  | Byte_array bytes =>
    match nth_error bytes i with Some b => Byte_element b | None => Byte_error end
  | _ => Byte_error
  end.

Definition byte_array_raw (v : byte_array_value) : option (list Z) :=
  match v with
  | Byte_array bytes => Some bytes
  | Byte_element b => Some [b]
  | Byte_error => None
  end.

(** The new value must be a DOM integer below 256; it needs no space
    outside its entry. *)
Definition byte_of_new_value (new_value : @any_wrapper Integer_decimals byte_array_value)
  : option Z :=
  match new_value with
  | Dom_wrapper w =>
    match m_dom_value w with
    | Some (Json_uint u) => if (0 <=? u) && (u <? 256) then Some u else None
    | _ => None
    end
  | Binary_wrapper (Byte_element b) => Some b
  | Binary_wrapper _ => None
  end.

Definition byte_array_space_needed
    (new_value : @any_wrapper Integer_decimals byte_array_value) (large : bool)
  : option nat :=
  match byte_of_new_value new_value with
  | Some _ => Some 0%nat
  | None => Some 4%nat
  end.

Definition byte_array_update
    (parent : byte_array_value) (pos : nat)
    (new_value : @any_wrapper Integer_decimals byte_array_value)
    (data_offset needed : nat) (original destination : list Z)
  : option (list (nat * Z)) :=
  match byte_of_new_value new_value with
  | Some b => Some [(pos, b)]
  | None => None
  end.

(** * Properties *)

(** ** memcmp and the key comparator *)

Lemma memcmp_antisym (n : nat) : forall s1 s2, memcmp s1 s2 n = - memcmp s2 s1 n.
Proof.
  induction n as [|n IH]; intros s1 s2; simpl; [reflexivity|].
  destruct s1 as [|c1 t1], s2 as [|c2 t2]; try reflexivity.
  rewrite (Z.eqb_sym c2 c1).
  destruct (Z.eqb_spec c1 c2); [apply IH | lia].
Qed.

Lemma memcmp_refl (n : nat) : forall s, memcmp s s n = 0.
Proof.
  induction n as [|n IH]; intros [|c t]; simpl; try reflexivity.
  rewrite Z.eqb_refl. apply IH.
Qed.

Lemma memcmp_eq (n : nat) : forall s1 s2,
  length s1 = n -> length s2 = n -> memcmp s1 s2 n = 0 -> s1 = s2.
Proof.
  induction n as [|n IH]; intros [|c1 t1] [|c2 t2] H1 H2; simpl in *; try discriminate;
    [reflexivity|].
  destruct (Z.eqb_spec c1 c2) as [->|Hne]; intros H; [|lia].
  f_equal. apply IH; congruence.
Qed.

Lemma memcmp_trans (n : nat) : forall s1 s2 s3,
  length s1 = n -> length s2 = n -> length s3 = n ->
  memcmp s1 s2 n < 0 -> memcmp s2 s3 n < 0 -> memcmp s1 s3 n < 0.
Proof.
  induction n as [|n IH]; intros [|c1 t1] [|c2 t2] [|c3 t3] H1 H2 H3;
    simpl in *; try discriminate; try lia.
  injection H1 as H1. injection H2 as H2. injection H3 as H3.
  destruct (Z.eqb_spec c1 c2), (Z.eqb_spec c2 c3), (Z.eqb_spec c1 c3);
    intros; subst; try lia.
  eapply IH; eauto.
Qed.

Lemma uchar_of_ascii_inj (a b : ascii) : uchar_of_ascii a = uchar_of_ascii b -> a = b.
Proof.
  unfold uchar_of_ascii. intros H. apply N2Z.inj in H.
  rewrite <- (ascii_N_embedding a), <- (ascii_N_embedding b). congruence.
Qed.

Lemma uchar_range (a : ascii) : 0 <= uchar_of_ascii a < 256.
Proof.
  unfold uchar_of_ascii. pose proof (N_ascii_bounded a). lia.
Qed.

Lemma uchars_inj (s1 s2 : string) : uchars s1 = uchars s2 -> s1 = s2.
Proof.
  unfold uchars. revert s2.
  induction s1 as [|c1 s1 IH]; intros [|c2 s2]; simpl; intros H; try discriminate;
    [reflexivity|].
  injection H as Hc Hs. apply uchar_of_ascii_inj in Hc. f_equal; auto.
Qed.

Lemma uchars_length (s : string) : length (uchars s) = String.length s.
Proof.
  unfold uchars. rewrite length_map.
  induction s; simpl; congruence.
Qed.

Lemma Json_key_comparator_irrefl (k : string) : Json_key_comparator k k = false.
Proof.
  unfold Json_key_comparator. rewrite Nat.eqb_refl. simpl.
  rewrite memcmp_refl. reflexivity.
Qed.

Lemma Json_key_comparator_trans (k1 k2 k3 : string) :
  Json_key_comparator k1 k2 = true -> Json_key_comparator k2 k3 = true ->
  Json_key_comparator k1 k3 = true.
Proof.
  unfold Json_key_comparator.
  destruct (Nat.eqb_spec (String.length k1) (String.length k2)) as [E12|N12];
  destruct (Nat.eqb_spec (String.length k2) (String.length k3)) as [E23|N23];
  destruct (Nat.eqb_spec (String.length k1) (String.length k3)) as [E13|N13];
  simpl; rewrite ?Nat.ltb_lt, ?Z.ltb_lt; try lia.
  intros H1 H2. rewrite <- E12 in H2.
  apply (memcmp_trans _ _ (uchars k2)); rewrite ?uchars_length; auto; lia.
Qed.

Lemma key_equiv_eq (k1 k2 : string) : key_equiv k1 k2 = true <-> k1 = k2.
Proof.
  split.
  - unfold key_equiv, Json_key_comparator.
    destruct (Nat.eqb_spec (String.length k1) (String.length k2)) as [E|N];
      rewrite (Nat.eqb_sym (String.length k2)); simpl.
    + rewrite (proj2 (Nat.eqb_eq _ _) E). simpl.
      rewrite andb_true_iff, !negb_true_iff, !Z.ltb_ge.
      rewrite (memcmp_antisym _ (uchars k2)), <- E. intros [H1 H2].
      apply uchars_inj.
      apply (memcmp_eq (String.length k1)); rewrite ?uchars_length; lia.
    + rewrite (proj2 (Nat.eqb_neq _ _) N). simpl.
      rewrite andb_true_iff, !negb_true_iff, !Nat.ltb_ge. lia.
  - intros ->. unfold key_equiv. rewrite Json_key_comparator_irrefl. reflexivity.
Qed.

Lemma Json_key_comparator_asym (k1 k2 : string) :
  Json_key_comparator k1 k2 = true -> Json_key_comparator k2 k1 = false.
Proof.
  intros H. destruct (Json_key_comparator k2 k1) eqn:E; [|reflexivity].
  pose proof (Json_key_comparator_trans _ _ _ H E) as Hkk.
  rewrite Json_key_comparator_irrefl in Hkk. discriminate.
Qed.

Lemma key_equiv_refl (k : string) : key_equiv k k = true.
Proof. apply key_equiv_eq. reflexivity. Qed.

Lemma key_equiv_neq (k1 k2 : string) : k1 <> k2 -> key_equiv k1 k2 = false.
Proof.
  intros H. destruct (key_equiv k1 k2) eqn:E; [|reflexivity].
  apply key_equiv_eq in E. contradiction.
Qed.

(** ** The object map *)

Section Object_map_properties.
Context {A : Type}.
Implicit Types (m : object_map A) (k key : string) (v value : A).

(** All keys of a map are above [k]. *)
Definition keys_above k m : Prop :=
  Forall (fun kv => Json_key_comparator k (fst kv) = true) m.

Lemma map_sorted_step k v k' v' m :
  map_sorted ((k, v) :: (k', v') :: m) =
  Json_key_comparator k k' && map_sorted ((k', v') :: m).
Proof. reflexivity. Qed.

Lemma map_sorted_cons k v m :
  map_sorted ((k, v) :: m) = true -> keys_above k m /\ map_sorted m = true.
Proof.
  revert k v. induction m as [|[k' v'] m IH]; intros k v H.
  - split; [constructor | reflexivity].
  - rewrite map_sorted_step in H. apply andb_true_iff in H as [Hk Hs].
    split; [|exact Hs].
    constructor; [exact Hk|].
    destruct (IH k' v' Hs) as [Habove _].
    eapply Forall_impl; [exact Habove|]. simpl.
    intros kv Hkv. eapply Json_key_comparator_trans; eauto.
Qed.

Lemma map_find_In key m v : map_find key m = Some v -> In (key, v) m.
Proof.
  induction m as [|[k x] m IH]; simpl; [discriminate|].
  destruct (key_equiv key k) eqn:E.
  - apply key_equiv_eq in E. intros [= ->]. left. congruence.
  - intros H. right. auto.
Qed.

(** Inserting under a key the map has leaves the map as it is. *)
Lemma map_insert_present key value m v0 :
  map_sorted m = true -> map_find key m = Some v0 ->
  map_insert key value m = (m, false).
Proof.
  induction m as [|[k x] m IH]; [simpl; discriminate|].
  intros Hs Hf. destruct (map_sorted_cons _ _ _ Hs) as [Habove Hs'].
  simpl in Hf |- *.
  destruct (key_equiv key k) eqn:E.
  - apply key_equiv_eq in E. subst k.
    rewrite Json_key_comparator_irrefl. reflexivity.
  - apply map_find_In in Hf as Hin.
    pose proof (proj1 (List.Forall_forall _ _) Habove _ Hin) as Hlt. simpl in Hlt.
    rewrite (Json_key_comparator_asym _ _ Hlt), Hlt.
    rewrite (IH Hs' Hf). reflexivity.
Qed.

(** Inserting under a key the map lacks adds the pair and nothing
    else. *)
Lemma map_insert_absent key value m :
  map_find key m = None ->
  snd (map_insert key value m) = true /\
  forall k, map_find k (fst (map_insert key value m)) =
            if key_equiv k key then Some value else map_find k m.
Proof.
  induction m as [|[k0 x] m IH]; simpl.
  - intros _. split; [reflexivity|]. intros k. reflexivity.
  - destruct (key_equiv key k0) eqn:E; [discriminate|]. intros Hf.
    destruct (Json_key_comparator key k0) eqn:C1; simpl.
    + split; [reflexivity|]. intros k. reflexivity.
    + destruct (Json_key_comparator k0 key) eqn:C2.
      * destruct (IH Hf) as [Hins Hfind].
        destruct (map_insert key value m) as [rest' inserted]. simpl in *.
        split; [exact Hins|]. intros k. rewrite Hfind.
        destruct (key_equiv k k0) eqn:E0; [|reflexivity].
        apply key_equiv_eq in E0. subst k0.
        destruct (key_equiv k key) eqn:E1; [|reflexivity].
        apply key_equiv_eq in E1. subst k.
        rewrite key_equiv_refl in E. discriminate.
      * unfold key_equiv in E. rewrite C1, C2 in E. discriminate.
Qed.

(** Assigning through the iterator of a key changes the value of that key
    and nothing else. *)
Lemma map_find_assign key value m k :
  map_find k (map_assign key value m) =
  if key_equiv k key then (match map_find key m with Some _ => Some value | None => None end)
  else map_find k m.
Proof.
  induction m as [|[k0 x] m IH]; simpl.
  - destruct (key_equiv k key); reflexivity.
  - destruct (key_equiv key k0) eqn:E; simpl.
    + apply key_equiv_eq in E. subst k0.
      destruct (key_equiv k key); reflexivity.
    + rewrite IH. destruct (key_equiv k k0) eqn:E0; [|reflexivity].
      apply key_equiv_eq in E0. subst k0.
      destruct (key_equiv k key) eqn:E1; [|reflexivity].
      apply key_equiv_eq in E1. subst k.
      rewrite key_equiv_refl in E. discriminate.
Qed.

Lemma keys_above_sorted k v m :
  keys_above k m -> map_sorted m = true -> map_sorted ((k, v) :: m) = true.
Proof.
  destruct m as [|[k' v'] m]; [reflexivity|].
  intros Habove Hs. rewrite map_sorted_step, Hs.
  inversion Habove; subst. simpl in *. rewrite andb_true_r. assumption.
Qed.

Lemma map_insert_In key value m x :
  In x (fst (map_insert key value m)) -> x = (key, value) \/ In x m.
Proof.
  induction m as [|[k0 v0] m IH]; simpl.
  - intros [<-|[]]. left. reflexivity.
  - destruct (Json_key_comparator key k0).
    + simpl. intros [<-|H]; auto.
    + destruct (Json_key_comparator k0 key); [|simpl; auto].
      destruct (map_insert key value m) as [rest' inserted]. simpl in *.
      intros [<-|H]; auto. destruct (IH H); auto.
Qed.

(** Insertion and assignment keep the keys in order. *)
Lemma map_insert_sorted key value m :
  map_sorted m = true -> map_sorted (fst (map_insert key value m)) = true.
Proof.
  induction m as [|[k0 v0] m IH]; [reflexivity|].
  intros Hs. destruct (map_sorted_cons _ _ _ Hs) as [Habove Hs'].
  simpl. destruct (Json_key_comparator key k0) eqn:C1.
  - cbn [fst]. rewrite map_sorted_step, C1, Hs. reflexivity.
  - destruct (Json_key_comparator k0 key) eqn:C2; [|exact Hs].
    pose proof (map_insert_In key value m) as Hin. specialize (IH Hs').
    destruct (map_insert key value m) as [rest' inserted]. cbn [fst snd] in *.
    apply keys_above_sorted; [|exact IH].
    unfold keys_above. apply List.Forall_forall. intros x Hx.
    destruct (Hin x Hx) as [->|Hm]; [exact C2|].
    exact (proj1 (List.Forall_forall _ _) Habove x Hm).
Qed.

Lemma map_assign_keys key value m :
  map fst (map_assign key value m) = map fst m.
Proof.
  induction m as [|[k0 v0] m IH]; [reflexivity|]. simpl.
  destruct (key_equiv key k0); simpl; congruence.
Qed.

Lemma map_sorted_keys (m1 m2 : object_map A) :
  map fst m1 = map fst m2 -> map_sorted m1 = map_sorted m2.
Proof.
  revert m2. induction m1 as [|[k1 v1] m1 IH]; intros [|[k2 v2] m2] H;
    try discriminate; [reflexivity|].
  simpl in H. injection H as -> Hrest.
  destruct m1 as [|[k1' v1'] m1], m2 as [|[k2' v2'] m2]; try discriminate;
    [reflexivity|].
  rewrite !map_sorted_step. rewrite (IH _ Hrest).
  simpl in Hrest. injection Hrest as -> _. reflexivity.
Qed.

Lemma map_assign_sorted key value m :
  map_sorted (map_assign key value m) = map_sorted m.
Proof. apply map_sorted_keys, map_assign_keys. Qed.

End Object_map_properties.

(** ** DOM values, wrappers and merge *)

Section Dom_properties.
Context `{DL : Decimal_library}.

Definition is_container (d : Json_dom) : bool :=
  match d with Json_array _ | Json_object _ => true | _ => false end.

(** Induction on a DOM, with the hypothesis for the children of a
    container stated on its list of elements or members. *)
Lemma Json_dom_induction (P : Json_dom -> Prop) :
  (forall d, is_container d = false -> P d) ->
  (forall m_v, (forall x, In x m_v -> P x) -> P (Json_array m_v)) ->
  (forall m_map, (forall k x, In (k, x) m_map -> P x) -> P (Json_object m_map)) ->
  forall d, P d.
Proof.
  intros Hscalar Harray Hobject.
  induction d using Json_dom_ind; try (apply Hscalar; reflexivity).
  - apply Harray.
    match goal with H : list_all _ _ _ |- _ => induction H as [|a Ha l _ IH] end;
      intros x Hx; [destruct Hx|].
    destruct Hx as [<-|Hx]; auto.
  - apply Hobject.
    match goal with H : list_all _ _ _ |- _ => induction H as [|a Ha l _ IH] end;
      intros k x Hx; [destruct Hx|].
    destruct Hx as [Heq|Hx]; [subst a|eauto].
    inversion Ha; assumption.
Qed.

(** C10: a wrapper constructed over a null DOM pointer is empty (and an
    alias); every empty wrapper has the kind ERROR, length 0 and depth
    0. *)
Theorem empty_wrapper_type_length_depth :
  Json_wrapper_of_dom None = mk_wrapper None true /\
  forall alias : bool,
    let w := mk_wrapper None alias in
    empty w = true /\
    wrapper_type w = J_ERROR /\ wrapper_length w = 0%nat /\ wrapper_depth w = 0%nat.
Proof.
  split; [reflexivity|]. intros alias. repeat split.
Qed.

(** C6: adding a value under a key that the object already has returns
    success (false) and leaves the object as it was: the value stored
    under the key is kept, and so is every other member. *)
Theorem add_alias_duplicate_key
    (O : Json_object_map) (k : string) (v old : Json_dom) :
  map_sorted O = true ->
  get O k = Some old ->
  add_alias O k (Some v) = (false, O) /\
  get (snd (add_alias O k (Some v))) k = Some old /\
  forall k', get (snd (add_alias O k (Some v))) k' = get O k'.
Proof.
  intros Hs Hget. unfold add_alias, get in *.
  rewrite (map_insert_present k v O old Hs Hget). simpl. auto.
Qed.

(** [[...d]]: the elements of an array, or the value itself as the only
    element. *)
Definition merge_elements (d : Json_dom) : list Json_dom :=
  match d with
  | Json_array m_v => m_v
  | _ => [d]
  end.


Lemma append_alias_spec (m_v : list Json_dom) (x : Json_dom) :
  append_alias m_v (Some x) = (false, m_v ++ [x]).
Proof.
  unfold append_alias, insert_alias. rewrite Nat.min_id.
  rewrite firstn_all, skipn_all. reflexivity.
Qed.

Lemma Json_array_consume_spec (other m_v : list Json_dom) :
  Json_array_consume m_v other = (false, m_v ++ other).
Proof.
  revert m_v. induction other as [|x other IH]; intros m_v; cbn [Json_array_consume].
  - rewrite app_nil_r. reflexivity.
  - rewrite append_alias_spec. rewrite IH, <- app_assoc. reflexivity.
Qed.

Lemma wrap_in_array_spec (d : Json_dom) : wrap_in_array d = Json_array [d].
Proof. reflexivity. Qed.

Lemma json_type_array (d : Json_dom) :
  enum_json_type_eqb (json_type d) J_ARRAY = true -> exists m_v, d = Json_array m_v.
Proof.
  destruct d; simpl; try discriminate; eauto.
  repeat (match goal with |- context [if ?c then _ else _] => destruct c end);
    discriminate.
Qed.

Lemma make_mergeable_spec (d : Json_dom) :
  make_mergeable d =
  match d with
  | Json_array _ | Json_object _ => d
  | _ => Json_array [d]
  end.
Proof.
  destruct d; try reflexivity.
  unfold make_mergeable, json_type.
  repeat (match goal with |- context [if ?c then _ else _] => destruct c end);
    reflexivity.
Qed.

(** One unfolding of [merge_doms]. *)
Lemma merge_doms_unfold (left right : Json_dom) :
  merge_doms left right =
  match make_mergeable left, right with
  | Json_object this_map, Json_object other_map =>
    let (err, m) := consume_with merge_doms this_map other_map in
    if err then None else Some (Json_object m)
  | _, _ => Some (Json_array (merge_elements left ++ merge_elements right))
  end.
Proof.
  destruct right; cbn [merge_doms]; rewrite !make_mergeable_spec;
    destruct left; cbn -[Json_array_consume consume_with];
    repeat (match goal with
            | |- context [if (?a =? ?b) then _ else _] => destruct (a =? b)
            end; cbn -[Json_array_consume consume_with]);
    rewrite ?Json_array_consume_spec; reflexivity.
Qed.

Lemma keys_above_find {A : Type} (k : string) (m : object_map A) :
  keys_above k m -> map_find k m = None.
Proof.
  induction 1 as [|[k' v] m Hk _ IH]; simpl; [reflexivity|].
  simpl in Hk. destruct (key_equiv k k') eqn:E; [|exact IH].
  apply key_equiv_eq in E. subst k'.
  rewrite Json_key_comparator_irrefl in Hk. discriminate.
Qed.

(** What a key maps to after a pairwise merge: common keys merge their
    values, the other keys keep the value of the side that has them. *)
Definition merged_member (merge : Json_dom -> Json_dom -> option Json_dom)
                         (l r : option Json_dom) : option Json_dom :=
  match l, r with
  | Some l, Some r => merge l r
  | Some l, None => Some l
  | None, Some r => Some r
  | None, None => None
  end.

Lemma consume_with_spec (merge : Json_dom -> Json_dom -> option Json_dom)
                        (other_map : Json_object_map) :
  (forall k r, In (k, r) other_map -> forall l, exists d, merge l r = Some d) ->
  forall this_map,
    fst (consume_with merge this_map other_map) = false /\
    (map_sorted other_map = true ->
     forall k, map_find k (snd (consume_with merge this_map other_map)) =
               merged_member merge (map_find k this_map) (map_find k other_map)).
Proof.
  induction other_map as [|[key value] rest IH]; intros Htotal this_map.
  - simpl. split; [reflexivity|]. intros _ k. destruct (map_find k this_map); reflexivity.
  - assert (Hrest : forall k r, In (k, r) rest -> forall l, exists d, merge l r = Some d)
      by (intros k r Hin; apply (Htotal k r); right; exact Hin).
    cbn [consume_with].
    destruct (map_find key this_map) as [this_value|] eqn:Hfind.
    + destruct (Htotal key value (or_introl eq_refl) this_value) as [merged Hmerged].
      rewrite Hmerged.
      destruct (IH Hrest (map_assign key merged this_map)) as [Hok Hspec].
      split; [exact Hok|]. intros Hsorted k.
      destruct (map_sorted_cons _ _ _ Hsorted) as [Habove Hsorted'].
      rewrite (Hspec Hsorted' k), map_find_assign, Hfind. simpl.
      destruct (key_equiv k key) eqn:E; [|reflexivity].
      apply key_equiv_eq in E. subst k.
      rewrite (keys_above_find _ _ Habove), Hfind. simpl. symmetry. exact Hmerged.
    + unfold add_alias.
      destruct (map_insert_absent key value this_map Hfind) as [_ Hins].
      cbn [fst snd].
      destruct (IH Hrest (fst (map_insert key value this_map))) as [Hok Hspec].
      split; [exact Hok|]. intros Hsorted k.
      destruct (map_sorted_cons _ _ _ Hsorted) as [Habove Hsorted'].
      rewrite (Hspec Hsorted' k), Hins. simpl.
      destruct (key_equiv k key) eqn:E; [|reflexivity].
      apply key_equiv_eq in E. subst k.
      rewrite (keys_above_find _ _ Habove), Hfind. reflexivity.
Qed.

(** [merge_doms] always produces a document. *)
Lemma merge_doms_total (right left : Json_dom) :
  exists d, merge_doms left right = Some d.
Proof.
  revert left. induction right as [d Hd|m_v IH|m_map IH] using Json_dom_induction;
    intros left; rewrite merge_doms_unfold.
  - destruct d; try discriminate; destruct (make_mergeable left); eauto.
  - destruct (make_mergeable left); eauto.
  - destruct (make_mergeable left) as [| | | | | | | | | |this_map]; eauto.
    destruct (consume_with_spec merge_doms m_map) with (this_map := this_map)
      as [Hok _]; [eauto|].
    destruct (consume_with merge_doms this_map m_map) as [err m]. simpl in Hok.
    subst err. eauto.
Qed.

Lemma consume_with_sorted (merge : Json_dom -> Json_dom -> option Json_dom)
                          (other_map : Json_object_map) :
  forall this_map,
    map_sorted this_map = true ->
    map_sorted (snd (consume_with merge this_map other_map)) = true.
Proof.
  induction other_map as [|[key value] rest IH]; intros this_map Hs; [exact Hs|].
  cbn [consume_with].
  destruct (map_find key this_map) as [this_value|].
  - destruct (merge this_value value) as [merged|]; [|exact Hs].
    apply IH. rewrite map_assign_sorted. exact Hs.
  - unfold add_alias. apply IH. apply map_insert_sorted. exact Hs.
Qed.

(** The documents of the merge scenario. *)
Definition merge_left : Json_dom :=
  Json_object [("a"%string, Json_int 1);
               ("b"%string, Json_object [("x"%string, Json_int 1)])].
Definition merge_right : Json_dom :=
  Json_object [("b"%string, Json_object [("y"%string, Json_int 2)]);
               ("c"%string, Json_int 3)].
Definition merge_expected : Json_dom :=
  Json_object [("a"%string, Json_int 1);
               ("b"%string, Json_object [("x"%string, Json_int 1);
                                         ("y"%string, Json_int 2)]);
               ("c"%string, Json_int 3)].

(** C5: merging two objects yields an object in which a key of both
    sides maps to the merge of its two values, and any other key maps to
    the value of the side that has it (so the keys of R alone are
    transferred into L); the object is ordered if L was.  In every other
    case the result is the array of the elements of L followed by those
    of R, where a side that is not an array counts as its own single
    element.  Merging {"a":1,"b":{"x":1}} with {"b":{"y":2},"c":3} gives
    {"a":1,"b":{"x":1,"y":2},"c":3}. *)
Theorem merge_doms_objects_or_arrays :
  (forall this_map other_map : Json_object_map,
     map_sorted other_map = true ->
     exists m,
       merge_doms (Json_object this_map) (Json_object other_map) = Some (Json_object m) /\
       (forall k, get m k = merged_member merge_doms (get this_map k) (get other_map k)) /\
       (map_sorted this_map = true -> map_sorted m = true)) /\
  (forall left right : Json_dom,
     (forall this_map other_map,
        ~ (left = Json_object this_map /\ right = Json_object other_map)) ->
     merge_doms left right =
     Some (Json_array (merge_elements left ++ merge_elements right))) /\
  merge_doms merge_left merge_right = Some merge_expected.
Proof.
  split; [|split].
  - intros this_map other_map Hsorted.
    rewrite merge_doms_unfold, make_mergeable_spec.
    destruct (consume_with_spec merge_doms other_map) with (this_map := this_map)
      as [Hok Hspec]; [intros; apply merge_doms_total|].
    pose proof (consume_with_sorted merge_doms other_map this_map) as Hs.
    destruct (consume_with merge_doms this_map other_map) as [err m].
    cbn [fst snd] in *. subst err. exists m.
    split; [reflexivity|]. split; [|exact Hs].
    intros k. apply Hspec. exact Hsorted.
  - intros left right Hnot. rewrite merge_doms_unfold, make_mergeable_spec.
    destruct left; try reflexivity; destruct right; try reflexivity.
    exfalso. eapply Hnot; split; reflexivity.
  - reflexivity.
Qed.

(** ** The total order *)

Lemma compare_numbers_antisym_Z (x y : Z) :
  compare_numbers x y = - compare_numbers y x.
Proof.
  unfold compare_numbers. simpl.
  destruct (Z.ltb_spec x y), (Z.ltb_spec y x), (Z.eqb_spec x y), (Z.eqb_spec y x); lia.
Qed.

Lemma compare_numbers_antisym_nat (x y : nat) :
  compare_numbers x y = - compare_numbers y x.
Proof.
  unfold compare_numbers. simpl.
  destruct (Nat.ltb_spec x y), (Nat.ltb_spec y x), (Nat.eqb_spec x y), (Nat.eqb_spec y x);
    lia.
Qed.

Lemma compare_numbers_antisym_bool (x y : bool) :
  compare_numbers x y = - compare_numbers y x.
Proof. destruct x, y; reflexivity. Qed.

Lemma compare_numbers_antisym_double (x y : double) :
  compare_numbers x y = - compare_numbers y x.
Proof.
  unfold compare_numbers. simpl.
  destruct (Z.ltb_spec (d_scaled x) (d_scaled y)), (Z.ltb_spec (d_scaled y) (d_scaled x)),
    (Z.eqb_spec (d_scaled x) (d_scaled y)), (Z.eqb_spec (d_scaled y) (d_scaled x)); lia.
Qed.

Lemma compare_json_strings_antisym (s1 s2 : list Z) (n1 n2 : nat) :
  compare_json_strings s1 n1 s2 n2 = - compare_json_strings s2 n2 s1 n1.
Proof.
  unfold compare_json_strings.
  rewrite (Nat.min_comm n2 n1), (memcmp_antisym _ s2 s1).
  destruct (Z.eqb_spec (memcmp s1 s2 (Nat.min n1 n2)) 0) as [E|N].
  - rewrite E. simpl. apply compare_numbers_antisym_nat.
  - destruct (Z.eqb_spec (- memcmp s1 s2 (Nat.min n1 n2)) 0); simpl; lia.
Qed.

(** The precedence classes of the specification:
    NULL < numeric < STRING < OBJECT < ARRAY < BOOL < DATE < TIME <
    DATETIME = TIMESTAMP < OPAQUE. *)
Definition precedence (t : enum_json_type) : Z :=
  match t with
  | J_NULL => 0
  | J_DECIMAL | J_INT | J_UINT | J_DOUBLE => 1
  | J_STRING => 2
  | J_OBJECT => 3
  | J_ARRAY => 4
  | J_BOOLEAN => 5
  | J_DATE => 6
  | J_TIME => 7
  | J_DATETIME | J_TIMESTAMP => 8
  | J_OPAQUE => 9
  | J_ERROR => 10
  end.

Lemma type_comparison_precedence (t1 t2 : enum_json_type) :
  t1 <> J_ERROR -> t2 <> J_ERROR ->
  type_comparison_at t1 t2 = Z_of_comparison (precedence t1 ?= precedence t2).
Proof. destruct t1, t2; intros H1 H2; try reflexivity; contradiction. Qed.

Lemma json_type_not_error (d : Json_dom) : json_type d <> J_ERROR.
Proof.
  destruct d; simpl; try discriminate.
  repeat (match goal with |- context [if ?c then _ else _] => destruct c end);
    discriminate.
Qed.

Lemma type_comparison_antisym (a b : Json_dom) :
  type_comparison_at (json_type a) (json_type b) =
  - type_comparison_at (json_type b) (json_type a).
Proof.
  rewrite !type_comparison_precedence by apply json_type_not_error.
  rewrite (Z.compare_antisym (precedence (json_type a))).
  destruct (precedence (json_type a) ?= precedence (json_type b)); reflexivity.
Qed.

Lemma compare_elements_antisym (cmp_fn : Json_dom -> Json_dom -> Z) (a : list Json_dom) :
  (forall x, In x a -> forall y, cmp_fn x y = - cmp_fn y x) ->
  forall b,
    compare_elements_with cmp_fn a b =
    option_map Z.opp (compare_elements_with cmp_fn b a).
Proof.
  induction a as [|x a IH]; intros H [|y b]; try reflexivity.
  cbn [compare_elements_with].
  rewrite (H x (or_introl eq_refl) y).
  destruct (Z.eqb_spec (cmp_fn y x) 0) as [E|N].
  - rewrite E. simpl. apply IH. intros; apply H; right; assumption.
  - destruct (Z.eqb_spec (- cmp_fn y x) 0); [lia|]. reflexivity.
Qed.

Lemma compare_members_antisym (cmp_fn : Json_dom -> Json_dom -> Z)
                              (m1 : Json_object_map) :
  (forall k x, In (k, x) m1 -> forall y, cmp_fn x y = - cmp_fn y x) ->
  forall m2, length m1 = length m2 ->
    compare_members_with cmp_fn m1 m2 = - compare_members_with cmp_fn m2 m1.
Proof.
  induction m1 as [|[k1 v1] m1 IH]; intros H [|[k2 v2] m2] Hlen;
    try discriminate; [reflexivity|].
  cbn [compare_members_with].
  rewrite (compare_json_strings_antisym (uchars k1)).
  rewrite (H k1 v1 (or_introl eq_refl) v2).
  set (ck := compare_json_strings (uchars k2) _ (uchars k1) _).
  destruct (Z.eqb_spec ck 0) as [E|N].
  - rewrite E. simpl.
    destruct (Z.eqb_spec (cmp_fn v2 v1) 0) as [E'|N'].
    + rewrite E'. simpl. apply IH; [|simpl in Hlen; lia].
      intros; eapply H; right; eassumption.
    + destruct (Z.eqb_spec (- cmp_fn v2 v1) 0); [lia|]. reflexivity.
  - destruct (Z.eqb_spec (- ck) 0); [lia|]. reflexivity.
Qed.

Section With_decimal_laws.
Context {LAWS : @Decimal_laws DL}.

#[local] Arguments compare_numbers : simpl never.
#[local] Arguments compare_json_strings : simpl never.
#[local] Arguments compare_json_decimal_double : simpl never.
#[local] Arguments compare_json_decimal_int : simpl never.
#[local] Arguments compare_json_decimal_uint : simpl never.
#[local] Arguments compare_json_double_int : simpl never.
#[local] Arguments compare_json_double_uint : simpl never.
#[local] Arguments compare_json_int_uint : simpl never.
#[local] Arguments compare_elements_with : simpl never.
#[local] Arguments compare_members_with : simpl never.

(** Case analysis on the tests of a field type against the temporal
    type codes. *)
Ltac split_field_types :=
  repeat (match goal with
          | |- context [if (?a =? MYSQL_TYPE_TIME) then _ else _] =>
            destruct (a =? MYSQL_TYPE_TIME)
          | |- context [if (?a =? MYSQL_TYPE_DATETIME) then _ else _] =>
            destruct (a =? MYSQL_TYPE_DATETIME)
          | |- context [if (?a =? MYSQL_TYPE_DATE) then _ else _] =>
            destruct (a =? MYSQL_TYPE_DATE)
          | |- context [if (?a =? MYSQL_TYPE_TIMESTAMP) then _ else _] =>
            destruct (a =? MYSQL_TYPE_TIMESTAMP)
          end; cbn).

Lemma compare_opaque_antisym (t1 t2 : Z) (s1 s2 : list Z) (n1 n2 : nat) :
  (if compare_numbers t1 t2 =? 0 then compare_json_strings s1 n1 s2 n2
   else compare_numbers t1 t2) =
  - (if compare_numbers t2 t1 =? 0 then compare_json_strings s2 n2 s1 n1
     else compare_numbers t2 t1).
Proof.
  rewrite (compare_numbers_antisym_Z t2 t1), (compare_json_strings_antisym s2 s1 n2 n1).
  destruct (Z.eqb_spec (compare_numbers t1 t2) 0) as [E|N].
  - rewrite E. simpl. lia.
  - destruct (Z.eqb_spec (- compare_numbers t1 t2) 0); lia.
Qed.

Lemma compare_decimal_antisym (a b : my_decimal) :
  (if my_decimal_is_zero a && my_decimal_is_zero b then 0 else my_decimal_cmp a b) =
  - (if my_decimal_is_zero b && my_decimal_is_zero a then 0 else my_decimal_cmp b a).
Proof.
  rewrite (andb_comm (my_decimal_is_zero b)), (my_decimal_cmp_antisym b a).
  destruct (my_decimal_is_zero a && my_decimal_is_zero b); lia.
Qed.

Lemma compare_antisym (a : Json_dom) : forall b, compare a b = - compare b a.
Proof.
  induction a as [d Hd|m_v IH|m_map IH] using Json_dom_induction; intros b.
  - destruct d; try discriminate; destruct b; cbn; split_field_types;
      try reflexivity;
      try apply compare_numbers_antisym_Z;
      try apply compare_numbers_antisym_bool;
      try apply compare_numbers_antisym_double;
      try apply compare_json_strings_antisym;
      try apply compare_opaque_antisym;
      try apply compare_decimal_antisym;
      try (symmetry; apply Z.opp_involutive).
  - destruct b; cbn; split_field_types; try reflexivity.
    rewrite (compare_elements_antisym compare m_v IH m_v0).
    rewrite (compare_numbers_antisym_nat (length m_v0)).
    destruct (compare_elements_with compare m_v0 m_v); simpl; lia.
  - destruct b; cbn; split_field_types; try reflexivity.
    unfold cardinality.
    rewrite (compare_numbers_antisym_nat (length m_map0)).
    destruct (Z.eqb_spec (compare_numbers (length m_map) (length m_map0)) 0) as [E|N].
    + rewrite E. simpl. apply (compare_members_antisym compare m_map IH).
      unfold compare_numbers in E. simpl in E.
      destruct (Nat.ltb_spec (length m_map) (length m_map0)); [discriminate|].
      destruct (Nat.eqb_spec (length m_map) (length m_map0)); [assumption|discriminate].
    + destruct (Z.eqb_spec (- compare_numbers (length m_map) (length m_map0)) 0);
        simpl; lia.
Qed.

Lemma compare_by_precedence (a b : Json_dom) :
  precedence (json_type a) <> precedence (json_type b) ->
  compare a b = Z_of_comparison (precedence (json_type a) ?= precedence (json_type b)).
Proof.
  intros Hne.
  assert (Htable : type_comparison_at (json_type a) (json_type b) =
                   Z_of_comparison (precedence (json_type a) ?= precedence (json_type b)))
    by (apply type_comparison_precedence; apply json_type_not_error).
  assert (Hnz : (type_comparison_at (json_type a) (json_type b) =? 0) = false).
  { rewrite Htable. apply Z.eqb_neq.
    destruct (Z.compare_spec (precedence (json_type a)) (precedence (json_type b)));
      simpl; lia. }
  rewrite <- Htable.
  destruct a; cbn [compare]; rewrite Hnz; reflexivity.
Qed.

(** C3: [compare(a, b) = -compare(b, a)] for all values; exactly one of
    a < b, a = b, b < a holds; and values of different precedence
    classes compare by the table
    NULL < numeric < STRING < OBJECT < ARRAY < BOOL < DATE < TIME <
    DATETIME = TIMESTAMP < OPAQUE, which [type_comparison] encodes, the
    four numeric kinds being one class. *)
Theorem compare_antisymmetric_trichotomous_precedence :
  (forall a b : Json_dom, compare a b = - compare b a) /\
  (forall a b : Json_dom,
     (compare a b < 0 /\ compare a b <> 0 /\ ~ compare b a < 0) \/
     (~ compare a b < 0 /\ compare a b = 0 /\ ~ compare b a < 0) \/
     (~ compare a b < 0 /\ compare a b <> 0 /\ compare b a < 0)) /\
  (forall t1 t2 : enum_json_type,
     t1 <> J_ERROR -> t2 <> J_ERROR ->
     type_comparison_at t1 t2 = Z_of_comparison (precedence t1 ?= precedence t2)) /\
  (forall a b : Json_dom,
     precedence (json_type a) < precedence (json_type b) -> compare a b = -1) /\
  (forall a b : Json_dom,
     precedence (json_type b) < precedence (json_type a) -> compare a b = 1) /\
  precedence J_NULL < precedence J_INT /\
  precedence J_INT = precedence J_UINT /\
  precedence J_INT = precedence J_DOUBLE /\
  precedence J_INT = precedence J_DECIMAL /\
  precedence J_INT < precedence J_STRING /\
  precedence J_STRING < precedence J_OBJECT /\
  precedence J_OBJECT < precedence J_ARRAY /\
  precedence J_ARRAY < precedence J_BOOLEAN /\
  precedence J_BOOLEAN < precedence J_DATE /\
  precedence J_DATE < precedence J_TIME /\
  precedence J_TIME < precedence J_DATETIME /\
  precedence J_DATETIME = precedence J_TIMESTAMP /\
  precedence J_TIMESTAMP < precedence J_OPAQUE.
Proof.
  split; [intros a b; apply compare_antisym|].
  split.
  { intros a b. pose proof (compare_antisym a b). lia. }
  split; [exact type_comparison_precedence|].
  split.
  { intros a b H. rewrite compare_by_precedence by lia.
    rewrite (proj2 (Z.compare_lt_iff _ _) H). reflexivity. }
  split.
  { intros a b H. rewrite compare_by_precedence by lia.
    rewrite (proj2 (Z.compare_gt_iff _ _) H). reflexivity. }
  cbn. lia.
Qed.

(** ** Doubles against integers and decimals *)

Lemma two_pow_1074 : Zpos (2 ^ 1074)%positive = 2 ^ 1074.
Proof. apply Pos2Z.inj_pow. Qed.

Lemma double_value_eq_int (a : double) (b : Z) :
  (double_value a == inject_Z b)%Q <-> d_scaled a = b * 2 ^ 1074.
Proof.
  unfold double_value, Qeq, inject_Z. cbn [Qnum Qden].
  rewrite two_pow_1074. lia.
Qed.

Lemma double_value_zero (a : double) :
  (double_value a == 0)%Q <-> d_scaled a = 0.
Proof. rewrite (double_value_eq_int a 0). lia. Qed.

Lemma double_value_negative (a : double) :
  (double_value a < 0)%Q <-> d_scaled a < 0.
Proof.
  unfold double_value, Qlt. cbn [Qnum Qden]. lia.
Qed.

Lemma round_to_double_exact (n : Z) :
  (Z.log2 n - 52 <=? 0) || (n mod 2 ^ (Z.log2 n - 52) =? 0) = true ->
  round_to_double n = n.
Proof.
  unfold round_to_double. intros H.
  destruct (Z.leb_spec (Z.log2 n - 52) 0) as [Hk|Hk]; [reflexivity|].
  simpl in H. apply Z.eqb_eq in H. rewrite H.
  assert (Hhalf : 0 < 2 ^ (Z.log2 n - 52 - 1)) by (apply Z.pow_pos_nonneg; lia).
  destruct (Z.ltb_spec (2 ^ (Z.log2 n - 52 - 1)) 0); [lia|].
  destruct (Z.eqb_spec 0 (2 ^ (Z.log2 n - 52 - 1))); [lia|]. simpl.
  pose proof (Z.div_mod n (2 ^ (Z.log2 n - 52))) as Hdm.
  assert (2 ^ (Z.log2 n - 52) <> 0) by (apply Z.pow_nonzero; lia).
  specialize (Hdm ltac:(assumption)). lia.
Qed.

(** Converting an integer that a double represents yields that double, up
    to the sign of zero. *)
Lemma double_of_int_exact (a : double) (b : Z) :
  is_double a = true -> d_scaled a = b * 2 ^ 1074 ->
  d_scaled (double_of_int b) = d_scaled a.
Proof.
  unfold is_double. rewrite !andb_true_iff. intros [[Hnn _] Hfit] Hv.
  apply Z.leb_le in Hnn. cbv zeta in Hfit.
  assert (Hp : 0 < 2 ^ 1074) by (apply Z.pow_pos_nonneg; lia).
  assert (Hmag : Z.abs b * 2 ^ 1074 = d_mag a).
  { unfold d_scaled in Hv. destruct (d_neg a); nia. }
  unfold double_of_int, d_scaled at 1. cbn [d_neg d_mag]. rewrite Hmag.
  rewrite (round_to_double_exact _ Hfit).
  unfold d_scaled in *. destruct (Z.ltb_spec b 0), (d_neg a); nia.
Qed.


Lemma my_decimal_cmp_zero_iff (x y : my_decimal) :
  my_decimal_is_zero x = false ->
  (my_decimal_cmp x y = 0 <-> (dec_value x == dec_value y)%Q).
Proof.
  intros Hx. rewrite my_decimal_cmp_exact by (rewrite Hx; reflexivity).
  rewrite Qeq_alt. destruct (dec_value x ?= dec_value y)%Q; simpl; split;
    intros; try discriminate; try lia; reflexivity.
Qed.

Lemma my_decimal_is_zero_false (x : my_decimal) :
  my_decimal_is_zero x = false <-> ~ (dec_value x == 0)%Q.
Proof.
  rewrite <- my_decimal_is_zero_spec. destruct (my_decimal_is_zero x); split;
    intros; try discriminate; try reflexivity; try contradiction; auto.
Qed.

(** [compare_json_decimal_double] returns 0 exactly on equal values. *)
Lemma compare_json_decimal_double_zero_iff (x : my_decimal) (a : double) :
  compare_json_decimal_double x a = 0 <-> (dec_value x == double_value a)%Q.
Proof.
  unfold compare_json_decimal_double. cbn [lt_op eq_op Comparable_double].
  change (d_scaled double_zero) with 0.
  destruct (my_decimal_is_zero x) eqn:Hz.
  - (* x is zero *)
    apply my_decimal_is_zero_spec in Hz as Hx0.
    rewrite andb_false_r. simpl.
    destruct (Z.ltb_spec (d_scaled a) 0) as [Hneg|Hnn]; simpl.
    + split; [lia|]. intros Heq. rewrite Hx0 in Heq. symmetry in Heq.
      apply double_value_zero in Heq. lia.
    + destruct (Z.eqb_spec (d_scaled a) 0) as [E|N].
      * split; [|reflexivity]. intros _. rewrite Hx0. symmetry.
        apply double_value_zero. exact E.
      * split; [lia|]. intros Heq. rewrite Hx0 in Heq. symmetry in Heq.
        apply double_value_zero in Heq. contradiction.
  - (* x is not zero *)
    apply my_decimal_is_zero_false in Hz as Hx0.
    rewrite andb_true_r.
    pose proof (dec_sign_spec x Hz) as Hsign.
    destruct (Z.ltb_spec (d_scaled a) 0) as [Hneg|Hnn];
      destruct (dec_sign x) eqn:Hs; simpl.
    all: try (split; [lia|]; intros Heq; exfalso;
              pose proof (double_value_negative a) as Hdn; rewrite <- Heq in Hdn;
              destruct Hsign as [Hs1 Hs2]; destruct Hdn as [Hd1 Hd2];
              first [ specialize (Hs2 (Hd2 Hneg)); discriminate
                    | specialize (Hd1 (Hs1 eq_refl)); lia ]).
    all: destruct (Z.eqb_spec (d_scaled a) 0) as [E|N];
      [ split; [lia|]; intros Heq; exfalso; apply Hx0; rewrite Heq;
        apply double_value_zero; exact E | ].
    all: pose proof (double2decimal_codes a) as Hcodes;
      pose proof (double2decimal_ok a) as Hok;
      pose proof (double2decimal_complete a x) as Hcomplete;
      destruct (double2decimal a) as [code b_dec]; cbn [fst snd] in *;
      destruct code; try contradiction.
    all: try (rewrite (my_decimal_cmp_zero_iff x b_dec Hz);
              rewrite (Hok eq_refl); reflexivity).
    all: try (split; [lia|]; intros Heq; specialize (Hcomplete Heq); discriminate).
    all: split; [|intros Heq; specialize (Hcomplete Heq); discriminate].
    all: destruct (Z.eqb_spec (my_decimal_cmp x b_dec) 0); lia.
Qed.

(** The doubles that the texts 1.0 and 1.0000000000001 parse to. *)
Definition double_1_0 : double := mk_double false (2 ^ 1074).
Definition double_1_0000000000001 : double :=
  mk_double false ((2 ^ 52 + 450) * 2 ^ 1022).

(** 1 + 450 * 2^-52 is the double nearest to 1.0000000000001: the two
    differ by less than half a unit in the last place, 2^-53. *)
Lemma double_1_0000000000001_nearest :
  is_double double_1_0000000000001 = true /\
  2 * Z.abs (10000000000001 * 2 ^ 1074 - d_scaled double_1_0000000000001 * 10 ^ 13)
  < 2 ^ 1022 * 10 ^ 13.
Proof. split; [vm_compute; reflexivity|]. vm_compute. reflexivity. Qed.

Lemma compare_json_double_int_zero_iff (a : double) (b : Z) :
  is_double a = true ->
  (compare_json_double_int a b = 0 <-> (double_value a == inject_Z b)%Q).
Proof.
  intros Ha. unfold compare_json_double_int. cbn [lt_op Comparable_double].
  split.
  - destruct (Z.ltb_spec (d_scaled a) (d_scaled (double_of_int b))); [lia|].
    destruct (Z.ltb_spec (d_scaled (double_of_int b)) (d_scaled a)); [lia|].
    intros Hzero. assert (Hc : compare_json_decimal_double (longlong2decimal b) a = 0) by lia.
    apply compare_json_decimal_double_zero_iff in Hc.
    rewrite <- Hc. apply longlong2decimal_exact.
  - intros Heq. apply double_value_eq_int in Heq as Hscaled.
    rewrite (double_of_int_exact a b Ha Hscaled), Z.ltb_irrefl.
    assert (Hc : compare_json_decimal_double (longlong2decimal b) a = 0).
    { apply compare_json_decimal_double_zero_iff.
      rewrite Heq. apply longlong2decimal_exact. }
    lia.
Qed.

(** C8: comparing a double [a] with a signed integer [b] first compares
    [a] with [b] converted to double; only when neither is less than the
    other does it convert [b] to decimal and compare the decimal with
    [a], negating the result.  For a finite double the comparison is 0
    exactly when [a] and [b] denote the same rational.  Comparing the
    double parsed from 1.0 with 1 gives 0, and the one parsed from
    1.0000000000001 with 1 gives 1. *)
Theorem compare_double_int_two_steps :
  (forall (a : double) (b : Z),
     compare (Json_double a) (Json_int b) = compare_json_double_int a b /\
     (lt_op a (double_of_int b) = true -> compare_json_double_int a b = -1) /\
     (lt_op a (double_of_int b) = false -> lt_op (double_of_int b) a = true ->
      compare_json_double_int a b = 1) /\
     (lt_op a (double_of_int b) = false -> lt_op (double_of_int b) a = false ->
      compare_json_double_int a b =
      - compare_json_decimal_double (longlong2decimal b) a) /\
     (is_double a = true ->
      (compare (Json_double a) (Json_int b) = 0 <->
       (double_value a == inject_Z b)%Q))) /\
  compare (Json_double double_1_0) (Json_int 1) = 0 /\
  compare (Json_double double_1_0000000000001) (Json_int 1) = 1.
Proof.
  assert (Hunfold : forall a b,
             compare (Json_double a) (Json_int b) = compare_json_double_int a b)
    by reflexivity.
  split; [|split].
  - intros a b. split; [apply Hunfold|].
    unfold compare_json_double_int.
    split; [intros ->; reflexivity|].
    split; [intros -> ->; reflexivity|].
    split; [intros -> ->; reflexivity|].
    intros Ha. rewrite Hunfold. apply compare_json_double_int_zero_iff. exact Ha.
  - rewrite Hunfold. apply compare_json_double_int_zero_iff; [vm_compute; reflexivity|].
    apply double_value_eq_int. vm_compute. reflexivity.
  - rewrite Hunfold. unfold compare_json_double_int.
    replace (lt_op double_1_0000000000001 (double_of_int 1)) with false
      by (vm_compute; reflexivity).
    replace (lt_op (double_of_int 1) double_1_0000000000001) with true
      by (vm_compute; reflexivity).
    reflexivity.
Qed.

(** ** Hash keys of equal values *)

Lemma round_to_double_nonneg (n : Z) : 0 <= n -> 0 <= round_to_double n.
Proof.
  intros Hn. unfold round_to_double.
  destruct (Z.leb_spec (Z.log2 n - 52) 0); [assumption|].
  assert (0 < 2 ^ (Z.log2 n - 52)) by (apply Z.pow_pos_nonneg; lia).
  assert (0 <= n / 2 ^ (Z.log2 n - 52)) by (apply Z.div_pos; lia).
  destruct ((2 ^ (Z.log2 n - 52 - 1) <? n mod 2 ^ (Z.log2 n - 52))
            || (n mod 2 ^ (Z.log2 n - 52) =? 2 ^ (Z.log2 n - 52 - 1))
               && Z.odd (n / 2 ^ (Z.log2 n - 52))); nia.
Qed.

Lemma double_of_int_magnitude (b : Z) : 0 <= d_mag (double_of_int b).
Proof.
  unfold double_of_int. cbn [d_mag]. apply round_to_double_nonneg.
  assert (0 < 2 ^ 1074) by (apply Z.pow_pos_nonneg; lia). nia.
Qed.

Lemma is_double_magnitude (d : double) : is_double d = true -> 0 <= d_mag d.
Proof.
  unfold is_double. rewrite !andb_true_iff. intros [[H _] _].
  apply Z.leb_le. exact H.
Qed.

(** Doubles of equal value get the same hash: zeros of either sign hash
    as one byte, and other doubles of equal value are the same double. *)
Lemma add_double_equal (m_crc : Z) (x y : double) :
  0 <= d_mag x -> 0 <= d_mag y -> d_scaled x = d_scaled y ->
  add_double m_crc x = add_double m_crc y.
Proof.
  intros Hx Hy Heq. unfold add_double. cbn [eq_op Comparable_double].
  rewrite <- Heq.
  destruct (Z.eqb_spec (d_scaled x) (d_scaled double_zero)) as [E|N]; [reflexivity|].
  change (d_scaled double_zero) with 0 in N.
  assert (x = y); [|subst; reflexivity].
  destruct x as [nx mx], y as [ny my]. unfold d_scaled in *. cbn [d_neg d_mag] in *.
  destruct nx, ny; f_equal; lia.
Qed.

Lemma compare_numbers_zero_Z (x y : Z) : compare_numbers x y = 0 -> x = y.
Proof.
  unfold compare_numbers. simpl.
  destruct (Z.ltb_spec x y); [discriminate|].
  destruct (Z.eqb_spec x y); [auto|discriminate].
Qed.

Lemma compare_numbers_zero_nat (x y : nat) : compare_numbers x y = 0 -> x = y.
Proof.
  unfold compare_numbers. simpl.
  destruct (Nat.ltb_spec x y); [discriminate|].
  destruct (Nat.eqb_spec x y); [auto|discriminate].
Qed.

Lemma compare_numbers_zero_bool (x y : bool) : compare_numbers x y = 0 -> x = y.
Proof. destruct x, y; try reflexivity; discriminate. Qed.

Lemma compare_numbers_zero_double (x y : double) :
  compare_numbers x y = 0 -> d_scaled x = d_scaled y.
Proof.
  unfold compare_numbers. simpl.
  destruct (Z.ltb_spec (d_scaled x) (d_scaled y)); [discriminate|].
  destruct (Z.eqb_spec (d_scaled x) (d_scaled y)); [auto|discriminate].
Qed.

Lemma compare_json_strings_zero (s1 s2 : string) :
  compare_json_strings (uchars s1) (String.length s1)
                       (uchars s2) (String.length s2) = 0 ->
  s1 = s2.
Proof.
  unfold compare_json_strings.
  destruct (Z.eqb_spec (memcmp (uchars s1) (uchars s2)
                               (Nat.min (String.length s1) (String.length s2))) 0)
    as [E|N]; simpl; [|intros; contradiction].
  intros Hlen. apply compare_numbers_zero_nat in Hlen.
  rewrite <- Hlen, Nat.min_id in E.
  apply uchars_inj. apply (memcmp_eq (String.length s1));
    rewrite ?uchars_length; auto.
Qed.

Lemma compare_json_int_uint_zero (i u : Z) : compare_json_int_uint i u = 0 -> i = u.
Proof.
  unfold compare_json_int_uint. destruct (i <? 0); [discriminate|].
  apply compare_numbers_zero_Z.
Qed.

Lemma Q_zero_int (b : Z) : (0 == inject_Z b)%Q <-> b = 0.
Proof. unfold Qeq, inject_Z. simpl. lia. Qed.

Lemma compare_json_decimal_int_zero (x : my_decimal) (b : Z) :
  compare_json_decimal_int x b = 0 -> (dec_value x == inject_Z b)%Q.
Proof.
  unfold compare_json_decimal_int.
  destruct (my_decimal_is_zero x) eqn:Hz.
  - apply my_decimal_is_zero_spec in Hz. rewrite Hz.
    destruct (Z.eqb_spec b 0) as [->|]; [reflexivity|].
    destruct (0 <? b); discriminate.
  - destruct (Z.eqb_spec b 0); [destruct (dec_sign x); discriminate|].
    destruct (negb (Bool.eqb (dec_sign x) (b <? 0))); [destruct (b <? 0); discriminate|].
    intros H. apply (my_decimal_cmp_zero_iff x _ Hz) in H.
    rewrite H. apply longlong2decimal_exact.
Qed.

Lemma compare_json_decimal_uint_zero (x : my_decimal) (b : Z) :
  compare_json_decimal_uint x b = 0 -> (dec_value x == inject_Z b)%Q.
Proof.
  unfold compare_json_decimal_uint.
  destruct (my_decimal_is_zero x) eqn:Hz.
  - apply my_decimal_is_zero_spec in Hz. rewrite Hz.
    destruct (Z.eqb_spec b 0) as [->|]; [reflexivity|discriminate].
  - destruct (dec_sign x); [discriminate|].
    destruct (Z.eqb_spec b 0); [discriminate|].
    intros H. apply (my_decimal_cmp_zero_iff x _ Hz) in H.
    rewrite H. apply ulonglong2decimal_exact.
Qed.

Lemma compare_json_double_uint_zero (a : double) (b : Z) :
  compare_json_double_uint a b = 0 -> (double_value a == inject_Z b)%Q.
Proof.
  unfold compare_json_double_uint. cbn [lt_op Comparable_double].
  destruct (Z.ltb_spec (d_scaled a) (d_scaled (double_of_int b))); [lia|].
  destruct (Z.ltb_spec (d_scaled (double_of_int b)) (d_scaled a)); [lia|].
  intros Hzero.
  assert (Hc : compare_json_decimal_double (ulonglong2decimal b) a = 0) by lia.
  apply compare_json_decimal_double_zero_iff in Hc.
  rewrite <- Hc. apply ulonglong2decimal_exact.
Qed.

(** A double and an integer of equal value hash alike. *)
Lemma add_double_int (m_crc : Z) (a : double) (b : Z) :
  is_double a = true -> (double_value a == inject_Z b)%Q ->
  add_double m_crc a = add_double m_crc (double_of_int b).
Proof.
  intros Ha Heq. apply add_double_equal.
  - apply is_double_magnitude; assumption.
  - apply double_of_int_magnitude.
  - symmetry. apply double_of_int_exact; [assumption|].
    apply double_value_eq_int. assumption.
Qed.

(** A decimal and an integer of equal value hash alike. *)
Lemma add_double_decimal_int (m_crc : Z) (x : my_decimal) (b : Z) :
  (dec_value x == inject_Z b)%Q ->
  add_double m_crc (decimal2double x) = add_double m_crc (double_of_int b).
Proof.
  intros Heq. apply add_double_equal.
  - apply decimal2double_magnitude.
  - apply double_of_int_magnitude.
  - apply decimal2double_int. assumption.
Qed.

(** A decimal and a double of equal value hash alike. *)
Lemma add_double_decimal_double (m_crc : Z) (x : my_decimal) (a : double) :
  is_double a = true -> (dec_value x == double_value a)%Q ->
  add_double m_crc (decimal2double x) = add_double m_crc a.
Proof.
  intros Ha Heq. apply add_double_equal.
  - apply decimal2double_magnitude.
  - apply is_double_magnitude; assumption.
  - apply decimal2double_exact; assumption.
Qed.

Lemma compare_decimals_zero (x y : my_decimal) :
  (if my_decimal_is_zero x && my_decimal_is_zero y then 0 else my_decimal_cmp x y) = 0 ->
  (dec_value x == dec_value y)%Q.
Proof.
  destruct (my_decimal_is_zero x) eqn:Hx; simpl.
  - destruct (my_decimal_is_zero y) eqn:Hy; simpl.
    + intros _. apply my_decimal_is_zero_spec in Hx, Hy. rewrite Hx, Hy. reflexivity.
    + intros H. rewrite my_decimal_cmp_antisym in H.
      assert (H' : my_decimal_cmp y x = 0) by lia.
      apply (my_decimal_cmp_zero_iff y x Hy) in H'. symmetry. exact H'.
  - apply (my_decimal_cmp_zero_iff x y Hx).
Qed.

Lemma compare_opaque_zero (t1 t2 : Z) (s1 s2 : string) :
  (if compare_numbers t1 t2 =? 0
   then compare_json_strings (uchars s1) (String.length s1) (uchars s2) (String.length s2)
   else compare_numbers t1 t2) = 0 ->
  s1 = s2.
Proof.
  destruct (Z.eqb_spec (compare_numbers t1 t2) 0); [|intros; contradiction].
  apply compare_json_strings_zero.
Qed.

(** The doubles a DOM holds are finite. *)
Definition finite_payload (d : Json_dom) : bool :=
  match d with
  | Json_double f => is_double f
  | _ => true
  end.

#[local] Arguments add_double : simpl never.
#[local] Arguments add_string : simpl never.
#[local] Arguments add_character : simpl never.
#[local] Arguments double_of_int : simpl never.
#[local] Arguments int8store : simpl never.

(** C9: two scalars that compare equal (in particular two numbers of any
    of the four numeric kinds) get the same hash key from the same seed;
    the doubles +0.0 and -0.0 hash to the same value. *)
Theorem equal_scalars_hash_equal :
  (forall a b : Json_dom,
     is_container a = false -> is_container b = false ->
     finite_payload a = true -> finite_payload b = true ->
     compare a b = 0 ->
     forall hash_val : Z, make_hash_key a hash_val = make_hash_key b hash_val) /\
  (forall hash_val : Z,
     make_hash_key (Json_double (mk_double false 0)) hash_val =
     make_hash_key (Json_double (mk_double true 0)) hash_val).
Proof.
  split; [|reflexivity].
  intros a b Ha Hb Hfa Hfb.
  destruct a; try discriminate Ha; destruct b; try discriminate Hb;
    cbn; split_field_types; intros H hash_val;
    try discriminate H; try reflexivity; cbn in Hfa, Hfb.
  all: try (apply compare_numbers_zero_Z in H; subst; reflexivity).
  all: try (apply compare_numbers_zero_bool in H; subst; reflexivity).
  all: try (apply compare_json_strings_zero in H; subst; reflexivity).
  all: try (apply compare_opaque_zero in H; subst; reflexivity).
  all: try (apply compare_json_int_uint_zero in H; subst; reflexivity).
  all: try (apply Z.eq_opp_l in H; cbn in H;
            apply compare_json_int_uint_zero in H; subst; reflexivity).
  all: try (apply Z.eq_opp_l in H; change (- 0) with 0 in H).
  all: try (apply compare_numbers_zero_double in H; apply add_double_equal;
            auto using is_double_magnitude).
  all: try (apply compare_decimals_zero in H;
            rewrite (decimal2double_value _ _ H); reflexivity).
  all: try (apply compare_json_double_int_zero_iff in H; [|assumption]).
  all: try apply compare_json_double_uint_zero in H.
  all: try apply compare_json_decimal_int_zero in H.
  all: try apply compare_json_decimal_uint_zero in H.
  all: try apply compare_json_decimal_double_zero_iff in H.
  all: first [ apply add_double_int; assumption
             | symmetry; apply add_double_int; assumption
             | apply add_double_decimal_int; assumption
             | symmetry; apply add_double_decimal_int; assumption
             | apply add_double_decimal_double; assumption
             | symmetry; apply add_double_decimal_double; assumption ].
Qed.

End With_decimal_laws.

(** ** The depth guard of the parser *)

(** The documents a text can denote: no decimal, opaque or temporal
    values. *)
Fixpoint textual (d : Json_dom) : bool :=
  match d with
  | Json_decimal _ | Json_opaque _ _ | Json_datetime _ _ => false
  | Json_array m_v => forallb textual m_v
  | Json_object m_map => forallb (fun kv => textual (snd kv)) m_map
  | _ => true
  end.

(** A handler that expects a value: at the root, in an open array, or
    after a key of an open object. *)
Definition ready (h : Rapid_json_handler) : Prop :=
  match m_state h with
  | expect_anything => m_open h = []
  | expect_array_value =>
    exists elems pl parents, m_open h = (Json_array elems, pl) :: parents
  | expect_object_value =>
    exists members pl parents, m_open h = (Json_object members, pl) :: parents
  | _ => False
  end.

(** The state after a value has been seen in a given state. *)
Definition next_state (s : enum_state) : enum_state :=
  match s with
  | expect_anything => expect_eof
  | expect_object_value => expect_object_key
  | s => s
  end.

Definition shape (open : list (Json_dom * placement)) : list enum_json_type :=
  map (fun f => json_type (fst f)) open.

(** What a complete value leaves of the handler: the depth, the
    diagnostics and the kinds of the open containers are as before. *)
Definition value_seen (h h' : Rapid_json_handler) : Prop :=
  m_depth h' = m_depth h /\ m_da h' = m_da h /\
  m_state h' = next_state (m_state h) /\ shape (m_open h') = shape (m_open h).

Lemma feed_app (l1 l2 : list event) : forall h,
  feed h (l1 ++ l2) =
  let '(n1, ok1, h1) := feed h l1 in
  if ok1 then let '(n2, ok2, h2) := feed h1 l2 in ((n1 + n2)%nat, ok2, h2)
  else (n1, false, h1).
Proof.
  induction l1 as [|e l1 IH]; intros h; cbn [feed app].
  - destruct (feed h l2) as [[n2 ok2] h2]. reflexivity.
  - destruct (handle h e) as [continue h']. destruct continue; [|reflexivity].
    rewrite IH. destruct (feed h' l1) as [[n1 ok1] h1].
    destruct ok1; [|reflexivity].
    destruct (feed h1 l2) as [[n2 ok2] h2]. reflexivity.
Qed.

Lemma check_json_depth_within (depth : nat) :
  (depth <= JSON_DOCUMENT_MAX_DEPTH)%nat -> check_json_depth depth = (false, []).
Proof.
  intros H. unfold check_json_depth.
  destruct (Nat.ltb_spec JSON_DOCUMENT_MAX_DEPTH depth); [lia|reflexivity].
Qed.

Lemma check_json_depth_exceeded (depth : nat) :
  (JSON_DOCUMENT_MAX_DEPTH < depth)%nat ->
  check_json_depth depth = (true, [ER_JSON_DOCUMENT_TOO_DEEP]).
Proof.
  intros H. unfold check_json_depth.
  destruct (Nat.ltb_spec JSON_DOCUMENT_MAX_DEPTH depth); [reflexivity|lia].
Qed.

#[local] Opaque JSON_DOCUMENT_MAX_DEPTH.

Lemma seeing_value_within (h : Rapid_json_handler) (v : Json_dom) :
  ready h -> (m_depth h + 1 <= JSON_DOCUMENT_MAX_DEPTH)%nat ->
  exists h' pl, seeing_value h (Some v) = (true, h', pl) /\ value_seen h h' /\
                m_key h' = m_key h.
Proof.
  intros Hready Hdepth. unfold seeing_value.
  rewrite (check_json_depth_within _ Hdepth). cbn [m_state m_open m_depth m_key m_da].
  rewrite app_nil_r. unfold ready in Hready.
  destruct h as [state dom open depth key da]. cbn [m_state m_open m_depth m_key m_da] in *.
  destruct state; try contradiction.
  - subst open. eexists _, _. split; [reflexivity|]. repeat split.
  - destruct Hready as (elems & pl & parents & ->).
    rewrite append_alias_spec. eexists _, _. split; [reflexivity|]. repeat split.
  - destruct Hready as (members & pl & parents & ->).
    unfold add_alias. cbn [negb]. eexists _, _. split; [reflexivity|]. repeat split.
Qed.

Lemma seeing_value_exceeded (h : Rapid_json_handler) (v : Json_dom) :
  (JSON_DOCUMENT_MAX_DEPTH < m_depth h + 1)%nat ->
  exists h', seeing_value h (Some v) = (false, h', At_nowhere) /\
             m_da h' = m_da h ++ [ER_JSON_DOCUMENT_TOO_DEEP] /\
             m_depth h' = m_depth h /\ m_open h' = m_open h.
Proof.
  intros Hdepth. unfold seeing_value.
  rewrite (check_json_depth_exceeded _ Hdepth).
  eexists. split; [reflexivity|]. repeat split.
Qed.

Lemma json_type_J_ARRAY (d : Json_dom) :
  json_type d = J_ARRAY -> exists m_v, d = Json_array m_v.
Proof.
  intros H. apply json_type_array. rewrite H. reflexivity.
Qed.

Lemma json_type_J_OBJECT (d : Json_dom) :
  json_type d = J_OBJECT -> exists m_map, d = Json_object m_map.
Proof.
  destruct d; simpl; try discriminate; eauto.
  repeat (match goal with |- context [if ?c then _ else _] => destruct c end);
    discriminate.
Qed.

Lemma shape_top_array (open open' : list (Json_dom * placement)) :
  shape open' = shape open ->
  (exists elems pl parents, open = (Json_array elems, pl) :: parents) ->
  exists elems pl parents, open' = (Json_array elems, pl) :: parents.
Proof.
  intros Hshape (elems & pl & parents & ->).
  destruct open' as [|[top pl'] parents']; [discriminate|].
  cbn in Hshape. injection Hshape as Htop _.
  destruct (json_type_J_ARRAY _ Htop) as [elems' ->]. eauto.
Qed.

Lemma shape_top_object (open open' : list (Json_dom * placement)) :
  shape open' = shape open ->
  (exists members pl parents, open = (Json_object members, pl) :: parents) ->
  exists members pl parents, open' = (Json_object members, pl) :: parents.
Proof.
  intros Hshape (members & pl & parents & ->).
  destruct open' as [|[top pl'] parents']; [discriminate|].
  cbn in Hshape. injection Hshape as Htop _.
  destruct (json_type_J_OBJECT _ Htop) as [members' ->]. eauto.
Qed.

Lemma write_back_type (content : Json_dom) (pl : placement) (parent : Json_dom) :
  json_type (write_back content pl parent) = json_type parent.
Proof. destruct pl, parent; reflexivity. Qed.

Lemma depth_pos (d : Json_dom) : (1 <= depth d)%nat.
Proof. destruct d; simpl; lia. Qed.

(** Feeding the events of [d] to a handler that expects a value either
    places the value, when it fits below the maximum depth, or stops with
    the depth error. *)
Definition value_fed (d : Json_dom) : Prop :=
  forall h, ready h ->
    ((m_depth h + depth d <= JSON_DOCUMENT_MAX_DEPTH)%nat ->
     exists h', feed h (events_of d) = (length (events_of d), true, h') /\
                value_seen h h') /\
    ((JSON_DOCUMENT_MAX_DEPTH < m_depth h + depth d)%nat ->
     exists n h', feed h (events_of d) = (n, false, h') /\
                  m_da h' = m_da h ++ [ER_JSON_DOCUMENT_TOO_DEEP]).

Lemma scalar_fed (d v : Json_dom) (e : event) :
  events_of d = [e] -> depth d = 1%nat ->
  (forall h, handle h e = fst (seeing_value h (Some v))) ->
  value_fed d.
Proof.
  intros Hev Hdepth Hhandle h Hready. rewrite Hev, Hdepth. cbn [feed length].
  rewrite Hhandle. split; intros Hd.
  - destruct (seeing_value_within h v Hready Hd) as (h' & pl & -> & Hseen & _).
    cbn [fst]. eauto.
  - destruct (seeing_value_exceeded h v Hd) as (h' & -> & Hda & _).
    cbn [fst]. eauto.
Qed.

(** The elements of an array, fed to a handler inside the array. *)
Lemma elements_fed (m_v : list Json_dom) :
  (forall x, In x m_v -> value_fed x) ->
  forall h,
    m_state h = expect_array_value ->
    (exists elems pl parents, m_open h = (Json_array elems, pl) :: parents) ->
    ((forall x, In x m_v -> (m_depth h + depth x <= JSON_DOCUMENT_MAX_DEPTH)%nat) ->
     exists h', feed h (flat_map events_of m_v) =
                (length (flat_map events_of m_v), true, h') /\
                m_depth h' = m_depth h /\ m_da h' = m_da h /\
                m_state h' = expect_array_value /\
                shape (m_open h') = shape (m_open h)) /\
    ((exists x, In x m_v /\ (JSON_DOCUMENT_MAX_DEPTH < m_depth h + depth x)%nat) ->
     exists n h', feed h (flat_map events_of m_v) = (n, false, h') /\
                  m_da h' = m_da h ++ [ER_JSON_DOCUMENT_TOO_DEEP]).
Proof.
  induction m_v as [|x m_v IH]; intros Hfed h Hstate Htop.
  - split; [intros _; exists h; repeat split; assumption|]. intros (x & [] & _).
  - assert (Hready : ready h) by (unfold ready; rewrite Hstate; exact Htop).
    assert (Hfed' : forall y, In y m_v -> value_fed y)
      by (intros; apply Hfed; right; assumption).
    destruct (Hfed x (or_introl eq_refl) h Hready) as [Hwithin Hexceeded].
    cbn [flat_map]. rewrite feed_app.
    destruct (le_lt_dec (m_depth h + depth x) JSON_DOCUMENT_MAX_DEPTH) as [Hle|Hgt].
    + destruct (Hwithin Hle) as (h1 & -> & Hd1 & Hda1 & Hs1 & Hshape1).
      rewrite Hstate in Hs1. cbn [next_state] in Hs1.
      destruct (IH Hfed' h1 Hs1 (shape_top_array _ _ Hshape1 Htop)) as [IHin IHex].
      rewrite Hd1, Hda1 in *. split.
      * intros Hall.
        destruct IHin as (h2 & -> & Hd2 & Hda2 & Hs2 & Hshape2);
          [intros; apply Hall; right; assumption|].
        exists h2. rewrite length_app. repeat split; try congruence.
      * intros (y & [<-|Hy] & Hdeep); [lia|].
        destruct IHex as (n & h2 & -> & Hda2); [eauto|]. eauto.
    + destruct (Hexceeded Hgt) as (n & h1 & -> & Hda1). split.
      * intros Hall. specialize (Hall x (or_introl eq_refl)). lia.
      * intros _. eauto.
Qed.

Lemma handle_key_within (h : Rapid_json_handler) (k : string) :
  (m_depth h + 1 <= JSON_DOCUMENT_MAX_DEPTH)%nat ->
  handle h (Key k) =
  (true, mk_handler expect_object_value (m_dom_as_built h) (m_open h) (m_depth h) k
                    (m_da h ++ [])).
Proof.
  intros Hd. cbn [handle]. rewrite (check_json_depth_within _ Hd). reflexivity.
Qed.

Lemma handle_key_exceeded (h : Rapid_json_handler) (k : string) :
  (JSON_DOCUMENT_MAX_DEPTH < m_depth h + 1)%nat ->
  exists h', handle h (Key k) = (false, h') /\
             m_da h' = m_da h ++ [ER_JSON_DOCUMENT_TOO_DEEP].
Proof.
  intros Hd. cbn [handle]. rewrite (check_json_depth_exceeded _ Hd).
  eexists. split; reflexivity.
Qed.

(** The members of an object, fed to a handler inside the object. *)
Lemma members_fed (m_map : Json_object_map) :
  (forall k x, In (k, x) m_map -> value_fed x) ->
  forall h,
    m_state h = expect_object_key ->
    (exists members pl parents, m_open h = (Json_object members, pl) :: parents) ->
    let events := flat_map (fun kv => Key (fst kv) :: events_of (snd kv)) m_map in
    ((forall k x, In (k, x) m_map ->
                  (m_depth h + depth x <= JSON_DOCUMENT_MAX_DEPTH)%nat) ->
     exists h', feed h events = (length events, true, h') /\
                m_depth h' = m_depth h /\ m_da h' = m_da h /\
                m_state h' = expect_object_key /\
                shape (m_open h') = shape (m_open h)) /\
    ((exists k x, In (k, x) m_map /\
                  (JSON_DOCUMENT_MAX_DEPTH < m_depth h + depth x)%nat) ->
     exists n h', feed h events = (n, false, h') /\
                  m_da h' = m_da h ++ [ER_JSON_DOCUMENT_TOO_DEEP]).
Proof.
  induction m_map as [|[k x] m_map IH]; intros Hfed h Hstate Htop events.
  - split; [intros _; exists h; repeat split; assumption|].
    intros (k & x & [] & _).
  - assert (Hfed' : forall k' y, In (k', y) m_map -> value_fed y)
      by (intros; eapply Hfed; right; eassumption).
    subst events. cbn [flat_map fst snd app feed].
    pose proof (depth_pos x) as Hpos.
    destruct (le_lt_dec (m_depth h + 1) JSON_DOCUMENT_MAX_DEPTH) as [Hkey|Hkey].
    2:{ destruct (handle_key_exceeded h k Hkey) as (h' & -> & Hda). split.
        - intros Hall. specialize (Hall k x (or_introl eq_refl)). lia.
        - intros _. eauto. }
    rewrite (handle_key_within h k Hkey), app_nil_r.
    set (hk := mk_handler expect_object_value (m_dom_as_built h) (m_open h)
                          (m_depth h) k (m_da h)).
    assert (Hready : ready hk) by (unfold ready; exact Htop).
    destruct (Hfed k x (or_introl eq_refl) hk Hready) as [Hwithin Hexceeded].
    rewrite feed_app. cbn [m_depth m_da m_state m_open hk] in *.
    destruct (le_lt_dec (m_depth h + depth x) JSON_DOCUMENT_MAX_DEPTH) as [Hle|Hgt].
    + destruct (Hwithin Hle) as (h1 & -> & Hd1 & Hda1 & Hs1 & Hshape1).
      cbn [m_depth m_da m_state m_open hk next_state] in *.
      destruct (IH Hfed' h1 Hs1 (shape_top_object _ _ Hshape1 Htop)) as [IHin IHex].
      cbv zeta in IHin, IHex. rewrite Hd1, Hda1 in *. split.
      * intros Hall.
        destruct IHin as (h2 & -> & Hd2 & Hda2 & Hs2 & Hshape2);
          [intros; eapply Hall; right; eassumption|].
        exists h2. cbn [length]. rewrite length_app. repeat split; try congruence.
      * intros (k' & y & [[= <- <-]|Hy] & Hdeep); [lia|].
        destruct IHex as (n & h2 & -> & Hda2); [eauto|]. eauto.
    + destruct (Hexceeded Hgt) as (n & h1 & -> & Hda1). split.
      * intros Hall. specialize (Hall k x (or_introl eq_refl)). lia.
      * intros _. eauto.
Qed.

Lemma start_container_within (h : Rapid_json_handler) (c : Json_dom) (state : enum_state) :
  ready h -> (m_depth h + 1 <= JSON_DOCUMENT_MAX_DEPTH)%nat ->
  exists h2 pl open1,
    start_container h c state = (true, h2) /\
    m_state h2 = state /\ m_depth h2 = S (m_depth h) /\ m_da h2 = m_da h /\
    m_open h2 = (c, pl) :: open1 /\ shape open1 = shape (m_open h).
Proof.
  intros Hready Hd. unfold start_container.
  destruct (seeing_value_within h c Hready Hd)
    as (h1 & pl & -> & (Hd1 & Hda1 & _ & Hshape1) & _).
  eexists _, _, _. split; [reflexivity|]. cbn. rewrite Hd1. auto.
Qed.

Lemma start_container_exceeded (h : Rapid_json_handler) (c : Json_dom)
                               (state : enum_state) :
  (JSON_DOCUMENT_MAX_DEPTH < m_depth h + 1)%nat ->
  exists h2, start_container h c state = (false, h2) /\
             m_da h2 = m_da h ++ [ER_JSON_DOCUMENT_TOO_DEEP].
Proof.
  intros Hd. unfold start_container.
  destruct (seeing_value_exceeded h c Hd) as (h1 & -> & Hda & _).
  eexists. split; [reflexivity|]. exact Hda.
Qed.

Lemma end_container (h h3 : Rapid_json_handler) (content : Json_dom) (pl : placement)
                    (open1 : list (Json_dom * placement)) :
  ready h ->
  m_depth h3 = S (m_depth h) -> m_da h3 = m_da h ->
  m_open h3 = (content, pl) :: open1 -> shape open1 = shape (m_open h) ->
  value_seen h (end_object_or_array h3).
Proof.
  intros Hready Hd Hda Hopen Hshape. unfold end_object_or_array, value_seen.
  rewrite Hopen, Hd, Hda. cbn [Nat.pred]. unfold ready in Hready.
  destruct open1 as [|[parent ppl] ancestors]; cbn [m_depth m_da m_state m_open].
  - destruct (m_open h) as [|f open]; [|discriminate].
    destruct (m_state h); try contradiction; try (destruct Hready as (? & ? & ? & [=])).
    repeat split.
  - destruct (m_open h) as [|[top tpl] open] eqn:Hopenh; [discriminate|].
    cbn in Hshape. injection Hshape as Htop Hrest.
    assert (Hshape' : shape ((write_back content pl parent, ppl) :: ancestors) =
                      shape ((top, tpl) :: open))
      by (cbn; rewrite write_back_type; congruence).
    destruct (m_state h); try contradiction; try discriminate.
    + destruct Hready as (elems & pl' & parents & [= -> -> ->]).
      rewrite write_back_type, Htop. repeat split. exact Hshape'.
    + destruct Hready as (members & pl' & parents & [= -> -> ->]).
      rewrite write_back_type, Htop. repeat split. exact Hshape'.
Qed.

Lemma fold_max_le {A : Type} (f : A -> nat) (l : list A) (n : nat) :
  (fold_right (fun x acc => Nat.max acc (f x)) 0%nat l <= n)%nat <->
  (forall x, In x l -> (f x <= n)%nat).
Proof.
  induction l as [|a l IH]; simpl.
  - split; [intros _ x []|lia].
  - rewrite Nat.max_lub_iff, IH. split.
    + intros [Hl Ha] x [<-|Hx]; auto.
    + intros H. split; auto.
Qed.

Lemma fold_max_gt {A : Type} (f : A -> nat) (l : list A) (n : nat) :
  (n < fold_right (fun x acc => Nat.max acc (f x)) 0%nat l)%nat ->
  exists x, In x l /\ (n < f x)%nat.
Proof.
  induction l as [|a l IH]; simpl; [lia|].
  intros H. destruct (le_lt_dec (f a) n) as [Hle|Hgt].
  - destruct IH as (x & Hx & Hn); [lia|]. eauto.
  - eauto.
Qed.

(** Every textual document is fed as [value_fed] says. *)
Lemma textual_value_fed (d : Json_dom) : textual d = true -> value_fed d.
Proof.
  induction d as [d Hd|m_v IH|m_map IH] using Json_dom_induction; intros Htext.
  - destruct d; try discriminate;
      (eapply scalar_fed; [reflexivity|reflexivity|intros h; reflexivity]).
  - cbn [textual] in Htext. rewrite forallb_forall in Htext.
    assert (Hfed : forall x, In x m_v -> value_fed x) by auto.
    intros h Hready. cbn [events_of depth feed handle].
    set (deepest := fold_right (fun child acc => Nat.max acc (depth child)) 0%nat m_v).
    destruct (le_lt_dec (m_depth h + 1) JSON_DOCUMENT_MAX_DEPTH) as [Hstart|Hstart].
    2:{ destruct (start_container_exceeded h (Json_array []) expect_array_value Hstart)
          as (h2 & -> & Hda).
        split; [lia|eauto]. }
    destruct (start_container_within h (Json_array []) expect_array_value Hready Hstart)
      as (h2 & pl & open1 & -> & Hs2 & Hd2 & Hda2 & Hopen2 & Hshape2).
    rewrite feed_app.
    destruct (elements_fed m_v Hfed h2 Hs2) as [Hin Hex]; [eauto|].
    rewrite Hd2, Hda2 in *. split; intros Hdepth.
    + destruct Hin as (h3 & -> & Hd3 & Hda3 & Hs3 & Hshape3).
      { intros x Hx.
        pose proof (proj1 (fold_max_le depth m_v deepest) (Nat.le_refl _) x Hx). lia. }
      cbn [feed handle]. eexists. split.
      * cbn [length]. rewrite length_app. reflexivity.
      * rewrite Hopen2 in Hshape3.
        destruct (m_open h3) as [|[content pl3] open3] eqn:Hopen3; [discriminate|].
        cbn in Hshape3. injection Hshape3 as _ Hrest.
        eapply end_container; eauto; try congruence.
        rewrite <- Hshape2. exact Hrest.
    + destruct (fold_max_gt depth m_v (JSON_DOCUMENT_MAX_DEPTH - S (m_depth h)))
        as (x & Hx & Hdeep); [fold deepest; lia|].
      destruct Hex as (n & h3 & -> & Hda3); [exists x; split; [assumption|lia]|].
      eauto.
  - cbn [textual] in Htext. rewrite forallb_forall in Htext.
    assert (Hfed : forall k x, In (k, x) m_map -> value_fed x).
    { intros k x Hin. apply (IH k x Hin). apply (Htext (k, x) Hin). }
    intros h Hready. cbn [events_of depth feed handle].
    set (deepest := fold_right (fun kv acc => Nat.max acc (depth (snd kv))) 0%nat m_map).
    destruct (le_lt_dec (m_depth h + 1) JSON_DOCUMENT_MAX_DEPTH) as [Hstart|Hstart].
    2:{ destruct (start_container_exceeded h (Json_object []) expect_object_key Hstart)
          as (h2 & -> & Hda).
        split; [lia|eauto]. }
    destruct (start_container_within h (Json_object []) expect_object_key Hready Hstart)
      as (h2 & pl & open1 & -> & Hs2 & Hd2 & Hda2 & Hopen2 & Hshape2).
    rewrite feed_app.
    destruct (members_fed m_map Hfed h2 Hs2) as [Hin Hex]; [eauto|].
    cbv zeta in Hin, Hex. rewrite Hd2, Hda2 in *. split; intros Hdepth.
    + destruct Hin as (h3 & -> & Hd3 & Hda3 & Hs3 & Hshape3).
      { intros k x Hx.
        pose proof (proj1 (fold_max_le (fun kv => depth (snd kv)) m_map deepest)
                          (Nat.le_refl _) (k, x) Hx) as Hle.
        cbn [snd] in Hle. lia. }
      cbn [feed handle]. eexists. split.
      * cbn [length]. rewrite length_app. reflexivity.
      * rewrite Hopen2 in Hshape3.
        destruct (m_open h3) as [|[content pl3] open3] eqn:Hopen3; [discriminate|].
        cbn in Hshape3. injection Hshape3 as _ Hrest.
        eapply end_container; eauto; try congruence.
        rewrite <- Hshape2. exact Hrest.
    + destruct (fold_max_gt (fun kv => depth (snd kv)) m_map
                            (JSON_DOCUMENT_MAX_DEPTH - S (m_depth h)))
        as ([k x] & Hx & Hdeep); [fold deepest; lia|].
      destruct Hex as (n & h3 & -> & Hda3);
        [exists k, x; split; [assumption|cbn [snd] in Hdeep; lia]|].
      eauto.
Qed.

(** The number of containers nested in one another. *)
Fixpoint container_nesting (d : Json_dom) : nat :=
  match d with
  | Json_array m_v =>
    1 + fold_right (fun child acc => Nat.max acc (container_nesting child)) 0%nat m_v
  | Json_object m_map =>
    1 + fold_right (fun kv acc => Nat.max acc (container_nesting (snd kv))) 0%nat m_map
  | _ => 0
  end.

Lemma container_nesting_depth (d : Json_dom) : (container_nesting d <= depth d)%nat.
Proof.
  induction d as [d Hd|m_v IH|m_map IH] using Json_dom_induction.
  - destruct d; try discriminate; simpl; lia.
  - cbn [container_nesting depth]. apply le_n_S.
    apply fold_max_le. intros x Hx. specialize (IH x Hx).
    pose proof (proj1 (fold_max_le depth m_v _) (Nat.le_refl _) x Hx). lia.
  - cbn [container_nesting depth]. apply le_n_S.
    apply (fold_max_le (fun kv => container_nesting (snd kv))). intros [k x] Hx.
    specialize (IH k x Hx).
    pose proof (proj1 (fold_max_le (fun kv => depth (snd kv)) m_map _)
                      (Nat.le_refl _) (k, x) Hx) as Hle.
    cbn [snd] in *. lia.
Qed.

(** The text of [n] opening brackets. *)
Definition brackets (n : nat) : string := string_of_list_ascii (repeat "["%char n).

End Dom_properties.

(** ** Partial update *)

Section Partial_update_properties.
Context `{DL : Decimal_library} {Value : Type}.
Context (type : Value -> json_binary.enum_type)
        (value_field_type : Value -> enum_field_types)
        (element_count : Value -> nat)
        (element : Value -> nat -> Value)
        (lookup : Value -> string -> Value)
        (lookup_index : Value -> string -> nat)
        (large_format : Value -> bool)
        (space_needed : @any_wrapper DL Value -> bool -> option nat)
        (has_space : Value -> nat -> nat -> option nat)
        (raw_binary : Value -> option (list Z))
        (update_in_shadow :
           Value -> nat -> @any_wrapper DL Value -> nat -> nat -> list Z -> list Z ->
           option (list (nat * Z)))
        (parse_binary : list Z -> Value).

#[local] Abbreviation update :=
  (attempt_binary_update type value_field_type element_count element lookup
                         lookup_index large_format space_needed has_space
                         raw_binary update_in_shadow parse_binary).

#[local] Abbreviation seek_parent m_value path :=
  (seek_no_ellipsis type value_field_type element_count element lookup
                    m_value path [] 0 (length path - 1) false true).

Lemma apply_stores_length (stores : list (nat * Z)) : forall destination,
  length (apply_stores stores destination) = length destination.
Proof.
  unfold apply_stores.
  induction stores as [|st stores IH]; intros destination; [reflexivity|].
  cbn [fold_left]. rewrite IH. apply length_insert.
Qed.

(** C1 (as the code has it): when the parent of the path was found and
    the last leg does not fit its kind, nothing is replaced and the
    document is left as it is.  With an object parent and a last leg
    that is not a member, the operation declines for SET and succeeds
    for REPLACE; with an array parent and a last leg that is not a cell
    it succeeds for both; with a scalar parent it declines only for SET
    with a cell as last leg and succeeds otherwise. *)
Theorem mismatched_leg_disposition
    (m_value : Value) (field : list Z) (path : list Json_path_leg)
    (new_value : any_wrapper) (replace : bool) (result : list Z)
    (parent : Value) (more : list Value) (last_leg : Json_path_leg) :
  seek_parent m_value path = (false, parent :: more) ->
  nth_error path (length path - 1) = Some last_leg ->
  (type parent = json_binary.OBJECT -> m_leg_type last_leg <> jpl_member ->
   update m_value field path new_value replace result =
   Update_done replace false result m_value) /\
  (type parent = json_binary.ARRAY -> m_leg_type last_leg <> jpl_array_cell ->
   update m_value field path new_value replace result =
   Update_done true false result m_value) /\
  (type parent <> json_binary.OBJECT -> type parent <> json_binary.ARRAY ->
   update m_value field path new_value replace result =
   Update_done
     (replace || match m_leg_type last_leg with jpl_array_cell => false | _ => true end)
     false result m_value).
Proof.
  intros Hseek Hleg.
  assert (Hne : Nat.eqb (length path) 0 = false).
  { destruct path; [destruct (0 - 1)%nat in Hleg; discriminate|reflexivity]. }
  unfold attempt_binary_update. rewrite Hne, Hseek, Hleg.
  split; [|split].
  - intros -> Hmismatch. destruct (m_leg_type last_leg); try reflexivity. contradiction.
  - intros -> Hmismatch. destruct (m_leg_type last_leg); try reflexivity. contradiction.
  - intros Hno Hna. destruct (type parent); try reflexivity; contradiction.
Qed.

(** C2: when the update reports that the path was replaced, the wrapper
    is reparsed from the result buffer, and that buffer has the length
    of the binary document before the update: of the raw binary of the
    value when the buffer was empty, and of the buffer itself when it
    already held the document. *)
Theorem update_preserves_length
    (m_value : Value) (field : list Z) (path : list Json_path_leg)
    (new_value : any_wrapper) (replace : bool) (result : list Z)
    (result' : list Z) (m_value' : Value) :
  update m_value field path new_value replace result =
  Update_done true true result' m_value' ->
  m_value' = parse_binary result' /\
  (result = [] ->
   exists bytes, raw_binary m_value = Some bytes /\ length result' = length bytes) /\
  (result <> [] -> length result' = length result).
Proof.
  assert (Helement : forall parent element_pos,
             update_element large_format space_needed has_space raw_binary
                            update_in_shadow parse_binary m_value field parent
                            element_pos new_value result =
             Update_done true true result' m_value' ->
             m_value' = parse_binary result' /\
             (result = [] ->
              exists bytes, raw_binary m_value = Some bytes /\
                            length result' = length bytes) /\
             (result <> [] -> length result' = length result)).
  { intros parent element_pos. unfold update_element.
    destruct (space_needed new_value (large_format parent)) as [needed|];
      [|discriminate].
    destruct (if Nat.ltb 0 needed then has_space parent element_pos needed
              else Some 0%nat) as [data_offset|]; [|discriminate].
    destruct result as [|b result].
    - destruct (raw_binary m_value) as [bytes|]; [|discriminate].
      cbn [app].
      destruct (update_in_shadow parent element_pos new_value data_offset needed
                                 field bytes) as [stores|]; [|discriminate].
      intros [= <- <-]. split; [reflexivity|]. split; [|contradiction].
      intros _. exists bytes. split; [reflexivity|]. apply apply_stores_length.
    - destruct (update_in_shadow parent element_pos new_value data_offset needed
                                 (b :: result) (b :: result)) as [stores|];
        [|discriminate].
      intros [= <- <-]. split; [reflexivity|]. split; [discriminate|].
      intros _. apply apply_stores_length. }
  unfold attempt_binary_update.
  destruct (Nat.eqb (length path) 0); [discriminate|].
  destruct (seek_parent m_value path) as [err hits].
  destruct err; [discriminate|].
  destruct hits as [|parent more]; [discriminate|].
  destruct (nth_error path (length path - 1)) as [last_leg|]; [|discriminate].
  destruct (type parent); try discriminate.
  - destruct (m_leg_type last_leg); try discriminate.
    destruct (Nat.eqb _ _); [discriminate|]. apply Helement.
  - destruct (m_leg_type last_leg); try discriminate.
    destruct (negb _); [discriminate|]. apply Helement.
Qed.

End Partial_update_properties.

(** ** The integer decimal library keeps the contract *)

Lemma inject_Z_eq (a b : Z) : (inject_Z a == inject_Z b)%Q <-> a = b.
Proof. unfold Qeq, inject_Z. simpl. lia. Qed.

#[export] Instance Integer_decimals_laws : @Decimal_laws Integer_decimals.
Proof.
  assert (Hp : 0 < 2 ^ 1074) by (apply Z.pow_pos_nonneg; lia).
  constructor; cbn [my_decimal dec_value dec_sign my_decimal_is_zero my_decimal_cmp
                    longlong2decimal ulonglong2decimal double2decimal decimal2double
                    Integer_decimals].
  - intros a b. rewrite (Z.compare_antisym b a). destruct (b ?= a); reflexivity.
  - intros a b _. unfold Qcompare, inject_Z. cbn [Qnum Qden].
    rewrite !Z.mul_1_r. reflexivity.
  - intros a. rewrite Z.eqb_eq. rewrite (inject_Z_eq a 0). reflexivity.
  - intros a _. rewrite Z.ltb_lt. unfold Qlt, inject_Z. cbn [Qnum Qden]. lia.
  - intros b. reflexivity.
  - intros b. reflexivity.
  - intros d. destruct (d_scaled d mod 2 ^ 1074 =? 0); discriminate.
  - intros d. destruct (Z.eqb_spec (d_scaled d mod 2 ^ 1074) 0) as [E|N];
      [|discriminate].
    intros _. cbn [snd]. unfold double_value, Qeq, inject_Z. cbn [Qnum Qden].
    rewrite two_pow_1074.
    pose proof (Z.div_mod (d_scaled d) (2 ^ 1074)). lia.
  - intros d a Heq. apply Qeq_sym, double_value_eq_int in Heq.
    destruct (Z.eqb_spec (d_scaled d mod 2 ^ 1074) 0) as [E|N]; [reflexivity|].
    exfalso. apply N. rewrite Heq. apply Z.mod_mul. lia.
  - intros d. destruct (Z.eqb_spec (d_scaled d mod 2 ^ 1074) 0) as [E|N];
      [discriminate|].
    intros _. cbn [snd]. unfold double_value, Qlt, Qabs, inject_Z. cbn [Qnum Qden].
    rewrite two_pow_1074, Z.mul_1_r.
    pose proof (Z.quot_rem' (d_scaled d) (2 ^ 1074)) as Hqr.
    pose proof (Z.rem_bound_abs (d_scaled d) (2 ^ 1074)) as Hb.
    assert (Hrem : Z.rem (d_scaled d) (2 ^ 1074) <> 0).
    { intros Hr. apply N. apply Z.rem_divide in Hr; [|lia].
      apply Z.mod_divide; [lia|exact Hr]. }
    pose proof (Z.rem_sign_mul (d_scaled d) (2 ^ 1074)) as Hsign.
    pose proof (Z.quot_abs (d_scaled d) (2 ^ 1074)) as Hqa.
    pose proof (Z.rem_abs (d_scaled d) (2 ^ 1074)) as Hra.
    pose proof (Z.quot_rem' (Z.abs (d_scaled d)) (Z.abs (2 ^ 1074))) as Hqr'.
    rewrite Hqa, Hra in Hqr' by lia.
    rewrite (Z.abs_eq (2 ^ 1074)) in Hqr' by lia. nia.
  - intros d a. destruct (d_scaled d mod 2 ^ 1074 =? 0); discriminate.
  - intros a. apply double_of_int_magnitude.
  - intros a b Heq. apply (proj1 (inject_Z_eq a b)) in Heq. subst. reflexivity.
  - intros a d Hd Heq. apply double_of_int_exact; [exact Hd|].
    apply double_value_eq_int. apply Qeq_sym. exact Heq.
  - intros a b Heq. apply (proj1 (inject_Z_eq a b)) in Heq. subst. reflexivity.
Qed.

(** ** The properties at concrete inputs *)

(** The update of the byte-array reader. *)
Definition byte_array_update_in_place :=
  attempt_binary_update
    byte_array_type (fun _ => 0) byte_array_count byte_array_element
    (fun _ _ => Byte_error) (fun v _ => byte_array_count v) (fun _ => false)
    byte_array_space_needed (fun _ _ _ => None) byte_array_raw
    byte_array_update Byte_array.

Definition member_leg (name : string) : Json_path_leg :=
  mk_leg jpl_member name 0 false 0 false.

Definition cell_leg (index : nat) : Json_path_leg :=
  mk_leg jpl_array_cell EmptyString index false index false.

Definition new_uint (u : Z) : @any_wrapper Integer_decimals byte_array_value :=
  Dom_wrapper (Json_wrapper_of_dom (Some (Json_uint u))).

(** C1 fails as stated: with an array as parent and a member as last
    leg, SET (replace = false) does not decline; it reports success
    without a replacement. *)
Lemma mismatched_leg_SET_array_parent :
  byte_array_type (Byte_array [1; 2]) = json_binary.ARRAY /\
  m_leg_type (member_leg "a") <> jpl_array_cell /\
  seek_no_ellipsis byte_array_type (fun _ => 0) byte_array_count byte_array_element
                   (fun _ _ => Byte_error) (Byte_array [1; 2]) [member_leg "a"]
                   [] 0 0 false true = (false, [Byte_array [1; 2]]) /\
  byte_array_update_in_place (Byte_array [1; 2]) [1; 2] [member_leg "a"]
                             (new_uint 7) false [] =
  Update_done true false [] (Byte_array [1; 2]).
Proof.
  split; [reflexivity|]. split; [discriminate|]. split; reflexivity.
Qed.

Lemma mismatched_leg_disposition_witness :
  byte_array_update_in_place (Byte_array [1; 2]) [1; 2] [member_leg "a"]
                             (new_uint 7) false [] =
  Update_done true false [] (Byte_array [1; 2]).
Proof.
  refine (proj1 (proj2 (mismatched_leg_disposition
                          byte_array_type (fun _ => 0) byte_array_count
                          byte_array_element (fun _ _ => Byte_error)
                          (fun v _ => byte_array_count v) (fun _ => false)
                          byte_array_space_needed (fun _ _ _ => None) byte_array_raw
                          byte_array_update Byte_array
                          (Byte_array [1; 2]) [1; 2] [member_leg "a"] (new_uint 7)
                          false [] (Byte_array [1; 2]) [] (member_leg "a") _ _)) _ _).
  - reflexivity.
  - reflexivity.
  - reflexivity.
  - discriminate.
Defined.

Lemma update_preserves_length_witness :
  byte_array_update_in_place (Byte_array [1; 2; 3]) [1; 2; 3] [cell_leg 1]
                             (new_uint 9) true [] =
  Update_done true true [1; 9; 3] (Byte_array [1; 9; 3]) /\
  length [1; 9; 3] = length [1; 2; 3].
Proof.
  split; [reflexivity|].
  destruct (update_preserves_length
              byte_array_type (fun _ => 0) byte_array_count
              byte_array_element (fun _ _ => Byte_error)
              (fun v _ => byte_array_count v) (fun _ => false)
              byte_array_space_needed (fun _ _ _ => None) byte_array_raw
              byte_array_update Byte_array
              (Byte_array [1; 2; 3]) [1; 2; 3] [cell_leg 1] (new_uint 9) true []
              [1; 9; 3] (Byte_array [1; 9; 3]) eq_refl) as (_ & Hempty & _).
  destruct (Hempty eq_refl) as (bytes & Hraw & Hlen).
  injection Hraw as <-. exact Hlen.
Defined.

Lemma add_alias_duplicate_key_witness :
  let O : @Json_object_map Integer_decimals :=
    [("a"%string, Json_null); ("bb"%string, Json_int 2)] in
  map_sorted O = true /\ get O "bb" = Some (Json_int 2) /\
  add_alias O "bb" (Some (Json_int 7)) = (false, O).
Proof.
  intros O. split; [reflexivity|]. split; [reflexivity|].
  exact (proj1 (add_alias_duplicate_key O "bb" (Json_int 7) (Json_int 2)
                                        eq_refl eq_refl)).
Defined.

Lemma merge_doms_objects_or_arrays_witness :
  exists m : @Json_object_map Integer_decimals,
    merge_doms merge_left merge_right = Some (Json_object m) /\
    get m "b" = merge_doms (Json_object [("x"%string, Json_int 1)])
                           (Json_object [("y"%string, Json_int 2)]).
Proof.
  destruct (proj1 (@merge_doms_objects_or_arrays Integer_decimals)
                  [("a"%string, Json_int 1);
                   ("b"%string, Json_object [("x"%string, Json_int 1)])]
                  [("b"%string, Json_object [("y"%string, Json_int 2)]);
                   ("c"%string, Json_int 3)] eq_refl)
    as (m & Hmerge & Hget & _).
  exists m. split; [exact Hmerge|]. exact (Hget "b"%string).
Defined.

Lemma compare_antisymmetric_trichotomous_precedence_witness :
  compare (Json_int 1) (Json_string "a") = - compare (Json_string "a") (Json_int 1).
Proof.
  exact (proj1 (@compare_antisymmetric_trichotomous_precedence
                  Integer_decimals Integer_decimals_laws)
               (Json_int 1) (Json_string "a")).
Defined.

Lemma compare_double_int_two_steps_witness :
  is_double double_1_0 = true /\
  (compare (Json_double double_1_0) (Json_int 1) = 0 <->
   (double_value double_1_0 == inject_Z 1)%Q).
Proof.
  split; [vm_compute; reflexivity|].
  refine (proj2 (proj2 (proj2 (proj2
            (proj1 (@compare_double_int_two_steps Integer_decimals Integer_decimals_laws)
                   double_1_0 1)))) _).
  vm_compute. reflexivity.
Defined.

Lemma equal_scalars_hash_equal_witness :
  compare (Json_int 1) (Json_double double_1_0) = 0 /\
  forall hash_val : Z,
    make_hash_key (Json_int 1) hash_val = make_hash_key (Json_double double_1_0) hash_val.
Proof.
  split; [vm_compute; reflexivity|].
  refine (proj1 (@equal_scalars_hash_equal Integer_decimals Integer_decimals_laws)
                (Json_int 1) (Json_double double_1_0) _ _ _ _ _).
  - reflexivity.
  - reflexivity.
  - reflexivity.
  - vm_compute. reflexivity.
  - vm_compute. reflexivity.
Defined.

(** ** Sort keys *)

Section Sort_key_properties.

(** The key holds [bytes]: they are what has been written so far. *)
Definition holds (k : Wrapper_sort_key) (bytes : list Z) : Prop :=
  length (m_buffer k) = m_length k /\
  m_pos k = length bytes /\
  take (m_pos k) (m_buffer k) = bytes /\
  (m_pos k <= m_length k)%nat.

Lemma holds_new (to : list Z) (to_length : nat) :
  length to = to_length -> holds (mk_sort_key to to_length 0) [].
Proof. intros H. repeat split; cbn; auto. lia. Qed.

Lemma store_bytes_spec (bytes : list Z) : forall (buf : list Z) (pos : nat),
  (pos + length bytes <= length buf)%nat ->
  length (store_bytes buf pos bytes) = length buf /\
  take (pos + length bytes) (store_bytes buf pos bytes) = take pos buf ++ bytes.
Proof.
  induction bytes as [|b bytes IH]; intros buf pos Hfit; cbn [store_bytes length] in *.
  - rewrite Nat.add_0_r, app_nil_r. auto.
  - destruct (IH (<[pos := b]> buf) (S pos)) as [Hlen Htake];
      [rewrite length_insert; lia|].
    rewrite length_insert in Hlen. split; [exact Hlen|].
    replace (pos + S (length bytes))%nat with (S pos + length bytes)%nat by lia.
    rewrite Htake.
    rewrite (take_S_r _ _ b) by (apply list_lookup_insert_eq; lia).
    rewrite take_insert_ge by lia. rewrite <- app_assoc. reflexivity.
Qed.

Lemma holds_store (k : Wrapper_sort_key) (bs bytes : list Z) :
  holds k bs -> (length bs + length bytes <= m_length k)%nat ->
  holds (mk_sort_key (store_bytes (m_buffer k) (m_pos k) bytes) (m_length k)
                     (m_pos k + length bytes))
        (bs ++ bytes).
Proof.
  intros (Hlen & Hpos & Htake & Hle) Hfit.
  destruct (store_bytes_spec bytes (m_buffer k) (m_pos k)) as [Hlen' Htake'];
    [lia|].
  repeat split; cbn [m_buffer m_length m_pos].
  - congruence.
  - rewrite length_app. lia.
  - rewrite Htake', Htake. reflexivity.
  - lia.
Qed.

Lemma holds_append (k : Wrapper_sort_key) (bs : list Z) (ch : Z) :
  holds k bs -> (length bs < m_length k)%nat ->
  holds (key_append k ch) (bs ++ [ch]) /\ m_length (key_append k ch) = m_length k.
Proof.
  intros Hk Hfit. pose proof Hk as (Hlen & Hpos & Htake & Hle).
  unfold key_append.
  destruct (Nat.ltb_spec (m_pos k) (m_length k)); [|lia].
  split; [|reflexivity].
  pose proof (holds_store k bs [ch] Hk) as Hs. cbn [store_bytes length] in Hs.
  rewrite !Nat.add_1_r in Hs. apply Hs. lia.
Qed.

Lemma copy_integer_length (to_length : nat) (from : list Z) (is_unsigned : bool) :
  (to_length <= length from)%nat ->
  length (copy_integer to_length from is_unsigned) = to_length.
Proof.
  intros H. unfold copy_integer.
  rewrite (Nat.min_r _ _ H).
  assert (Hl : length (rev (drop (length from - to_length) from)) = to_length)
    by (rewrite length_rev, length_drop; lia).
  destruct (rev (drop (length from - to_length) from)); cbn in *; lia.
Qed.

Lemma holds_copy_int (k : Wrapper_sort_key) (bs from : list Z)
                     (target_length : nat) (is_unsigned : bool) :
  holds k bs -> (length bs + target_length <= m_length k)%nat ->
  (target_length <= length from)%nat ->
  holds (copy_int k target_length from is_unsigned)
        (bs ++ copy_integer target_length from is_unsigned) /\
  m_length (copy_int k target_length from is_unsigned) = m_length k.
Proof.
  intros Hk Hfit Hfrom. pose proof Hk as (Hlen & Hpos & Htake & Hle).
  unfold copy_int, remaining.
  assert (Hmin : Nat.min (m_length k - m_pos k) target_length = target_length) by lia.
  rewrite Hmin. split; [|reflexivity].
  destruct (Nat.eqb_spec target_length 0) as [->|Hnz].
  - assert (Hnil : copy_integer 0 from is_unsigned = []).
    { pose proof (copy_integer_length 0 from is_unsigned ltac:(lia)) as Hl.
      destruct (copy_integer 0 from is_unsigned); [reflexivity|discriminate]. }
    rewrite Hnil, app_nil_r, Nat.add_0_r. destruct k; exact Hk.
  - pose proof (holds_store k bs (copy_integer target_length from is_unsigned) Hk) as Hs.
    rewrite copy_integer_length in Hs by assumption. apply Hs. lia.
Qed.

Lemma holds_pad_till (k : Wrapper_sort_key) (bs : list Z) (pad_character : Z) (pos : nat) :
  holds k bs -> (length bs <= pos)%nat -> (pos <= m_length k)%nat ->
  holds (pad_till k pad_character pos)
        (bs ++ repeat pad_character (pos - length bs)) /\
  m_length (pad_till k pad_character pos) = m_length k.
Proof.
  intros Hk Hpos Hfit. pose proof Hk as (Hlen & Hp & Htake & Hle).
  unfold pad_till, remaining.
  destruct (Nat.ltb_spec pos (m_pos k)); [lia|].
  assert (Hmin : Nat.min (m_length k - m_pos k) (pos - m_pos k) = (pos - length bs)%nat)
    by lia.
  rewrite Hmin. split; [|reflexivity].
  pose proof (holds_store k bs (repeat pad_character (pos - length bs)) Hk) as Hs.
  rewrite repeat_length in Hs. apply Hs. lia.
Qed.

Lemma holds_append_str_and_len (k : Wrapper_sort_key) (bs str : list Z) (len : nat) :
  holds k bs -> length str = len -> (length bs + len <= m_length k)%nat ->
  holds (append_str_and_len k str len) (bs ++ str).
Proof.
  intros Hk Hstr Hfit. pose proof Hk as (Hlen & Hp & Htake & Hle).
  unfold append_str_and_len, remaining.
  destruct (Nat.leb_spec len (m_length k - m_pos k)); [|lia].
  rewrite Nat.sub_0_r.
  assert (Hmin : Nat.min len (m_length k - m_pos k) = len) by lia.
  rewrite Hmin, <- Hstr, firstn_all, Hstr.
  pose proof (holds_store k bs str Hk) as Hs. rewrite Hstr in Hs.
  specialize (Hs Hfit).
  destruct (Nat.eqb_spec (m_length k - m_pos k) 0); [exact Hs|].
  unfold copy_int, remaining. cbn [m_buffer m_length m_pos].
  rewrite Nat.min_0_r. cbn [Nat.eqb]. rewrite Nat.add_0_r. exact Hs.
Qed.

(** *** The order of keys *)

(** [memcmp] over the shorter key, then the shorter key first: the order
    of [compare_json_strings] on the written bytes of two keys. *)
Definition key_order (k1 k2 : list Z) : Z :=
  compare_json_strings k1 (length k1) k2 (length k2).

(** The first byte at which two keys differ is smaller in the first. *)
Definition lex_lt (k1 k2 : list Z) : Prop :=
  exists p x y r1 r2, k1 = p ++ x :: r1 /\ k2 = p ++ y :: r2 /\ x < y.

Lemma key_order_app (p a b : list Z) :
  key_order (p ++ a) (p ++ b) = key_order a b.
Proof.
  unfold key_order, compare_json_strings. rewrite !length_app.
  induction p as [|c p IH]; [reflexivity|].
  cbn [length app Nat.add Nat.min memcmp]. rewrite Z.eqb_refl.
  rewrite <- IH. unfold compare_numbers. cbn. reflexivity.
Qed.

Lemma key_order_refl (k : list Z) : key_order k k = 0.
Proof.
  rewrite <- (app_nil_r k) at 1 2. rewrite key_order_app. reflexivity.
Qed.

Lemma key_order_head (x y : Z) (r1 r2 : list Z) :
  x <> y -> key_order (x :: r1) (y :: r2) = x - y.
Proof.
  intros Hne. unfold key_order, compare_json_strings.
  cbn [length Nat.min memcmp].
  destruct (Z.eqb_spec x y); [contradiction|].
  destruct (Z.eqb_spec (x - y) 0); [lia|reflexivity].
Qed.

Lemma key_order_prefix (k r : list Z) (z : Z) :
  key_order k (k ++ z :: r) = -1 /\ key_order (k ++ z :: r) k = 1.
Proof.
  rewrite <- (app_nil_r k) at 1 4. rewrite !key_order_app.
  split; reflexivity.
Qed.

Lemma lex_lt_key_order (k1 k2 : list Z) :
  lex_lt k1 k2 -> Z.sgn (key_order k1 k2) = -1 /\ Z.sgn (key_order k2 k1) = 1.
Proof.
  intros (p & x & y & r1 & r2 & -> & -> & Hlt).
  rewrite !key_order_app, !key_order_head by lia. lia.
Qed.

Lemma lex_lt_head (x y : Z) (r1 r2 : list Z) : x < y -> lex_lt (x :: r1) (y :: r2).
Proof. intros H. exists [], x, y, r1, r2. auto. Qed.

Lemma lex_lt_app_l (p a b : list Z) : lex_lt a b -> lex_lt (p ++ a) (p ++ b).
Proof.
  intros (q & x & y & r1 & r2 & -> & -> & Hlt).
  exists (p ++ q), x, y, r1, r2. rewrite <- !app_assoc. auto.
Qed.

Lemma lex_lt_app_r (a b r1 r2 : list Z) : lex_lt a b -> lex_lt (a ++ r1) (b ++ r2).
Proof.
  intros (q & x & y & s1 & s2 & -> & -> & Hlt).
  exists q, x, y, (s1 ++ r1), (s2 ++ r2). rewrite <- !app_assoc. auto.
Qed.

Lemma lex_lt_map (f : Z -> Z) (a b : list Z) :
  (forall x y, x < y -> f y < f x) ->
  lex_lt a b -> lex_lt (map f b) (map f a).
Proof.
  intros Hf (q & x & y & s1 & s2 & -> & -> & Hlt).
  exists (map f q), (f y), (f x), (map f s2), (map f s1).
  rewrite !map_app. cbn. auto.
Qed.

(** *** Decimal digits *)

Definition is_digit (c : Z) : Prop := 48 <= c <= 57.

Lemma decimal_digits_rev_digits (fuel : nat) : forall n : Z,
  0 <= n -> Forall is_digit (decimal_digits_rev fuel n).
Proof.
  induction fuel as [|fuel IH]; intros n Hn; cbn [decimal_digits_rev]; [constructor|].
  constructor.
  - unfold is_digit. pose proof (Z.mod_pos_bound n 10). lia.
  - destruct (n / 10 =? 0); [constructor|].
    apply IH. apply Z.div_pos; lia.
Qed.

Lemma decimal_digits_rev_length (fuel : nat) : forall n : Z,
  (length (decimal_digits_rev fuel n) <= fuel)%nat.
Proof.
  induction fuel as [|fuel IH]; intros n; cbn [decimal_digits_rev length]; [lia|].
  destruct (n / 10 =? 0); cbn [length]; [lia|].
  specialize (IH (n / 10)). lia.
Qed.

(** The most significant digit of a positive number is not zero. *)
Lemma decimal_digits_rev_leading (fuel : nat) : forall n : Z,
  0 < n < 10 ^ Z.of_nat fuel ->
  exists c r, rev (decimal_digits_rev fuel n) = c :: r /\ 49 <= c <= 57.
Proof.
  induction fuel as [|fuel IH]; intros n Hn.
  - cbn in Hn. lia.
  - cbn [decimal_digits_rev].
    rewrite Nat2Z.inj_succ, Z.pow_succ_r in Hn by lia.
    pose proof (Z.mod_pos_bound n 10 ltac:(lia)) as Hmod.
    pose proof (Z.div_mod n 10 ltac:(lia)) as Hdm.
    destruct (Z.eqb_spec (n / 10) 0) as [Hz|Hnz].
    + exists (48 + n mod 10), []. split; [reflexivity|lia].
    + assert (Hq : 0 < n / 10 < 10 ^ Z.of_nat fuel).
      { split.
        - pose proof (Z.div_pos n 10 ltac:(lia) ltac:(lia)). lia.
        - apply Z.div_lt_upper_bound; lia. }
      destruct (IH _ Hq) as (c & r & Hrev & Hc).
      exists c, (r ++ [48 + n mod 10]). cbn [rev]. rewrite Hrev. auto.
Qed.

(** More digits, larger number. *)
Lemma decimal_digits_rev_length_mono (fuel : nat) : forall n m : Z,
  0 <= n <= m ->
  (length (decimal_digits_rev fuel n) <= length (decimal_digits_rev fuel m))%nat.
Proof.
  induction fuel as [|fuel IH]; intros n m Hnm; cbn [decimal_digits_rev length]; [lia|].
  assert (Hq : 0 <= n / 10 <= m / 10).
  { split; [apply Z.div_pos; lia|apply Z.div_le_mono; lia]. }
  destruct (Z.eqb_spec (n / 10) 0); destruct (Z.eqb_spec (m / 10) 0);
    cbn [length]; try lia.
  specialize (IH _ _ Hq). lia.
Qed.

(** Numbers with equally many digits are ordered as their digits are. *)
Lemma decimal_digits_rev_lex (fuel : nat) : forall n m : Z,
  0 <= n < m -> m < 10 ^ Z.of_nat fuel ->
  length (decimal_digits_rev fuel n) = length (decimal_digits_rev fuel m) ->
  lex_lt (rev (decimal_digits_rev fuel n)) (rev (decimal_digits_rev fuel m)).
Proof.
  induction fuel as [|fuel IH]; intros n m Hnm Hm Hlen.
  - cbn in Hm. lia.
  - cbn [decimal_digits_rev] in *.
    rewrite Nat2Z.inj_succ, Z.pow_succ_r in Hm by lia.
    pose proof (Z.mod_pos_bound n 10 ltac:(lia)) as Hmodn.
    pose proof (Z.mod_pos_bound m 10 ltac:(lia)) as Hmodm.
    pose proof (Z.div_mod n 10 ltac:(lia)) as Hdn.
    pose proof (Z.div_mod m 10 ltac:(lia)) as Hdm.
    assert (Hqn : 0 <= n / 10) by (apply Z.div_pos; lia).
    assert (Hqm : m / 10 < 10 ^ Z.of_nat fuel) by (apply Z.div_lt_upper_bound; lia).
    assert (Hq : n / 10 <= m / 10) by (apply Z.div_le_mono; lia).
    destruct (Z.eq_dec (n / 10) (m / 10)) as [Heq|Hne].
    + rewrite Heq. cbn [rev]. apply lex_lt_app_l, lex_lt_head. lia.
    + cbn [rev]. apply lex_lt_app_r.
      destruct (Z.eqb_spec (n / 10) 0) as [Hz|Hnz];
        destruct (Z.eqb_spec (m / 10) 0) as [Hz'|Hnz']; try lia.
      * exfalso. destruct fuel; [cbn in Hqm; lia|].
        cbn [decimal_digits_rev length] in Hlen. discriminate.
      * apply IH; [lia|lia|]. cbn [length] in Hlen. lia.
Qed.

Lemma find_index_none (p : Z -> bool) (l : list Z) :
  Forall (fun c => p c = false) l -> find_index p l = length l.
Proof.
  induction 1 as [|c l Hc _ IH]; cbn [find_index length]; [reflexivity|].
  rewrite Hc, IH. reflexivity.
Qed.

Lemma digits_find_index (ds : list Z) (c : Z) :
  Forall is_digit ds -> ~ is_digit c -> find_index (Z.eqb c) ds = length ds.
Proof.
  intros Hds Hc. apply find_index_none.
  eapply Forall_impl; [exact Hds|]. intros x Hx. cbn.
  destruct (Z.eqb_spec c x); [subst; contradiction|reflexivity].
Qed.

(** *** The bytes of a number's key *)

(** The exponent as [copy_int] writes it: two bytes, most significant
    first, sign bit inverted. *)
Definition exponent_bytes (exp : Z) : list Z := copy_integer 2 (int2store exp) false.

Lemma exponent_bytes_nonneg (exp : Z) :
  0 <= exp < 128 -> exponent_bytes exp = [128; exp].
Proof.
  intros H. unfold exponent_bytes, copy_integer, int2store.
  cbn [int_store length Nat.min Nat.sub drop skipn rev app].
  rewrite (Z.mod_small exp (2 ^ 16)) by lia.
  rewrite (Z.mod_small exp 256) by lia.
  rewrite (Z.div_small exp 256) by lia. reflexivity.
Qed.

Lemma exponent_bytes_neg (exp : Z) :
  0 < exp < 128 -> exponent_bytes (- exp) = [127; 256 - exp].
Proof.
  intros H. unfold exponent_bytes, copy_integer, int2store.
  cbn [int_store length Nat.min Nat.sub drop skipn rev app].
  assert (Hm : (- exp) mod 2 ^ 16 = 255 * 256 + (256 - exp)).
  { symmetry. apply (Z.mod_unique _ _ (-1)); lia. }
  rewrite Hm.
  assert (Hlow : (255 * 256 + (256 - exp)) mod 256 = 256 - exp).
  { symmetry. apply (Z.mod_unique _ _ 255); lia. }
  assert (Hhigh : (255 * 256 + (256 - exp)) / 256 = 255).
  { symmetry. apply (Z.div_unique _ _ _ (256 - exp)); lia. }
  rewrite Hlow, Hhigh. reflexivity.
Qed.

Lemma exponent_bytes_length (exp : Z) : length (exponent_bytes exp) = 2%nat.
Proof. apply copy_integer_length. reflexivity. Qed.

(** A smaller exponent has the smaller bytes. *)
Lemma exponent_bytes_mono (e1 e2 : Z) :
  -128 < e1 < e2 -> e2 < 128 -> lex_lt (exponent_bytes e1) (exponent_bytes e2).
Proof.
  intros H1 H2.
  destruct (Z_lt_le_dec e1 0) as [Hn1|Hp1]; destruct (Z_lt_le_dec e2 0) as [Hn2|Hp2].
  - replace e1 with (- - e1) by lia. replace e2 with (- - e2) by lia.
    rewrite !exponent_bytes_neg by lia.
    apply (lex_lt_app_l [127]), lex_lt_head. lia.
  - replace e1 with (- - e1) by lia.
    rewrite exponent_bytes_neg, exponent_bytes_nonneg by lia.
    apply lex_lt_head. lia.
  - lia.
  - rewrite !exponent_bytes_nonneg by lia.
    apply (lex_lt_app_l [128]), lex_lt_head. lia.
Qed.

(** The byte written for a digit of the number. *)
Definition digit_byte (negative : bool) (ch : Z) : Z :=
  if negative then (57 - ch + 48) mod 256 else ch.

Lemma digit_byte_inverted (ds : list Z) :
  Forall is_digit ds -> map (digit_byte true) ds = map (fun ch => 105 - ch) ds.
Proof.
  induction 1 as [|c ds Hc _ IH]; cbn [map]; [reflexivity|].
  rewrite IH. unfold digit_byte. unfold is_digit in Hc.
  rewrite Z.mod_small by lia. f_equal. lia.
Qed.

Lemma holds_digits (negative : bool) (ds : list Z) : forall (k : Wrapper_sort_key) (bs : list Z),
  holds k bs -> Forall is_digit ds -> (length bs + length ds <= m_length k)%nat ->
  let k' := fold_left
              (fun to ch =>
                 if my_isdigit ch then
                   (if negative then key_append to ((57 - ch + 48) mod 256)
                    else key_append to ch)
                 else to) ds k in
  holds k' (bs ++ map (digit_byte negative) ds) /\ m_length k' = m_length k.
Proof.
  induction ds as [|c ds IH]; intros k bs Hk Hds Hfit; cbn [fold_left map].
  - rewrite app_nil_r. auto.
  - inversion Hds as [|? ? Hc Hds']; subst. cbn [length] in Hfit.
    assert (Hd : my_isdigit c = true)
      by (unfold my_isdigit, is_digit in *; apply andb_true_iff; split; lia).
    rewrite Hd.
    destruct (holds_append k bs (digit_byte negative c) Hk ltac:(lia)) as [Hk' Hlen'].
    assert (Happ : (if negative then key_append k ((57 - c + 48) mod 256)
                    else key_append k c) = key_append k (digit_byte negative c))
      by (destruct negative; reflexivity).
    rewrite Happ.
    destruct (IH _ _ Hk' Hds') as [Hfinal Hlen''].
    { rewrite length_app. cbn [length]. lia. }
    cbn zeta in *. rewrite <- app_assoc in Hfinal. cbn [app] in Hfinal.
    split; [exact Hfinal|congruence].
Qed.

(** The key of a number with the significant digits [ds]: the tag, the
    exponent, the digits and the padding. *)
Definition number_bytes (negative : bool) (ds : list Z) : list Z :=
  let exp := Z.of_nat (length ds) - 1 in
  (if negative then JSON_KEY_NUMBER_NEG else JSON_KEY_NUMBER_POS)
    :: exponent_bytes (if negative then - exp else exp)
    ++ map (digit_byte negative) ds
    ++ repeat (if negative then 57 else 48) (MAX_NUMBER_SORT_PAD - (3 + length ds)).

Lemma MAX_NUMBER_SORT_PAD_value : MAX_NUMBER_SORT_PAD = 88%nat.
Proof. reflexivity. Qed.

Lemma is_non_zero_digit_leading (c : Z) : 49 <= c <= 57 -> is_non_zero_digit c = true.
Proof. intros H. unfold is_non_zero_digit. apply andb_true_iff. split; lia. Qed.

Lemma numeric_key_written (negative : bool) (ds : list Z) (k : Wrapper_sort_key) :
  holds k [] -> (MAX_NUMBER_SORT_PAD <= m_length k)%nat ->
  Forall is_digit ds -> (exists c r, ds = c :: r /\ 49 <= c <= 57) ->
  (length ds <= 20)%nat ->
  holds (make_json_numeric_sort_key (if negative then 45 :: ds else ds) negative k)
        (number_bytes negative ds).
Proof.
  intros Hk Hroom Hds (c & r & Hcr & Hc) Hlen.
  rewrite MAX_NUMBER_SORT_PAD_value in Hroom.
  pose proof (digits_find_index ds 101 Hds ltac:(unfold is_digit; lia)) as He.
  pose proof (digits_find_index ds 46 Hds ltac:(unfold is_digit; lia)) as Hp.
  pose proof (is_non_zero_digit_leading c Hc) as Hnz.
  assert (Hpos : (1 <= length ds)%nat) by (subst ds; cbn; lia).
  unfold make_json_numeric_sort_key, number_bytes.
  set (tag := if negative then JSON_KEY_NUMBER_NEG else JSON_KEY_NUMBER_POS).
  set (exp := Z.of_nat (length ds) - 1).
  assert (Hshape :
    let from := if negative then 45 :: ds else ds in
    let end_of_digits := find_index (Z.eqb 101) from in
    let first := find_index is_non_zero_digit (firstn end_of_digits from) in
    end_of_digits = length from /\
    first = (if negative then 1 else 0)%nat /\
    find_index (Z.eqb 46) (firstn end_of_digits from) = length from /\
    skipn first (firstn end_of_digits from) = ds /\
    length from = (if negative then S (length ds) else length ds)).
  { destruct negative; cbn zeta.
    - change (find_index (Z.eqb 101) (45 :: ds)) with (S (find_index (Z.eqb 101) ds)).
      rewrite He.
      change (firstn (S (length ds)) (45 :: ds)) with (45 :: firstn (length ds) ds).
      rewrite firstn_all.
      change (find_index (Z.eqb 46) (45 :: ds)) with (S (find_index (Z.eqb 46) ds)).
      rewrite Hp.
      change (find_index is_non_zero_digit (45 :: ds))
        with (S (find_index is_non_zero_digit ds)).
      assert (Hzero : find_index is_non_zero_digit ds = 0%nat)
        by (rewrite Hcr; cbn [find_index]; rewrite Hnz; reflexivity).
      rewrite Hzero. auto.
    - rewrite He, firstn_all, Hp.
      assert (Hzero : find_index is_non_zero_digit ds = 0%nat)
        by (rewrite Hcr; cbn [find_index]; rewrite Hnz; reflexivity).
      rewrite Hzero. auto. }
  cbn zeta in Hshape. destruct Hshape as (Hend & Hfirst & Hpoint & Hskip & Hfrom).
  rewrite Hskip, Hpoint, Hfirst, Hend.
  rewrite Nat.eqb_refl. cbn [negb].
  assert (Hne : Nat.eqb (if negative then 1%nat else 0%nat)
                        (length (if negative then 45 :: ds else ds)) = false).
  { apply Nat.eqb_neq. rewrite Hfrom. destruct negative; lia. }
  assert (Hlt : Nat.ltb (if negative then 1%nat else 0%nat)
                        (length (if negative then 45 :: ds else ds)) = true).
  { apply Nat.ltb_lt. rewrite Hfrom. destruct negative; lia. }
  rewrite Hne, Hlt.
  assert (Hexp : Z.of_nat (length (if negative then 45 :: ds else ds))
                 - Z.of_nat (if negative then 1%nat else 0%nat) - 1 = exp).
  { rewrite Hfrom. unfold exp. destruct negative; lia. }
  rewrite Hexp.
  assert (Htag : (if negative then key_append k JSON_KEY_NUMBER_NEG
                  else key_append k JSON_KEY_NUMBER_POS) = key_append k tag)
    by (destruct negative; reflexivity).
  rewrite Htag.
  pose proof Hk as (Hbuf & _).
  destruct (holds_append k [] tag Hk ltac:(cbn; lia)) as [H1 L1].
  cbn [app] in H1.
  destruct (holds_copy_int _ _ (int2store (if negative then - exp else exp)) 2 false H1)
    as [H2 L2]; [cbn [length]; lia|reflexivity|].
  fold (exponent_bytes (if negative then - exp else exp)) in H2.
  pose proof (exponent_bytes_length (if negative then - exp else exp)) as Hel.
  destruct (holds_digits negative ds _ _ H2 Hds) as [H3 L3].
  { rewrite length_app. cbn [length]. lia. }
  cbn zeta in H3, L3.
  match type of H3 with holds ?k3 ?bs3 =>
    destruct (holds_pad_till k3 bs3 (if negative then 57 else 48) MAX_NUMBER_SORT_PAD H3)
      as [H4 _]
  end.
  { rewrite MAX_NUMBER_SORT_PAD_value, !length_app, length_map. cbn [length]. lia. }
  { rewrite MAX_NUMBER_SORT_PAD_value. lia. }
  rewrite !length_app, length_map in H4. cbn [length] in H4.
  rewrite Hel in H4. cbn [app] in H4. rewrite <- !app_assoc in H4.
  cbn [app Nat.add] in H4. exact H4.
Qed.

(** The key of an integer. *)
Definition number_key (n : Z) : list Z :=
  if n =? 0 then [JSON_KEY_NUMBER_ZERO]
  else number_bytes (n <? 0) (rev (decimal_digits_rev 20 (Z.abs n))).

Lemma integer_key_written (i : Z) (to : list Z) :
  - 2 ^ 63 <= i < 2 ^ 64 -> (MAX_NUMBER_SORT_PAD <= length to)%nat ->
  holds (make_json_numeric_sort_key (longlong10_to_str i) (i <? 0)
                                    (mk_sort_key to (length to) 0))
        (number_key i).
Proof.
  intros Hi Hroom. pose proof (holds_new to (length to) eq_refl) as Hk.
  unfold number_key. destruct (Z.eqb_spec i 0) as [->|Hnz].
  - apply (holds_append _ [] JSON_KEY_NUMBER_ZERO Hk).
    cbn [length m_length]. rewrite MAX_NUMBER_SORT_PAD_value in Hroom. lia.
  - assert (Hfrom : longlong10_to_str i =
                    if i <? 0 then 45 :: rev (decimal_digits_rev 20 (Z.abs i))
                    else rev (decimal_digits_rev 20 (Z.abs i))).
    { unfold longlong10_to_str. destruct (Z.ltb_spec i 0).
      - rewrite Z.abs_neq by lia. reflexivity.
      - rewrite Z.abs_eq by lia. reflexivity. }
    rewrite Hfrom. apply numeric_key_written; auto.
    + apply Forall_rev, decimal_digits_rev_digits. lia.
    + apply decimal_digits_rev_leading. change (Z.of_nat 20) with 20. lia.
    + rewrite length_rev. apply decimal_digits_rev_length.
Qed.

Lemma number_bytes_split (negative : bool) (ds : list Z) :
  number_bytes negative ds =
  [if negative then JSON_KEY_NUMBER_NEG else JSON_KEY_NUMBER_POS]
  ++ exponent_bytes (if negative then - (Z.of_nat (length ds) - 1)
                     else Z.of_nat (length ds) - 1)
  ++ map (digit_byte negative) ds
  ++ repeat (if negative then 57 else 48) (MAX_NUMBER_SORT_PAD - (3 + length ds)).
Proof. reflexivity. Qed.

(** Two numbers of the same sign and different magnitude. *)
Lemma number_bytes_mono (negative : bool) (a b : Z) :
  0 < a < b -> b < 10 ^ 20 ->
  let da := rev (decimal_digits_rev 20 a) in
  let db := rev (decimal_digits_rev 20 b) in
  if negative then lex_lt (number_bytes true db) (number_bytes true da)
  else lex_lt (number_bytes false da) (number_bytes false db).
Proof.
  intros Hab Hb da db.
  pose proof (decimal_digits_rev_length_mono 20 a b ltac:(lia)) as Hmono.
  pose proof (decimal_digits_rev_length 20 a) as Hla.
  pose proof (decimal_digits_rev_length 20 b) as Hlb.
  assert (Hda : Forall is_digit da) by (apply Forall_rev, decimal_digits_rev_digits; lia).
  assert (Hdb : Forall is_digit db) by (apply Forall_rev, decimal_digits_rev_digits; lia).
  destruct (decimal_digits_rev_leading 20 a ltac:(change (Z.of_nat 20) with 20; lia))
    as (ca & ra & Hca & _).
  assert (Hpa : (1 <= length da)%nat) by (unfold da; rewrite Hca; cbn; lia).
  assert (Hlen : length da = length (decimal_digits_rev 20 a))
    by (unfold da; apply length_rev).
  assert (Hlen' : length db = length (decimal_digits_rev 20 b))
    by (unfold db; apply length_rev).
  rewrite !number_bytes_split.
  destruct (Nat.eq_dec (length da) (length db)) as [Heq|Hne].
  - pose proof (decimal_digits_rev_lex 20 a b ltac:(lia)
                  ltac:(change (Z.of_nat 20) with 20; lia) ltac:(lia)) as Hlex.
    fold da db in Hlex. rewrite Heq.
    destruct negative; apply lex_lt_app_l, lex_lt_app_l, lex_lt_app_r.
    + rewrite !digit_byte_inverted by assumption.
      apply lex_lt_map; [intros; lia|exact Hlex].
    + unfold digit_byte. rewrite !map_id. exact Hlex.
  - destruct negative; apply lex_lt_app_l, lex_lt_app_r, exponent_bytes_mono; lia.
Qed.

(** The keys of integers are ordered as the integers are. *)
Lemma number_key_mono (n m : Z) :
  - 10 ^ 20 < n -> n < m -> m < 10 ^ 20 -> lex_lt (number_key n) (number_key m).
Proof.
  intros Hn Hnm Hm. unfold number_key.
  destruct (Z.eqb_spec n 0) as [Hn0|Hn0]; destruct (Z.eqb_spec m 0) as [Hm0|Hm0];
    try lia.
  - destruct (Z.ltb_spec m 0); [lia|]. apply lex_lt_head.
    unfold JSON_KEY_NUMBER_ZERO, JSON_KEY_NUMBER_POS. lia.
  - destruct (Z.ltb_spec n 0); [|lia]. apply lex_lt_head.
    unfold JSON_KEY_NUMBER_ZERO, JSON_KEY_NUMBER_NEG. lia.
  - destruct (Z.ltb_spec n 0); destruct (Z.ltb_spec m 0); try lia.
    + apply (number_bytes_mono true (Z.abs m) (Z.abs n)); lia.
    + apply lex_lt_head. unfold JSON_KEY_NUMBER_POS, JSON_KEY_NUMBER_NEG. lia.
    + apply (number_bytes_mono false (Z.abs n) (Z.abs m)); lia.
Qed.

(** *** The bytes of a packed temporal value *)

Lemma int_store_snoc (n : nat) : forall v : Z,
  int_store (S n) v = int_store n v ++ [(v / 256 ^ Z.of_nat n) mod 256].
Proof.
  induction n as [|n IH]; intros v.
  - cbn. rewrite Z.div_1_r. reflexivity.
  - change (int_store (S (S n)) v) with (v mod 256 :: int_store (S n) (v / 256)).
    rewrite IH. cbn [int_store app]. do 3 f_equal.
    rewrite Nat2Z.inj_succ, Z.pow_succ_r by lia.
    rewrite Z.div_div by lia. reflexivity.
Qed.

Lemma int_store_shift (n : nat) : forall v k : Z,
  int_store n (v + k * 256 ^ Z.of_nat n) = int_store n v.
Proof.
  induction n as [|n IH]; intros v k; [reflexivity|].
  cbn [int_store]. rewrite Nat2Z.inj_succ, Z.pow_succ_r by lia.
  replace (v + k * (256 * 256 ^ Z.of_nat n))
    with (v + (k * 256 ^ Z.of_nat n) * 256) by ring.
  rewrite Z.mod_add, Z.div_add by lia. rewrite IH. reflexivity.
Qed.

(** Most significant byte first, unsigned values are ordered as their
    bytes are. *)
Lemma int_store_mono (n : nat) : forall v1 v2 : Z,
  0 <= v1 < v2 -> lex_lt (rev (int_store n v1)) (rev (int_store n v2)) \/
                  v1 / 256 ^ Z.of_nat n < v2 / 256 ^ Z.of_nat n.
Proof.
  induction n as [|n IH]; intros v1 v2 Hv.
  - right. cbn. rewrite !Z.div_1_r. lia.
  - rewrite Nat2Z.inj_succ, Z.pow_succ_r by lia.
    rewrite <- !Z.div_div by lia.
    assert (Hq : v1 / 256 <= v2 / 256) by (apply Z.div_le_mono; lia).
    assert (Hq0 : 0 <= v1 / 256) by (apply Z.div_pos; lia).
    pose proof (Z.div_mod v1 256 ltac:(lia)). pose proof (Z.div_mod v2 256 ltac:(lia)).
    pose proof (Z.mod_pos_bound v1 256 ltac:(lia)).
    pose proof (Z.mod_pos_bound v2 256 ltac:(lia)).
    cbn [int_store rev].
    destruct (Z.eq_dec (v1 / 256) (v2 / 256)) as [Heq|Hne].
    + left. rewrite Heq. apply lex_lt_app_l, lex_lt_head. lia.
    + destruct (IH (v1 / 256) (v2 / 256) ltac:(lia)) as [Hlex|Hhigh].
      * left. apply lex_lt_app_r. exact Hlex.
      * right. exact Hhigh.
Qed.

Lemma lxor_sign_bit (b : Z) :
  0 <= b < 256 -> Z.lxor b 128 = if b <? 128 then b + 128 else b - 128.
Proof.
  intros Hb.
  assert (Hall : forallb (fun b => Z.lxor b 128 =? (if b <? 128 then b + 128 else b - 128))
                         (map Z.of_nat (seq 0 256)) = true) by (vm_compute; reflexivity).
  rewrite forallb_forall in Hall.
  apply Z.eqb_eq, Hall. apply in_map_iff. exists (Z.to_nat b).
  split; [lia|]. apply in_seq. lia.
Qed.

(** The packed value as [copy_int] writes it: eight bytes, most
    significant first, sign bit inverted. *)
Definition packed_bytes (t : Z) : list Z := copy_integer 8 (int8store t) false.

Lemma packed_bytes_biased (t : Z) :
  - 2 ^ 63 <= t < 2 ^ 63 -> packed_bytes t = rev (int_store 8 (t + 2 ^ 63)).
Proof.
  intros Ht. unfold packed_bytes, copy_integer, int8store.
  assert (Hl : forall v, length (int_store 8 v) = 8%nat) by reflexivity.
  rewrite Hl. change (8 - Nat.min 8 8)%nat with 0%nat. rewrite drop_0.
  rewrite !(int_store_snoc 7), !rev_app_distr. cbn [rev app].
  change (Z.of_nat 7) with 7.
  assert (Hq : forall v, 0 <= v < 2 ^ 64 -> 0 <= v / 256 ^ 7 < 256).
  { intros v Hv. split; [apply Z.div_pos; lia|apply Z.div_lt_upper_bound; lia]. }
  assert (Hshift : forall v k, int_store 7 (v + k * 256 ^ 7) = int_store 7 v)
    by (intros; apply (int_store_shift 7)).
  destruct (Z_lt_le_dec t 0) as [Hneg|Hpos].
  - assert (Hu : t mod 2 ^ 64 = t + 2 ^ 64)
      by (symmetry; apply (Z.mod_unique _ _ (-1)); lia).
    rewrite Hu.
    replace (t + 2 ^ 64) with (t + 2 ^ 63 + 128 * 256 ^ 7) by lia.
    rewrite Hshift, Z.div_add by lia.
    pose proof (Hq (t + 2 ^ 63) ltac:(lia)) as Hb.
    assert (Hsmall : (t + 2 ^ 63) / 256 ^ 7 < 128)
      by (apply Z.div_lt_upper_bound; lia).
    rewrite (Z.mod_small ((t + 2 ^ 63) / 256 ^ 7 + 128)) by lia.
    rewrite (Z.mod_small ((t + 2 ^ 63) / 256 ^ 7)) by lia.
    rewrite lxor_sign_bit by lia.
    destruct (Z.ltb_spec ((t + 2 ^ 63) / 256 ^ 7 + 128) 128); [lia|].
    f_equal. lia.
  - rewrite (Z.mod_small t (2 ^ 64)) by lia.
    replace (t + 2 ^ 63) with (t + 128 * 256 ^ 7) by lia.
    rewrite Hshift, Z.div_add by lia.
    pose proof (Hq t ltac:(lia)) as Hb.
    assert (Hsmall : t / 256 ^ 7 < 128) by (apply Z.div_lt_upper_bound; lia).
    rewrite (Z.mod_small (t / 256 ^ 7 + 128)) by lia.
    rewrite (Z.mod_small (t / 256 ^ 7)) by lia.
    rewrite lxor_sign_bit by lia.
    destruct (Z.ltb_spec (t / 256 ^ 7) 128); [reflexivity|lia].
Qed.

Lemma packed_bytes_mono (t1 t2 : Z) :
  - 2 ^ 63 <= t1 -> t1 < t2 -> t2 < 2 ^ 63 ->
  lex_lt (packed_bytes t1) (packed_bytes t2).
Proof.
  intros H1 H12 H2. rewrite !packed_bytes_biased by lia.
  destruct (int_store_mono 8 (t1 + 2 ^ 63) (t2 + 2 ^ 63) ltac:(lia)) as [Hlex|Hhigh];
    [exact Hlex|].
  exfalso. change (Z.of_nat 8) with 8 in Hhigh.
  rewrite !Z.div_small in Hhigh by lia. lia.
Qed.

Lemma packed_bytes_length (t : Z) : length (packed_bytes t) = 8%nat.
Proof. apply copy_integer_length. reflexivity. Qed.

(** *** The key of a scalar *)

Context `{DL : Decimal_library} `{SL : String_library}.

(** The bytes that [make_sort_key] has written into a buffer [to] of
    [length to] bytes: the buffer up to the returned position. *)
Definition sort_key_bytes (d : Json_dom) (to : list Z) : list Z :=
  let key := fst (make_sort_key d to (length to)) in
  take (m_pos key) (m_buffer key).

(** The scalars whose key is built in this file alone, with values in
    the range of their C++ types: a signed or unsigned 64-bit integer, a
    field type of one byte, a packed temporal value of 64 bits.  (The
    digits of a DOUBLE or DECIMAL come from the number formatting
    library; see the keys of numbers below.) *)
Definition integer_scalar (d : Json_dom) : bool :=
  match d with
  | Json_null | Json_boolean _ | Json_string _ => true
  | Json_int i => (- 2 ^ 63 <=? i) && (i <? 2 ^ 63)
  | Json_uint u => (0 <=? u) && (u <? 2 ^ 64)
  | Json_opaque mytype _ => (0 <=? mytype) && (mytype <? 256)
  | Json_datetime t m_field_type =>
    (- 2 ^ 63 <=? t) && (t <? 2 ^ 63) &&
    ((m_field_type =? MYSQL_TYPE_TIME) || (m_field_type =? MYSQL_TYPE_DATETIME) ||
     (m_field_type =? MYSQL_TYPE_DATE) || (m_field_type =? MYSQL_TYPE_TIMESTAMP))
  | _ => false
  end.

(** A buffer with room for the key of [d]: for the padded digits of a
    number and for the whole of a string. *)
Definition room_for (d : Json_dom) (to : list Z) : Prop :=
  (MAX_NUMBER_SORT_PAD <= length to)%nat /\ (2 + get_data_length d <= length to)%nat.

Definition temporal_tag (m_field_type : enum_field_types) : Z :=
  if m_field_type =? MYSQL_TYPE_DATE then JSON_KEY_DATE
  else if m_field_type =? MYSQL_TYPE_TIME then JSON_KEY_TIME
  else JSON_KEY_DATETIME.

Definition scalar_key (d : Json_dom) : list Z :=
  match d with
  | Json_null => [JSON_KEY_NULL]
  | Json_boolean b => [if b then JSON_KEY_TRUE else JSON_KEY_FALSE]
  | Json_int i => number_key i
  | Json_uint u => number_key u
  | Json_string s => JSON_KEY_STRING :: uchars s
  | Json_opaque mytype v => JSON_KEY_OPAQUE :: mytype :: uchars v
  | Json_datetime t m_field_type => temporal_tag m_field_type :: packed_bytes t
  | _ => []
  end.

Lemma holds_written (k : Wrapper_sort_key) (bs : list Z) :
  holds k bs -> take (m_pos k) (m_buffer k) = bs.
Proof. intros (_ & _ & H & _). exact H. Qed.

Lemma temporal_field_type (m_field_type : enum_field_types) :
  (m_field_type =? MYSQL_TYPE_TIME) || (m_field_type =? MYSQL_TYPE_DATETIME) ||
  (m_field_type =? MYSQL_TYPE_DATE) || (m_field_type =? MYSQL_TYPE_TIMESTAMP) = true ->
  m_field_type = MYSQL_TYPE_TIME \/ m_field_type = MYSQL_TYPE_DATETIME \/
  m_field_type = MYSQL_TYPE_DATE \/ m_field_type = MYSQL_TYPE_TIMESTAMP.
Proof.
  intros H. repeat (apply orb_true_iff in H; destruct H as [H|H]);
    apply Z.eqb_eq in H; auto.
Qed.

Lemma scalar_key_written (d : Json_dom) (to : list Z) :
  integer_scalar d = true -> room_for d to -> sort_key_bytes d to = scalar_key d.
Proof.
  intros Hd [Hpad Hdata]. pose proof Hpad as Hpad'.
  rewrite MAX_NUMBER_SORT_PAD_value in Hpad'.
  pose proof (holds_new to (length to) eq_refl) as Hk.
  unfold sort_key_bytes. apply holds_written.
  destruct d as [ |b|i|u|f|m|s|mytype v|t ft|l|l]; try discriminate Hd;
    cbn [integer_scalar] in Hd.
  - apply (holds_append _ [] _ Hk). cbn; lia.
  - apply (holds_append _ [] _ Hk). cbn; lia.
  - apply andb_true_iff in Hd. destruct Hd as [Hlo Hhi].
    apply (integer_key_written i to); [lia|assumption].
  - apply andb_true_iff in Hd. destruct Hd as [Hlo Hhi].
    pose proof (integer_key_written u to ltac:(lia) Hpad) as Hw.
    destruct (Z.ltb_spec u 0); [lia|]. exact Hw.
  - destruct (holds_append _ [] JSON_KEY_STRING Hk ltac:(cbn; lia)) as [H1 L1].
    apply (holds_append_str_and_len _ [JSON_KEY_STRING]); [exact H1|apply uchars_length|].
    rewrite L1. cbn in *. lia.
  - apply andb_true_iff in Hd. destruct Hd as [Hlo Hhi].
    destruct (holds_append _ [] JSON_KEY_OPAQUE Hk ltac:(cbn; lia)) as [H1 L1].
    destruct (holds_append _ _ (mytype mod 256) H1 ltac:(rewrite L1; cbn; lia)) as [H2 L2].
    rewrite Z.mod_small in H2, L2 by lia.
    cbn [make_sort_key json_type fst field_type]. rewrite Z.mod_small by lia.
    apply (holds_append_str_and_len _ [JSON_KEY_OPAQUE; mytype]);
      [exact H2|apply uchars_length|].
    rewrite L2, L1. cbn in *. lia.
  - apply andb_true_iff in Hd. destruct Hd as [Hrange Hft].
    apply temporal_field_type in Hft.
    destruct Hft as [-> | [-> | [-> | ->]]];
      cbn -[key_append copy_int packed_bytes int8store];
      (match goal with |- holds _ (?tag :: _) =>
         destruct (holds_append _ [] tag Hk ltac:(cbn; lia)) as [H1 L1] end;
       apply (holds_copy_int _ _ (int8store t) 8 false H1);
       [rewrite L1; cbn; lia|reflexivity]).
Qed.

(** *** Keys of different kinds *)

(** The precedence of the kind that a tag stands for. *)
Definition tag_precedence (tag : Z) : Z :=
  if tag <=? JSON_KEY_NULL then 0
  else if tag <=? JSON_KEY_NUMBER_POS then 1
  else if tag <=? JSON_KEY_STRING then 2
  else if tag <=? JSON_KEY_OBJECT then 3
  else if tag <=? JSON_KEY_ARRAY then 4
  else if tag <=? JSON_KEY_TRUE then 5
  else if tag <=? JSON_KEY_DATE then 6
  else if tag <=? JSON_KEY_TIME then 7
  else if tag <=? JSON_KEY_DATETIME then 8
  else 9.

Lemma tag_precedence_mono (t1 t2 : Z) :
  t1 <= t2 -> tag_precedence t1 <= tag_precedence t2.
Proof.
  intros H. unfold tag_precedence, JSON_KEY_NULL, JSON_KEY_NUMBER_POS, JSON_KEY_STRING,
    JSON_KEY_OBJECT, JSON_KEY_ARRAY, JSON_KEY_TRUE, JSON_KEY_DATE, JSON_KEY_TIME,
    JSON_KEY_DATETIME.
  repeat match goal with
         | |- context [?x <=? ?y] => destruct (Z.leb_spec x y)
         end; lia.
Qed.

Lemma number_key_tag (n : Z) :
  exists tag r, number_key n = tag :: r /\ tag_precedence tag = 1.
Proof.
  unfold number_key. destruct (n =? 0); [exists JSON_KEY_NUMBER_ZERO, []; auto|].
  rewrite number_bytes_split. destruct (n <? 0);
    [exists JSON_KEY_NUMBER_NEG|exists JSON_KEY_NUMBER_POS]; eexists;
    (split; [reflexivity|reflexivity]).
Qed.

Lemma scalar_key_tag (d : Json_dom) :
  integer_scalar d = true ->
  exists tag r, scalar_key d = tag :: r /\
                tag_precedence tag = precedence (json_type d).
Proof.
  intros Hd.
  destruct d as [ |b|i|u|f|m|s|mytype v|t ft|l|l]; try discriminate Hd;
    cbn [integer_scalar scalar_key] in *.
  - exists JSON_KEY_NULL, []. auto.
  - destruct b; eexists; eexists; split; reflexivity.
  - apply number_key_tag.
  - apply number_key_tag.
  - eexists; eexists; split; reflexivity.
  - eexists; eexists; split; reflexivity.
  - apply andb_true_iff in Hd. destruct Hd as [_ Hft].
    apply temporal_field_type in Hft.
    destruct Hft as [-> | [-> | [-> | ->]]]; eexists; eexists; split; reflexivity.
Qed.

Lemma scalar_keys_of_different_kinds (a b : Json_dom) :
  integer_scalar a = true -> integer_scalar b = true ->
  precedence (json_type a) <> precedence (json_type b) ->
  Z.sgn (key_order (scalar_key a) (scalar_key b)) = Z.sgn (compare a b).
Proof.
  intros Ha Hb Hne.
  destruct (scalar_key_tag a Ha) as (ta & ra & -> & Hta).
  destruct (scalar_key_tag b Hb) as (tb & rb & -> & Htb).
  rewrite (compare_by_precedence a b Hne).
  assert (Htags : ta <> tb) by congruence.
  rewrite key_order_head by assumption.
  pose proof (tag_precedence_mono ta tb) as Hab.
  pose proof (tag_precedence_mono tb ta) as Hba.
  destruct (Z.compare_spec (precedence (json_type a)) (precedence (json_type b)));
    cbn [Z_of_comparison]; lia.
Qed.

(** *** Keys of the same kind *)

Lemma compare_numbers_sgn (x y : Z) : compare_numbers x y = Z.sgn (x - y).
Proof.
  unfold compare_numbers. cbn [lt_op eq_op Comparable_Z].
  destruct (Z.ltb_spec x y); [lia|]. destruct (Z.eqb_spec x y); lia.
Qed.

Lemma ordered_keys (key : Z -> list Z) (lo hi : Z) :
  (forall x y, lo <= x -> x < y -> y < hi -> lex_lt (key x) (key y)) ->
  forall x y, lo <= x < hi -> lo <= y < hi ->
  Z.sgn (key_order (key x) (key y)) = compare_numbers x y.
Proof.
  intros Hmono x y Hx Hy. rewrite compare_numbers_sgn.
  destruct (Z.lt_trichotomy x y) as [Hlt|[->|Hgt]].
  - destruct (lex_lt_key_order _ _ (Hmono x y ltac:(lia) Hlt ltac:(lia))) as [H _].
    rewrite H. lia.
  - rewrite key_order_refl. lia.
  - destruct (lex_lt_key_order _ _ (Hmono y x ltac:(lia) Hgt ltac:(lia))) as [_ H].
    rewrite H. lia.
Qed.

Lemma number_keys_order (n m : Z) :
  - 2 ^ 63 <= n < 2 ^ 64 -> - 2 ^ 63 <= m < 2 ^ 64 ->
  Z.sgn (key_order (number_key n) (number_key m)) = compare_numbers n m.
Proof.
  apply (ordered_keys number_key). intros x y Hx Hxy Hy.
  apply number_key_mono; lia.
Qed.

Lemma temporal_keys_order (tag t1 t2 : Z) :
  - 2 ^ 63 <= t1 < 2 ^ 63 -> - 2 ^ 63 <= t2 < 2 ^ 63 ->
  Z.sgn (key_order (tag :: packed_bytes t1) (tag :: packed_bytes t2)) =
  compare_numbers t1 t2.
Proof.
  apply (ordered_keys (fun t => tag :: packed_bytes t)). intros x y Hx Hxy Hy.
  apply (lex_lt_app_l [tag]), packed_bytes_mono; lia.
Qed.

Lemma string_keys_order (p : list Z) (s1 s2 : string) :
  key_order (p ++ uchars s1) (p ++ uchars s2) =
  compare_json_strings (uchars s1) (String.length s1) (uchars s2) (String.length s2).
Proof.
  rewrite key_order_app. unfold key_order. rewrite !uchars_length. reflexivity.
Qed.

Lemma opaque_keys_order (t1 t2 : Z) (v1 v2 : string) :
  Z.sgn (key_order (JSON_KEY_OPAQUE :: t1 :: uchars v1)
                   (JSON_KEY_OPAQUE :: t2 :: uchars v2)) =
  Z.sgn (let cmp := compare_numbers t1 t2 in
         if cmp =? 0 then
           compare_json_strings (uchars v1) (String.length v1)
                                (uchars v2) (String.length v2)
         else cmp).
Proof.
  cbn zeta. rewrite compare_numbers_sgn.
  destruct (Z.eq_dec t1 t2) as [->|Hne].
  - rewrite Z.sub_diag. cbn [Z.sgn Z.eqb].
    apply (f_equal Z.sgn (string_keys_order [JSON_KEY_OPAQUE; t2] v1 v2)).
  - pose proof (key_order_app [JSON_KEY_OPAQUE] (t1 :: uchars v1) (t2 :: uchars v2))
      as Happ.
    cbn [app] in Happ. rewrite Happ, key_order_head by assumption.
    destruct (Z.eqb_spec (Z.sgn (t1 - t2)) 0); [lia|].
    rewrite Z.sgn_sgn. reflexivity.
Qed.

Lemma compare_json_int_uint_sgn (a b : Z) :
  0 <= b -> compare_json_int_uint a b = compare_numbers a b.
Proof.
  intros Hb. unfold compare_json_int_uint. destruct (Z.ltb_spec a 0); [|reflexivity].
  rewrite compare_numbers_sgn. lia.
Qed.

Lemma scalar_keys_order (a b : Json_dom) :
  integer_scalar a = true -> integer_scalar b = true ->
  Z.sgn (key_order (scalar_key a) (scalar_key b)) = Z.sgn (compare a b).
Proof.
  intros Ha Hb.
  destruct (Z.eq_dec (precedence (json_type a)) (precedence (json_type b)))
    as [Hsame|Hne]; [|apply scalar_keys_of_different_kinds; assumption].
  destruct a as [ |b1|i1|u1|f1|m1|s1|mytype1 v1|t1 ft1|l1|l1]; try discriminate Ha;
    destruct b as [ |b2|i2|u2|f2|m2|s2|mytype2 v2|t2 ft2|l2|l2]; try discriminate Hb;
    cbn [integer_scalar] in Ha, Hb;
    repeat match goal with
           | H : _ && _ = true |- _ => apply andb_true_iff in H; destruct H
           end;
    repeat match goal with
           | H : _ || _ = true |- _ =>
             apply temporal_field_type in H; destruct H as [-> | [-> | [-> | ->]]]
           end;
    try discriminate Hsame; clear Hsame;
    repeat match goal with
           | H : (_ <=? _) = true |- _ => apply Z.leb_le in H
           | H : (_ <? _) = true |- _ => apply Z.ltb_lt in H
           end;
    cbn -[compare_numbers compare_json_strings compare_json_int_uint number_key
          packed_bytes key_order].
  - rewrite key_order_refl. reflexivity.
  - destruct b1, b2; reflexivity.
  - rewrite number_keys_order, compare_numbers_sgn, Z.sgn_sgn by lia. reflexivity.
  - rewrite compare_json_int_uint_sgn by lia.
    rewrite number_keys_order, compare_numbers_sgn, Z.sgn_sgn by lia. reflexivity.
  - rewrite compare_json_int_uint_sgn by lia.
    rewrite number_keys_order, !compare_numbers_sgn by lia. lia.
  - rewrite number_keys_order, compare_numbers_sgn, Z.sgn_sgn by lia. reflexivity.
  - apply (f_equal Z.sgn (string_keys_order [JSON_KEY_STRING] s1 s2)).
  - apply opaque_keys_order.
  - rewrite temporal_keys_order, compare_numbers_sgn, Z.sgn_sgn by lia. reflexivity.
  - rewrite temporal_keys_order, compare_numbers_sgn, Z.sgn_sgn by lia. reflexivity.
  - rewrite temporal_keys_order, compare_numbers_sgn, Z.sgn_sgn by lia. reflexivity.
  - rewrite temporal_keys_order, compare_numbers_sgn, Z.sgn_sgn by lia. reflexivity.
  - rewrite temporal_keys_order, compare_numbers_sgn, Z.sgn_sgn by lia. reflexivity.
  - rewrite temporal_keys_order, compare_numbers_sgn, Z.sgn_sgn by lia. reflexivity.
Qed.

(** *** Keys of objects and arrays *)

(** The tag and the four bytes of the length, most significant first. *)
Definition container_key (d : Json_dom) : list Z :=
  (if enum_json_type_eqb (json_type d) J_OBJECT then JSON_KEY_OBJECT else JSON_KEY_ARRAY)
    :: rev (int4store (Z.of_nat (wrapper_length (Json_wrapper_of_dom (Some d))))).

Lemma copy_integer_unsigned (from : list Z) :
  copy_integer (length from) from true = rev from.
Proof.
  unfold copy_integer. rewrite Nat.min_id, Nat.sub_diag, drop_0.
  destruct (rev from); reflexivity.
Qed.

Lemma container_key_written (d : Json_dom) (to : list Z) :
  is_container d = true -> (5 <= length to)%nat ->
  sort_key_bytes d to = container_key d /\
  snd (make_sort_key d to (length to)) = [ER_NOT_SUPPORTED_YET_sorting_of_non_scalar].
Proof.
  intros Hd Hroom. pose proof (holds_new to (length to) eq_refl) as Hk.
  unfold sort_key_bytes, container_key.
  destruct d as [ |b|i|u|f|m|s|mytype v|t ft|l|l]; try discriminate Hd;
    (split; [|reflexivity]); apply holds_written;
    cbn [make_sort_key json_type fst enum_json_type_eqb];
    match goal with |- holds (copy_int (key_append _ ?tag) _ ?from _) _ =>
      destruct (holds_append _ [] tag Hk ltac:(cbn; lia)) as [H1 L1];
      destruct (holds_copy_int _ _ from 4 true H1 ltac:(rewrite L1; cbn; lia)
                               ltac:(reflexivity)) as [H2 _];
      pose proof (copy_integer_unsigned from) as Hrev;
      change (length from) with 4%nat in Hrev; rewrite Hrev in H2; exact H2
    end.
Qed.

(** The key of an object or array is its tag and its length in four
    bytes, most significant first, and the warning is pushed; two
    containers of one kind and one length have equal keys, also where
    [compare] tells them apart. *)
Lemma container_sort_keys (a b : Json_dom) (ta tb : list Z) :
  (5 <= length ta)%nat -> (5 <= length tb)%nat ->
  (is_container a = true ->
   sort_key_bytes a ta = container_key a /\
   length (sort_key_bytes a ta) = 5%nat /\
   snd (make_sort_key a ta (length ta)) = [ER_NOT_SUPPORTED_YET_sorting_of_non_scalar] /\
   (json_type b = json_type a ->
    wrapper_length (Json_wrapper_of_dom (Some b)) =
    wrapper_length (Json_wrapper_of_dom (Some a)) ->
    sort_key_bytes b tb = sort_key_bytes a ta /\
    key_order (sort_key_bytes a ta) (sort_key_bytes b tb) = 0)) /\
  (exists c1 c2 : Json_dom,
     is_container c1 = true /\ json_type c2 = json_type c1 /\
     wrapper_length (Json_wrapper_of_dom (Some c2)) =
     wrapper_length (Json_wrapper_of_dom (Some c1)) /\
     compare c1 c2 <> 0).
Proof.
  intros H5a H5b. split.
  - intros Ha.
    destruct (container_key_written a ta Ha H5a) as [Hkey Hwarn].
    split; [exact Hkey|]. split; [rewrite Hkey; reflexivity|].
    split; [exact Hwarn|].
    intros Htype Hlength.
    assert (Hb : is_container b = true).
    { destruct a; try discriminate Ha; destruct b; cbn in Htype;
        try discriminate Htype; try reflexivity;
        repeat (match type of Htype with
                | context [if ?c then _ else _] => destruct c
                end; try discriminate Htype). }
    destruct (container_key_written b tb Hb H5b) as [Hkey' _].
    assert (Heq : sort_key_bytes b tb = sort_key_bytes a ta).
    { rewrite Hkey, Hkey'. unfold container_key. rewrite Htype, Hlength. reflexivity. }
    split; [exact Heq|]. rewrite Heq. apply key_order_refl.
  - exists (Json_array [Json_null]), (Json_array [Json_boolean true]).
    repeat split. cbn. discriminate.
Qed.

End Sort_key_properties.

(** *** Sort keys of concrete values *)

Definition string_a : @Json_dom Integer_decimals := Json_string "a".
Definition string_a_nul : @Json_dom Integer_decimals :=
  Json_string (String.String "a"%char (String.String Ascii.zero EmptyString)).
Definition string_ab : @Json_dom Integer_decimals := Json_string "ab".

(** A buffer of 100 zero bytes. *)
Definition zeroed_buffer : list Z := repeat 0 100.

Definition key_into_zeroed_buffer (d : @Json_dom Integer_decimals) : Wrapper_sort_key :=
  fst (@make_sort_key Integer_decimals Integer_part_gcvt d zeroed_buffer 100).

(** * Further properties of the code *)

(** ** Removal from objects and arrays *)

Section Container_operations.
Context `{DL : Decimal_library}.

(** [m_map.erase(it)] for the iterator that [m_map.find(key)] returned. *)
Fixpoint map_erase (key : string) (m_map : Json_object_map) : Json_object_map :=
  match m_map with
  | [] => []
  | (k, v) :: rest => if key_equiv key k then rest else (k, v) :: map_erase key rest
  end.

(** [Json_object::remove]: whether the key was there, and the map
    afterwards. *)
Definition Json_object_remove (m_map : Json_object_map) (key : string)
  : bool * Json_object_map :=
  match map_find key m_map with
  | None => (false, m_map)
  | Some _ => (true, map_erase key m_map)
  end.

(** [Json_array::remove]: whether there was an element at [index], and
    the elements afterwards. *)
Definition Json_array_remove (m_v : list Json_dom) (index : nat)
  : bool * list Json_dom :=
  if Nat.ltb index (length m_v) then (true, firstn index m_v ++ skipn (S index) m_v)
  else (false, m_v).

Lemma map_insert_length (key : string) (value : Json_dom) (m_map : Json_object_map) :
  length (fst (map_insert key value m_map)) =
  if snd (map_insert key value m_map) then S (length m_map) else length m_map.
Proof.
  induction m_map as [|[k v] m IH]; [reflexivity|]. cbn [map_insert].
  destruct (Json_key_comparator key k); [reflexivity|].
  destruct (Json_key_comparator k key); [|reflexivity].
  destruct (map_insert key value m) as [rest' inserted]. cbn [fst snd length] in *.
  rewrite IH. destruct inserted; reflexivity.
Qed.

Lemma map_erase_insert (key : string) (value : Json_dom) (m_map : Json_object_map) :
  map_find key m_map = None ->
  map_erase key (fst (map_insert key value m_map)) = m_map.
Proof.
  induction m_map as [|[k v] m IH]; cbn [map_find map_insert].
  - intros _. cbn. rewrite key_equiv_refl. reflexivity.
  - destruct (key_equiv key k) eqn:E; [discriminate|]. intros Hf.
    destruct (Json_key_comparator key k) eqn:C1.
    + cbn. rewrite key_equiv_refl. reflexivity.
    + destruct (Json_key_comparator k key) eqn:C2.
      * specialize (IH Hf). destruct (map_insert key value m) as [rest' inserted].
        cbn [fst map_erase] in *. rewrite E, IH. reflexivity.
      * unfold key_equiv in E. rewrite C1, C2 in E. discriminate.
Qed.

Lemma map_erase_In (key : string) (m_map : Json_object_map) (x : string * Json_dom) :
  In x (map_erase key m_map) -> In x m_map.
Proof.
  induction m_map as [|[k v] m IH]; cbn [map_erase]; [auto|].
  destruct (key_equiv key k); cbn [In]; [auto|]. intros [H|H]; auto.
Qed.

Lemma map_erase_sorted (key : string) (m_map : Json_object_map) :
  map_sorted m_map = true -> map_sorted (map_erase key m_map) = true.
Proof.
  induction m_map as [|[k v] m IH]; [reflexivity|]. intros Hs.
  destruct (map_sorted_cons _ _ _ Hs) as [Habove Hs']. cbn [map_erase].
  destruct (key_equiv key k); [exact Hs'|].
  apply keys_above_sorted; [|auto].
  unfold keys_above. apply List.Forall_forall. intros x Hx.
  apply map_erase_In in Hx. exact (proj1 (List.Forall_forall _ _) Habove x Hx).
Qed.

Lemma map_find_above (key : string) (m_map : Json_object_map) :
  keys_above key m_map -> map_find key m_map = None.
Proof.
  induction 1 as [|[k v] m Hk _ IH]; [reflexivity|]. cbn [map_find fst] in *.
  destruct (key_equiv key k) eqn:E; [|exact IH].
  apply key_equiv_eq in E. subst k.
  rewrite Json_key_comparator_irrefl in Hk. discriminate.
Qed.

Lemma map_find_erase (key : string) (m_map : Json_object_map) (k' : string) :
  map_sorted m_map = true ->
  map_find k' (map_erase key m_map) =
  if key_equiv k' key then None else map_find k' m_map.
Proof.
  induction m_map as [|[k v] m IH]; intros Hs.
  - cbn. destruct (key_equiv k' key); reflexivity.
  - destruct (map_sorted_cons _ _ _ Hs) as [Habove Hs']. cbn [map_erase map_find].
    destruct (key_equiv key k) eqn:E.
    + apply key_equiv_eq in E. subst k.
      destruct (key_equiv k' key) eqn:E'; [|reflexivity].
      apply key_equiv_eq in E'. subst k'. apply map_find_above. exact Habove.
    + cbn [map_find]. rewrite (IH Hs').
      destruct (key_equiv k' k) eqn:E0; [|reflexivity].
      apply key_equiv_eq in E0. subst k'.
      destruct (key_equiv k key) eqn:E1; [|reflexivity].
      apply key_equiv_eq in E1. subst k. rewrite key_equiv_refl in E. discriminate.
Qed.

Lemma map_erase_length (key : string) (m_map : Json_object_map) (v : Json_dom) :
  map_find key m_map = Some v -> length m_map = S (length (map_erase key m_map)).
Proof.
  induction m_map as [|[k x] m IH]; cbn [map_find map_erase]; [discriminate|].
  destruct (key_equiv key k); [reflexivity|]. intros Hf. cbn [length].
  rewrite (IH Hf). reflexivity.
Qed.

(** X1: [Json_key_comparator] is a strict total order on keys, as the
    ordered map requires: no key is below itself, the order is
    transitive, of two different keys one is below the other, and a
    shorter key is below every longer one whatever its bytes. *)
Theorem Json_key_comparator_strict_total_order :
  (forall k, Json_key_comparator k k = false) /\
  (forall k1 k2 k3,
     Json_key_comparator k1 k2 = true -> Json_key_comparator k2 k3 = true ->
     Json_key_comparator k1 k3 = true) /\
  (forall k1 k2, k1 <> k2 ->
     Json_key_comparator k1 k2 = true \/ Json_key_comparator k2 k1 = true) /\
  (forall k1 k2, (String.length k1 < String.length k2)%nat ->
     Json_key_comparator k1 k2 = true).
Proof.
  split; [exact Json_key_comparator_irrefl|].
  split; [exact Json_key_comparator_trans|]. split.
  - intros k1 k2 Hne.
    destruct (Json_key_comparator k1 k2) eqn:C1; [auto|].
    destruct (Json_key_comparator k2 k1) eqn:C2; [auto|].
    exfalso. apply Hne, key_equiv_eq. unfold key_equiv. rewrite C1, C2. reflexivity.
  - intros k1 k2 Hlt. unfold Json_key_comparator.
    destruct (Nat.eqb_spec (String.length k1) (String.length k2)); [lia|].
    cbn [negb]. apply Nat.ltb_lt. exact Hlt.
Qed.

(** X2: adding a value under a key that the object lacks succeeds; the
    key then maps to the value, every other key maps to what it did, the
    object has one member more and its keys are still in order; removing
    the key again gives back the object as it was. *)
Theorem add_alias_absent_key (O : Json_object_map) (k : string) (v : Json_dom) :
  map_sorted O = true -> get O k = None ->
  let O' := snd (add_alias O k (Some v)) in
  fst (add_alias O k (Some v)) = false /\
  get O' k = Some v /\
  (forall k', k' <> k -> get O' k' = get O k') /\
  cardinality O' = S (cardinality O) /\
  map_sorted O' = true /\
  Json_object_remove O' k = (true, O).
Proof.
  intros Hs Habsent O'. unfold get in *.
  destruct (map_insert_absent k v O Habsent) as [Hins Hfind].
  assert (HO' : O' = fst (map_insert k v O)) by reflexivity.
  split; [reflexivity|]. split; [|split; [|split; [|split]]].
  - rewrite HO', Hfind, key_equiv_refl. reflexivity.
  - intros k' Hne. rewrite HO', Hfind, (key_equiv_neq _ _ Hne). reflexivity.
  - unfold cardinality. rewrite HO', map_insert_length, Hins. reflexivity.
  - rewrite HO'. apply map_insert_sorted. exact Hs.
  - unfold Json_object_remove. rewrite HO', Hfind, key_equiv_refl.
    rewrite map_erase_insert by assumption. reflexivity.
Qed.

(** X3: removing a key that the object lacks returns false and leaves
    the object as it is.  Removing a key that it has returns true; the
    key is then absent, every other key maps to what it did, the object
    has one member less and its keys are still in order. *)
Theorem Json_object_remove_key (O : Json_object_map) (k : string) :
  (get O k = None -> Json_object_remove O k = (false, O)) /\
  (map_sorted O = true -> forall v, get O k = Some v ->
   let O' := snd (Json_object_remove O k) in
   fst (Json_object_remove O k) = true /\
   get O' k = None /\
   (forall k', k' <> k -> get O' k' = get O k') /\
   cardinality O = S (cardinality O') /\
   map_sorted O' = true).
Proof.
  unfold get, Json_object_remove. split.
  - intros ->. reflexivity.
  - intros Hs v Hv. rewrite Hv. cbn [fst snd].
    split; [reflexivity|]. split; [|split; [|split]].
    + rewrite map_find_erase, key_equiv_refl by assumption. reflexivity.
    + intros k' Hne. rewrite map_find_erase, (key_equiv_neq _ _ Hne) by assumption.
      reflexivity.
    + unfold cardinality. apply (map_erase_length k O v Hv).
    + apply map_erase_sorted. exact Hs.
Qed.

(** X4: inserting into an array never fails for a value that is there.
    The value lands at the index, or at the end when the index points
    past the end; the elements before it keep their places and those
    after it move up by one.  Removing the element at that place gives
    back the array as it was, and removing at an index past the end
    returns false and changes nothing. *)
Theorem Json_array_insert_remove (m_v : list Json_dom) (index : nat) (v : Json_dom) :
  let pos := Nat.min (length m_v) index in
  let m_v' := snd (insert_alias m_v index (Some v)) in
  fst (insert_alias m_v index (Some v)) = false /\
  length m_v' = S (length m_v) /\
  m_v' !! pos = Some v /\
  (forall i, (i < pos)%nat -> m_v' !! i = m_v !! i) /\
  (forall i, (pos <= i)%nat -> m_v' !! S i = m_v !! i) /\
  ((length m_v <= index)%nat -> m_v' = m_v ++ [v]) /\
  Json_array_remove m_v' pos = (true, m_v) /\
  (forall i, (length m_v <= i)%nat -> Json_array_remove m_v i = (false, m_v)).
Proof.
  intros pos m_v'.
  assert (Hm : m_v' = firstn pos m_v ++ v :: skipn pos m_v) by reflexivity.
  assert (Hpos : (pos <= length m_v)%nat) by (unfold pos; lia).
  assert (Hlen : length (firstn pos m_v) = pos) by (rewrite length_take; lia).
  split; [reflexivity|]. split; [|split; [|split; [|split; [|split; [|split]]]]].
  - rewrite Hm, length_app. cbn [length]. rewrite Hlen, length_drop. lia.
  - rewrite Hm. rewrite lookup_app_r by lia. rewrite Hlen, Nat.sub_diag. reflexivity.
  - intros i Hi. rewrite Hm. rewrite lookup_app_l by lia. apply lookup_take_lt. lia.
  - intros i Hi. rewrite Hm. rewrite lookup_app_r by lia. rewrite Hlen.
    replace (S i - pos)%nat with (S (i - pos)) by lia.
    change ((v :: drop pos m_v) !! S (i - pos)) with (drop pos m_v !! (i - pos)%nat).
    rewrite lookup_drop. f_equal. lia.
  - intros Hpast. rewrite Hm. replace pos with (length m_v) by (unfold pos; lia).
    rewrite firstn_all, drop_all. reflexivity.
  - unfold Json_array_remove.
    assert (Hlt : (pos < length m_v')%nat).
    { rewrite Hm, length_app. cbn [length]. rewrite Hlen. lia. }
    destruct (Nat.ltb_spec pos (length m_v')); [|lia]. f_equal.
    rewrite Hm. rewrite take_app_length' by (symmetry; exact Hlen).
    replace (S pos) with (length (firstn pos m_v) + 1)%nat by lia.
    rewrite drop_app_add. cbn [drop skipn]. rewrite drop_0. apply take_drop.
  - intros i Hi. unfold Json_array_remove.
    destruct (Nat.ltb_spec i (length m_v)); [lia|reflexivity].
Qed.

End Container_operations.

Lemma Json_key_comparator_strict_total_order_witness :
  Json_key_comparator "b" "aa" = true /\ Json_key_comparator "a" "c" = true /\
  (Json_key_comparator "ab" "ba" = true \/ Json_key_comparator "ba" "ab" = true).
Proof.
  destruct Json_key_comparator_strict_total_order as (_ & Htrans & Htotal & Hshort).
  split; [apply Hshort; cbn; lia|]. split.
  - apply (Htrans "a" "b" "c")%string; reflexivity.
  - apply Htotal. discriminate.
Defined.

Definition object_a : @Json_object_map Integer_decimals := [("a"%string, Json_null)].
Definition object_a_b : @Json_object_map Integer_decimals :=
  [("a"%string, Json_null); ("b"%string, Json_int 1)].

Lemma add_alias_absent_key_witness :
  get (snd (add_alias object_a "b" (Some (Json_int 1)))) "b" = Some (Json_int 1) /\
  Json_object_remove (snd (add_alias object_a "b" (Some (Json_int 1)))) "b" =
  (true, object_a).
Proof.
  pose proof (@add_alias_absent_key Integer_decimals object_a "b" (Json_int 1)
                eq_refl eq_refl) as H.
  cbv zeta in H. destruct H as (_ & Hget & _ & _ & _ & Hremove). split; assumption.
Defined.

Lemma Json_object_remove_key_witness :
  Json_object_remove object_a "b" = (false, object_a) /\
  get (snd (Json_object_remove object_a_b "b")) "b" = None /\
  cardinality object_a_b = S (cardinality (snd (Json_object_remove object_a_b "b"))).
Proof.
  split.
  - apply (proj1 (@Json_object_remove_key Integer_decimals object_a "b")). reflexivity.
  - pose proof (proj2 (@Json_object_remove_key Integer_decimals object_a_b "b")
                      eq_refl (Json_int 1) eq_refl) as H.
    cbv zeta in H. destruct H as (_ & Hget & _ & Hcard & _). split; assumption.
Defined.

Lemma Json_array_insert_remove_witness :
  let m_v : list (@Json_dom Integer_decimals) := [Json_null; Json_boolean true] in
  snd (insert_alias m_v 7 (Some (Json_int 1))) = m_v ++ [Json_int 1] /\
  snd (insert_alias m_v 1 (Some (Json_int 1))) !! 2%nat = m_v !! 1%nat /\
  Json_array_remove m_v 2 = (false, m_v).
Proof.
  intros m_v.
  pose proof (@Json_array_insert_remove Integer_decimals m_v 7 (Json_int 1)) as H7.
  pose proof (@Json_array_insert_remove Integer_decimals m_v 1 (Json_int 1)) as H1.
  cbv zeta in H7, H1.
  destruct H7 as (_ & _ & _ & _ & _ & Hend & _ & Hpast).
  destruct H1 as (_ & _ & _ & _ & Hafter & _).
  split; [apply Hend; cbn; lia|]. split; [apply Hafter; cbn; lia|].
  apply Hpast. cbn. lia.
Defined.

(** ** The sort key stays inside its buffer *)

Section Sort_key_bounds.

(** Here [to] is the memory from the caller's pointer on: the buffer,
    which is its first [to_length] bytes, and the bytes that follow the
    buffer.  A store past the buffer lands in those bytes and changes
    them.

    The key [k] was written into the buffer of [to]: the memory has
    kept its length, the position is inside the buffer, and the bytes
    from the position on, those after the buffer among them, are those
    of [to]. *)
Definition written_into (to : list Z) (to_length : nat) (k : Wrapper_sort_key) : Prop :=
  length (m_buffer k) = length to /\
  (m_length k = to_length /\ (to_length <= length to)%nat) /\
  (m_pos k <= to_length)%nat /\
  drop (m_pos k) (m_buffer k) = drop (m_pos k) to.

(** A store that stays inside the memory writes its bytes there,
    wherever the buffer ends. *)
Lemma store_bytes_in_memory (bytes : list Z) : forall (buf : list Z) (pos : nat),
  (pos + length bytes <= length buf)%nat ->
  store_bytes buf pos bytes = take pos buf ++ bytes ++ drop (pos + length bytes) buf.
Proof.
  induction bytes as [|b bytes IH]; intros buf pos Hfit; cbn [store_bytes length app] in *.
  - rewrite Nat.add_0_r, take_drop. reflexivity.
  - rewrite IH by (rewrite length_insert; lia).
    rewrite (take_S_r _ _ b) by (apply list_lookup_insert_eq; lia).
    rewrite take_insert_ge by lia. rewrite drop_insert_lt by lia.
    rewrite <- app_assoc. cbn [app].
    replace (S pos + length bytes)%nat with (pos + S (length bytes))%nat by lia.
    reflexivity.
Qed.

Lemma store_bytes_outside (bytes : list Z) : forall (buf : list Z) (pos n : nat),
  (length bytes <= n)%nat ->
  length (store_bytes buf pos bytes) = length buf /\
  drop (pos + n) (store_bytes buf pos bytes) = drop (pos + n) buf.
Proof.
  induction bytes as [|b bytes IH]; intros buf pos n Hn; cbn [store_bytes length] in *.
  - auto.
  - destruct n as [|n]; [lia|].
    destruct (IH (<[pos := b]> buf) (S pos) n ltac:(lia)) as [Hlen Hdrop].
    rewrite length_insert in Hlen. split; [exact Hlen|].
    replace (pos + S n)%nat with (S pos + n)%nat by lia.
    rewrite Hdrop. apply drop_insert_lt. lia.
Qed.

Lemma written_into_store (to : list Z) (to_length : nat) (k : Wrapper_sort_key)
                         (bytes : list Z) (n : nat) :
  written_into to to_length k -> (length bytes <= n)%nat ->
  (m_pos k + n <= m_length k)%nat ->
  written_into to to_length (mk_sort_key (store_bytes (m_buffer k) (m_pos k) bytes)
                                         (m_length k) (m_pos k + n)).
Proof.
  intros (Hbuf & Hlen & Hpos & Hdrop) Hn Hfit.
  destruct (store_bytes_outside bytes (m_buffer k) (m_pos k) n Hn) as [Hl Hd].
  repeat split; cbn [m_buffer m_length m_pos]; try lia.
  rewrite Hd. rewrite <- !drop_drop, Hdrop. reflexivity.
Qed.

Lemma written_into_new (to : list Z) (to_length : nat) :
  (to_length <= length to)%nat -> written_into to to_length (mk_sort_key to to_length 0).
Proof. intros Hfit. repeat split; cbn; lia. Qed.

Lemma written_into_append (to : list Z) (to_length : nat) (k : Wrapper_sort_key)
                          (ch : Z) :
  written_into to to_length k ->
  written_into to to_length (key_append k ch) /\
  (m_pos k <= m_pos (key_append k ch))%nat.
Proof.
  intros Hk. unfold key_append. destruct (Nat.ltb_spec (m_pos k) (m_length k)).
  - split; [|cbn; lia].
    pose proof (written_into_store to to_length k [ch] 1 Hk ltac:(cbn; lia) ltac:(lia)) as H1.
    cbn [store_bytes] in H1. rewrite Nat.add_1_r in H1. exact H1.
  - split; [exact Hk|lia].
Qed.

Lemma written_into_pad_till (to : list Z) (to_length : nat) (k : Wrapper_sort_key)
                            (c : Z) (pos : nat) :
  written_into to to_length k ->
  written_into to to_length (pad_till k c pos) /\
  (m_pos k <= m_pos (pad_till k c pos))%nat.
Proof.
  intros Hk. pose proof Hk as (Hbuf & Hlen & Hpos & Hdrop).
  unfold pad_till, remaining. split; [|cbn; lia].
  apply written_into_store; [exact Hk|rewrite repeat_length; lia|].
  destruct (Nat.ltb pos (m_pos k)); lia.
Qed.

Lemma copy_integer_bound (to_length : nat) (from : list Z) (is_unsigned : bool) :
  (length (copy_integer to_length from is_unsigned) <= to_length)%nat.
Proof.
  unfold copy_integer.
  assert (Hl : (length (rev (drop (length from - Nat.min (length from) to_length) from))
                <= to_length)%nat) by (rewrite length_rev, length_drop; lia).
  destruct (rev (drop (length from - Nat.min (length from) to_length) from));
    cbn [length] in *; lia.
Qed.

Lemma written_into_copy_int (to : list Z) (to_length : nat) (k : Wrapper_sort_key)
                            (n : nat) (from : list Z) (u : bool) :
  written_into to to_length k ->
  written_into to to_length (copy_int k n from u) /\
  (m_pos k <= m_pos (copy_int k n from u))%nat.
Proof.
  intros Hk. pose proof Hk as (Hbuf & Hlen & Hpos & Hdrop).
  unfold copy_int, remaining. split; [|cbn; lia].
  destruct (Nat.eqb_spec (Nat.min (m_length k - m_pos k) n) 0) as [Hz|Hnz].
  - rewrite Hz, Nat.add_0_r. destruct k. exact Hk.
  - apply written_into_store; [exact Hk|apply copy_integer_bound|lia].
Qed.

Lemma written_into_append_str_and_len (to : list Z) (to_length : nat)
                                      (k : Wrapper_sort_key)
                                      (str : list Z) (len : nat) :
  written_into to to_length k ->
  written_into to to_length (append_str_and_len k str len) /\
  (m_pos k <= m_pos (append_str_and_len k str len))%nat.
Proof.
  intros Hk. pose proof Hk as (Hbuf & Hlen & Hpos & Hdrop).
  unfold append_str_and_len.
  set (space_for_len := if Nat.leb len (remaining k) then 0%nat
                        else Nat.min VARLEN_PREFIX (remaining k)).
  set (copy_len := Nat.min len (remaining k - space_for_len)).
  assert (Hspace : (space_for_len <= remaining k)%nat).
  { unfold space_for_len. destruct (Nat.leb len (remaining k)); lia. }
  unfold remaining in *.
  assert (H1 : written_into to to_length
                 (mk_sort_key (store_bytes (m_buffer k) (m_pos k) (firstn copy_len str))
                              (m_length k) (m_pos k + copy_len))).
  { apply written_into_store; [exact Hk|rewrite length_take; lia|unfold copy_len; lia]. }
  destruct (Nat.eqb (m_length k - m_pos k - space_for_len) 0).
  - split; [exact H1|cbn; lia].
  - destruct (written_into_copy_int to to_length _ space_for_len (int4store (Z.of_nat len)) true H1)
      as [H2 Hmono].
    split; [exact H2|]. cbn [m_pos] in Hmono. lia.
Qed.

Lemma written_into_digits (to : list Z) (to_length : nat) (negative : bool)
                          (digits : list Z) :
  forall k, written_into to to_length k ->
  written_into to to_length
    (fold_left
       (fun to ch =>
          if my_isdigit ch then
            (if negative then key_append to ((57 - ch + 48) mod 256)
             else key_append to ch)
          else to) digits k).
Proof.
  induction digits as [|ch digits IH]; intros k Hk; cbn [fold_left]; [exact Hk|].
  apply IH. destruct (my_isdigit ch); [|exact Hk].
  destruct negative; apply written_into_append; exact Hk.
Qed.

Lemma written_into_numeric (to : list Z) (to_length : nat) (from : list Z)
                           (negative : bool) (k : Wrapper_sort_key) :
  written_into to to_length k ->
  written_into to to_length (make_json_numeric_sort_key from negative k).
Proof.
  intros Hk. unfold make_json_numeric_sort_key.
  destruct (Nat.eqb _ _); [apply written_into_append; exact Hk|].
  apply written_into_pad_till, written_into_digits, written_into_copy_int.
  destruct negative; apply written_into_append; exact Hk.
Qed.

Context `{DL : Decimal_library} `{SL : String_library}.

(** A store past the buffer shows in the memory after the buffer. *)
Lemma store_past_the_buffer (to : list Z) (to_length pos : nat) (b c : Z) :
  (to_length <= pos)%nat -> to !! pos = Some c -> b <> c ->
  drop to_length (store_bytes to pos [b]) <> drop to_length to.
Proof.
  intros Hpos Hc Hne Heq. cbn [store_bytes] in Heq.
  assert (Hb : drop to_length (<[pos := b]> to) !! (pos - to_length)%nat = Some b).
  { rewrite lookup_drop. replace (to_length + (pos - to_length))%nat with pos by lia.
    apply list_lookup_insert_eq. apply lookup_lt_Some in Hc. exact Hc. }
  rewrite Heq, lookup_drop in Hb.
  replace (to_length + (pos - to_length))%nat with pos in Hb by lia. congruence.
Qed.

Lemma make_sort_key_written_into (d : Json_dom) (to : list Z) (to_length : nat) :
  (to_length <= length to)%nat ->
  written_into to to_length (fst (make_sort_key d to to_length)).
Proof.
  intros Hfit. pose proof (written_into_new to to_length Hfit) as Hk. unfold make_sort_key.
  destruct (json_type d); cbn [fst].
  - apply written_into_append; exact Hk.
  - destruct (get_decimal_data d) as [err dec]. destruct err; cbn [fst]; [exact Hk|].
    apply written_into_numeric; exact Hk.
  - apply written_into_numeric; exact Hk.
  - apply written_into_numeric; exact Hk.
  - apply written_into_numeric; exact Hk.
  - apply written_into_append_str_and_len, written_into_append; exact Hk.
  - apply written_into_copy_int, written_into_append; exact Hk.
  - apply written_into_copy_int, written_into_append; exact Hk.
  - apply written_into_append; exact Hk.
  - apply written_into_copy_int, written_into_append; exact Hk.
  - apply written_into_copy_int, written_into_append; exact Hk.
  - apply written_into_copy_int, written_into_append; exact Hk.
  - apply written_into_copy_int, written_into_append; exact Hk.
  - apply written_into_append_str_and_len, written_into_append, written_into_append.
    exact Hk.
  - exact Hk.
Qed.

(** X5: whatever the value and however small the buffer, [make_sort_key]
    writes inside the buffer only.  [to] is the memory from the
    caller's pointer on, of which the buffer is the first [to_length]
    bytes; what follows the buffer is in [to] as well, so a store past
    the buffer would change it.  The memory keeps its length, the
    position returned is at most [to_length], the bytes from that
    position on are untouched, and so are all bytes after the buffer. *)
Theorem make_sort_key_stays_in_buffer (d : Json_dom) (to : list Z) (to_length : nat) :
  (to_length <= length to)%nat ->
  let key := fst (make_sort_key d to to_length) in
  length (m_buffer key) = length to /\
  (m_pos key <= to_length)%nat /\
  drop (m_pos key) (m_buffer key) = drop (m_pos key) to /\
  drop to_length (m_buffer key) = drop to_length to.
Proof.
  intros Hfit key.
  destruct (make_sort_key_written_into d to to_length Hfit) as (Hbuf & _ & Hpos & Hdrop).
  fold key in Hbuf, Hpos, Hdrop. repeat split; try assumption.
  replace to_length with (m_pos key + (to_length - m_pos key))%nat by lia.
  rewrite <- !drop_drop, Hdrop. reflexivity.
Qed.

(** *** A string that does not fit *)

(** The whole buffer after [make_sort_key] has written the key of [d]
    into [to]. *)
Definition sort_key_buffer (d : Json_dom) (to : list Z) : list Z :=
  m_buffer (fst (make_sort_key d to (length to))).

Lemma truncated_string_key (s : string) (to : list Z) :
  (6 <= length to)%nat -> (length to <= String.length s)%nat ->
  holds (fst (make_sort_key (Json_string s) to (length to)))
        ([JSON_KEY_STRING] ++ firstn (length to - 5) (uchars s)
         ++ rev (int4store (Z.of_nat (String.length s)))).
Proof.
  intros HN Hlong. pose proof (holds_new to (length to) eq_refl) as Hk.
  destruct (holds_append _ [] JSON_KEY_STRING Hk ltac:(cbn; lia)) as [H1 L1].
  cbn [app] in H1. cbn [m_length] in L1.
  cbn [make_sort_key json_type fst get_data get_data_length].
  set (k1 := key_append (mk_sort_key to (length to) 0) JSON_KEY_STRING) in *.
  destruct H1 as (Hb1 & Hp1 & Ht1 & Hle1). cbn [length] in Hp1.
  assert (H1 : holds k1 [JSON_KEY_STRING]) by (repeat split; assumption).
  unfold append_str_and_len, remaining. rewrite L1, Hp1.
  destruct (Nat.leb_spec (String.length s) (length to - 1)); [lia|].
  replace (Nat.min VARLEN_PREFIX (length to - 1)) with 4%nat by (unfold VARLEN_PREFIX; lia).
  replace (length to - 1 - 4)%nat with (length to - 5)%nat by lia.
  replace (Nat.min (String.length s) (length to - 5)) with (length to - 5)%nat by lia.
  destruct (Nat.eqb_spec (length to - 5) 0); [lia|].
  assert (Hcopy : length (firstn (length to - 5) (uchars s)) = (length to - 5)%nat)
    by (rewrite length_take, uchars_length; lia).
  pose proof (holds_store k1 [JSON_KEY_STRING] (firstn (length to - 5) (uchars s)) H1)
    as H2.
  rewrite Hcopy, L1, Hp1 in H2. specialize (H2 ltac:(cbn; lia)).
  destruct (holds_copy_int _ _ (int4store (Z.of_nat (String.length s))) 4 true H2)
    as [H3 _].
  { rewrite length_app, Hcopy. cbn [length m_length]. lia. }
  { reflexivity. }
  pose proof (copy_integer_unsigned (int4store (Z.of_nat (String.length s)))) as Hrev.
  change (length (int4store (Z.of_nat (String.length s)))) with 4%nat in Hrev.
  rewrite Hrev, <- app_assoc in H3. exact H3.
Qed.

Lemma memcmp_first_difference (p : list Z) (x y : Z) (r1 r2 : list Z) : forall n : nat,
  x <> y -> (length p < n)%nat -> memcmp (p ++ x :: r1) (p ++ y :: r2) n = x - y.
Proof.
  induction p as [|c p IH]; intros n Hne Hn.
  - destruct n as [|n]; [lia|]. cbn [app memcmp].
    destruct (Z.eqb_spec x y); [contradiction|reflexivity].
  - destruct n as [|n]; [cbn in Hn; lia|]. cbn [app memcmp]. rewrite Z.eqb_refl.
    apply IH; [exact Hne|cbn in Hn; lia].
Qed.

Lemma memcmp_lex_lt (a b : list Z) (n : nat) :
  lex_lt a b -> (length a <= n)%nat -> memcmp a b n < 0.
Proof.
  intros (p & x & y & r1 & r2 & -> & -> & Hlt) Hn.
  rewrite length_app in Hn. cbn [length] in Hn.
  rewrite memcmp_first_difference by lia. lia.
Qed.

(** X6: a string that does not fit in a buffer of at least six bytes
    fills the buffer: the tag, as many bytes of the string as fit before
    the last four bytes, and the length of the string in those four
    bytes, most significant first.  Two such keys in buffers of one size
    compare under [memcmp] as the strings do when the strings first
    differ in the part that was copied, and by length when the copied
    parts agree. *)
Theorem string_sort_key_truncated (s1 s2 : string) (to1 to2 : list Z) :
  length to2 = length to1 -> (6 <= length to1)%nat ->
  (length to1 <= String.length s1)%nat -> (length to1 <= String.length s2)%nat ->
  let N := length to1 in
  sort_key_buffer (Json_string s1) to1 =
    [JSON_KEY_STRING] ++ firstn (N - 5) (uchars s1)
    ++ rev (int4store (Z.of_nat (String.length s1))) /\
  m_pos (fst (make_sort_key (Json_string s1) to1 N)) = N /\
  (forall p x y r1 r2,
     uchars s1 = p ++ x :: r1 -> uchars s2 = p ++ y :: r2 -> x <> y ->
     (length p < N - 5)%nat ->
     memcmp (sort_key_buffer (Json_string s1) to1)
            (sort_key_buffer (Json_string s2) to2) N =
     compare (Json_string s1) (Json_string s2)) /\
  (firstn (N - 5) (uchars s1) = firstn (N - 5) (uchars s2) ->
   (String.length s1 < String.length s2)%nat -> Z.of_nat (String.length s2) < 2 ^ 32 ->
   memcmp (sort_key_buffer (Json_string s1) to1)
          (sort_key_buffer (Json_string s2) to2) N < 0).
Proof.
  intros Hsame HN Hl1 Hl2 N.
  assert (Hbuffer : forall s to, (6 <= length to)%nat -> (length to <= String.length s)%nat ->
            sort_key_buffer (Json_string s) to =
              [JSON_KEY_STRING] ++ firstn (length to - 5) (uchars s)
              ++ rev (int4store (Z.of_nat (String.length s))) /\
            m_pos (fst (make_sort_key (Json_string s) to (length to))) = length to).
  { intros s to H6 Hl.
    destruct (truncated_string_key s to H6 Hl) as (Hb & Hp & Ht & _).
    assert (Hlen : length ([JSON_KEY_STRING] ++ firstn (length to - 5) (uchars s)
                           ++ rev (int4store (Z.of_nat (String.length s)))) = length to).
    { rewrite !length_app, length_take, uchars_length, length_rev. cbn [length].
      change (length (int4store (Z.of_nat (String.length s)))) with 4%nat. lia. }
    rewrite Hlen in Hp. split; [|exact Hp].
    destruct (make_sort_key_written_into (Json_string s) to (length to) (Nat.le_refl _))
      as (Hfull & _).
    unfold sort_key_buffer. rewrite <- Ht, Hp.
    symmetry. apply firstn_all2. rewrite Hfull. lia. }
  destruct (Hbuffer s1 to1 HN Hl1) as [Hb1 Hp1].
  destruct (Hbuffer s2 to2 ltac:(lia) ltac:(lia)) as [Hb2 _].
  rewrite Hsame in Hb2. fold N in Hb1, Hb2, Hp1.
  split; [exact Hb1|]. split; [exact Hp1|]. split.
  - intros p x y r1 r2 Hs1 Hs2 Hne Hp.
    assert (Hshape : forall (z : Z) (r L : list Z),
              [JSON_KEY_STRING] ++ firstn (N - 5) (p ++ z :: r) ++ L =
              (JSON_KEY_STRING :: p) ++ z :: (firstn (N - 5 - length p - 1) r ++ L)).
    { intros z r L. rewrite take_app_ge by lia.
      replace (N - 5 - length p)%nat with (S (N - 5 - length p - 1)) by lia.
      cbn [firstn app]. rewrite <- app_assoc. cbn [app].
      replace (S (N - 5 - length p - 1) - 1)%nat with (N - 5 - length p - 1)%nat by lia.
      reflexivity. }
    rewrite Hb1, Hb2, Hs1, Hs2, !Hshape.
    rewrite memcmp_first_difference by (cbn [length]; lia || exact Hne).
    cbn [compare json_type get_data get_data_length].
    change (type_comparison_at J_STRING J_STRING) with 0. cbn [Z.eqb negb].
    unfold compare_json_strings.
    assert (Hmin : (length p < Nat.min (String.length s1) (String.length s2))%nat).
    { rewrite <- !uchars_length, Hs1, Hs2, !length_app. cbn [length]. lia. }
    rewrite Hs1, Hs2, memcmp_first_difference by assumption.
    destruct (Z.eqb_spec (x - y) 0); [lia|reflexivity].
  - intros Hcopied Hshorter Hsmall. rewrite Hb1, Hb2, Hcopied.
    apply memcmp_lex_lt.
    + apply lex_lt_app_l, lex_lt_app_l. unfold int4store.
      rewrite !Z.mod_small by lia.
      destruct (int_store_mono 4 (Z.of_nat (String.length s1))
                  (Z.of_nat (String.length s2)) ltac:(lia)) as [Hlex|Hhigh];
        [exact Hlex|].
      exfalso. change (Z.of_nat 4) with 4 in Hhigh.
      rewrite !Z.div_small in Hhigh by lia. lia.
    + rewrite !length_app, length_take, uchars_length, length_rev. cbn [length].
      change (length (int4store (Z.of_nat (String.length s1)))) with 4%nat. lia.
Qed.

End Sort_key_bounds.

Lemma make_sort_key_stays_in_buffer_witness :
  let d : @Json_dom Integer_decimals := Json_string "abcdefgh" in
  let to := repeat 255 12 in
  let key := fst (@make_sort_key Integer_decimals Integer_part_gcvt d to 6) in
  (6 <= length to)%nat /\
  (length (m_buffer key) = 12%nat /\ (m_pos key <= 6)%nat /\
   drop (m_pos key) (m_buffer key) = drop (m_pos key) to /\
   drop 6 (m_buffer key) = repeat 255 6).
Proof.
  intros d to key. split; [vm_compute; lia|].
  exact (@make_sort_key_stays_in_buffer Integer_decimals Integer_part_gcvt d to 6
           ltac:(vm_compute; lia)).
Defined.

Lemma string_sort_key_truncated_witness :
  let s1 : @Json_dom Integer_decimals := Json_string "abcdefgh" in
  let s2 : @Json_dom Integer_decimals := Json_string "abxdefghij" in
  let to := repeat 0 8 in
  @sort_key_buffer Integer_decimals Integer_part_gcvt s1 to =
    [JSON_KEY_STRING; 97; 98; 99; 0; 0; 0; 8] /\
  memcmp (@sort_key_buffer Integer_decimals Integer_part_gcvt s1 to)
         (@sort_key_buffer Integer_decimals Integer_part_gcvt s2 to) 8 =
  compare s1 s2.
Proof.
  intros s1 s2 to.
  pose proof (@string_sort_key_truncated Integer_decimals Integer_part_gcvt
                "abcdefgh" "abxdefghij" to to eq_refl
                ltac:(vm_compute; lia) ltac:(vm_compute; lia) ltac:(vm_compute; lia))
    as H.
  cbv zeta in H. destruct H as (Hlayout & _ & Hdiffer & _).
  split; [exact Hlayout|].
  apply (Hdiffer [97; 98] 99 120 [100; 101; 102; 103; 104]
                 [100; 101; 102; 103; 104; 105; 106]).
  - reflexivity.
  - reflexivity.
  - discriminate.
  - vm_compute. lia.
Defined.

(** ** The order of scalars is transitive *)

Section Scalar_order.

Lemma key_order_nil_cons (y : Z) (b : list Z) : key_order [] (y :: b) = -1.
Proof. reflexivity. Qed.

Lemma key_order_cons_nil (x : Z) (a : list Z) : key_order (x :: a) [] = 1.
Proof. reflexivity. Qed.

Lemma key_order_cons (x y : Z) (a b : list Z) :
  key_order (x :: a) (y :: b) = if x =? y then key_order a b else x - y.
Proof.
  destruct (Z.eqb_spec x y) as [->|Hne].
  - apply (key_order_app [y]).
  - apply key_order_head. exact Hne.
Qed.

(** [key_order] is a total preorder on keys. *)
Lemma key_order_transitive (a : list Z) : forall b c : list Z,
  (key_order a b <= 0 -> key_order b c <= 0 -> key_order a c <= 0) /\
  (key_order a b < 0 -> key_order b c <= 0 -> key_order a c < 0) /\
  (key_order a b <= 0 -> key_order b c < 0 -> key_order a c < 0).
Proof.
  induction a as [|x a IH]; intros [|y b] [|z c];
    rewrite ?key_order_nil_cons, ?key_order_cons_nil, ?key_order_cons;
    change (key_order [] []) with 0; try lia.
  destruct (Z.eqb_spec x y); destruct (Z.eqb_spec y z); destruct (Z.eqb_spec x z);
    subst; try contradiction; try lia; apply IH.
Qed.

Lemma key_order_zero (a : list Z) : forall b : list Z, key_order a b = 0 -> a = b.
Proof.
  induction a as [|x a IH]; intros [|y b];
    rewrite ?key_order_nil_cons, ?key_order_cons_nil, ?key_order_cons;
    try discriminate; [reflexivity|].
  destruct (Z.eqb_spec x y) as [->|Hne]; [|lia].
  intros H. f_equal. apply IH. exact H.
Qed.

Lemma sgn_agree (x y : Z) :
  Z.sgn x = Z.sgn y -> (x <= 0 <-> y <= 0) /\ (x < 0 <-> y < 0) /\ (x = 0 <-> y = 0).
Proof. lia. Qed.

Context `{DL : Decimal_library}.

(** X7: on scalars of the kinds NULL, BOOLEAN, INT, UINT, STRING, OPAQUE
    and the temporal kinds, with values in the range of their C++ types,
    [compare] is transitive: if a is not above b and b is not above c
    then a is not above c, strictly below as soon as one of the two
    steps is strict; and values that compare equal to a common value
    compare equal to each other. *)
Theorem compare_transitive_on_scalars (a b c : Json_dom) :
  integer_scalar a = true -> integer_scalar b = true -> integer_scalar c = true ->
  (compare a b <= 0 -> compare b c <= 0 -> compare a c <= 0) /\
  (compare a b < 0 -> compare b c <= 0 -> compare a c < 0) /\
  (compare a b <= 0 -> compare b c < 0 -> compare a c < 0) /\
  (compare a b = 0 -> compare b c = 0 -> compare a c = 0).
Proof.
  intros Ha Hb Hc.
  destruct (sgn_agree _ _ (scalar_keys_order a b Ha Hb)) as (Hab_le & Hab_lt & Hab_eq).
  destruct (sgn_agree _ _ (scalar_keys_order b c Hb Hc)) as (Hbc_le & Hbc_lt & Hbc_eq).
  destruct (sgn_agree _ _ (scalar_keys_order a c Ha Hc)) as (Hac_le & Hac_lt & Hac_eq).
  destruct (key_order_transitive (scalar_key a) (scalar_key b) (scalar_key c))
    as (Hle & Hlt1 & Hlt2).
  split; [|split; [|split]].
  - intros H1 H2. apply Hac_le, Hle; [apply Hab_le|apply Hbc_le]; assumption.
  - intros H1 H2. apply Hac_lt, Hlt1; [apply Hab_lt|apply Hbc_le]; assumption.
  - intros H1 H2. apply Hac_lt, Hlt2; [apply Hab_le|apply Hbc_lt]; assumption.
  - intros H1 H2. apply Hac_eq.
    apply Hab_eq, key_order_zero in H1. apply Hbc_eq, key_order_zero in H2.
    rewrite H1, H2. apply key_order_refl.
Qed.

End Scalar_order.

Lemma compare_transitive_on_scalars_witness :
  @compare Integer_decimals (Json_int (-5)) (Json_string "a") < 0.
Proof.
  refine (proj1 (proj2 (@compare_transitive_on_scalars Integer_decimals
                          (Json_int (-5)) (Json_uint 7) (Json_string "a")
                          eq_refl eq_refl eq_refl)) _ _).
  - vm_compute. reflexivity.
  - vm_compute. discriminate.
Defined.

(** ** Quoting a string *)

Section Double_quote.

(** [_dig_vec_lower], the table of digits that json_dom.cc indexes and
    does not define. *)
Variable _dig_vec_lower : Z -> Z.

(** The second byte of the two-byte escape of [c], for the bytes that the
    switch of [double_quote] handles ([done] stays true). *)
Definition short_escape (c : Z) : option Z :=
  if (c =? 34) || (c =? 92) then Some c
  else if c =? 8 then Some 98
  else if c =? 12 then Some 102
  else if c =? 10 then Some 110
  else if c =? 13 then Some 114
  else if c =? 9 then Some 116
  else None.

(** What one iteration of the loop of [double_quote] appends for the
    byte [c]. *)
Definition escape_byte (c : Z) : list Z :=
  match short_escape c with
  | Some esc1 => [92; esc1]
  | None =>
    if (Z.land c (Z.lnot 127) =? 0) && (c <? 31) then
      [92; 117; 48; 48;
       _dig_vec_lower (Z.shiftr (Z.land c 240) 4); _dig_vec_lower (Z.land c 15)]
    else [c]
  end.

(** [double_quote(cptr, length, buf)]: the buffer afterwards.  Appending
    to the buffer fails only when memory runs out, which is left out. *)
Definition double_quote (cptr : list Z) (length : nat) (buf : list Z) : bool * list Z :=
  (false, (buf ++ [34]) ++ flat_map escape_byte (firstn length cptr) ++ [34]).

(** The classes of bytes. *)
Inductive escape_class (c : Z) : Prop :=
  | Short_escape (esc1 : Z) :
      short_escape c = Some esc1 -> escape_byte c = [92; esc1] -> esc1 <> 117 ->
      escape_class c
  | Unicode_escape :
      short_escape c = None -> 0 <= c < 31 ->
      escape_byte c = [92; 117; 48; 48; _dig_vec_lower (c / 16); _dig_vec_lower (c mod 16)] ->
      escape_class c
  | Unescaped :
      escape_byte c = [c] -> c <> 34 -> c <> 92 -> ~ (0 <= c < 31) -> escape_class c.

Lemma land_above_7_bits (c : Z) : Z.land c (Z.lnot 127) = 0 <-> 0 <= c < 128.
Proof.
  rewrite <- Z.ldiff_land. change 127 with (Z.ones 7).
  rewrite Z.ldiff_ones_r by lia. rewrite Z.shiftl_mul_pow2, Z.shiftr_div_pow2 by lia.
  change (2 ^ 7) with 128.
  pose proof (Z.div_mod c 128 ltac:(lia)). pose proof (Z.mod_pos_bound c 128 ltac:(lia)).
  split; intros Hc.
  - assert (c / 128 = 0) by lia. lia.
  - rewrite Z.div_small by lia. reflexivity.
Qed.

Lemma hex_digits_of_control (c : Z) :
  0 <= c < 31 -> Z.shiftr (Z.land c 240) 4 = c / 16 /\ Z.land c 15 = c mod 16.
Proof.
  intros Hc.
  assert (Hall : forallb (fun c => (Z.shiftr (Z.land c 240) 4 =? c / 16) &&
                                   (Z.land c 15 =? c mod 16))
                         (map Z.of_nat (seq 0 31)) = true) by (vm_compute; reflexivity).
  rewrite forallb_forall in Hall.
  specialize (Hall c). rewrite andb_true_iff, !Z.eqb_eq in Hall. apply Hall.
  apply in_map_iff. exists (Z.to_nat c). split; [lia|]. apply in_seq. lia.
Qed.

Lemma short_escape_cases (c esc1 : Z) :
  short_escape c = Some esc1 ->
  (c = 34 /\ esc1 = 34) \/ (c = 92 /\ esc1 = 92) \/ (c = 8 /\ esc1 = 98) \/
  (c = 12 /\ esc1 = 102) \/ (c = 10 /\ esc1 = 110) \/ (c = 13 /\ esc1 = 114) \/
  (c = 9 /\ esc1 = 116).
Proof.
  unfold short_escape.
  destruct (Z.eqb_spec c 34); [intros [= <-]; lia|].
  destruct (Z.eqb_spec c 92); [intros [= <-]; lia|]. cbn [orb].
  destruct (Z.eqb_spec c 8); [intros [= <-]; lia|].
  destruct (Z.eqb_spec c 12); [intros [= <-]; lia|].
  destruct (Z.eqb_spec c 10); [intros [= <-]; lia|].
  destruct (Z.eqb_spec c 13); [intros [= <-]; lia|].
  destruct (Z.eqb_spec c 9); [intros [= <-]; lia|]. discriminate.
Qed.

Lemma escape_byte_class (c : Z) : escape_class c.
Proof.
  destruct (short_escape c) as [esc1|] eqn:Hshort.
  - apply (Short_escape c esc1 Hshort); [unfold escape_byte; rewrite Hshort; reflexivity|].
    apply short_escape_cases in Hshort. lia.
  - assert (Hnot : c <> 34 /\ c <> 92 /\ c <> 8 /\ c <> 12 /\ c <> 10 /\ c <> 13 /\ c <> 9).
    { unfold short_escape in Hshort.
      destruct (Z.eqb_spec c 34); [discriminate|]. destruct (Z.eqb_spec c 92); [discriminate|].
      destruct (Z.eqb_spec c 8); [discriminate|]. destruct (Z.eqb_spec c 12); [discriminate|].
      destruct (Z.eqb_spec c 10); [discriminate|]. destruct (Z.eqb_spec c 13); [discriminate|].
      destruct (Z.eqb_spec c 9); [discriminate|]. repeat split; assumption. }
    destruct ((Z.land c (Z.lnot 127) =? 0) && (c <? 31)) eqn:Hcontrol.
    + apply andb_true_iff in Hcontrol. destruct Hcontrol as [Hhigh Hlow].
      apply Z.eqb_eq, land_above_7_bits in Hhigh. apply Z.ltb_lt in Hlow.
      apply (Unicode_escape c Hshort); [lia|].
      unfold escape_byte. rewrite Hshort.
      destruct (hex_digits_of_control c ltac:(lia)) as [-> ->].
      destruct (Z.eqb_spec (Z.land c (Z.lnot 127)) 0) as [_|Hn];
        [|exfalso; apply Hn, land_above_7_bits; lia].
      destruct (Z.ltb_spec c 31); [reflexivity|lia].
    + apply Unescaped; try (apply Hnot).
      * unfold escape_byte. rewrite Hshort, Hcontrol. reflexivity.
      * intros Hc. apply andb_false_iff in Hcontrol. destruct Hcontrol as [Hhigh|Hlow].
        -- apply Z.eqb_neq in Hhigh. apply Hhigh, land_above_7_bits. lia.
        -- apply Z.ltb_ge in Hlow. lia.
Qed.

Lemma escape_byte_head (c : Z) :
  exists h t, escape_byte c = h :: t /\ h <> 34.
Proof.
  destruct (escape_byte_class c) as [esc1 _ -> _| _ _ ->| -> Hq _ _].
  - exists 92, [esc1]. split; [reflexivity|lia].
  - eexists 92, _. split; [reflexivity|lia].
  - exists c, []. split; [reflexivity|exact Hq].
Qed.

Lemma escape_byte_length (c : Z) : (1 <= length (escape_byte c) <= 6)%nat.
Proof.
  destruct (escape_byte_class c) as [esc1 _ -> _| _ _ ->| -> _ _ _]; cbn [length]; lia.
Qed.

Section Distinct_digits.

(** The sixteen hexadecimal digits are different characters. *)
Hypothesis distinct_digits : forall i j,
  0 <= i < 16 -> 0 <= j < 16 -> _dig_vec_lower i = _dig_vec_lower j -> i = j.

(** No escape sequence begins another one. *)
Lemma escape_byte_prefix_free (c1 c2 : Z) (r1 r2 : list Z) :
  escape_byte c1 ++ r1 = escape_byte c2 ++ r2 -> c1 = c2 /\ r1 = r2.
Proof.
  destruct (escape_byte_class c1) as [e1 Hs1 -> Hu1| Hs1 Hc1 ->| -> Hq1 Hb1 _];
    destruct (escape_byte_class c2) as [e2 Hs2 -> Hu2| Hs2 Hc2 ->| -> Hq2 Hb2 _];
    cbn [app]; intros Heq; injection Heq; clear Heq; intros; subst;
    try contradiction; try lia.
  - apply short_escape_cases in Hs1. apply short_escape_cases in Hs2. split; [lia|reflexivity].
  - split; [|reflexivity].
    pose proof (Z.div_mod c1 16 ltac:(lia)). pose proof (Z.div_mod c2 16 ltac:(lia)).
    pose proof (Z.mod_pos_bound c1 16 ltac:(lia)).
    pose proof (Z.mod_pos_bound c2 16 ltac:(lia)).
    assert (0 <= c1 / 16 < 16)
      by (split; [apply Z.div_pos; lia|apply Z.div_lt_upper_bound; lia]).
    assert (0 <= c2 / 16 < 16)
      by (split; [apply Z.div_pos; lia|apply Z.div_lt_upper_bound; lia]).
    assert (c1 / 16 = c2 / 16) by (apply distinct_digits; assumption).
    assert (c1 mod 16 = c2 mod 16) by (apply distinct_digits; assumption).
    lia.
  - auto.
Qed.

Lemma escaped_text_injective (s1 : list Z) : forall s2 : list Z,
  flat_map escape_byte s1 ++ [34] = flat_map escape_byte s2 ++ [34] -> s1 = s2.
Proof.
  induction s1 as [|c1 s1 IH]; intros [|c2 s2]; cbn [flat_map app]; intros Heq.
  - reflexivity.
  - exfalso. destruct (escape_byte_head c2) as (h & t & Hc2 & Hh).
    rewrite Hc2 in Heq. cbn [app] in Heq. injection Heq as Hhead _. congruence.
  - exfalso. destruct (escape_byte_head c1) as (h & t & Hc1 & Hh).
    rewrite Hc1 in Heq. cbn [app] in Heq. injection Heq as Hhead _. congruence.
  - rewrite <- !app_assoc in Heq.
    apply escape_byte_prefix_free in Heq. destruct Heq as [-> Hrest].
    f_equal. apply IH. exact Hrest.
Qed.

(** X8: the quoted text determines the string: two strings that
    [double_quote] renders alike (appended to the same buffer) are the
    same string, given only that the sixteen hexadecimal digits of
    [_dig_vec_lower] are different characters. *)
Theorem double_quote_injective (buf s1 s2 : list Z) :
  double_quote s1 (length s1) buf = double_quote s2 (length s2) buf -> s1 = s2.
Proof.
  unfold double_quote. rewrite !firstn_all. intros Heq.
  injection Heq as Heq. apply app_inv_head in Heq.
  apply escaped_text_injective. exact Heq.
Qed.

End Distinct_digits.

(** X9: [double_quote] appends an opening quote, at least one and at
    most six bytes for each byte of the string, and a closing quote.
    Every byte below 0x1f is escaped, so none of them appears in the
    text (the digits of [_dig_vec_lower] not being such bytes); the byte
    0x1f itself is not escaped and appears as it is. *)
Theorem double_quote_escapes (buf cptr : list Z) :
  (forall i, 0 <= i < 16 -> ~ (0 <= _dig_vec_lower i < 31)) ->
  let text := flat_map escape_byte cptr in
  double_quote cptr (length cptr) buf = (false, buf ++ [34] ++ text ++ [34]) /\
  (length cptr <= length text <= 6 * length cptr)%nat /\
  Forall (fun b => ~ (0 <= b < 31)) text /\
  (In 31 cptr -> In 31 text).
Proof.
  intros Hdigits text. subst text. split; [|split; [|split]].
  - unfold double_quote. rewrite firstn_all, <- app_assoc. reflexivity.
  - induction cptr as [|c s IH]; cbn [flat_map length]; [lia|].
    rewrite length_app. pose proof (escape_byte_length c). lia.
  - induction cptr as [|c s IH]; cbn [flat_map]; [constructor|].
    apply Forall_app. split; [|exact IH].
    destruct (escape_byte_class c) as [esc1 Hs -> _| _ Hc ->| -> _ _ Hn].
    + apply short_escape_cases in Hs. repeat constructor; lia.
    + assert (0 <= c / 16 < 16)
        by (split; [apply Z.div_pos; lia|apply Z.div_lt_upper_bound; lia]).
      pose proof (Z.mod_pos_bound c 16 ltac:(lia)).
      repeat constructor; try lia; apply Hdigits; lia.
    + repeat constructor. exact Hn.
  - intros Hin. apply in_flat_map. exists 31. split; [exact Hin|].
    left. reflexivity.
Qed.

End Double_quote.

(** The digits of [_dig_vec_lower] as int2str.c has them. *)
Definition dig_vec_lower (i : Z) : Z :=
  nth (Z.to_nat i) (uchars "0123456789abcdefghijklmnopqrstuvwxyz") 0.

Lemma below_16 (i : Z) : 0 <= i < 16 -> In i (map Z.of_nat (seq 0 16)).
Proof.
  intros Hi. apply in_map_iff. exists (Z.to_nat i). split; [lia|]. apply in_seq. lia.
Qed.

Lemma dig_vec_lower_distinct (i j : Z) :
  0 <= i < 16 -> 0 <= j < 16 -> dig_vec_lower i = dig_vec_lower j -> i = j.
Proof.
  intros Hi Hj Heq.
  assert (Hall : forallb (fun i => forallb (fun j =>
                   implb (dig_vec_lower i =? dig_vec_lower j) (i =? j))
                   (map Z.of_nat (seq 0 16))) (map Z.of_nat (seq 0 16)) = true)
    by (vm_compute; reflexivity).
  rewrite forallb_forall in Hall. specialize (Hall i (below_16 i Hi)).
  rewrite forallb_forall in Hall. specialize (Hall j (below_16 j Hj)).
  rewrite Heq, Z.eqb_refl in Hall. apply Z.eqb_eq. exact Hall.
Qed.

Lemma dig_vec_lower_printable (i : Z) : 0 <= i < 16 -> ~ (0 <= dig_vec_lower i < 31).
Proof.
  intros Hi.
  assert (Hall : forallb (fun i => 31 <=? dig_vec_lower i) (map Z.of_nat (seq 0 16)) = true)
    by (vm_compute; reflexivity).
  rewrite forallb_forall in Hall. specialize (Hall i (below_16 i Hi)).
  apply Z.leb_le in Hall. lia.
Qed.

Lemma double_quote_injective_witness :
  double_quote dig_vec_lower [97; 34; 1] 3 [] = (false, [34; 97; 92; 34; 92; 117; 48; 48; 48; 49; 34]) /\
  [97; 34; 1] = [97; 34; 1].
Proof.
  split; [vm_compute; reflexivity|].
  apply (double_quote_injective dig_vec_lower dig_vec_lower_distinct [] [97; 34; 1]
                                [97; 34; 1]).
  reflexivity.
Defined.

Lemma double_quote_escapes_witness :
  snd (double_quote dig_vec_lower [10; 31; 92] 3 [91]) = [91; 34; 92; 110; 31; 92; 92; 34] /\
  In 31 (flat_map (escape_byte dig_vec_lower) [10; 31; 92]).
Proof.
  pose proof (double_quote_escapes dig_vec_lower [91] [10; 31; 92] dig_vec_lower_printable)
    as H.
  cbv zeta in H. destruct H as (Htext & _ & _ & Hraw).
  split; [change 3%nat with (length [10; 31; 92]); rewrite Htext; vm_compute; reflexivity|].
  apply Hraw. vm_compute. auto.
Defined.

(** ** Documents with a member under a taken key *)

Section Taken_keys.
Context `{DL : Decimal_library}.

(** Whether each member of [m_map] whose key is among [seen] or repeats
    the key of an earlier member has a scalar as its value. *)
Fixpoint repeated_keys_hold_scalars (seen : list string) (m_map : Json_object_map) : bool :=
  match m_map with
  | [] => true
  | (k, v) :: rest =>
    (negb (existsb (String.eqb k) seen) || negb (is_container v)) &&
    repeated_keys_hold_scalars (k :: seen) rest
  end.

(** The documents in which no array or object stands under a key that
    an earlier member of the same object has taken.  [add_alias]
    releases such a container while the handler goes on writing to it;
    what happens then is not defined. *)
Fixpoint no_container_under_taken_key (d : Json_dom) : bool :=
  match d with
  | Json_array m_v => forallb no_container_under_taken_key m_v
  | Json_object m_map =>
    repeated_keys_hold_scalars [] m_map &&
    forallb (fun kv => no_container_under_taken_key (snd kv)) m_map
  | _ => true
  end.

End Taken_keys.

(** ** The syntax check *)

(** [Syntax_check_handler], the handler of [is_valid_json_syntax]: it
    builds nothing and keeps the depth only.  [m_da] is the diagnostics
    area that [check_json_depth] raises its error in. *)
Module Syntax_check_handler.

Record t := mk {
  m_depth : nat;
  m_da : list error_code
}.

Definition new : t := mk 0 [].

(** [seeing_scalar]. *)
Definition seeing_scalar (h : t) : bool * t :=
  let (too_deep, errs) := check_json_depth (m_depth h + 1) in
  (negb too_deep, mk (m_depth h) (m_da h ++ errs)).

(** [StartObject], [StartArray]: [!check_json_depth(++m_depth)]. *)
Definition start (h : t) : bool * t :=
  let m_depth := S (m_depth h) in
  let (too_deep, errs) := check_json_depth m_depth in
  (negb too_deep, mk m_depth (m_da h ++ errs)).

(** [EndObject], [EndArray]: [--m_depth; return true]. *)
Definition finish (h : t) : bool * t :=
  (true, mk (Nat.pred (m_depth h)) (m_da h)).

(** One callback. *)
Definition handle (h : t) (e : event) : bool * t :=
  match e with
  | StartObject | StartArray => start h
  | EndObject | EndArray => finish h
  | Null | Bool _ | Int _ | Uint _ | Int64 _ | Uint64 _ | Double _ | String _ | Key _ =>
    seeing_scalar h
  end.

(** The reader hands the events to the handler until a callback returns
    false: the number of events accepted, whether all were, and the
    handler afterwards. *)
Fixpoint feed (h : t) (events : list event) : nat * bool * t :=
  match events with
  | [] => (0%nat, true, h)
  | e :: rest =>
    let (continue, h') := handle h e in
    if continue then
      let '(n, ok, h'') := feed h' rest in (S n, ok, h'')
    else (0%nat, false, h')
  end.

End Syntax_check_handler.

Section Syntax_check.
Context `{DL : Decimal_library}.

(** The two handlers are at the same depth with the same diagnostics. *)
Definition same_depth (h : Rapid_json_handler) (s : Syntax_check_handler.t) : Prop :=
  Syntax_check_handler.m_depth s = m_depth h /\ Syntax_check_handler.m_da s = m_da h.

Lemma seeing_value_depth_check (h : Rapid_json_handler) (v : Json_dom) :
  let '(continue, h', _) := seeing_value h (Some v) in
  m_depth h' = m_depth h /\
  m_da h' = m_da h ++ snd (check_json_depth (m_depth h + 1)) /\
  (continue = true -> fst (check_json_depth (m_depth h + 1)) = false) /\
  (fst (check_json_depth (m_depth h + 1)) = true -> continue = false).
Proof.
  unfold seeing_value.
  destruct (check_json_depth (m_depth h + 1)) as [too_deep errs] eqn:Hcheck.
  assert (Herrs : too_deep = false -> errs = []).
  { unfold check_json_depth in Hcheck.
    destruct (Nat.ltb JSON_DOCUMENT_MAX_DEPTH (m_depth h + 1));
      injection Hcheck as <- <-; [discriminate|reflexivity]. }
  cbn [fst snd m_state m_open m_depth m_key m_da m_dom_as_built].
  destruct too_deep.
  - cbn [m_depth m_da]. repeat split; congruence.
  - rewrite (Herrs eq_refl), app_nil_r.
    destruct (m_state h); cbn [m_depth m_da]; try (repeat split; congruence);
      destruct (m_open h) as [|[[] pl] parents]; cbn [m_depth m_da];
      try (repeat split; congruence);
      unfold append_alias, insert_alias, add_alias; cbn [m_depth m_da negb];
      repeat split; congruence.
Qed.

Lemma check_json_depth_cases (n : nat) :
  check_json_depth n = (false, []) \/
  check_json_depth n = (true, [ER_JSON_DOCUMENT_TOO_DEEP]).
Proof.
  unfold check_json_depth. destruct (Nat.ltb JSON_DOCUMENT_MAX_DEPTH n); auto.
Qed.

Lemma app_singleton_neq {A : Type} (l : list A) (x : A) : l ++ [x] <> l.
Proof.
  intros H. apply (f_equal (@length A)) in H. rewrite length_app in H. cbn in H. lia.
Qed.

(** What a callback of the parser decides, the syntax check decides too,
    as long as the parser does not stop for a reason of its own. *)
Definition step_agrees (h : Rapid_json_handler) (s : Syntax_check_handler.t)
                       (r : bool * Rapid_json_handler)
                       (r' : bool * Syntax_check_handler.t) : Prop :=
  (fst r = true -> fst r' = true /\ same_depth (snd r) (snd r') /\
                   m_da (snd r) = m_da h) /\
  (fst r = false -> m_da (snd r) <> m_da h ->
   fst r' = false /\ same_depth (snd r) (snd r')).

Lemma seen_value_agrees (h : Rapid_json_handler) (s : Syntax_check_handler.t)
                        (v : Json_dom) :
  same_depth h s ->
  step_agrees h s (fst (seeing_value h (Some v))) (Syntax_check_handler.seeing_scalar s).
Proof.
  intros [Hdepth Hda]. pose proof (seeing_value_depth_check h v) as Hcheck.
  destruct (seeing_value h (Some v)) as [[continue h'] pl].
  destruct Hcheck as (Hd & Herr & Hok & Hdeep).
  unfold Syntax_check_handler.seeing_scalar. rewrite Hdepth.
  unfold step_agrees, same_depth. cbn [fst snd].
  destruct (check_json_depth_cases (m_depth h + 1)) as [Hc|Hc]; rewrite Hc in *;
    cbn [fst snd negb Syntax_check_handler.m_depth Syntax_check_handler.m_da] in *.
  - rewrite app_nil_r in *. split.
    + intros _. repeat split; congruence.
    + intros _ Hne. contradiction.
  - rewrite (Hdeep eq_refl). split; [discriminate|].
    intros _ _. repeat split; congruence.
Qed.

Lemma start_container_agrees (h : Rapid_json_handler) (s : Syntax_check_handler.t)
                             (container : Json_dom) (state : enum_state) :
  same_depth h s ->
  step_agrees h s (start_container h container state) (Syntax_check_handler.start s).
Proof.
  intros Hsame. pose proof (seen_value_agrees h s container Hsame) as Hv.
  unfold start_container, Syntax_check_handler.start.
  unfold Syntax_check_handler.seeing_scalar in Hv. rewrite Nat.add_1_r in Hv.
  destruct (seeing_value h (Some container)) as [[success h0] pl].
  destruct (check_json_depth (S (Syntax_check_handler.m_depth s))) as [too_deep errs].
  unfold step_agrees, same_depth in *.
  cbn [fst snd m_depth m_da Syntax_check_handler.m_depth Syntax_check_handler.m_da] in *.
  destruct Hv as [Hok Hfail]. split.
  - intros Hs. destruct (Hok Hs) as (H1 & [H2 H3] & H4). repeat split; congruence.
  - intros Hs Hne. destruct (Hfail Hs Hne) as (H1 & [H2 H3]). repeat split; congruence.
Qed.

Lemma end_object_or_array_agrees (h : Rapid_json_handler) (s : Syntax_check_handler.t) :
  same_depth h s ->
  step_agrees h s (true, end_object_or_array h) (Syntax_check_handler.finish s).
Proof.
  intros [Hdepth Hda]. split; cbn [fst snd]; [|discriminate].
  intros _. split; [reflexivity|].
  unfold same_depth, end_object_or_array, Syntax_check_handler.finish.
  destruct (m_open h) as [|[content pl] [|[parent ppl] ancestors]];
    cbn [snd m_depth m_da Syntax_check_handler.m_depth Syntax_check_handler.m_da];
    repeat split; congruence.
Qed.

Lemma handle_agrees (h : Rapid_json_handler) (s : Syntax_check_handler.t) (e : event) :
  same_depth h s -> step_agrees h s (handle h e) (Syntax_check_handler.handle s e).
Proof.
  intros Hsame. pose proof Hsame as [Hdepth Hda].
  destruct e as [ |b|i|u|i|u|[d|]|str| |str| | | ]; cbn [handle Syntax_check_handler.handle];
    try (apply seen_value_agrees; exact Hsame);
    try (apply start_container_agrees; exact Hsame);
    try (apply end_object_or_array_agrees; exact Hsame).
  - split; cbn [fst snd]; [discriminate|]. intros _ Hne. contradiction.
  - unfold Syntax_check_handler.seeing_scalar. rewrite Hdepth.
    destruct (check_json_depth_cases (m_depth h + 1)) as [Hc|Hc]; rewrite Hc;
      unfold step_agrees, same_depth;
      cbn [fst snd negb m_depth m_da Syntax_check_handler.m_depth
           Syntax_check_handler.m_da]; rewrite ?app_nil_r;
      (split; [intros Hs; try discriminate Hs|intros Hs Hne; try discriminate Hs]);
      repeat split; congruence.
Qed.

Lemma feed_agrees (events : list event) :
  forall (h : Rapid_json_handler) (s : Syntax_check_handler.t),
  same_depth h s ->
  let '(n, ok, h') := feed h events in
  (ok = true ->
   exists s', Syntax_check_handler.feed s events = (n, true, s') /\
              same_depth h' s' /\ m_da h' = m_da h) /\
  (ok = false -> m_da h' <> m_da h ->
   exists s', Syntax_check_handler.feed s events = (n, false, s') /\ same_depth h' s').
Proof.
  induction events as [|e events IH]; intros h s Hsame; cbn [feed Syntax_check_handler.feed].
  - split; [|discriminate]. intros _. exists s. auto.
  - pose proof (handle_agrees h s e Hsame) as [Hok Hfail].
    destruct (handle h e) as [continue h1].
    destruct (Syntax_check_handler.handle s e) as [continue' s1]. cbn [fst snd] in *.
    destruct continue.
    + destruct (Hok eq_refl) as (-> & Hsame1 & Hda1).
      specialize (IH h1 s1 Hsame1).
      destruct (feed h1 events) as [[n ok] h'].
      destruct IH as [IHok IHfail]. split.
      * intros Hk. destruct (IHok Hk) as (s' & -> & Hs' & Hda'). exists s'.
        repeat split; try apply Hs'; congruence.
      * intros Hk Hne. destruct (IHfail Hk ltac:(congruence)) as (s' & -> & Hs').
        exists s'. auto.
    + split; [discriminate|]. intros _ Hne.
      destruct (Hfail eq_refl Hne) as (-> & Hsame1). exists s1. auto.
Qed.

(** X10: on the events of a document (without a container under a
    taken key) the syntax check and the parser stop at the same event
    with the same verdict: both accept all events when the depth of the
    document is at most the maximum, and both stop with the
    document-too-deep error when it is deeper.  So
    [is_valid_json_syntax] accepts a text exactly when [Json_dom::parse]
    builds a document from it. *)
Theorem syntax_check_agrees_with_parser (d : Json_dom) :
  textual d = true -> no_container_under_taken_key d = true ->
  let parsed := feed Rapid_json_handler_new (events_of d) in
  let checked := Syntax_check_handler.feed Syntax_check_handler.new (events_of d) in
  fst checked = fst parsed /\
  Syntax_check_handler.m_da (snd checked) = m_da (snd parsed) /\
  ((depth d <= JSON_DOCUMENT_MAX_DEPTH)%nat ->
   fst checked = (length (events_of d), true) /\
   Syntax_check_handler.m_depth (snd checked) = 0%nat /\
   Syntax_check_handler.m_da (snd checked) = []) /\
  ((JSON_DOCUMENT_MAX_DEPTH < depth d)%nat ->
   snd (fst checked) = false /\
   Syntax_check_handler.m_da (snd checked) = [ER_JSON_DOCUMENT_TOO_DEEP]).
Proof.
  intros Htext _ parsed checked.
  assert (Hnew : ready Rapid_json_handler_new) by reflexivity.
  assert (Hsame : same_depth Rapid_json_handler_new Syntax_check_handler.new)
    by (split; reflexivity).
  pose proof (feed_agrees (events_of d) _ _ Hsame) as Hagree.
  destruct (textual_value_fed d Htext _ Hnew) as [Hwithin Hexceeded].
  fold parsed in Hagree. subst checked.
  destruct (Nat.le_gt_cases (depth d) JSON_DOCUMENT_MAX_DEPTH) as [Hle|Hgt].
  - destruct (Hwithin Hle) as (h' & Hfeed & Hdepth & Hda & _).
    fold parsed in Hfeed. rewrite Hfeed in *.
    destruct Hagree as [Hok _]. destruct (Hok eq_refl) as (s' & -> & [Hd' Hda'] & _).
    cbn [fst snd] in *. split; [reflexivity|]. split; [exact Hda'|].
    split; [|lia]. intros _. split; [reflexivity|].
    split; [rewrite Hd', Hdepth|rewrite Hda', Hda]; reflexivity.
  - destruct (Hexceeded Hgt) as (n & h' & Hfeed & Hda).
    fold parsed in Hfeed. rewrite Hfeed in *.
    destruct Hagree as [_ Hfail].
    destruct (Hfail eq_refl) as (s' & -> & [Hd' Hda']).
    { rewrite Hda. cbn. discriminate. }
    cbn [fst snd] in *. split; [reflexivity|]. split; [exact Hda'|].
    split; [lia|]. intros _. split; [reflexivity|]. rewrite Hda', Hda. reflexivity.
Qed.

End Syntax_check.

Lemma syntax_check_agrees_with_parser_witness :
  let d : @Json_dom Integer_decimals :=
    Json_array [Json_int 1; Json_object [("a"%string, Json_null)]] in
  fst (Syntax_check_handler.feed Syntax_check_handler.new (events_of d)) =
  (length (events_of d), true).
Proof.
  intros d.
  pose proof (@syntax_check_agrees_with_parser Integer_decimals d eq_refl eq_refl) as H.
  cbv zeta in H. destruct H as (_ & _ & Hwithin & _).
  apply Hwithin. vm_compute. lia.
Defined.

(** ** The document that the parser builds *)

Section Built_document.
Context `{DL : Decimal_library}.

(** The document that the events of [d] build: the members of an object
    are inserted one by one, so they end up in key order and the first
    of several members with one key is the one kept. *)
Fixpoint built (d : Json_dom) : Json_dom :=
  match d with
  | Json_array m_v => Json_array (map built m_v)
  | Json_object m_map =>
    Json_object
      (fold_left (fun members kv => fst (map_insert (fst kv) (built (snd kv)) members))
                 m_map [])
  | _ => d
  end.

(** The handler after a complete value [v] has been seen, but for the
    key it remembers. *)
Definition place (h : Rapid_json_handler) (v : Json_dom) : Rapid_json_handler :=
  match m_state h, m_open h with
  | expect_anything, _ =>
    mk_handler expect_eof (Some v) (m_open h) (m_depth h) (m_key h) (m_da h)
  | expect_array_value, (Json_array elems, pl) :: parents =>
    mk_handler expect_array_value (m_dom_as_built h)
               ((Json_array (elems ++ [v]), pl) :: parents)
               (m_depth h) (m_key h) (m_da h)
  | expect_object_value, (Json_object members, pl) :: parents =>
    mk_handler expect_object_key (m_dom_as_built h)
               ((Json_object (fst (map_insert (m_key h) v members)), pl) :: parents)
               (m_depth h) (m_key h) (m_da h)
  | _, _ => h
  end.

(** Two handlers that differ in the remembered key at most. *)
Definition same_but_key (h1 h2 : Rapid_json_handler) : Prop :=
  m_state h1 = m_state h2 /\ m_dom_as_built h1 = m_dom_as_built h2 /\
  m_open h1 = m_open h2 /\ m_depth h1 = m_depth h2 /\ m_da h1 = m_da h2.

Lemma seeing_value_places (h : Rapid_json_handler) (v : Json_dom) :
  ready h -> (m_depth h + 1 <= JSON_DOCUMENT_MAX_DEPTH)%nat ->
  fst (seeing_value h (Some v)) = (true, place h v).
Proof.
  intros Hready Hdepth. unfold seeing_value, place.
  rewrite (check_json_depth_within _ Hdepth). cbn [m_state m_open m_depth m_key m_da].
  rewrite app_nil_r. unfold ready in Hready.
  destruct h as [state dom open depth key da].
  cbn [m_state m_open m_depth m_key m_da m_dom_as_built] in *.
  destruct state; try contradiction.
  - reflexivity.
  - destruct Hready as (elems & pl & parents & ->).
    unfold append_alias, insert_alias. rewrite Nat.min_id, firstn_all, drop_all.
    reflexivity.
  - destruct Hready as (members & pl & parents & ->). reflexivity.
Qed.

Lemma place_ready_state (h : Rapid_json_handler) (v : Json_dom) :
  ready h ->
  m_state (place h v) = next_state (m_state h) /\
  m_depth (place h v) = m_depth h /\ m_da (place h v) = m_da h.
Proof.
  intros Hready. unfold place, ready in *.
  destruct (m_state h); try contradiction; cbn [next_state].
  - repeat split.
  - destruct Hready as (elems & pl & parents & ->). repeat split.
  - destruct Hready as (members & pl & parents & ->). repeat split.
Qed.

(** Replacing the empty container at the place where it was put. *)
Lemma insert_at_end (elems : list Json_dom) (c0 content : Json_dom) :
  <[length elems := content]> (elems ++ [c0]) = elems ++ [content].
Proof.
  induction elems as [|x elems IH]; [reflexivity|]. cbn. f_equal. exact IH.
Qed.

Lemma map_assign_insert (k : string) (c0 content : Json_dom) (members : Json_object_map) :
  snd (map_insert k c0 members) = true ->
  map_assign k content (fst (map_insert k c0 members)) = fst (map_insert k content members).
Proof.
  induction members as [|[k0 v0] members IH]; cbn [map_insert].
  - intros _. cbn. rewrite key_equiv_refl. reflexivity.
  - destruct (Json_key_comparator k k0) eqn:C1.
    + intros _. cbn. rewrite key_equiv_refl. reflexivity.
    + destruct (Json_key_comparator k0 k) eqn:C2; [|discriminate].
      destruct (map_insert k c0 members) as [rest0 inserted0].
      destruct (map_insert k content members) as [rest1 inserted1].
      cbn [fst snd] in *. intros Hins. cbn [map_assign].
      assert (Hne : key_equiv k k0 = false) by (unfold key_equiv; rewrite C2, andb_false_r; reflexivity).
      rewrite Hne, (IH Hins). reflexivity.
Qed.

Lemma map_insert_declined (k : string) (c0 content : Json_dom) (members : Json_object_map) :
  snd (map_insert k c0 members) = false ->
  fst (map_insert k c0 members) = fst (map_insert k content members).
Proof.
  induction members as [|[k0 v0] members IH]; cbn [map_insert]; [discriminate|].
  destruct (Json_key_comparator k k0); [discriminate|].
  destruct (Json_key_comparator k0 k); [|reflexivity].
  destruct (map_insert k c0 members) as [rest0 inserted0].
  destruct (map_insert k content members) as [rest1 inserted1].
  cbn [fst snd] in *. intros Hins. rewrite (IH Hins). reflexivity.
Qed.

(** Closing a container writes its contents to the place where the
    empty container [c0] was put when it was opened. *)
Lemma closed_container_placed (h h2 : Rapid_json_handler) (c0 content : Json_dom) :
  ready h -> (m_depth h + 1 <= JSON_DOCUMENT_MAX_DEPTH)%nat ->
  let h0 := snd (fst (seeing_value h (Some c0))) in
  let pl0 := snd (seeing_value h (Some c0)) in
  m_open h2 = (content, pl0) :: m_open h0 ->
  m_dom_as_built h2 = m_dom_as_built h0 ->
  m_depth h2 = S (m_depth h0) -> m_da h2 = m_da h0 ->
  same_but_key (end_object_or_array h2) (place h content).
Proof.
  intros Hready Hdepth. unfold seeing_value, place.
  rewrite (check_json_depth_within _ Hdepth). cbn [m_state m_open m_depth m_key m_da].
  rewrite app_nil_r. unfold ready in Hready.
  destruct h as [state dom open depth key da].
  cbn [m_state m_open m_depth m_key m_da m_dom_as_built] in *.
  destruct state; try contradiction; cbn zeta.
  - subst open. cbn [fst snd m_open m_dom_as_built m_depth m_da].
    intros Hopen Hdom Hd Hda. unfold end_object_or_array. rewrite Hopen.
    unfold same_but_key. cbn [m_state m_dom_as_built m_open m_depth m_da].
    rewrite Hd. repeat split; assumption.
  - destruct Hready as (elems & pl & parents & ->).
    unfold append_alias, insert_alias. rewrite Nat.min_id, firstn_all, drop_all.
    cbn [fst snd m_open m_dom_as_built m_depth m_da app].
    intros Hopen Hdom Hd Hda. unfold end_object_or_array. rewrite Hopen.
    cbn [write_back]. rewrite insert_at_end.
    unfold same_but_key. cbn [json_type enum_json_type_eqb m_state m_dom_as_built m_open
                               m_depth m_da].
    rewrite Hd. repeat split; assumption.
  - destruct Hready as (members & pl & parents & ->).
    unfold add_alias. cbn [fst snd negb m_open m_dom_as_built m_depth m_da].
    intros Hopen Hdom Hd Hda. unfold end_object_or_array. rewrite Hopen.
    assert (Hparent :
      write_back content
                 (if snd (map_insert key c0 members) then At_key key else At_nowhere)
                 (Json_object (fst (map_insert key c0 members))) =
      Json_object (fst (map_insert key content members))).
    { destruct (snd (map_insert key c0 members)) eqn:Hins; cbn [write_back].
      - rewrite map_assign_insert by exact Hins. reflexivity.
      - rewrite (map_insert_declined key c0 content members Hins). reflexivity. }
    rewrite Hparent.
    unfold same_but_key. cbn [json_type enum_json_type_eqb m_state m_dom_as_built m_open
                               m_depth m_da].
    rewrite Hd. repeat split; assumption.
Qed.

(** Feeding the events of [d] to a handler that expects a value places
    the document they build. *)
Definition value_built (d : Json_dom) : Prop :=
  forall h, ready h -> (m_depth h + depth d <= JSON_DOCUMENT_MAX_DEPTH)%nat ->
    exists h', feed h (events_of d) = (length (events_of d), true, h') /\
               same_but_key h' (place h (built d)).

Lemma same_but_key_refl (h : Rapid_json_handler) : same_but_key h h.
Proof. repeat split. Qed.

Lemma scalar_built (d : Json_dom) (e : event) :
  events_of d = [e] -> depth d = 1%nat -> built d = d ->
  (forall h, handle h e = fst (seeing_value h (Some d))) ->
  value_built d.
Proof.
  intros Hev Hdepth Hbuilt Hhandle h Hready Hd.
  rewrite Hev, Hdepth, Hbuilt in *. cbn [feed length].
  rewrite Hhandle, (seeing_value_places h d Hready Hd).
  exists (place h d). split; [reflexivity|apply same_but_key_refl].
Qed.

Lemma place_in_array (h : Rapid_json_handler) (v : Json_dom) (acc : list Json_dom)
                     (pl0 : placement) (open0 : list (Json_dom * placement)) :
  m_state h = expect_array_value -> m_open h = (Json_array acc, pl0) :: open0 ->
  place h v = mk_handler expect_array_value (m_dom_as_built h)
                         ((Json_array (acc ++ [v]), pl0) :: open0)
                         (m_depth h) (m_key h) (m_da h).
Proof. intros Hs Ho. unfold place. rewrite Hs, Ho. reflexivity. Qed.

Lemma place_in_object (h : Rapid_json_handler) (v : Json_dom) (acc : Json_object_map)
                      (pl0 : placement) (open0 : list (Json_dom * placement)) :
  m_state h = expect_object_value -> m_open h = (Json_object acc, pl0) :: open0 ->
  place h v = mk_handler expect_object_key (m_dom_as_built h)
                         ((Json_object (fst (map_insert (m_key h) v acc)), pl0) :: open0)
                         (m_depth h) (m_key h) (m_da h).
Proof. intros Hs Ho. unfold place. rewrite Hs, Ho. reflexivity. Qed.

(** The elements of an array, fed to a handler inside the array. *)
Lemma elements_built (m_v : list Json_dom) :
  (forall x, In x m_v -> value_built x) ->
  forall h acc pl0 open0,
    m_state h = expect_array_value -> m_open h = (Json_array acc, pl0) :: open0 ->
    (forall x, In x m_v -> (m_depth h + depth x <= JSON_DOCUMENT_MAX_DEPTH)%nat) ->
    exists h', feed h (flat_map events_of m_v) =
               (length (flat_map events_of m_v), true, h') /\
               m_state h' = expect_array_value /\
               m_open h' = (Json_array (acc ++ map built m_v), pl0) :: open0 /\
               m_depth h' = m_depth h /\ m_dom_as_built h' = m_dom_as_built h /\
               m_da h' = m_da h.
Proof.
  induction m_v as [|x m_v IH]; intros Hbuilt h acc pl0 open0 Hstate Hopen Hdepth.
  - exists h. cbn [flat_map map feed length]. rewrite app_nil_r.
    repeat split; try reflexivity; assumption.
  - assert (Hready : ready h) by (unfold ready; rewrite Hstate; eauto).
    destruct (Hbuilt x (or_introl eq_refl) h Hready (Hdepth x (or_introl eq_refl)))
      as (h1 & Hfeed1 & Hs1 & Hdom1 & Ho1 & Hd1 & Hda1).
    rewrite (place_in_array h _ acc pl0 open0 Hstate Hopen) in *.
    cbn [m_state m_dom_as_built m_open m_depth m_da] in *.
    destruct (IH (fun y Hy => Hbuilt y (or_intror Hy)) h1 (acc ++ [built x]) pl0 open0
                 Hs1 Ho1) as (h2 & Hfeed2 & Hs2 & Ho2 & Hd2 & Hdom2 & Hda2).
    { intros y Hy. rewrite Hd1. apply Hdepth. right. exact Hy. }
    exists h2. cbn [flat_map map]. rewrite feed_app, Hfeed1, Hfeed2, length_app.
    rewrite <- app_assoc in Ho2. cbn [app] in Ho2. repeat split; congruence.
Qed.

(** The members of an object, fed to a handler inside the object. *)
Lemma members_built (m_map : Json_object_map) :
  (forall k x, In (k, x) m_map -> value_built x) ->
  forall h acc pl0 open0,
    m_state h = expect_object_key -> m_open h = (Json_object acc, pl0) :: open0 ->
    (forall k x, In (k, x) m_map ->
                 (m_depth h + depth x <= JSON_DOCUMENT_MAX_DEPTH)%nat) ->
    exists h', feed h (flat_map (fun kv => Key (fst kv) :: events_of (snd kv)) m_map) =
               (length (flat_map (fun kv => Key (fst kv) :: events_of (snd kv)) m_map),
                true, h') /\
               m_state h' = expect_object_key /\
               m_open h' =
                 (Json_object
                    (fold_left (fun members kv =>
                                  fst (map_insert (fst kv) (built (snd kv)) members))
                               m_map acc), pl0) :: open0 /\
               m_depth h' = m_depth h /\ m_dom_as_built h' = m_dom_as_built h /\
               m_da h' = m_da h.
Proof.
  induction m_map as [|[k x] m_map IH]; intros Hbuilt h acc pl0 open0 Hstate Hopen Hdepth.
  - exists h. cbn [flat_map fold_left feed length].
    repeat split; try reflexivity; assumption.
  - pose proof (Hdepth k x (or_introl eq_refl)) as Hx. pose proof (depth_pos x) as Hpos.
    cbn [flat_map fst snd app]. cbn [feed].
    rewrite (handle_key_within h k) by lia. rewrite app_nil_r.
    set (hk := mk_handler expect_object_value (m_dom_as_built h) (m_open h) (m_depth h) k
                          (m_da h)).
    assert (Hready : ready hk) by (unfold ready, hk; cbn; eauto).
    destruct (Hbuilt k x (or_introl eq_refl) hk Hready Hx)
      as (h1 & Hfeed1 & Hs1 & Hdom1 & Ho1 & Hd1 & Hda1).
    rewrite (place_in_object hk _ acc pl0 open0 eq_refl Hopen) in *.
    cbn [hk m_state m_dom_as_built m_open m_depth m_key m_da] in *.
    destruct (IH (fun k' y Hy => Hbuilt k' y (or_intror Hy)) h1
                 (fst (map_insert k (built x) acc)) pl0 open0 Hs1 Ho1)
      as (h2 & Hfeed2 & Hs2 & Ho2 & Hd2 & Hdom2 & Hda2).
    { intros k' y Hy. rewrite Hd1. apply (Hdepth k'). right. exact Hy. }
    exists h2. rewrite feed_app, Hfeed1, Hfeed2. cbn [length]. rewrite length_app.
    cbn [fold_left fst snd]. repeat split; congruence.
Qed.

Lemma array_built (m_v : list Json_dom) :
  (forall x, In x m_v -> value_built x) -> value_built (Json_array m_v).
Proof.
  intros Hbuilt h Hready Hdepth. cbn [depth] in Hdepth.
  assert (Hd1 : (m_depth h + 1 <= JSON_DOCUMENT_MAX_DEPTH)%nat) by lia.
  pose proof (seeing_value_places h (Json_array []) Hready Hd1) as Hplaces.
  pose proof (closed_container_placed h) as Hclose.
  specialize (fun h2 content => Hclose h2 (Json_array []) content Hready Hd1).
  cbv zeta in Hclose.
  destruct (place_ready_state h (Json_array []) Hready) as (_ & Hd0 & _).
  cbn [events_of feed handle]. unfold start_container.
  destruct (seeing_value h (Some (Json_array []))) as [[success h0] pl0].
  cbn [fst snd] in Hplaces, Hclose. injection Hplaces as -> ->.
  set (h1 := mk_handler expect_array_value _ _ _ _ _).
  destruct (elements_built m_v Hbuilt h1 [] pl0 (m_open (place h (Json_array [])))
                           eq_refl eq_refl)
    as (h2 & Hfeed2 & Hs2 & Ho2 & Hd2 & Hdom2 & Hda2).
  { intros x Hx. cbn [h1 m_depth]. rewrite Hd0.
    pose proof (proj1 (fold_max_le depth m_v _) (Nat.le_refl _) x Hx). lia. }
  rewrite feed_app, Hfeed2. cbn [feed handle app].
  exists (end_object_or_array h2). split.
  - cbn [length]. rewrite length_app. reflexivity.
  - apply Hclose; assumption.
Qed.

Lemma object_built (m_map : Json_object_map) :
  (forall k x, In (k, x) m_map -> value_built x) -> value_built (Json_object m_map).
Proof.
  intros Hbuilt h Hready Hdepth. cbn [depth] in Hdepth.
  assert (Hd1 : (m_depth h + 1 <= JSON_DOCUMENT_MAX_DEPTH)%nat) by lia.
  pose proof (seeing_value_places h (Json_object []) Hready Hd1) as Hplaces.
  pose proof (closed_container_placed h) as Hclose.
  specialize (fun h2 content => Hclose h2 (Json_object []) content Hready Hd1).
  cbv zeta in Hclose.
  destruct (place_ready_state h (Json_object []) Hready) as (_ & Hd0 & _).
  cbn [events_of feed handle]. unfold start_container.
  destruct (seeing_value h (Some (Json_object []))) as [[success h0] pl0].
  cbn [fst snd] in Hplaces, Hclose. injection Hplaces as -> ->.
  set (h1 := mk_handler expect_object_key _ _ _ _ _).
  destruct (members_built m_map Hbuilt h1 [] pl0 (m_open (place h (Json_object [])))
                          eq_refl eq_refl)
    as (h2 & Hfeed2 & Hs2 & Ho2 & Hd2 & Hdom2 & Hda2).
  { intros k x Hx. cbn [h1 m_depth]. rewrite Hd0.
    pose proof (proj1 (fold_max_le (fun kv => depth (snd kv)) m_map _) (Nat.le_refl _)
                      (k, x) Hx) as Hle.
    cbn [snd] in Hle. lia. }
  rewrite feed_app, Hfeed2. cbn [feed handle app].
  exists (end_object_or_array h2). split.
  - cbn [length]. rewrite length_app. reflexivity.
  - apply Hclose; assumption.
Qed.

Lemma textual_value_built (d : Json_dom) : textual d = true -> value_built d.
Proof.
  induction d as [d Hd|m_v IH|m_map IH] using Json_dom_induction; intros Htext.
  - destruct d as [ |b|i|u|f|m|s|mytype v|t ft|l|l];
      try discriminate Hd; try discriminate Htext.
    + apply (scalar_built _ Null); reflexivity.
    + apply (scalar_built _ (Bool b)); reflexivity.
    + apply (scalar_built _ (Int64 i)); reflexivity.
    + apply (scalar_built _ (Uint64 u)); reflexivity.
    + apply (scalar_built _ (Double (Finite f))); reflexivity.
    + apply (scalar_built _ (String s)); reflexivity.
  - apply array_built. intros x Hx. apply IH; [exact Hx|].
    cbn [textual] in Htext. rewrite forallb_forall in Htext. apply Htext. exact Hx.
  - apply object_built. intros k x Hx. apply (IH k x Hx).
    cbn [textual] in Htext. rewrite forallb_forall in Htext.
    apply (Htext (k, x) Hx).
Qed.

(** The documents whose objects list their members in key order, each
    key once. *)
Fixpoint sorted_objects (d : Json_dom) : bool :=
  match d with
  | Json_array m_v => forallb sorted_objects m_v
  | Json_object m_map =>
    map_sorted m_map && forallb (fun kv => sorted_objects (snd kv)) m_map
  | _ => true
  end.

Lemma map_sorted_app_l (l1 l2 : Json_object_map) :
  map_sorted (l1 ++ l2) = true -> map_sorted l1 = true.
Proof.
  induction l1 as [|[k v] l1 IH]; [reflexivity|]. cbn [app]. intros Hs.
  destruct (map_sorted_cons _ _ _ Hs) as [Habove Hs'].
  apply keys_above_sorted; [|apply IH; exact Hs'].
  unfold keys_above in *. apply Forall_app in Habove. apply Habove.
Qed.

(** A key above all keys of the map is inserted at the end. *)
Lemma map_insert_at_end (k : string) (v : Json_dom) (acc : Json_object_map) :
  map_sorted (acc ++ [(k, v)]) = true -> fst (map_insert k v acc) = acc ++ [(k, v)].
Proof.
  induction acc as [|[k0 v0] acc IH]; [reflexivity|]. cbn [app]. intros Hs.
  destruct (map_sorted_cons _ _ _ Hs) as [Habove Hs'].
  assert (Hlt : Json_key_comparator k0 k = true).
  { unfold keys_above in Habove. apply Forall_app in Habove. destruct Habove as [_ Hk].
    inversion Hk; subst. assumption. }
  cbn [map_insert]. rewrite (Json_key_comparator_asym _ _ Hlt), Hlt.
  specialize (IH Hs'). destruct (map_insert k v acc) as [rest inserted].
  cbn [fst] in *. rewrite IH. reflexivity.
Qed.

Lemma members_in_order (m_map : Json_object_map) : forall acc : Json_object_map,
  map_sorted (acc ++ m_map) = true ->
  (forall k x, In (k, x) m_map -> built x = x) ->
  fold_left (fun members kv => fst (map_insert (fst kv) (built (snd kv)) members))
            m_map acc = acc ++ m_map.
Proof.
  induction m_map as [|[k x] m_map IH]; intros acc Hs Hbuilt; cbn [fold_left fst snd].
  - rewrite app_nil_r. reflexivity.
  - rewrite (Hbuilt k x (or_introl eq_refl)).
    change (acc ++ (k, x) :: m_map) with (acc ++ [(k, x)] ++ m_map) in *.
    rewrite app_assoc in Hs. rewrite map_insert_at_end by (apply map_sorted_app_l in Hs; exact Hs).
    rewrite IH; [rewrite <- app_assoc; reflexivity|exact Hs|].
    intros k' y Hy. apply (Hbuilt k'). right. exact Hy.
Qed.

Lemma sorted_objects_built (d : Json_dom) : sorted_objects d = true -> built d = d.
Proof.
  induction d as [d Hd|m_v IH|m_map IH] using Json_dom_induction; intros Hsorted.
  - destruct d; try discriminate Hd; reflexivity.
  - cbn [built]. f_equal. cbn [sorted_objects] in Hsorted.
    rewrite forallb_forall in Hsorted.
    rewrite <- (map_id m_v) at 2. apply map_ext_in. intros x Hx. apply IH; auto.
  - cbn [built]. f_equal. cbn [sorted_objects] in Hsorted.
    apply andb_true_iff in Hsorted. destruct Hsorted as [Hs Hall].
    rewrite forallb_forall in Hall.
    apply (members_in_order m_map []); [exact Hs|].
    intros k x Hx. apply (IH k x Hx). apply (Hall (k, x) Hx).
Qed.

(** X11: the events of a document of depth at most the maximum build a
    document and leave the handler at its end, with nothing open and no
    error.  The document built has the members of each object in key
    order, and of several members with one key the first is the one
    kept; it is the document itself when its objects list their members
    in key order, each key once. *)
Theorem parser_builds_document (d : Json_dom) :
  textual d = true -> no_container_under_taken_key d = true ->
  (depth d <= JSON_DOCUMENT_MAX_DEPTH)%nat ->
  exists h, feed Rapid_json_handler_new (events_of d) = (length (events_of d), true, h) /\
            get_built_doc h = Some (built d) /\
            m_open h = [] /\ m_state h = expect_eof /\ m_depth h = 0%nat /\ m_da h = [] /\
            (sorted_objects d = true -> get_built_doc h = Some d).
Proof.
  intros Htext _ Hdepth.
  destruct (textual_value_built d Htext Rapid_json_handler_new) as (h & Hfeed & Hsame);
    [reflexivity|exact Hdepth|].
  destruct Hsame as (Hs & Hdom & Ho & Hd & Hda). cbn in Hs, Hdom, Ho, Hd, Hda.
  exists h. unfold get_built_doc. repeat split; try assumption.
  intros Hsorted. rewrite Hdom, (sorted_objects_built d Hsorted). reflexivity.
Qed.

End Built_document.

Lemma parser_builds_document_witness :
  let d : @Json_dom Integer_decimals :=
    Json_object [("b"%string, Json_int 1); ("a"%string, Json_array [Json_null]);
                 ("b"%string, Json_int 2)] in
  exists h, feed Rapid_json_handler_new (events_of d) = (length (events_of d), true, h) /\
            get_built_doc h =
            Some (Json_object [("a"%string, Json_array [Json_null]);
                               ("b"%string, Json_int 1)]).
Proof.
  intros d.
  destruct (@parser_builds_document Integer_decimals d eq_refl eq_refl
                                      ltac:(vm_compute; lia))
    as (h & Hfeed & Hdoc & _).
  exists h. split; [exact Hfeed|exact Hdoc].
Defined.

(** ** The depth guard, where the callbacks are defined *)

Section Defined_runs.
Context `{DL : Decimal_library}.

(** The current element of [h], if any, was not deleted when it was
    opened. *)
Definition placed (h : Rapid_json_handler) : Prop :=
  match m_open h with
  | (_, At_nowhere) :: _ => False
  | _ => True
  end.

(** The key that [h] remembers is not taken in the open object. *)
Definition key_free (h : Rapid_json_handler) : Prop :=
  match m_state h, m_open h with
  | expect_object_value, (Json_object members, _) :: _ =>
    snd (map_insert (m_key h) Json_null members) = true
  | _, _ => True
  end.

(** Feeding the events of [d] to a handler that expects a value, has a
    live current element and, if [d] is a container, a free key, calls
    no callback that is undefined. *)
Definition value_defined (d : Json_dom) : Prop :=
  forall h, ready h -> placed h -> (is_container d = true -> key_free h) ->
    feed_defined h (events_of d) = true.

Lemma feed_defined_app (l1 l2 : list event) : forall h,
  feed_defined h (l1 ++ l2) =
  feed_defined h l1 &&
  (let '(n, ok, h1) := feed h l1 in if ok then feed_defined h1 l2 else true).
Proof.
  induction l1 as [|e l1 IH]; intros h; cbn [feed_defined feed app].
  - reflexivity.
  - destruct (handle h e) as [continue h']. destruct continue.
    + rewrite IH. destruct (feed h' l1) as [[n1 ok1] h1].
      rewrite andb_assoc. reflexivity.
    + rewrite !andb_true_r. reflexivity.
Qed.

(** Whether [insert] inserts does not depend on the value. *)
Lemma map_insert_snd_value (k : string) (v w : Json_dom) (m : Json_object_map) :
  snd (map_insert k v m) = snd (map_insert k w m).
Proof.
  induction m as [|[k0 v0] m IH]; cbn [map_insert]; [reflexivity|].
  destruct (Json_key_comparator k k0); [reflexivity|].
  destruct (Json_key_comparator k0 k); [|reflexivity].
  destruct (map_insert k v m) as [r1 i1]. destruct (map_insert k w m) as [r2 i2].
  exact IH.
Qed.

Lemma map_insert_cons_snd (k k0 : string) (w v0 : Json_dom) (m : Json_object_map) :
  snd (map_insert k w ((k0, v0) :: m)) =
  if Json_key_comparator k k0 then true
  else if Json_key_comparator k0 k then snd (map_insert k w m) else false.
Proof.
  cbn [map_insert]. destruct (Json_key_comparator k k0); [reflexivity|].
  destruct (Json_key_comparator k0 k); [|reflexivity].
  destruct (map_insert k w m) as [r i]. reflexivity.
Qed.

(** A free key stays free when another key is inserted. *)
Lemma map_insert_keeps_free (k k' : string) (v w : Json_dom) (m : Json_object_map) :
  k' <> k -> snd (map_insert k' w m) = true ->
  snd (map_insert k' w (fst (map_insert k v m))) = true.
Proof.
  intros Hne. pose proof (key_equiv_neq k' k Hne) as Hequiv. unfold key_equiv in Hequiv.
  induction m as [|[k0 v0] m IH]; intros Hfree.
  - change (fst (map_insert k v [])) with [(k, v)]. rewrite map_insert_cons_snd.
    destruct (Json_key_comparator k' k); [reflexivity|].
    destruct (Json_key_comparator k k'); [reflexivity|discriminate].
  - rewrite map_insert_cons_snd in Hfree.
    change (map_insert k v ((k0, v0) :: m))
      with (if Json_key_comparator k k0 then ((k, v) :: (k0, v0) :: m, true)
            else if Json_key_comparator k0 k then
                   let (rest', inserted) := map_insert k v m in ((k0, v0) :: rest', inserted)
                 else ((k0, v0) :: m, false)).
    destruct (Json_key_comparator k k0) eqn:C1; cbn [fst].
    + rewrite map_insert_cons_snd. destruct (Json_key_comparator k' k); [reflexivity|].
      destruct (Json_key_comparator k k'); [|discriminate].
      rewrite map_insert_cons_snd. exact Hfree.
    + destruct (Json_key_comparator k0 k) eqn:C2.
      * destruct (map_insert k v m) as [r i] eqn:Hins. cbn [fst] in *.
        rewrite map_insert_cons_snd. destruct (Json_key_comparator k' k0); [reflexivity|].
        destruct (Json_key_comparator k0 k'); [|discriminate]. apply IH. exact Hfree.
      * cbn [fst]. rewrite map_insert_cons_snd. exact Hfree.
Qed.

(** The events of a value that are all accepted place the document
    they build. *)
Lemma fed_value_placed (d : Json_dom) (h h' : Rapid_json_handler) (n : nat) :
  textual d = true -> ready h -> feed h (events_of d) = (n, true, h') ->
  same_but_key h' (place h (built d)).
Proof.
  intros Htext Hready Hfeed.
  destruct (le_lt_dec (m_depth h + depth d) JSON_DOCUMENT_MAX_DEPTH) as [Hle|Hgt].
  - destruct (textual_value_built d Htext h Hready Hle) as (h2 & Hfeed2 & Hsame).
    rewrite Hfeed2 in Hfeed. injection Hfeed as _ <-. exact Hsame.
  - destruct (proj2 (textual_value_fed d Htext h Hready) Hgt) as (n2 & h2 & Hfeed2 & _).
    rewrite Hfeed2 in Hfeed. discriminate.
Qed.

Lemma ready_live (h : Rapid_json_handler) :
  ready h -> placed h ->
  m_state h = expect_anything \/ current_element_live h = true.
Proof.
  unfold ready, placed, current_element_live.
  destruct (m_state h); try contradiction; auto.
  - intros (elems & pl & parents & ->) Hpl. right. destruct pl; auto; contradiction.
  - intros (members & pl & parents & ->) Hpl. right. destruct pl; auto; contradiction.
Qed.

(** A callback that hands a value to [seeing_value] is defined in such
    a handler. *)
Lemma value_event_defined (h : Rapid_json_handler) (e : event) :
  ready h -> placed h -> e <> EndObject -> e <> EndArray ->
  negb (reads_current_element h e) || current_element_live h = true.
Proof.
  intros Hready Hplaced Ho Ha.
  destruct (ready_live h Hready Hplaced) as [Hstate| ->]; [|apply orb_true_r].
  unfold reads_current_element. rewrite Hstate, andb_false_r.
  destruct e as [ |b|i|u|i|u|[f|]|s| |k| | | ]; try reflexivity; contradiction.
Qed.

Lemma scalar_defined (d : Json_dom) (e : event) :
  events_of d = [e] -> e <> EndObject -> e <> EndArray -> value_defined d.
Proof.
  intros Hev Ho Ha h Hready Hplaced _. rewrite Hev. cbn [feed_defined].
  rewrite (value_event_defined h e Hready Hplaced Ho Ha).
  destruct (handle h e) as [[|] h']; reflexivity.
Qed.

(** A value put into a handler with a live current element and a free
    key is put somewhere. *)
Lemma seeing_value_placement (h : Rapid_json_handler) (c : Json_dom) :
  ready h -> key_free h -> (m_depth h + 1 <= JSON_DOCUMENT_MAX_DEPTH)%nat ->
  snd (seeing_value h (Some c)) <> At_nowhere.
Proof.
  intros Hready Hfree Hdepth. unfold seeing_value.
  rewrite (check_json_depth_within _ Hdepth). cbn [m_state m_open m_depth m_key m_da].
  unfold ready in Hready. unfold key_free in Hfree.
  destruct h as [state dom open depth key da].
  cbn [m_state m_open m_depth m_key m_da m_dom_as_built] in *.
  destruct state; try contradiction.
  - discriminate.
  - destruct Hready as (elems & pl & parents & ->). rewrite append_alias_spec.
    discriminate.
  - destruct Hready as (members & pl & parents & ->). unfold add_alias. cbn [snd].
    rewrite (map_insert_snd_value key c Json_null), Hfree. discriminate.
Qed.

Lemma end_event_defined (h : Rapid_json_handler) (e : event) (content : Json_dom)
                        (pl0 : placement) (open0 : list (Json_dom * placement)) :
  e = EndArray \/ e = EndObject ->
  m_open h = (content, pl0) :: open0 -> pl0 <> At_nowhere -> feed_defined h [e] = true.
Proof.
  intros He Hopen Hpl. cbn [feed_defined]. unfold current_element_live. rewrite Hopen.
  destruct He as [-> | ->]; destruct pl0; try contradiction; reflexivity.
Qed.

(** The elements of an array and the end of the array, fed to a handler
    inside the array. *)
Lemma elements_defined (m_v : list Json_dom) :
  (forall x, In x m_v -> textual x = true /\ value_defined x) ->
  forall h acc pl0 open0,
    m_state h = expect_array_value -> m_open h = (Json_array acc, pl0) :: open0 ->
    pl0 <> At_nowhere ->
    feed_defined h (flat_map events_of m_v ++ [EndArray]) = true.
Proof.
  induction m_v as [|x m_v IH]; intros Hall h acc pl0 open0 Hstate Hopen Hpl.
  - apply (end_event_defined h EndArray (Json_array acc) pl0 open0); auto.
  - cbn [flat_map]. rewrite <- app_assoc, feed_defined_app.
    assert (Hready : ready h) by (unfold ready; rewrite Hstate; eauto).
    assert (Hplaced : placed h) by (unfold placed; rewrite Hopen; destruct pl0; auto).
    destruct (Hall x (or_introl eq_refl)) as [Htext Hdef].
    rewrite (Hdef h Hready Hplaced)
      by (intros _; unfold key_free; rewrite Hstate; exact I).
    cbn [andb]. destruct (feed h (events_of x)) as [[n ok] h1] eqn:Hfeed.
    destruct ok; [|reflexivity].
    destruct (fed_value_placed x h h1 n Htext Hready Hfeed) as (Hs1 & _ & Ho1 & _).
    rewrite (place_in_array h _ acc pl0 open0 Hstate Hopen) in Hs1, Ho1.
    cbn [m_state m_open] in Hs1, Ho1.
    apply (IH (fun y Hy => Hall y (or_intror Hy)) h1 _ pl0 open0 Hs1 Ho1 Hpl).
Qed.

(** The members of an object and the end of the object, fed to a
    handler inside the object in which the keys not [seen] are free. *)
Lemma members_defined (m_map : Json_object_map) :
  (forall k x, In (k, x) m_map -> textual x = true /\ value_defined x) ->
  forall seen h acc pl0 open0,
    m_state h = expect_object_key -> m_open h = (Json_object acc, pl0) :: open0 ->
    pl0 <> At_nowhere ->
    (forall k, existsb (String.eqb k) seen = false ->
               snd (map_insert k Json_null acc) = true) ->
    repeated_keys_hold_scalars seen m_map = true ->
    feed_defined h (flat_map (fun kv => Key (fst kv) :: events_of (snd kv)) m_map
                    ++ [EndObject]) = true.
Proof.
  induction m_map as [|[k x] m_map IH];
    intros Hall seen h acc pl0 open0 Hstate Hopen Hpl Hseen Hkeys.
  - apply (end_event_defined h EndObject (Json_object acc) pl0 open0); auto.
  - cbn [repeated_keys_hold_scalars] in Hkeys. apply andb_true_iff in Hkeys.
    destruct Hkeys as [Hk Hkeys].
    cbn [flat_map fst snd app feed_defined reads_current_element negb orb andb].
    destruct (le_lt_dec (m_depth h + 1) JSON_DOCUMENT_MAX_DEPTH) as [Hkey|Hkey].
    2:{ destruct (handle_key_exceeded h k Hkey) as (h' & -> & _). reflexivity. }
    rewrite (handle_key_within h k Hkey), app_nil_r.
    set (hk := mk_handler expect_object_value (m_dom_as_built h) (m_open h) (m_depth h) k
                          (m_da h)).
    rewrite <- app_assoc, feed_defined_app.
    assert (Hready : ready hk) by (unfold ready, hk; cbn; eauto).
    assert (Hplaced : placed hk)
      by (unfold placed, hk; cbn [m_open]; rewrite Hopen; destruct pl0; auto).
    destruct (Hall k x (or_introl eq_refl)) as [Htext Hdef].
    rewrite (Hdef hk Hready Hplaced).
    2:{ intros Hc. rewrite Hc in Hk. cbn [negb] in Hk. rewrite orb_false_r in Hk.
        apply negb_true_iff in Hk.
        unfold key_free, hk. cbn [m_state m_open m_key]. rewrite Hopen.
        apply Hseen. exact Hk. }
    cbn [andb]. destruct (feed hk (events_of x)) as [[n ok] h1] eqn:Hfeed.
    destruct ok; [|reflexivity].
    destruct (fed_value_placed x hk h1 n Htext Hready Hfeed) as (Hs1 & _ & Ho1 & _).
    rewrite (place_in_object hk _ acc pl0 open0 eq_refl Hopen) in Hs1, Ho1.
    cbn [hk m_state m_open m_key] in Hs1, Ho1.
    apply (IH (fun k' y Hy => Hall k' y (or_intror Hy)) (k :: seen) h1 _ pl0 open0
              Hs1 Ho1 Hpl); [|exact Hkeys].
    intros k' Hk'. cbn [existsb] in Hk'. apply orb_false_iff in Hk'.
    destruct Hk' as [Hne Hk']. apply String.eqb_neq in Hne.
    apply map_insert_keeps_free; [exact Hne|]. apply Hseen. exact Hk'.
Qed.

(** Opening a container in a handler with a live current element and a
    free key and feeding what [inside] says is defined. *)
Lemma container_defined (h : Rapid_json_handler) (e : event) (c : Json_dom)
                        (state : enum_state) (inside : list event) :
  ready h -> placed h -> key_free h -> e <> EndObject -> e <> EndArray ->
  handle h e = start_container h c state ->
  (forall h1 pl0 open0,
     m_state h1 = state -> m_open h1 = (c, pl0) :: open0 -> pl0 <> At_nowhere ->
     feed_defined h1 inside = true) ->
  feed_defined h (e :: inside) = true.
Proof.
  intros Hready Hplaced Hfree Ho Ha Hhandle Hinside. cbn [feed_defined].
  rewrite (value_event_defined h e Hready Hplaced Ho Ha), Hhandle. cbn [andb].
  destruct (le_lt_dec (m_depth h + 1) JSON_DOCUMENT_MAX_DEPTH) as [Hstart|Hstart].
  2:{ destruct (start_container_exceeded h c state Hstart) as (h2 & -> & _).
      reflexivity. }
  pose proof (seeing_value_places h c Hready Hstart) as Hplaces.
  pose proof (seeing_value_placement h c Hready Hfree Hstart) as Hpl.
  unfold start_container.
  destruct (seeing_value h (Some c)) as [[success h0] pl0].
  cbn [fst snd] in Hplaces, Hpl. injection Hplaces as -> ->.
  apply (Hinside _ pl0 (m_open (place h c))); [reflexivity|reflexivity|exact Hpl].
Qed.

(** Every textual document without a container under a taken key is
    fed as [value_defined] says. *)
Lemma textual_value_defined (d : Json_dom) :
  textual d = true -> no_container_under_taken_key d = true -> value_defined d.
Proof.
  induction d as [d Hd|m_v IH|m_map IH] using Json_dom_induction; intros Htext Hkeys.
  - destruct d as [ |b|i|u|f|m|s|mytype v|t ft|l|l];
      try discriminate Hd; try discriminate Htext;
      (eapply scalar_defined; [reflexivity|discriminate|discriminate]).
  - cbn [textual] in Htext. rewrite forallb_forall in Htext.
    cbn [no_container_under_taken_key] in Hkeys. rewrite forallb_forall in Hkeys.
    intros h Hready Hplaced Hfree. cbn [events_of].
    apply (container_defined h StartArray (Json_array []) expect_array_value);
      try assumption; try discriminate; [apply Hfree; reflexivity|reflexivity|].
    intros h1 pl0 open0 Hs1 Ho1 Hpl.
    apply (elements_defined m_v) with (acc := []) (pl0 := pl0) (open0 := open0);
      try assumption.
    intros x Hx. split; [apply Htext; exact Hx|].
    apply IH; [exact Hx|apply Htext; exact Hx|apply Hkeys; exact Hx].
  - cbn [textual] in Htext. rewrite forallb_forall in Htext.
    cbn [no_container_under_taken_key] in Hkeys. apply andb_true_iff in Hkeys.
    destruct Hkeys as [Hrepeated Hkeys]. rewrite forallb_forall in Hkeys.
    intros h Hready Hplaced Hfree. cbn [events_of].
    apply (container_defined h StartObject (Json_object []) expect_object_key);
      try assumption; try discriminate; [apply Hfree; reflexivity|reflexivity|].
    intros h1 pl0 open0 Hs1 Ho1 Hpl.
    apply (members_defined m_map) with (seen := []) (acc := []) (pl0 := pl0)
                                       (open0 := open0); try assumption.
    + intros k x Hx. split; [apply (Htext (k, x) Hx)|].
      apply (IH k x Hx); [apply (Htext (k, x) Hx)|apply (Hkeys (k, x) Hx)].
    + intros k _. reflexivity.
Qed.

#[local] Transparent JSON_DOCUMENT_MAX_DEPTH.

(** A document that puts an array under a key that is taken: the
    callbacks are defined up to the opening of the array, and the next
    one, which appends to the array, is not. *)
Lemma container_under_taken_key_undefined :
  let d := Json_object [("a"%string, Json_int 1);
                        ("a"%string, Json_array [Json_int 2])] in
  textual d = true /\ depth d = 3%nat /\ no_container_under_taken_key d = false /\
  feed_defined Rapid_json_handler_new (firstn 5 (events_of d)) = true /\
  feed_defined Rapid_json_handler_new (firstn 6 (events_of d)) = false /\
  feed_defined Rapid_json_handler_new (events_of d) = false.
Proof. vm_compute. repeat split; reflexivity. Qed.


#[local] Opaque JSON_DOCUMENT_MAX_DEPTH.

End Defined_runs.


(** ** Seeking without an ellipsis *)

(** [contains_ellipsis]. *)
Definition contains_ellipsis (path : list Json_path_leg) : bool :=
  existsb (fun leg => match m_leg_type leg with jpl_ellipsis => true | _ => false end) path.

Section Seek_properties.
Context {Value : Type}.
Context (type : Value -> json_binary.enum_type)
        (value_field_type : Value -> enum_field_types)
        (element_count : Value -> nat)
        (element : Value -> nat -> Value)
        (lookup : Value -> string -> Value).

#[local] Abbreviation seek :=
  (seek_legs type value_field_type element_count element lookup).

(** The loop of [seek_no_ellipsis] over the cells of an array or the
    members of an object, for a given search of the remaining legs. *)
Fixpoint seek_cells (seek_rest : Value -> list Value -> bool * list Value)
                    (only_need_one : bool) (this : Value) (cells : list nat)
                    (hits : list Value) : bool * list Value :=
  match cells with
  | [] => (false, hits)
  | idx :: more =>
    if is_seek_done hits only_need_one then (false, hits)
    else
      let (err, hits') := seek_rest (element this idx) hits in
      if err then (true, hits') else seek_cells seek_rest only_need_one this more hits'
  end.

Lemma each_is_seek_cells (auto_wrap only_need_one : bool) (rest : list Json_path_leg)
                          (this : Value) :
  forall (cells : list nat) (hits : list Value),
    (fix loop (cells : list nat) (hits : list Value) : bool * list Value :=
       match cells with
       | [] => (false, hits)
       | idx :: more =>
         if is_seek_done hits only_need_one then (false, hits)
         else
           let (err, hits') :=
             seek auto_wrap only_need_one rest (element this idx) hits in
           if err then (true, hits') else loop more hits'
       end) cells hits =
    seek_cells (seek auto_wrap only_need_one rest) only_need_one this cells hits.
Proof.
  induction cells as [|idx cells IH]; intros hits; [reflexivity|].
  cbn [seek_cells]. destruct (is_seek_done hits only_need_one); [reflexivity|].
  destruct (seek auto_wrap only_need_one rest (element this idx) hits) as [err hits'].
  destruct err; [reflexivity|]. apply IH.
Qed.

Lemma seek_legs_cons (auto_wrap only_need_one : bool) (path_leg : Json_path_leg)
                     (rest : list Json_path_leg) (this : Value) (hits : list Value) :
  seek auto_wrap only_need_one (path_leg :: rest) this hits =
  let jtype := binary_type type value_field_type this in
  if auto_wrap && negb (enum_json_type_eqb jtype J_ARRAY) && is_autowrap path_leg
  then seek auto_wrap only_need_one rest this hits
  else
    let each := seek_cells (seek auto_wrap only_need_one rest) only_need_one this in
    match m_leg_type path_leg with
    | jpl_member =>
      match jtype with
      | J_OBJECT =>
        let member := lookup this (m_member_name path_leg) in
        if negb (enum_json_type_eqb (binary_type type value_field_type member) J_ERROR)
        then seek auto_wrap only_need_one rest member hits
        else (false, hits)
      | _ => (false, hits)
      end
    | jpl_member_wildcard =>
      match jtype with
      | J_OBJECT => each (seq 0 (element_count this)) hits
      | _ => (false, hits)
      end
    | jpl_array_cell =>
      if enum_json_type_eqb jtype J_ARRAY then
        let idx := first_array_index path_leg (binary_length type element_count this) in
        if within_bounds idx
        then seek auto_wrap only_need_one rest (element this (position idx)) hits
        else (false, hits)
      else (false, hits)
    | jpl_array_range | jpl_array_cell_wildcard =>
      if enum_json_type_eqb jtype J_ARRAY then
        let (m_begin, m_end) :=
          get_array_range path_leg (binary_length type element_count this) in
        each (seq m_begin (m_end - m_begin)) hits
      else (false, hits)
    | jpl_ellipsis => (true, hits)
    end.
Proof.
  cbn [seek_legs]. cbv zeta.
  generalize (binary_type type value_field_type this). intros jtype.
  destruct (auto_wrap && negb _ && is_autowrap path_leg); [reflexivity|].
  destruct (m_leg_type path_leg); try reflexivity;
    destruct jtype; cbn [enum_json_type_eqb]; try reflexivity;
    try apply each_is_seek_cells;
    destruct (get_array_range _ _) as [m_begin m_end]; apply each_is_seek_cells.
Qed.

(** The hits of a search for all matches, from no hits. *)
Definition all_hits (auto_wrap : bool) (legs : list Json_path_leg) (this : Value)
  : list Value :=
  snd (seek auto_wrap false legs this []).

Lemma seek_cells_all (seek_rest : Value -> list Value -> bool * list Value)
                     (found : Value -> list Value) (this : Value) (cells : list nat) :
  (forall v hits, seek_rest v hits = (false, hits ++ found v)) ->
  forall hits,
    seek_cells seek_rest false this cells hits =
    (false, hits ++ flat_map (fun idx => found (element this idx)) cells).
Proof.
  intros Hrest. induction cells as [|idx cells IH]; intros hits; cbn [seek_cells flat_map].
  - rewrite app_nil_r. reflexivity.
  - unfold is_seek_done. cbn [andb]. rewrite Hrest, IH, <- app_assoc. reflexivity.
Qed.

(** A search for all matches never fails on a path without ellipsis, and
    it adds its hits to those it was given. *)
Lemma seek_all_accumulates (auto_wrap : bool) (legs : list Json_path_leg) :
  contains_ellipsis legs = false ->
  forall this hits,
    seek auto_wrap false legs this hits = (false, hits ++ all_hits auto_wrap legs this).
Proof.
  induction legs as [|leg rest IH]; intros Hfree this hits.
  - reflexivity.
  - cbn [contains_ellipsis existsb] in Hfree. apply orb_false_iff in Hfree.
    destruct Hfree as [Hleg Hrest]. specialize (IH Hrest).
    unfold all_hits. rewrite !seek_legs_cons. cbv zeta.
    pose proof (seek_cells_all (seek auto_wrap false rest) (all_hits auto_wrap rest) this)
      as Hcells.
    generalize (binary_type type value_field_type this). intros jtype.
    destruct (auto_wrap && negb _ && is_autowrap leg).
    + rewrite (IH this hits), (IH this []). reflexivity.
    + destruct (m_leg_type leg); try discriminate Hleg;
        destruct jtype; cbn [enum_json_type_eqb snd];
        try (rewrite app_nil_r; reflexivity);
        try (rewrite !Hcells by exact IH; reflexivity).
      * destruct (negb _); [|rewrite app_nil_r; reflexivity].
        rewrite (IH _ hits), (IH _ []). reflexivity.
      * destruct (within_bounds _); [|rewrite app_nil_r; reflexivity].
        rewrite (IH _ hits), (IH _ []). reflexivity.
      * destruct (get_array_range _ _) as [m_begin m_end].
        rewrite !Hcells by exact IH. reflexivity.
      * destruct (get_array_range _ _) as [m_begin m_end].
        rewrite !Hcells by exact IH. reflexivity.
Qed.

(** The values that one leg leads to from [this]: the value itself when
    the leg is auto-wrapped around a value that is not an array, the
    member of that name, the cell at that index, the cells of the range
    or all cells or members. *)
Definition leg_targets (auto_wrap : bool) (path_leg : Json_path_leg) (this : Value)
  : list Value :=
  let jtype := binary_type type value_field_type this in
  if auto_wrap && negb (enum_json_type_eqb jtype J_ARRAY) && is_autowrap path_leg
  then [this]
  else
    match m_leg_type path_leg with
    | jpl_member =>
      match jtype with
      | J_OBJECT =>
        let member := lookup this (m_member_name path_leg) in
        if negb (enum_json_type_eqb (binary_type type value_field_type member) J_ERROR)
        then [member] else []
      | _ => []
      end
    | jpl_member_wildcard =>
      match jtype with
      | J_OBJECT => map (element this) (seq 0 (element_count this))
      | _ => []
      end
    | jpl_array_cell =>
      if enum_json_type_eqb jtype J_ARRAY then
        let idx := first_array_index path_leg (binary_length type element_count this) in
        if within_bounds idx then [element this (position idx)] else []
      else []
    | jpl_array_range | jpl_array_cell_wildcard =>
      if enum_json_type_eqb jtype J_ARRAY then
        let (m_begin, m_end) :=
          get_array_range path_leg (binary_length type element_count this) in
        map (element this) (seq m_begin (m_end - m_begin))
      else []
    | jpl_ellipsis => []
    end.

Lemma flat_map_map {A B C : Type} (f : B -> list C) (g : A -> B) (l : list A) :
  flat_map f (map g l) = flat_map (fun x => f (g x)) l.
Proof. induction l as [|x l IH]; cbn; [reflexivity|]. rewrite IH. reflexivity. Qed.

Lemma flat_map_flat_map {A B C : Type} (f : B -> list C) (g : A -> list B) (l : list A) :
  flat_map f (flat_map g l) = flat_map (fun x => flat_map f (g x)) l.
Proof.
  induction l as [|x l IH]; cbn; [reflexivity|]. rewrite flat_map_app, IH. reflexivity.
Qed.

(** Evaluate the tests of one kind against another. *)
Ltac compute_type_tests :=
  repeat match goal with
         | |- context [enum_json_type_eqb ?a ?b] =>
           let r := eval vm_compute in (enum_json_type_eqb a b) in
           change (enum_json_type_eqb a b) with r
         end;
  cbv iota.

(** The search for all matches goes leg by leg. *)
Lemma all_hits_cons (auto_wrap : bool) (leg : Json_path_leg) (rest : list Json_path_leg)
                    (this : Value) :
  contains_ellipsis (leg :: rest) = false ->
  all_hits auto_wrap (leg :: rest) this =
  flat_map (all_hits auto_wrap rest) (leg_targets auto_wrap leg this).
Proof.
  intros Hfree. cbn [contains_ellipsis existsb] in Hfree. apply orb_false_iff in Hfree.
  destruct Hfree as [Hleg Hrest].
  pose proof (seek_all_accumulates auto_wrap rest Hrest) as Hacc.
  pose proof (seek_cells_all (seek auto_wrap false rest) (all_hits auto_wrap rest) this)
    as Hcells.
  unfold all_hits at 1. rewrite seek_legs_cons. unfold leg_targets. cbv zeta.
  generalize (binary_type type value_field_type this). intros jtype.
  destruct (auto_wrap && negb _ && is_autowrap leg).
  - rewrite Hacc. cbn [snd flat_map app]. rewrite ?app_nil_r. reflexivity.
  - destruct (m_leg_type leg); try discriminate Hleg;
      destruct jtype; compute_type_tests; cbn [snd flat_map]; try reflexivity;
      try (rewrite Hcells by exact Hacc; cbn [snd app]; rewrite flat_map_map;
           reflexivity).
    + destruct (negb _); [|reflexivity].
      rewrite Hacc. cbn [snd flat_map app]. rewrite ?app_nil_r. reflexivity.
    + destruct (within_bounds _); [|reflexivity].
      rewrite Hacc. cbn [snd flat_map app]. rewrite ?app_nil_r. reflexivity.
    + destruct (get_array_range _ _) as [m_begin m_end].
      rewrite Hcells by exact Hacc. cbn [snd app]. rewrite flat_map_map. reflexivity.
    + destruct (get_array_range _ _) as [m_begin m_end].
      rewrite Hcells by exact Hacc. cbn [snd app]. rewrite flat_map_map. reflexivity.
Qed.

Lemma contains_ellipsis_app (p q : list Json_path_leg) :
  contains_ellipsis (p ++ q) = contains_ellipsis p || contains_ellipsis q.
Proof. apply existsb_app. Qed.

Lemma all_hits_app (auto_wrap : bool) (p q : list Json_path_leg) :
  contains_ellipsis (p ++ q) = false ->
  forall this,
    all_hits auto_wrap (p ++ q) this =
    flat_map (all_hits auto_wrap q) (all_hits auto_wrap p this).
Proof.
  induction p as [|leg p IH]; intros Hfree this.
  - cbn. rewrite app_nil_r. reflexivity.
  - cbn [app] in *. rewrite all_hits_cons by exact Hfree.
    assert (Hp : contains_ellipsis (leg :: p) = false).
    { change (leg :: p ++ q) with ((leg :: p) ++ q) in Hfree.
      rewrite contains_ellipsis_app in Hfree. apply orb_false_iff in Hfree. apply Hfree. }
    rewrite (all_hits_cons auto_wrap leg p this Hp), flat_map_flat_map.
    cbn [contains_ellipsis existsb] in Hfree. apply orb_false_iff in Hfree.
    apply flat_map_ext. intros u. apply IH. apply Hfree.
Qed.

Lemma firstn_1_app {A : Type} (l1 l2 : list A) :
  firstn 1 (l1 ++ l2) = match l1 with [] => firstn 1 l2 | x :: _ => [x] end.
Proof. destruct l1; reflexivity. Qed.

Lemma seek_cells_done (seek_rest : Value -> list Value -> bool * list Value)
                      (this : Value) (cells : list nat) (x : Value) (hits : list Value) :
  seek_cells seek_rest true this cells (x :: hits) = (false, x :: hits).
Proof. destruct cells; reflexivity. Qed.

Lemma seek_cells_first (seek_rest : Value -> list Value -> bool * list Value)
                       (found : Value -> list Value) (this : Value) (cells : list nat) :
  (forall v, seek_rest v [] = (false, firstn 1 (found v))) ->
  seek_cells seek_rest true this cells [] =
  (false, firstn 1 (flat_map (fun idx => found (element this idx)) cells)).
Proof.
  intros Hrest. induction cells as [|idx cells IH]; cbn [seek_cells flat_map];
    [reflexivity|].
  change (is_seek_done (@nil Value) true) with false. cbv iota.
  rewrite Hrest, firstn_1_app.
  destruct (found (element this idx)) as [|x l]; cbn [firstn].
  - exact IH.
  - apply seek_cells_done.
Qed.

(** A search for one match finds the first of all matches. *)
Lemma seek_first_hit (auto_wrap : bool) (legs : list Json_path_leg) :
  contains_ellipsis legs = false ->
  forall this,
    seek auto_wrap true legs this [] = (false, firstn 1 (all_hits auto_wrap legs this)).
Proof.
  induction legs as [|leg rest IH]; intros Hfree this; [reflexivity|].
  rewrite all_hits_cons by exact Hfree.
  cbn [contains_ellipsis existsb] in Hfree. apply orb_false_iff in Hfree.
  destruct Hfree as [Hleg Hrest]. specialize (IH Hrest).
  pose proof (seek_cells_first (seek auto_wrap true rest) (all_hits auto_wrap rest) this)
    as Hcells.
  rewrite seek_legs_cons. unfold leg_targets. cbv zeta.
  generalize (binary_type type value_field_type this). intros jtype.
  destruct (auto_wrap && negb _ && is_autowrap leg).
  - rewrite IH. cbn [flat_map]. rewrite app_nil_r. reflexivity.
  - destruct (m_leg_type leg); try discriminate Hleg;
      destruct jtype; compute_type_tests; cbn [flat_map firstn]; try reflexivity;
      try (rewrite Hcells by exact IH; rewrite flat_map_map; reflexivity).
    + destruct (negb _); [|reflexivity].
      rewrite IH. cbn [flat_map]. rewrite app_nil_r. reflexivity.
    + destruct (within_bounds _); [|reflexivity].
      rewrite IH. cbn [flat_map]. rewrite app_nil_r. reflexivity.
    + destruct (get_array_range _ _) as [m_begin m_end].
      rewrite Hcells by exact IH. rewrite flat_map_map. reflexivity.
    + destruct (get_array_range _ _) as [m_begin m_end].
      rewrite Hcells by exact IH. rewrite flat_map_map. reflexivity.
Qed.

Lemma existsb_firstn {A : Type} (f : A -> bool) (n : nat) : forall l : list A,
  existsb f l = false -> existsb f (firstn n l) = false.
Proof.
  induction n as [|n IH]; intros [|x l]; cbn [firstn existsb]; try reflexivity.
  intros H. apply orb_false_iff in H. destruct H as [-> Hl]. apply IH. exact Hl.
Qed.

Lemma existsb_skipn {A : Type} (f : A -> bool) (n : nat) : forall l : list A,
  existsb f l = false -> existsb f (skipn n l) = false.
Proof.
  induction n as [|n IH]; intros [|x l]; cbn [skipn existsb]; try (intros H; exact H).
  intros H. apply orb_false_iff in H. destruct H as [_ Hl]. apply IH. exact Hl.
Qed.

Lemma sub_path_free (path : list Json_path_leg) (current_leg last_leg : nat) :
  contains_ellipsis path = false ->
  contains_ellipsis (firstn (last_leg - current_leg) (skipn current_leg path)) = false.
Proof.
  intros Hfree. unfold contains_ellipsis in *.
  apply existsb_firstn, existsb_skipn. exact Hfree.
Qed.

(** X12: on a path without ellipsis [seek_no_ellipsis] never fails, a
    search for all matches appends its hits to those it was given, and a
    search that needs one match only returns exactly the first hit of
    the search for all matches (so at most one). *)
Theorem seek_no_ellipsis_first_hit
    (this : Value) (path : list Json_path_leg) (current_leg last_leg : nat)
    (auto_wrap : bool) (hits : list Value) :
  contains_ellipsis path = false ->
  let search := seek_no_ellipsis type value_field_type element_count element lookup
                                 this path in
  let all := snd (search [] current_leg last_leg auto_wrap false) in
  search hits current_leg last_leg auto_wrap false = (false, hits ++ all) /\
  search [] current_leg last_leg auto_wrap true = (false, firstn 1 all) /\
  (length (snd (search [] current_leg last_leg auto_wrap true)) <= 1)%nat.
Proof.
  intros Hfree search all. subst search all. unfold seek_no_ellipsis.
  pose proof (sub_path_free path current_leg last_leg Hfree) as Hsub.
  rewrite (seek_first_hit auto_wrap _ Hsub this).
  rewrite (seek_all_accumulates auto_wrap _ Hsub this hits).
  split; [reflexivity|]. split; [reflexivity|].
  cbn [snd]. rewrite length_take. lia.
Qed.

(** X13: a search goes leg by leg: the matches of a path without
    ellipsis up to leg [last_leg] are the matches of its legs from
    [middle] on, sought from each match of the path up to [middle], in
    that order. *)
Theorem seek_no_ellipsis_composes
    (this : Value) (path : list Json_path_leg) (middle last_leg : nat) (auto_wrap : bool) :
  contains_ellipsis path = false -> (middle <= last_leg)%nat ->
  let search v first last :=
    snd (seek_no_ellipsis type value_field_type element_count element lookup
                          v path [] first last auto_wrap false) in
  search this 0%nat last_leg =
  flat_map (fun v => search v middle last_leg) (search this 0%nat middle).
Proof.
  intros Hfree Hle search. subst search. unfold seek_no_ellipsis. cbv beta.
  rewrite !Nat.sub_0_r, drop_0.
  assert (Hsplit : firstn last_leg path =
                   firstn middle path ++ firstn (last_leg - middle) (skipn middle path)).
  { rewrite take_take_drop. f_equal. lia. }
  rewrite Hsplit.
  apply (all_hits_app auto_wrap). rewrite <- Hsplit.
  apply (sub_path_free path 0 last_leg) in Hfree.
  rewrite Nat.sub_0_r, drop_0 in Hfree. exact Hfree.
Qed.

End Seek_properties.

Definition every_cell_leg : Json_path_leg :=
  mk_leg jpl_array_cell_wildcard EmptyString 0 false 0 false.

Definition byte_array_seek :=
  seek_no_ellipsis byte_array_type (fun _ => 0) byte_array_count byte_array_element
                   (fun _ _ => Byte_error).

Lemma seek_no_ellipsis_first_hit_witness :
  byte_array_seek (Byte_array [5; 6; 7]) [every_cell_leg] [] 0 1 false true =
  (false, [Byte_element 5]).
Proof.
  pose proof (seek_no_ellipsis_first_hit
                byte_array_type (fun _ => 0) byte_array_count byte_array_element
                (fun _ _ => Byte_error) (Byte_array [5; 6; 7]) [every_cell_leg]
                0 1 false [] eq_refl) as H.
  cbv zeta in H. destruct H as (_ & Hone & _). exact Hone.
Defined.

Lemma seek_no_ellipsis_composes_witness :
  snd (byte_array_seek (Byte_array [5; 6]) [every_cell_leg; cell_leg 0] [] 0 2 true false) =
  [Byte_element 5; Byte_element 6].
Proof.
  pose proof (seek_no_ellipsis_composes
                byte_array_type (fun _ => 0) byte_array_count byte_array_element
                (fun _ _ => Byte_error) (Byte_array [5; 6]) [every_cell_leg; cell_leg 0]
                1 2 true eq_refl ltac:(lia)) as H.
  cbv zeta in H. unfold byte_array_seek. rewrite H. vm_compute. reflexivity.
Defined.

(** ** Partial removal *)

Section Binary_remove.
Context {Value : Type}.
Context (type : Value -> json_binary.enum_type)
        (value_field_type : Value -> enum_field_types)
        (element_count : Value -> nat)
        (element : Value -> nat -> Value)
        (lookup : Value -> string -> Value)
        (lookup_index : Value -> string -> nat)
        (raw_binary : Value -> option (list Z))
        (parse_binary : list Z -> Value).

(** [parent.remove_in_shadow(field, pos, original, destination)]
    receives the destination as a [char *]: the stores it performs on
    it, given the contents of the original and of the destination, or
    an error. *)
Context (remove_in_shadow : Value -> nat -> list Z -> list Z -> option (list (nat * Z))).

(** The outcome of [binary_remove]: an error (the function returns
    true), or the flag it reports together with the result buffer and
    the binary value of the wrapper afterwards. *)
Inductive remove_outcome :=
  | Remove_error
  | Remove_done (found_path : bool) (result : list Z) (m_value : Value).

(** [Json_wrapper::binary_remove] on a wrapper over the binary value
    [m_value]; [field] is the binary that [field->get_binary()] returns.
    The source asserts that the path is not empty. *)
Definition binary_remove (m_value : Value) (field : list Z) (path : list Json_path_leg)
                         (result : list Z) : remove_outcome :=
  let leg_count := length path in
  let (err, hits) :=
    seek_no_ellipsis type value_field_type element_count element lookup
                     m_value path [] 0 (leg_count - 1) false true in
  if err then Remove_error
  else
    match hits, nth_error path (leg_count - 1) with
    | [], _ => Remove_done false result m_value
    | _ :: _, None => Remove_error
    | parent :: _, Some last_leg =>
      let element_pos :=
        match type parent with
        | json_binary.OBJECT =>
          match m_leg_type last_leg with
          | jpl_member => Some (lookup_index parent (m_member_name last_leg))
          | _ => None
          end
        | json_binary.ARRAY =>
          match m_leg_type last_leg with
          | jpl_array_cell =>
            let idx := first_array_index last_leg (element_count parent) in
            if negb (within_bounds idx) then None else Some (position idx)
          | _ => None
          end
        | _ => None
        end in
      match element_pos with
      | None => Remove_done false result m_value
      | Some element_pos =>
        if Nat.leb (element_count parent) element_pos
        then Remove_done false result m_value
        else
          let filled :=
            match result with
            | [] =>
              match raw_binary m_value with
              | None => None
              | Some bytes => Some (result ++ bytes, field)
              end
            | _ => Some (result, result)
            end in
          match filled with
          | None => Remove_error
          | Some (result, original) =>
            match remove_in_shadow parent element_pos original result with
            | None => Remove_error
            | Some stores =>
              let result := apply_stores stores result in
              Remove_done true result (parse_binary result)
            end
          end
      end
    end.

#[local] Abbreviation seek_parent m_value path :=
  (seek_no_ellipsis type value_field_type element_count element lookup
                    m_value path [] 0 (length path - 1) false true).

Lemma last_leg_split (path : list Json_path_leg) (last_leg : Json_path_leg) :
  nth_error path (length path - 1) = Some last_leg ->
  path = firstn (length path - 1) path ++ [last_leg].
Proof.
  intros Hleg.
  assert (Hlen : (length path - 1 < length path)%nat).
  { apply nth_error_Some. rewrite Hleg. discriminate. }
  rewrite <- (take_drop (length path - 1) path) at 1. f_equal.
  rewrite <- (take_drop (length path - 1) path) in Hleg at 1.
  rewrite nth_error_app2 in Hleg by (rewrite length_take; lia).
  rewrite length_take in Hleg.
  replace (length path - 1 - Nat.min (length path - 1) (length path))%nat with 0%nat
    in Hleg by lia.
  pose proof (length_drop path (length path - 1)) as Hd.
  destruct (drop (length path - 1) path) as [|x [|y l]]; cbn in Hleg, Hd;
    [discriminate| |lia].
  injection Hleg as ->. reflexivity.
Qed.

(** X14: when [binary_remove] reports that the path was not found, the
    result buffer and the wrapper are as they were.  When it reports
    that it was found, the wrapper is reparsed from the result buffer
    and that buffer has the length of the binary document before the
    removal: of the raw binary of the value when the buffer was empty,
    and of the buffer itself when it already held the document. *)
Theorem binary_remove_outcome
    (m_value : Value) (field : list Z) (path : list Json_path_leg) (result : list Z)
    (found_path : bool) (result' : list Z) (m_value' : Value) :
  binary_remove m_value field path result = Remove_done found_path result' m_value' ->
  if found_path
  then m_value' = parse_binary result' /\
       (result = [] ->
        exists bytes, raw_binary m_value = Some bytes /\ length result' = length bytes) /\
       (result <> [] -> length result' = length result)
  else result' = result /\ m_value' = m_value.
Proof.
  unfold binary_remove. destruct (seek_parent m_value path) as [err hits].
  destruct err; [discriminate|].
  destruct hits as [|parent more]; [intros [= <- <- <-]; auto|].
  destruct (nth_error path (length path - 1)) as [last_leg|]; [|discriminate].
  cbv zeta.
  destruct (match type parent with
            | json_binary.OBJECT => _
            | json_binary.ARRAY => _
            | _ => None
            end) as [element_pos|]; [|intros [= <- <- <-]; auto].
  destruct (Nat.leb (element_count parent) element_pos); [intros [= <- <- <-]; auto|].
  destruct result as [|b result].
  - destruct (raw_binary m_value) as [bytes|]; [|discriminate]. cbn [app].
    destruct (remove_in_shadow parent element_pos field bytes) as [stores|];
      [|discriminate].
    intros [= <- <- <-]. split; [reflexivity|]. split; [|contradiction].
    intros _. exists bytes. split; [reflexivity|].
    apply apply_stores_length.
  - destruct (remove_in_shadow parent element_pos (b :: result) (b :: result))
      as [stores|]; [|discriminate].
    intros [= <- <- <-]. split; [reflexivity|]. split; [discriminate|].
    intros _. apply apply_stores_length.
Qed.

(** X15: [binary_remove] removes a cell only where the search finds
    one: when it reports that a path without ellipsis that ends in an
    array cell was found, the search found one parent, an array, and
    the search of the whole path for one match finds exactly the cell
    of that parent at the index of the last leg. *)
Theorem binary_remove_finds_sought_cell
    (m_value : Value) (field : list Z) (path : list Json_path_leg) (result : list Z)
    (last_leg : Json_path_leg) (result' : list Z) (m_value' : Value) :
  contains_ellipsis path = false ->
  nth_error path (length path - 1) = Some last_leg ->
  m_leg_type last_leg = jpl_array_cell ->
  binary_remove m_value field path result = Remove_done true result' m_value' ->
  exists parent,
    seek_parent m_value path = (false, [parent]) /\
    type parent = json_binary.ARRAY /\
    let idx := first_array_index last_leg (element_count parent) in
    within_bounds idx = true /\
    (position idx < element_count parent)%nat /\
    seek_no_ellipsis type value_field_type element_count element lookup
                     m_value path [] 0 (length path) false true =
    (false, [element parent (position idx)]).
Proof.
  intros Hfree Hleg Hcell. pose proof (last_leg_split path last_leg Hleg) as Hsplit.
  set (p := firstn (length path - 1) path) in *.
  assert (Hfree' : contains_ellipsis (p ++ [last_leg]) = false) by (rewrite <- Hsplit; exact Hfree).
  assert (Hp : contains_ellipsis p = false).
  { rewrite contains_ellipsis_app in Hfree'. apply orb_false_iff in Hfree'. apply Hfree'. }
  assert (Hparent : seek_parent m_value path =
                    (false, firstn 1 (all_hits type value_field_type element_count element
                                               lookup false p m_value))).
  { unfold seek_no_ellipsis. rewrite Nat.sub_0_r, drop_0. fold p.
    apply seek_first_hit. exact Hp. }
  assert (Hwhole : seek_no_ellipsis type value_field_type element_count element lookup
                                    m_value path [] 0 (length path) false true =
                   (false, firstn 1 (flat_map
                      (all_hits type value_field_type element_count element lookup
                                false [last_leg])
                      (all_hits type value_field_type element_count element lookup
                                false p m_value)))).
  { unfold seek_no_ellipsis. rewrite Nat.sub_0_r, drop_0, firstn_all.
    rewrite Hsplit at 1. rewrite seek_first_hit by exact Hfree'.
    rewrite all_hits_app by exact Hfree'. reflexivity. }
  unfold binary_remove. rewrite Hparent, Hleg in *. clear Hparent.
  destruct (all_hits type value_field_type element_count element lookup false p m_value)
    as [|parent rest]; [discriminate|].
  cbn [firstn flat_map] in *. rewrite Hcell. cbv zeta.
  destruct (type parent) eqn:Htype; try discriminate.
  destruct (within_bounds (first_array_index last_leg (element_count parent))) eqn:Hin;
    [|discriminate].
  cbn [negb].
  destruct (Nat.leb_spec (element_count parent)
                         (position (first_array_index last_leg (element_count parent))))
    as [|Hlt]; [discriminate|].
  intros _. exists parent. split; [reflexivity|]. split; [exact Htype|].
  cbv zeta. split; [exact Hin|]. split; [exact Hlt|].
  rewrite Hwhole. f_equal.
  unfold all_hits at 1. rewrite seek_legs_cons. cbv zeta. cbn [andb].
  unfold binary_type, binary_length. rewrite Hcell, Htype. cbn [bjson2json].
  change (enum_json_type_eqb J_ARRAY J_ARRAY) with true. cbv iota.
  rewrite Hin. reflexivity.
Qed.

End Binary_remove.

(** A binary reader for a second format: an array of one-byte unsigned
    integers behind a one-byte element count; the bytes after the last
    element are unused. *)
Inductive counted_value :=
  | Counted_array (buffer : list Z)
  | Counted_element (b : Z)
  | Counted_error.

Definition counted_type (v : counted_value) : json_binary.enum_type :=
  match v with
  | Counted_array _ => json_binary.ARRAY
  | Counted_element _ => json_binary.UINT
  | Counted_error => json_binary.ERROR
  end.

Definition counted_count (v : counted_value) : nat :=
  match v with Counted_array buffer => Z.to_nat (hd 0 buffer) | _ => 0%nat end.

Definition counted_element (v : counted_value) (i : nat) : counted_value :=
  match v with
  | Counted_array buffer =>
    match nth_error buffer (S i) with
    | Some b => Counted_element b
    | None => Counted_error
    end
  | _ => Counted_error
  end.

Definition counted_raw (v : counted_value) : option (list Z) :=
  match v with
  | Counted_array buffer => Some buffer
  | Counted_element b => Some [b]
  | Counted_error => None
  end.

(** Removal moves the elements behind the removed one a place down and
    lowers the count. *)
Definition counted_remove (parent : counted_value) (pos : nat)
                          (original destination : list Z) : option (list (nat * Z)) :=
  match parent with
  | Counted_array _ =>
    Some ((0%nat, hd 0 original - 1) ::
          map (fun i => (i, nth (S i) original 0))
              (seq (S pos) (counted_count parent - pos - 1)))
  | _ => None
  end.

Definition counted_binary_remove :=
  binary_remove counted_type (fun _ => 0) counted_count counted_element
                (fun _ _ => Counted_error) (fun v _ => counted_count v)
                counted_raw Counted_array counted_remove.

Lemma binary_remove_outcome_witness :
  counted_binary_remove (Counted_array [3; 10; 20; 30]) [3; 10; 20; 30] [cell_leg 1] [] =
  Remove_done true [2; 10; 30; 30] (Counted_array [2; 10; 30; 30]) /\
  length [2; 10; 30; 30] = length [3; 10; 20; 30].
Proof.
  split; [reflexivity|].
  destruct (binary_remove_outcome
              counted_type (fun _ => 0) counted_count counted_element
              (fun _ _ => Counted_error) (fun v _ => counted_count v)
              counted_raw Counted_array counted_remove
              (Counted_array [3; 10; 20; 30]) [3; 10; 20; 30] [cell_leg 1] []
              true [2; 10; 30; 30] (Counted_array [2; 10; 30; 30]) eq_refl)
    as (_ & Hempty & _).
  destruct (Hempty eq_refl) as (bytes & Hraw & Hlen).
  injection Hraw as <-. exact Hlen.
Defined.

Lemma binary_remove_finds_sought_cell_witness :
  seek_no_ellipsis counted_type (fun _ => 0) counted_count counted_element
                   (fun _ _ => Counted_error)
                   (Counted_array [3; 10; 20; 30]) [cell_leg 1] [] 0 1 false true =
  (false, [Counted_element 20]).
Proof.
  destruct (binary_remove_finds_sought_cell
              counted_type (fun _ => 0) counted_count counted_element
              (fun _ _ => Counted_error) (fun v _ => counted_count v)
              counted_raw Counted_array counted_remove
              (Counted_array [3; 10; 20; 30]) [3; 10; 20; 30] [cell_leg 1] []
              (cell_leg 1) [2; 10; 30; 30] (Counted_array [2; 10; 30; 30])
              eq_refl eq_refl eq_refl eq_refl)
    as (parent & Hparent & _ & Hwhole).
  injection Hparent as <-. cbv zeta in Hwhole.
  destruct Hwhole as (_ & _ & Hwhole). exact Hwhole.
Defined.

(** ** The depth of a merged document *)

Section Merge_depth.
Context `{DL : Decimal_library}.

(** The depth of the deepest element of an array and of the deepest
    member of an object, as [depth()] computes them. *)
Definition deepest_element (m_v : list Json_dom) : nat :=
  fold_right (fun child deepest_child => Nat.max deepest_child (depth child)) 0%nat m_v.

Definition deepest_member (m_map : Json_object_map) : nat :=
  fold_right (fun kv deepest_child => Nat.max deepest_child (depth (snd kv))) 0%nat m_map.

Lemma depth_array (m_v : list Json_dom) :
  depth (Json_array m_v) = (1 + deepest_element m_v)%nat.
Proof. reflexivity. Qed.

Lemma depth_object (m_map : Json_object_map) :
  depth (Json_object m_map) = (1 + deepest_member m_map)%nat.
Proof. reflexivity. Qed.

Lemma deepest_element_app (l1 l2 : list Json_dom) :
  deepest_element (l1 ++ l2) = Nat.max (deepest_element l1) (deepest_element l2).
Proof.
  induction l1 as [|x l1 IH]; cbn [app deepest_element fold_right]; [reflexivity|].
  fold (deepest_element (l1 ++ l2)). fold (deepest_element l1). rewrite IH. lia.
Qed.

Lemma deepest_member_below (m_map : Json_object_map) (bound : nat) :
  (forall k v, In (k, v) m_map -> (depth v <= bound)%nat) ->
  (deepest_member m_map <= bound)%nat.
Proof.
  induction m_map as [|[k v] m_map IH]; intros Hall; cbn [deepest_member fold_right];
    [lia|].
  fold (deepest_member m_map). cbn [snd].
  pose proof (Hall k v (or_introl eq_refl)).
  assert (deepest_member m_map <= bound)%nat by (apply IH; intros; eapply Hall; right; eauto).
  lia.
Qed.

Lemma deepest_member_above (m_map : Json_object_map) (k : string) (v : Json_dom) :
  In (k, v) m_map -> (depth v <= deepest_member m_map)%nat.
Proof.
  induction m_map as [|[k0 v0] m_map IH]; intros Hin; [destruct Hin|].
  cbn [deepest_member fold_right]. fold (deepest_member m_map). cbn [snd].
  destruct Hin as [[= -> ->]|Hin]; [lia|]. specialize (IH Hin). lia.
Qed.

Lemma merge_elements_depth (d : Json_dom) :
  (depth d <= 1 + deepest_element (merge_elements d))%nat /\
  (deepest_element (merge_elements d) <= depth d)%nat.
Proof.
  destruct d; cbn [merge_elements deepest_element fold_right depth]; lia.
Qed.

Lemma map_assign_In (key : string) (value : Json_dom) (m_map : Json_object_map)
                    (k : string) (v : Json_dom) :
  In (k, v) (map_assign key value m_map) -> In (k, v) m_map \/ (k = key /\ v = value).
Proof.
  induction m_map as [|[k0 v0] m_map IH]; cbn [map_assign]; [intros []|].
  destruct (key_equiv key k0) eqn:E.
  - apply key_equiv_eq in E. subst k0.
    intros [[= <- <-]|Hin]; [right; auto|left; right; exact Hin].
  - intros [Heq|Hin]; [left; left; exact Heq|].
    destruct (IH Hin) as [H|H]; [left; right; exact H|right; exact H].
Qed.

(** Every member of [m1] has a member of [m2] that is at least as deep. *)
Definition covered_by (m1 m2 : Json_object_map) : Prop :=
  forall k v, In (k, v) m1 -> exists k' v', In (k', v') m2 /\ (depth v <= depth v')%nat.

Lemma covered_by_trans (m1 m2 m3 : Json_object_map) :
  covered_by m1 m2 -> covered_by m2 m3 -> covered_by m1 m3.
Proof.
  intros H12 H23 k v Hin. destruct (H12 k v Hin) as (k' & v' & Hin' & Hle).
  destruct (H23 k' v' Hin') as (k'' & v'' & Hin'' & Hle'). exists k'', v''.
  split; [exact Hin''|lia].
Qed.

Lemma covered_by_deepest (m1 m2 : Json_object_map) :
  covered_by m1 m2 -> (deepest_member m1 <= deepest_member m2)%nat.
Proof.
  intros Hcov. apply deepest_member_below. intros k v Hin.
  destruct (Hcov k v Hin) as (k' & v' & Hin' & Hle).
  pose proof (deepest_member_above m2 k' v' Hin'). lia.
Qed.

Lemma map_insert_keeps (key : string) (value : Json_dom) (m_map : Json_object_map)
                       (x : string * Json_dom) :
  In x m_map -> In x (fst (map_insert key value m_map)).
Proof.
  induction m_map as [|[k0 v0] m_map IH]; cbn [map_insert]; [intros []|].
  destruct (Json_key_comparator key k0); [intros H; right; exact H|].
  destruct (Json_key_comparator k0 key); [|intros H; exact H].
  destruct (map_insert key value m_map) as [rest' inserted]. cbn [fst] in *.
  intros [H|H]; [left; exact H|right; apply IH; exact H].
Qed.

Lemma map_assign_covers (key : string) (value old : Json_dom) (m_map : Json_object_map) :
  map_find key m_map = Some old -> (depth old <= depth value)%nat ->
  In (key, value) (map_assign key value m_map) /\
  covered_by m_map (map_assign key value m_map).
Proof.
  induction m_map as [|[k0 v0] m_map IH]; cbn [map_find map_assign]; [discriminate|].
  destruct (key_equiv key k0) eqn:E.
  - apply key_equiv_eq in E. subst k0. intros [= ->] Hle.
    split; [left; reflexivity|].
    intros k v [[= <- <-]|Hin].
    + exists key, value. split; [left; reflexivity|exact Hle].
    + exists k, v. split; [right; exact Hin|lia].
  - intros Hfind Hle. destruct (IH Hfind Hle) as [Hin Hcov].
    split; [right; exact Hin|].
    intros k v [[= <- <-]|Hin'].
    + exists k0, v0. split; [left; reflexivity|lia].
    + destruct (Hcov k v Hin') as (k' & v' & Hin'' & Hle'). exists k', v'.
      split; [right; exact Hin''|exact Hle'].
Qed.

(** [consume] loses no depth: the object afterwards covers both
    objects, if the merge of two values is as deep as each of them. *)
Lemma consume_with_covers (merge : Json_dom -> Json_dom -> option Json_dom)
                          (other_map : Json_object_map) :
  (forall k r, In (k, r) other_map -> forall l d,
     merge l r = Some d -> (Nat.max (depth l) (depth r) <= depth d)%nat) ->
  forall this_map,
    fst (consume_with merge this_map other_map) = false ->
    covered_by this_map (snd (consume_with merge this_map other_map)) /\
    covered_by other_map (snd (consume_with merge this_map other_map)).
Proof.
  induction other_map as [|[key value] rest IH]; intros Hmerge this_map.
  - intros _. cbn [consume_with snd]. split.
    + intros k v Hin. exists k, v. split; [exact Hin|lia].
    + intros k v [].
  - assert (Hrest : forall k r, In (k, r) rest -> forall l d,
               merge l r = Some d -> (Nat.max (depth l) (depth r) <= depth d)%nat)
      by (intros k r Hin; apply (Hmerge k r); right; exact Hin).
    cbn [consume_with].
    destruct (map_find key this_map) as [this_value|] eqn:Hfind.
    + destruct (merge this_value value) as [merged|] eqn:Hmerged; [|discriminate].
      intros Hok. destruct (IH Hrest (map_assign key merged this_map) Hok) as [Hthis Hother].
      pose proof (Hmerge key value (or_introl eq_refl) this_value merged Hmerged) as Hle.
      destruct (map_assign_covers key merged this_value this_map Hfind) as [Hin Hcov];
        [lia|].
      split; [eapply covered_by_trans; eassumption|].
      intros k v [[= <- <-]|Hin'].
      * destruct (Hthis key merged Hin) as (k' & v' & Hin'' & Hle'). exists k', v'.
        split; [exact Hin''|lia].
      * exact (Hother k v Hin').
    + unfold add_alias. cbn [fst snd].
      intros Hok.
      destruct (IH Hrest (fst (map_insert key value this_map)) Hok) as [Hthis Hother].
      split.
      * intros k v Hin. apply (Hthis k v). apply map_insert_keeps. exact Hin.
      * intros k v [[= <- <-]|Hin'].
        -- apply (Hthis key value). apply map_find_In.
           destruct (map_insert_absent key value this_map Hfind) as [_ Hins].
           rewrite Hins, key_equiv_refl. reflexivity.
        -- exact (Hother k v Hin').
Qed.

(** [consume] adds at most one level: a member afterwards is a member of
    one of the two objects or the merge of a member of each. *)
Lemma consume_with_below (merge : Json_dom -> Json_dom -> option Json_dom)
                         (bound : nat) (other_map : Json_object_map) :
  (forall k r, In (k, r) other_map -> forall l d,
     merge l r = Some d -> (depth d <= 1 + Nat.max (depth l) (depth r))%nat) ->
  map_sorted other_map = true ->
  (forall k r, In (k, r) other_map -> (depth r <= bound)%nat) ->
  forall this_map,
    (forall k v, In (k, v) this_map -> (depth v <= 1 + bound)%nat) ->
    (forall k v r, In (k, v) this_map -> In (k, r) other_map -> (depth v <= bound)%nat) ->
    forall k v, In (k, v) (snd (consume_with merge this_map other_map)) ->
                (depth v <= 1 + bound)%nat.
Proof.
  induction other_map as [|[key value] rest IH];
    intros Hmerge Hsorted Hother this_map Hall Hcommon.
  - exact Hall.
  - destruct (map_sorted_cons _ _ _ Hsorted) as [Habove Hsorted'].
    assert (Hrest : forall k r, In (k, r) rest -> forall l d,
               merge l r = Some d -> (depth d <= 1 + Nat.max (depth l) (depth r))%nat)
      by (intros k r Hin; apply (Hmerge k r); right; exact Hin).
    assert (Hother' : forall k r, In (k, r) rest -> (depth r <= bound)%nat)
      by (intros k r Hin; apply (Hother k r); right; exact Hin).
    assert (Hfresh : forall r, ~ In (key, r) rest).
    { intros r Hin. unfold keys_above in Habove.
      pose proof (proj1 (List.Forall_forall _ _) Habove _ Hin) as Hk. cbn [fst] in Hk.
      rewrite Json_key_comparator_irrefl in Hk. discriminate. }
    pose proof (Hother key value (or_introl eq_refl)) as Hvalue.
    cbn [consume_with].
    destruct (map_find key this_map) as [this_value|] eqn:Hfind.
    + pose proof (Hcommon key this_value value (map_find_In _ _ _ Hfind)
                          (or_introl eq_refl)) as Hthis.
      destruct (merge this_value value) as [merged|] eqn:Hmerged; [|exact Hall].
      pose proof (Hmerge key value (or_introl eq_refl) this_value merged Hmerged) as Hle.
      apply (IH Hrest Hsorted' Hother').
      * intros k v Hin. destruct (map_assign_In _ _ _ _ _ Hin) as [Hold|[-> ->]];
          [eapply Hall; exact Hold|lia].
      * intros k v r Hin Hin'. destruct (map_assign_In _ _ _ _ _ Hin) as [Hold|[-> ->]].
        -- eapply Hcommon; [exact Hold|right; exact Hin'].
        -- destruct (Hfresh r Hin').
    + unfold add_alias. cbn [fst snd].
      apply (IH Hrest Hsorted' Hother').
      * intros k v Hin. destruct (map_insert_In _ _ _ _ Hin) as [[= -> ->]|Hold];
          [lia|eapply Hall; exact Hold].
      * intros k v r Hin Hin'. destruct (map_insert_In _ _ _ _ Hin) as [[= -> ->]|Hold].
        -- destruct (Hfresh r Hin').
        -- eapply Hcommon; [exact Hold|right; exact Hin'].
Qed.

Lemma sorted_objects_member (m_map : Json_object_map) (k : string) (v : Json_dom) :
  sorted_objects (Json_object m_map) = true -> In (k, v) m_map ->
  sorted_objects v = true.
Proof.
  cbn [sorted_objects]. intros Hs Hin. apply andb_true_iff in Hs. destruct Hs as [_ Hs].
  rewrite forallb_forall in Hs. apply (Hs (k, v) Hin).
Qed.

Lemma merged_array_depth (left right : Json_dom) :
  (Nat.max (depth left) (depth right) <=
   depth (Json_array (merge_elements left ++ merge_elements right)))%nat /\
  (depth (Json_array (merge_elements left ++ merge_elements right)) <=
   1 + Nat.max (depth left) (depth right))%nat.
Proof.
  rewrite depth_array, deepest_element_app.
  pose proof (merge_elements_depth left). pose proof (merge_elements_depth right). lia.
Qed.

Lemma merge_doms_depth_bounds (right : Json_dom) :
  sorted_objects right = true ->
  forall left d,
    merge_doms left right = Some d ->
    (Nat.max (depth left) (depth right) <= depth d)%nat /\
    (depth d <= 1 + Nat.max (depth left) (depth right))%nat.
Proof.
  induction right as [right Hscalar|m_v _|other_map IH] using Json_dom_induction;
    intros Hsorted left d; rewrite merge_doms_unfold.
  - destruct (make_mergeable left); destruct right;
      try discriminate Hscalar; intros [= <-]; apply merged_array_depth.
  - destruct (make_mergeable left); intros [= <-]; apply merged_array_depth.
  - pose proof (make_mergeable_spec left) as Hleft.
    destruct (make_mergeable left) as [| | | | | | | | | |this_map] eqn:Hm;
      try (intros [= <-]; apply merged_array_depth).
    assert (left = Json_object this_map) as ->.
    { destruct left; try discriminate Hleft. symmetry. exact Hleft. }
    clear Hleft Hm.
    assert (Hmembers : forall k r, In (k, r) other_map -> sorted_objects r = true)
      by (intros k r; apply sorted_objects_member; exact Hsorted).
    assert (Hmap : map_sorted other_map = true).
    { cbn [sorted_objects] in Hsorted. apply andb_true_iff in Hsorted. apply Hsorted. }
    destruct (consume_with merge_doms this_map other_map) as [err m] eqn:Hconsume.
    destruct err; [discriminate|]. intros [= <-].
    rewrite !depth_object.
    destruct (consume_with_covers merge_doms other_map) with (this_map := this_map)
      as [Hthis Hother].
    { intros k r Hin l d Hd. apply (IH k r Hin (Hmembers k r Hin) l d Hd). }
    { rewrite Hconsume. reflexivity. }
    rewrite Hconsume in Hthis, Hother. cbn [snd] in Hthis, Hother.
    apply covered_by_deepest in Hthis, Hother.
    assert (Hbelow : (deepest_member m <=
                      1 + Nat.max (deepest_member this_map) (deepest_member other_map))%nat).
    { apply deepest_member_below. intros k v Hin.
      apply (consume_with_below merge_doms
               (Nat.max (deepest_member this_map) (deepest_member other_map))
               other_map) with (this_map := this_map) (k := k).
      - intros k0 r Hin0 l d Hd. apply (IH k0 r Hin0 (Hmembers k0 r Hin0) l d Hd).
      - exact Hmap.
      - intros k0 r Hin0. pose proof (deepest_member_above other_map k0 r Hin0). lia.
      - intros k0 v0 Hin0. pose proof (deepest_member_above this_map k0 v0 Hin0). lia.
      - intros k0 v0 r Hin0 _. pose proof (deepest_member_above this_map k0 v0 Hin0). lia.
      - rewrite Hconsume. exact Hin. }
    lia.
Qed.

(** X16: merging two documents always gives a document; it is at least
    as deep as each of the two and at most one level deeper than the
    deeper of them, when the objects of the right document hold each
    key once, in key order. *)
Theorem merge_doms_depth (left right : Json_dom) :
  sorted_objects right = true ->
  exists d,
    merge_doms left right = Some d /\
    (Nat.max (depth left) (depth right) <= depth d)%nat /\
    (depth d <= 1 + Nat.max (depth left) (depth right))%nat.
Proof.
  intros Hsorted. destruct (merge_doms_total right left) as [d Hd].
  exists d. split; [exact Hd|]. apply (merge_doms_depth_bounds right Hsorted left d Hd).
Qed.

End Merge_depth.

Definition object_a_1 : @Json_dom Integer_decimals := Json_object [("a"%string, Json_int 1)].
Definition object_a_2 : @Json_dom Integer_decimals := Json_object [("a"%string, Json_int 2)].

Lemma merge_doms_depth_witness :
  depth object_a_1 = 2%nat /\ depth object_a_2 = 2%nat /\
  exists d,
    merge_doms object_a_1 object_a_2 = Some d /\
    d = Json_object [("a"%string, Json_array [Json_int 1; Json_int 2])] /\
    depth d = 3%nat.
Proof.
  split; [reflexivity|]. split; [reflexivity|].
  destruct (merge_doms_depth object_a_1 object_a_2 eq_refl) as (d & Hd & _ & _).
  exists d. split; [exact Hd|].
  assert (Hmerged : merge_doms object_a_1 object_a_2 =
                    Some (Json_object [("a"%string, Json_array [Json_int 1; Json_int 2])]))
    by reflexivity.
  rewrite Hmerged in Hd. injection Hd as <-. split; reflexivity.
Defined.

(** ** Search in a DOM *)

Section Dom_seek.
Context `{DL : Decimal_library}.

(** A [Json_dom *] into the document that is searched: the place of the
    node (the positions of the children on the way down from the root
    of the search; a member counts by its place in the iteration order
    of its object) and the node there.  Two pointers are equal when
    their places are. *)
Record dom_ptr := mk_ptr { ptr_at : list nat; ptr_dom : Json_dom }.

Definition Json_dom_vector := list dom_ptr.

Fixpoint same_place (a b : list nat) : bool :=
  match a, b with
  | [], [] => true
  | x :: a', y :: b' => Nat.eqb x y && same_place a' b'
  | _, _ => false
  end.

Definition same_ptr (a b : dom_ptr) : bool := same_place (ptr_at a) (ptr_at b).

(** [seen_already]. *)
Definition seen_already (result : Json_dom_vector) (cand : dom_ptr) : bool :=
  existsb (same_ptr cand) result.

(** [add_if_missing]: the two vectors afterwards.  The source keeps
    [duplicates] ordered by address; only membership is ever asked of
    it. *)
Definition add_if_missing (candidate : dom_ptr) (duplicates result : Json_dom_vector)
  : Json_dom_vector * Json_dom_vector :=
  if existsb (same_ptr candidate) duplicates then (duplicates, result)
  else (duplicates ++ [candidate], result ++ [candidate]).

(** The place in the iteration order of the member that [m.find(key)]
    finds. *)
Fixpoint map_find_index {A : Type} (key : string) (m : object_map A) : nat :=
  match m with
  | [] => 0
  | (k, _) :: rest => if key_equiv key k then 0 else S (map_find_index key rest)
  end.

(** The loop of [find_child_doms] over the cells of a range. *)
Fixpoint add_cells (this_at : list nat) (m_v : list Json_dom) (only_need_one : bool)
                   (cells : list nat) (duplicates result : Json_dom_vector)
  : Json_dom_vector * Json_dom_vector :=
  match cells with
  | [] => (duplicates, result)
  | i :: more =>
    let (duplicates, result) :=
      match nth_error m_v i with
      | Some child => add_if_missing (mk_ptr (this_at ++ [i]) child) duplicates result
      | None => (duplicates, result)
      end in
    if is_seek_done result only_need_one then (duplicates, result)
    else add_cells this_at m_v only_need_one more duplicates result
  end.

(** The loop of [find_child_doms] over the members of an object, from
    the member at place [idx] on. *)
Fixpoint add_members (this_at : list nat) (only_need_one : bool)
                     (members : Json_object_map) (idx : nat)
                     (duplicates result : Json_dom_vector)
  : Json_dom_vector * Json_dom_vector :=
  match members with
  | [] => (duplicates, result)
  | (_, child) :: more =>
    let (duplicates, result) :=
      add_if_missing (mk_ptr (this_at ++ [idx]) child) duplicates result in
    if is_seek_done result only_need_one then (duplicates, result)
    else add_members this_at only_need_one more (S idx) duplicates result
  end.

(** The loops of the ellipsis case over the elements of an array and
    over the members of an object, for a given search below a child. *)
Definition descend_elements_with
    (recurse : Json_dom -> list nat -> Json_dom_vector -> Json_dom_vector ->
               Json_dom_vector * Json_dom_vector)
    (this_at : list nat) (only_need_one : bool) :=
  fix each (children : list Json_dom) (eidx : nat)
           (duplicates result : Json_dom_vector) {struct children}
    : Json_dom_vector * Json_dom_vector :=
    match children with
    | [] => (duplicates, result)
    | child :: more =>
      let (duplicates, result) :=
        add_if_missing (mk_ptr (this_at ++ [eidx]) child) duplicates result in
      if is_seek_done result only_need_one then (duplicates, result)
      else
        let child_type := json_type child in
        let (duplicates, result) :=
          if enum_json_type_eqb child_type J_ARRAY ||
             enum_json_type_eqb child_type J_OBJECT
          then recurse child (this_at ++ [eidx]) duplicates result
          else (duplicates, result) in
        each more (S eidx) duplicates result
    end.

Definition descend_members_with
    (recurse : Json_dom -> list nat -> Json_dom_vector -> Json_dom_vector ->
               Json_dom_vector * Json_dom_vector)
    (this_at : list nat) (only_need_one : bool) :=
  fix each (members : Json_object_map) (idx : nat)
           (duplicates result : Json_dom_vector) {struct members}
    : Json_dom_vector * Json_dom_vector :=
    match members with
    | [] => (duplicates, result)
    | (_, child) :: more =>
      let child_type := json_type child in
      let (duplicates, result) :=
        add_if_missing (mk_ptr (this_at ++ [idx]) child) duplicates result in
      if is_seek_done result only_need_one then (duplicates, result)
      else
        let (duplicates, result) :=
          if enum_json_type_eqb child_type J_ARRAY ||
             enum_json_type_eqb child_type J_OBJECT
          then recurse child (this_at ++ [idx]) duplicates result
          else (duplicates, result) in
        each more (S idx) duplicates result
    end.

(** [Json_dom::find_child_doms] on the node [this] at the place
    [this_at]: the vectors [duplicates] and [result] afterwards.  The
    function returns true only when an allocation fails.  The kind of
    the node is J_ARRAY exactly for a [Json_array] and J_OBJECT exactly
    for a [Json_object]. *)
Fixpoint find_child_doms (this : Json_dom) (this_at : list nat) (path_leg : Json_path_leg)
                         (auto_wrap only_need_one : bool)
                         (duplicates result : Json_dom_vector) {struct this}
  : Json_dom_vector * Json_dom_vector :=
  let dom_type := json_type this in
  let leg_type := m_leg_type path_leg in
  if is_seek_done result only_need_one then (duplicates, result)
  else if auto_wrap && negb (enum_json_type_eqb dom_type J_ARRAY) && is_autowrap path_leg
  then
    if negb (seen_already result (mk_ptr this_at this))
    then add_if_missing (mk_ptr this_at this) duplicates result
    else (duplicates, result)
  else
    match leg_type with
    | jpl_array_cell =>
      match this with
      | Json_array m_v =>
        let idx := first_array_index path_leg (length m_v) in
        if within_bounds idx then
          match nth_error m_v (position idx) with
          | Some child =>
            add_if_missing (mk_ptr (this_at ++ [position idx]) child) duplicates result
          | None => (duplicates, result)
          end
        else (duplicates, result)
      | _ => (duplicates, result)
      end
    | jpl_array_range | jpl_array_cell_wildcard =>
      match this with
      | Json_array m_v =>
        let (m_begin, m_end) := get_array_range path_leg (length m_v) in
        add_cells this_at m_v only_need_one (seq m_begin (m_end - m_begin))
                  duplicates result
      | _ => (duplicates, result)
      end
    | jpl_ellipsis =>
      let (duplicates, result) :=
        add_if_missing (mk_ptr this_at this) duplicates result in
      match this with
      | Json_array m_v =>
        descend_elements_with
          (fun child child_at =>
             find_child_doms child child_at path_leg auto_wrap only_need_one)
          this_at only_need_one m_v 0%nat duplicates result
      | Json_object m_map =>
        descend_members_with
          (fun child child_at =>
             find_child_doms child child_at path_leg auto_wrap only_need_one)
          this_at only_need_one m_map 0%nat duplicates result
      | _ => (duplicates, result)
      end
    | jpl_member =>
      match this with
      | Json_object m_map =>
        match get m_map (m_member_name path_leg) with
        | Some child =>
          add_if_missing
            (mk_ptr (this_at ++ [map_find_index (m_member_name path_leg) m_map]) child)
            duplicates result
        | None => (duplicates, result)
        end
      | _ => (duplicates, result)
      end
    | jpl_member_wildcard =>
      match this with
      | Json_object m_map =>
        add_members this_at only_need_one m_map 0%nat duplicates result
      | _ => (duplicates, result)
      end
    end.

(** The loop of [Json_dom::seek] over the hits of the legs before. *)
Definition find_children (path_leg : Json_path_leg) (auto_wrap only_need_one : bool)
                         (hits : Json_dom_vector) : Json_dom_vector * Json_dom_vector :=
  fold_left (fun st it =>
               find_child_doms (ptr_dom it) (ptr_at it) path_leg auto_wrap only_need_one
                               (fst st) (snd st))
            hits ([], []).

(** The loop of [Json_dom::seek] over the legs of the path, from the leg
    [path_idx] on. *)
Fixpoint seek_from (path_leg_count : nat) (auto_wrap only_need_one : bool)
                   (legs : list Json_path_leg) (path_idx : nat) (hits : Json_dom_vector)
  : Json_dom_vector :=
  match legs with
  | [] => hits
  | path_leg :: more =>
    let (duplicates, candidates) :=
      find_children path_leg auto_wrap
                    (only_need_one && Nat.eqb path_idx (path_leg_count - 1)) hits in
    seek_from path_leg_count auto_wrap only_need_one more (S path_idx) candidates
  end.

(** [Json_dom::seek] from the node [this], the root of the search: the
    hits afterwards. *)
Definition Json_dom_seek (this : Json_dom) (path : list Json_path_leg)
                         (hits : Json_dom_vector) (auto_wrap only_need_one : bool)
  : Json_dom_vector :=
  let hits := hits ++ [mk_ptr [] this] in
  seek_from (length path) auto_wrap only_need_one path 0 hits.

(** The node at a place below [d], if there is one. *)
Fixpoint node_at (d : Json_dom) (place : list nat) : option Json_dom :=
  match place with
  | [] => Some d
  | i :: rest =>
    match d with
    | Json_array m_v =>
      match nth_error m_v i with
      | Some child => node_at child rest
      | None => None
      end
    | Json_object m_map =>
      match nth_error m_map i with
      | Some (_, child) => node_at child rest
      | None => None
      end
    | _ => None
    end
  end.

Lemma same_place_eq (a b : list nat) : same_place a b = true <-> a = b.
Proof.
  revert b. induction a as [|x a IH]; intros [|y b]; cbn [same_place];
    try (split; [discriminate|discriminate]); [split; reflexivity|].
  rewrite andb_true_iff, Nat.eqb_eq, IH. split.
  - intros [-> ->]. reflexivity.
  - intros [= -> ->]. split; reflexivity.
Qed.

Lemma seen_iff (cand : dom_ptr) (v : Json_dom_vector) :
  existsb (same_ptr cand) v = true <-> In (ptr_at cand) (map ptr_at v).
Proof.
  rewrite existsb_exists, in_map_iff. unfold same_ptr. split.
  - intros (p & Hin & Hsame). apply same_place_eq in Hsame. exists p. split; auto.
  - intros (p & Heq & Hin). exists p. split; [exact Hin|]. apply same_place_eq. auto.
Qed.

Lemma node_at_app (root : Json_dom) (place : list nat) : forall more this,
  node_at root place = Some this -> node_at root (place ++ more) = node_at this more.
Proof.
  revert root. induction place as [|i place IH]; intros root more this; cbn [node_at app].
  - intros [= ->]. reflexivity.
  - destruct root; try discriminate.
    + destruct (nth_error m_v i) as [child|]; [|discriminate]. apply IH.
    + destruct (nth_error m_map i) as [[k child]|]; [|discriminate]. apply IH.
Qed.

Lemma node_at_element (root : Json_dom) (place : list nat) (m_v : list Json_dom)
                      (i : nat) (child : Json_dom) :
  node_at root place = Some (Json_array m_v) -> nth_error m_v i = Some child ->
  node_at root (place ++ [i]) = Some child.
Proof.
  intros Hthis Hchild. rewrite (node_at_app root place [i] _ Hthis).
  cbn [node_at]. rewrite Hchild. reflexivity.
Qed.

Lemma node_at_member (root : Json_dom) (place : list nat) (m_map : Json_object_map)
                     (i : nat) (key : string) (child : Json_dom) :
  node_at root place = Some (Json_object m_map) -> nth_error m_map i = Some (key, child) ->
  node_at root (place ++ [i]) = Some child.
Proof.
  intros Hthis Hchild. rewrite (node_at_app root place [i] _ Hthis).
  cbn [node_at]. rewrite Hchild. reflexivity.
Qed.

Lemma map_find_index_spec (key : string) (m_map : Json_object_map) (child : Json_dom) :
  map_find key m_map = Some child ->
  exists k, nth_error m_map (map_find_index key m_map) = Some (k, child).
Proof.
  induction m_map as [|[k v] m_map IH]; cbn [map_find map_find_index]; [discriminate|].
  destruct (key_equiv key k).
  - intros [= ->]. exists k. reflexivity.
  - intros Hfind. apply IH. exact Hfind.
Qed.

(** ** The hits are distinct nodes of the document *)

Section Hits_of_a_root.
Variable root : Json_dom.

Definition points_into (p : dom_ptr) : Prop := node_at root (ptr_at p) = Some (ptr_dom p).

(** What the search keeps true of its two vectors: every result is
    among the duplicates, no place occurs twice in the result, and the
    results are nodes of the document. *)
Definition vectors_sound (st : Json_dom_vector * Json_dom_vector) : Prop :=
  (forall p, In p (snd st) -> In (ptr_at p) (map ptr_at (fst st))) /\
  List.NoDup (map ptr_at (snd st)) /\
  Forall points_into (snd st).

Lemma add_if_missing_sound (candidate : dom_ptr) (duplicates result : Json_dom_vector) :
  points_into candidate -> vectors_sound (duplicates, result) ->
  vectors_sound (add_if_missing candidate duplicates result).
Proof.
  intros Hvalid (Hsub & Hnodup & Hall). unfold add_if_missing. cbn [fst snd] in *.
  destruct (existsb (same_ptr candidate) duplicates) eqn:Hseen.
  - split; [exact Hsub|]. split; assumption.
  - assert (Hfresh : ~ In (ptr_at candidate) (map ptr_at duplicates)).
    { intros Hin. apply seen_iff in Hin. congruence. }
    split; [|split]; cbn [fst snd].
    + intros p Hin. rewrite map_app, in_app_iff. apply in_app_iff in Hin.
      destruct Hin as [Hin|[<-|[]]]; [left; apply Hsub; exact Hin|right; left; reflexivity].
    + rewrite map_app. cbn [map]. apply List.NoDup_app; [exact Hnodup| |].
      * constructor; [intros []|constructor].
      * intros x Hx [<-|[]]. apply Hfresh. apply in_map_iff in Hx.
        destruct Hx as (p & Heq & Hin). rewrite <- Heq. apply Hsub. exact Hin.
    + apply Forall_app. split; [exact Hall|]. constructor; [exact Hvalid|constructor].
Qed.

Lemma add_cells_sound (this_at : list nat) (m_v : list Json_dom) (only_need_one : bool) :
  node_at root this_at = Some (Json_array m_v) ->
  forall cells duplicates result,
    vectors_sound (duplicates, result) ->
    vectors_sound (add_cells this_at m_v only_need_one cells duplicates result).
Proof.
  intros Hthis. induction cells as [|i cells IH]; intros duplicates result Hs; [exact Hs|].
  cbn [add_cells].
  assert (Hs' : vectors_sound
                  match nth_error m_v i with
                  | Some child => add_if_missing (mk_ptr (this_at ++ [i]) child)
                                                 duplicates result
                  | None => (duplicates, result)
                  end).
  { destruct (nth_error m_v i) as [child|] eqn:Hchild; [|exact Hs].
    apply add_if_missing_sound; [|exact Hs].
    apply (node_at_element root this_at m_v i child Hthis Hchild). }
  destruct (match nth_error m_v i with Some _ => _ | None => _ end) as [d r].
  destruct (is_seek_done r only_need_one); [exact Hs'|]. apply IH. exact Hs'.
Qed.

Lemma add_members_sound (this_at : list nat) (m_map : Json_object_map)
                        (only_need_one : bool) :
  node_at root this_at = Some (Json_object m_map) ->
  forall members idx duplicates result,
    skipn idx m_map = members ->
    vectors_sound (duplicates, result) ->
    vectors_sound (add_members this_at only_need_one members idx duplicates result).
Proof.
  intros Hthis. induction members as [|[key child] members IH];
    intros idx duplicates result Hskip Hs; [exact Hs|].
  cbn [add_members].
  assert (Hchild : nth_error m_map idx = Some (key, child)).
  { rewrite <- (Nat.add_0_r idx), <- nth_error_skipn, Hskip. reflexivity. }
  pose proof (add_if_missing_sound (mk_ptr (this_at ++ [idx]) child) duplicates result
                (node_at_member root this_at m_map idx key child Hthis Hchild) Hs) as Hs'.
  destruct (add_if_missing _ duplicates result) as [d r].
  destruct (is_seek_done r only_need_one); [exact Hs'|]. apply IH; [|exact Hs'].
  replace (S idx) with (idx + 1)%nat by lia. rewrite <- drop_drop, Hskip. reflexivity.
Qed.

Lemma find_child_doms_sound (path_leg : Json_path_leg) (auto_wrap only_need_one : bool)
                            (this : Json_dom) :
  forall this_at duplicates result,
    node_at root this_at = Some this ->
    vectors_sound (duplicates, result) ->
    vectors_sound (find_child_doms this this_at path_leg auto_wrap only_need_one
                                   duplicates result).
Proof.
  induction this as [this Hscalar|m_v IH|m_map IH] using Json_dom_induction;
    intros this_at duplicates result Hthis Hs.
  - destruct this; try discriminate Hscalar; cbn [find_child_doms];
      (destruct (is_seek_done result only_need_one); [exact Hs|]);
      (destruct (auto_wrap && negb _ && is_autowrap path_leg);
       [destruct (negb _); [apply add_if_missing_sound; [exact Hthis|exact Hs]|exact Hs]|]);
      destruct (m_leg_type path_leg); try exact Hs;
      match goal with
      | |- context [add_if_missing ?c duplicates result] =>
        pose proof (add_if_missing_sound c duplicates result Hthis Hs) as Hs';
        destruct (add_if_missing c duplicates result); exact Hs'
      end.
  - cbn [find_child_doms].
    destruct (is_seek_done result only_need_one); [exact Hs|].
    destruct (auto_wrap && negb _ && is_autowrap path_leg).
    { destruct (negb _); [apply add_if_missing_sound; [exact Hthis|exact Hs]|exact Hs]. }
    destruct (m_leg_type path_leg); try exact Hs.
    + destruct (within_bounds _); [|exact Hs].
      destruct (nth_error m_v _) as [child|] eqn:Hchild; [|exact Hs].
      apply add_if_missing_sound; [|exact Hs].
      apply (node_at_element root this_at m_v _ child Hthis Hchild).
    + destruct (get_array_range _ _) as [m_begin m_end].
      apply add_cells_sound; assumption.
    + destruct (get_array_range _ _) as [m_begin m_end].
      apply add_cells_sound; assumption.
    + pose proof (add_if_missing_sound (mk_ptr this_at (Json_array m_v)) duplicates result
                    Hthis Hs) as Hs'.
      destruct (add_if_missing _ duplicates result) as [d r].
      assert (Hloop : forall children eidx d r,
                 skipn eidx m_v = children -> vectors_sound (d, r) ->
                 vectors_sound
                   (descend_elements_with
                      (fun child child_at =>
                         find_child_doms child child_at path_leg auto_wrap only_need_one)
                      this_at only_need_one children eidx d r)).
      { clear d r Hs'. induction children as [|child children IHc];
          intros eidx d r Hskip Hs'; [exact Hs'|].
        cbn [descend_elements_with].
        assert (Hchild : nth_error m_v eidx = Some child).
        { rewrite <- (Nat.add_0_r eidx), <- nth_error_skipn, Hskip. reflexivity. }
        pose proof (node_at_element root this_at m_v eidx child Hthis Hchild) as Hat.
        pose proof (add_if_missing_sound (mk_ptr (this_at ++ [eidx]) child) d r Hat Hs')
          as Hs''.
        destruct (add_if_missing _ d r) as [d' r'].
        destruct (is_seek_done r' only_need_one); [exact Hs''|].
        assert (Hs3 : vectors_sound
                        (if enum_json_type_eqb (json_type child) J_ARRAY ||
                            enum_json_type_eqb (json_type child) J_OBJECT
                         then find_child_doms child (this_at ++ [eidx]) path_leg auto_wrap
                                              only_need_one d' r'
                         else (d', r'))).
        { destruct (_ || _); [|exact Hs''].
          apply IH; [|exact Hat|exact Hs''].
          apply (nth_error_In _ _ Hchild). }
        destruct (if _ || _ then _ else _) as [d3 r3].
        apply IHc; [|exact Hs3].
        replace (S eidx) with (eidx + 1)%nat by lia. rewrite <- drop_drop, Hskip. reflexivity. }
      apply Hloop; [reflexivity|exact Hs'].
  - cbn [find_child_doms].
    destruct (is_seek_done result only_need_one); [exact Hs|].
    destruct (auto_wrap && negb _ && is_autowrap path_leg).
    { destruct (negb _); [apply add_if_missing_sound; [exact Hthis|exact Hs]|exact Hs]. }
    destruct (m_leg_type path_leg); try exact Hs.
    + unfold get. destruct (map_find _ m_map) as [child|] eqn:Hfind; [|exact Hs].
      apply add_if_missing_sound; [|exact Hs].
      destruct (map_find_index_spec _ _ _ Hfind) as [k Hk].
      apply (node_at_member root this_at m_map _ k child Hthis Hk).
    + apply (add_members_sound this_at m_map); [exact Hthis|reflexivity|exact Hs].
    + pose proof (add_if_missing_sound (mk_ptr this_at (Json_object m_map)) duplicates
                    result Hthis Hs) as Hs'.
      destruct (add_if_missing _ duplicates result) as [d r].
      assert (Hloop : forall members idx d r,
                 skipn idx m_map = members -> vectors_sound (d, r) ->
                 vectors_sound
                   (descend_members_with
                      (fun child child_at =>
                         find_child_doms child child_at path_leg auto_wrap only_need_one)
                      this_at only_need_one members idx d r)).
      { clear d r Hs'. induction members as [|[key child] members IHc];
          intros idx d r Hskip Hs'; [exact Hs'|].
        cbn [descend_members_with].
        assert (Hchild : nth_error m_map idx = Some (key, child)).
        { rewrite <- (Nat.add_0_r idx), <- nth_error_skipn, Hskip. reflexivity. }
        pose proof (node_at_member root this_at m_map idx key child Hthis Hchild) as Hat.
        pose proof (add_if_missing_sound (mk_ptr (this_at ++ [idx]) child) d r Hat Hs')
          as Hs''.
        destruct (add_if_missing _ d r) as [d' r'].
        destruct (is_seek_done r' only_need_one); [exact Hs''|].
        assert (Hs3 : vectors_sound
                        (if enum_json_type_eqb (json_type child) J_ARRAY ||
                            enum_json_type_eqb (json_type child) J_OBJECT
                         then find_child_doms child (this_at ++ [idx]) path_leg auto_wrap
                                              only_need_one d' r'
                         else (d', r'))).
        { destruct (_ || _); [|exact Hs''].
          apply (IH key child); [|exact Hat|exact Hs''].
          apply (nth_error_In _ _ Hchild). }
        destruct (if _ || _ then _ else _) as [d3 r3].
        apply IHc; [|exact Hs3].
        replace (S idx) with (idx + 1)%nat by lia. rewrite <- drop_drop, Hskip. reflexivity. }
      apply Hloop; [reflexivity|exact Hs'].
Qed.

Lemma find_children_sound (path_leg : Json_path_leg) (auto_wrap only_need_one : bool)
                          (hits : Json_dom_vector) :
  Forall points_into hits ->
  vectors_sound (find_children path_leg auto_wrap only_need_one hits).
Proof.
  unfold find_children.
  assert (Hstart : vectors_sound ([], [])).
  { split; [intros p []|]. split; constructor. }
  revert Hstart. generalize (@nil dom_ptr, @nil dom_ptr).
  induction hits as [|it hits IH]; intros st Hs Hall; [exact Hs|].
  cbn [fold_left]. inversion Hall as [|? ? Hit Hrest]; subst.
  apply IH; [|exact Hrest].
  destruct st as [d r]. apply find_child_doms_sound; assumption.
Qed.

Lemma seek_from_sound (path_leg_count : nat) (auto_wrap only_need_one : bool)
                      (legs : list Json_path_leg) :
  forall path_idx hits,
    List.NoDup (map ptr_at hits) -> Forall points_into hits ->
    List.NoDup (map ptr_at (seek_from path_leg_count auto_wrap only_need_one legs path_idx hits)) /\
    Forall points_into (seek_from path_leg_count auto_wrap only_need_one legs path_idx hits).
Proof.
  induction legs as [|path_leg legs IH]; intros path_idx hits Hnodup Hall; [auto|].
  cbn [seek_from].
  pose proof (find_children_sound path_leg auto_wrap
                (only_need_one && Nat.eqb path_idx (path_leg_count - 1)) hits Hall) as Hs.
  destruct (find_children _ _ _ hits) as [duplicates candidates].
  destruct Hs as (_ & Hnodup' & Hall'). apply IH; assumption.
Qed.

End Hits_of_a_root.

(** X17: the hits of [Json_dom::seek], started with an empty vector, are
    nodes of the document it searches, and no node is among them twice,
    whatever the path (also with ellipses and auto-wrapping). *)
Theorem Json_dom_seek_distinct_nodes
    (this : Json_dom) (path : list Json_path_leg) (auto_wrap only_need_one : bool) :
  let hits := Json_dom_seek this path [] auto_wrap only_need_one in
  List.NoDup (map ptr_at hits) /\
  forall p, In p hits -> node_at this (ptr_at p) = Some (ptr_dom p).
Proof.
  intros hits. subst hits. unfold Json_dom_seek. cbn [app].
  destruct (seek_from_sound this (length path) auto_wrap only_need_one path 0
                            [mk_ptr [] this]) as [Hnodup Hall].
  - cbn [map ptr_at]. constructor; [intros []|constructor].
  - constructor; [reflexivity|constructor].
  - split; [exact Hnodup|]. intros p Hin.
    apply (proj1 (List.Forall_forall _ _) Hall p Hin).
Qed.

(** ** What an ellipsis matches *)

(** The nodes below the elements of an array and the members of an
    object, in document order, for a given listing of the nodes below a
    child. *)
Definition nodes_of_elements_with (under : Json_dom -> list nat -> Json_dom_vector)
                                  (this_at : list nat) :=
  fix each (children : list Json_dom) (eidx : nat) {struct children} : Json_dom_vector :=
    match children with
    | [] => []
    | child :: more =>
      mk_ptr (this_at ++ [eidx]) child :: under child (this_at ++ [eidx]) ++
      each more (S eidx)
    end.

Definition nodes_of_members_with (under : Json_dom -> list nat -> Json_dom_vector)
                                 (this_at : list nat) :=
  fix each (members : Json_object_map) (idx : nat) {struct members} : Json_dom_vector :=
    match members with
    | [] => []
    | (_, child) :: more =>
      mk_ptr (this_at ++ [idx]) child :: under child (this_at ++ [idx]) ++
      each more (S idx)
    end.

(** The nodes strictly below the node [d] at the place [this_at], each
    before the nodes below it, children in their order. *)
Fixpoint nodes_under (d : Json_dom) (this_at : list nat) {struct d} : Json_dom_vector :=
  match d with
  | Json_array m_v => nodes_of_elements_with nodes_under this_at m_v 0%nat
  | Json_object m_map => nodes_of_members_with nodes_under this_at m_map 0%nat
  | _ => []
  end.

(** The places strictly below [this_at] in the vector [v] go through a
    child before the one at [eidx]. *)
Definition below_before (this_at : list nat) (eidx : nat) (v : Json_dom_vector) : Prop :=
  forall p, In p v -> forall i rest, ptr_at p = this_at ++ i :: rest -> (i < eidx)%nat.

Lemma nodes_under_below (d : Json_dom) :
  forall this_at p, In p (nodes_under d this_at) ->
                    exists i rest, ptr_at p = this_at ++ i :: rest.
Proof.
  induction d as [d Hscalar|m_v IH|m_map IH] using Json_dom_induction; intros this_at p.
  - destruct d; try discriminate Hscalar; intros [].
  - cbn [nodes_under]. generalize 0%nat.
    induction m_v as [|child m_v IHc]; intros eidx; cbn [nodes_of_elements_with];
      [intros []|].
    intros [<-|Hin]; [exists eidx, []; reflexivity|].
    apply in_app_iff in Hin. destruct Hin as [Hin|Hin].
    + destruct (IH child (or_introl eq_refl) _ _ Hin) as (i & rest & Heq).
      exists eidx, (i :: rest). rewrite Heq, <- app_assoc. reflexivity.
    + apply (IHc (fun x Hx => IH x (or_intror Hx)) (S eidx) Hin).
  - cbn [nodes_under]. generalize 0%nat.
    induction m_map as [|[key child] m_map IHc]; intros idx; cbn [nodes_of_members_with];
      [intros []|].
    intros [<-|Hin]; [exists idx, []; reflexivity|].
    apply in_app_iff in Hin. destruct Hin as [Hin|Hin].
    + destruct (IH key child (or_introl eq_refl) _ _ Hin) as (i & rest & Heq).
      exists idx, (i :: rest). rewrite Heq, <- app_assoc. reflexivity.
    + apply (IHc (fun k x Hx => IH k x (or_intror Hx)) (S idx) Hin).
Qed.

Lemma scalar_has_no_nodes (d : Json_dom) (this_at : list nat) :
  enum_json_type_eqb (json_type d) J_ARRAY || enum_json_type_eqb (json_type d) J_OBJECT =
  false ->
  nodes_under d this_at = [].
Proof. destruct d; try reflexivity; discriminate. Qed.

Lemma container_type_test (d : Json_dom) :
  is_container d = true ->
  enum_json_type_eqb (json_type d) J_ARRAY || enum_json_type_eqb (json_type d) J_OBJECT =
  true.
Proof. destruct d; try discriminate; reflexivity. Qed.

Lemma not_seen_below (this_at : list nat) (eidx : nat) (child : Json_dom)
                     (v : Json_dom_vector) :
  below_before this_at eidx v ->
  existsb (same_ptr (mk_ptr (this_at ++ [eidx]) child)) v = false.
Proof.
  intros Hbefore. destruct (existsb _ v) eqn:Hseen; [|reflexivity].
  apply seen_iff in Hseen. apply in_map_iff in Hseen. destruct Hseen as (p & Heq & Hin).
  cbn [ptr_at] in Heq. specialize (Hbefore p Hin eidx [] Heq). lia.
Qed.

Lemma seen_at_end (p : dom_ptr) (v : Json_dom_vector) :
  existsb (same_ptr p) (v ++ [p]) = true.
Proof.
  rewrite existsb_app. cbn [existsb]. unfold same_ptr at 2.
  rewrite (proj2 (same_place_eq _ _) eq_refl). apply orb_true_iff. right. reflexivity.
Qed.

Lemma below_child (this_at : list nat) (eidx : nat) (child : Json_dom)
                  (v : Json_dom_vector) :
  below_before this_at eidx v ->
  below_before (this_at ++ [eidx]) 0 (v ++ [mk_ptr (this_at ++ [eidx]) child]).
Proof.
  intros Hbefore p Hin i rest Heq. apply in_app_iff in Hin.
  destruct Hin as [Hin|[<-|[]]].
  - rewrite <- app_assoc in Heq. specialize (Hbefore p Hin eidx (i :: rest) Heq). lia.
  - cbn [ptr_at] in Heq. apply (f_equal (@length nat)) in Heq.
    rewrite !length_app in Heq. cbn [length] in Heq. lia.
Qed.

Lemma below_next (this_at : list nat) (eidx : nat) (child : Json_dom)
                 (v : Json_dom_vector) :
  below_before this_at eidx v ->
  below_before this_at (S eidx)
               (v ++ mk_ptr (this_at ++ [eidx]) child ::
                     nodes_under child (this_at ++ [eidx])).
Proof.
  intros Hbefore p Hin i rest Heq. apply in_app_iff in Hin.
  destruct Hin as [Hin|[<-|Hin]].
  - specialize (Hbefore p Hin i rest Heq). lia.
  - cbn [ptr_at] in Heq. apply app_inv_head in Heq. injection Heq as <- _. lia.
  - destruct (nodes_under_below child _ p Hin) as (j & more & Hp).
    rewrite Hp, <- app_assoc in Heq. apply app_inv_head in Heq.
    injection Heq as <- _. lia.
Qed.

(** An ellipsis leg, in a search for all matches, adds the node unless
    it is a duplicate, and then every node below it. *)
Lemma ellipsis_collects (path_leg : Json_path_leg) (auto_wrap : bool) (this : Json_dom) :
  m_leg_type path_leg = jpl_ellipsis ->
  forall this_at duplicates result,
    below_before this_at 0 duplicates ->
    find_child_doms this this_at path_leg auto_wrap false duplicates result =
    let new :=
      (if existsb (same_ptr (mk_ptr this_at this)) duplicates then []
       else [mk_ptr this_at this]) ++ nodes_under this this_at in
    (duplicates ++ new, result ++ new).
Proof.
  intros Hleg.
  assert (Hwrap : is_autowrap path_leg = false) by (unfold is_autowrap; rewrite Hleg; reflexivity).
  assert (Hadd : forall p d r,
             add_if_missing p d r =
             let new := if existsb (same_ptr p) d then [] else [p] in (d ++ new, r ++ new)).
  { intros p d r. unfold add_if_missing. destruct (existsb (same_ptr p) d); cbv zeta;
      rewrite ?app_nil_r; reflexivity. }
  induction this as [this Hscalar|m_v IH|m_map IH] using Json_dom_induction;
    intros this_at duplicates result Hbefore.
  - destruct this; try discriminate Hscalar; cbn [find_child_doms nodes_under];
      unfold is_seek_done; cbn [andb]; rewrite Hwrap, andb_false_r, Hleg, Hadd;
      cbv zeta; rewrite !app_nil_r; reflexivity.
  - cbn [find_child_doms nodes_under]. unfold is_seek_done at 1. cbn [andb].
    rewrite Hwrap, andb_false_r, Hleg, Hadd. cbv zeta.
    set (first := if existsb _ duplicates then [] else [mk_ptr this_at (Json_array m_v)]).
    assert (Hbefore' : below_before this_at 0 (duplicates ++ first)).
    { intros p Hin i rest Heq. apply in_app_iff in Hin. destruct Hin as [Hin|Hin];
        [apply (Hbefore p Hin i rest Heq)|].
      subst first. destruct (existsb _ duplicates); [destruct Hin|].
      destruct Hin as [<-|[]]. cbn [ptr_at] in Heq.
      apply (f_equal (@length nat)) in Heq. rewrite length_app in Heq.
      cbn [length] in Heq. lia. }
    cbv iota. rewrite !app_assoc.
    generalize dependent (duplicates ++ first). generalize (result ++ first).
    generalize 0%nat. clear first Hbefore duplicates result.
    induction m_v as [|child m_v IHc]; intros eidx result duplicates Hbefore;
      cbn [descend_elements_with nodes_of_elements_with].
    + rewrite !app_nil_r. reflexivity.
    + rewrite Hadd, (not_seen_below this_at eidx child duplicates Hbefore). cbv zeta.
      unfold is_seek_done at 1. cbn [andb].
      pose proof (below_next this_at eidx child duplicates Hbefore) as Hnext.
      destruct (enum_json_type_eqb (json_type child) J_ARRAY ||
                enum_json_type_eqb (json_type child) J_OBJECT) eqn:Hkind.
      * rewrite (IH child (or_introl eq_refl)) by (apply below_child; exact Hbefore).
        cbv zeta. rewrite seen_at_end. cbn [app]. rewrite <- !app_assoc. cbn [app].
        rewrite (IHc (fun x Hx => IH x (or_intror Hx))) by exact Hnext.
        rewrite <- !app_assoc. reflexivity.
      * rewrite (scalar_has_no_nodes child _ Hkind) in Hnext |- *.
        rewrite (IHc (fun x Hx => IH x (or_intror Hx))) by exact Hnext.
        rewrite <- !app_assoc. reflexivity.
  - cbn [find_child_doms nodes_under]. unfold is_seek_done at 1. cbn [andb].
    rewrite Hwrap, andb_false_r, Hleg, Hadd. cbv zeta.
    set (first := if existsb _ duplicates then [] else [mk_ptr this_at (Json_object m_map)]).
    assert (Hbefore' : below_before this_at 0 (duplicates ++ first)).
    { intros p Hin i rest Heq. apply in_app_iff in Hin. destruct Hin as [Hin|Hin];
        [apply (Hbefore p Hin i rest Heq)|].
      subst first. destruct (existsb _ duplicates); [destruct Hin|].
      destruct Hin as [<-|[]]. cbn [ptr_at] in Heq.
      apply (f_equal (@length nat)) in Heq. rewrite length_app in Heq.
      cbn [length] in Heq. lia. }
    cbv iota. rewrite !app_assoc.
    generalize dependent (duplicates ++ first). generalize (result ++ first).
    generalize 0%nat. clear first Hbefore duplicates result.
    induction m_map as [|[key child] m_map IHc]; intros idx result duplicates Hbefore;
      cbn [descend_members_with nodes_of_members_with].
    + rewrite !app_nil_r. reflexivity.
    + rewrite Hadd, (not_seen_below this_at idx child duplicates Hbefore). cbv zeta.
      unfold is_seek_done at 1. cbn [andb].
      pose proof (below_next this_at idx child duplicates Hbefore) as Hnext.
      destruct (enum_json_type_eqb (json_type child) J_ARRAY ||
                enum_json_type_eqb (json_type child) J_OBJECT) eqn:Hkind.
      * rewrite (IH key child (or_introl eq_refl)) by (apply below_child; exact Hbefore).
        cbv zeta. rewrite seen_at_end. cbn [app]. rewrite <- !app_assoc. cbn [app].
        rewrite (IHc (fun k x Hx => IH k x (or_intror Hx))) by exact Hnext.
        rewrite <- !app_assoc. reflexivity.
      * rewrite (scalar_has_no_nodes child _ Hkind) in Hnext |- *.
        rewrite (IHc (fun k x Hx => IH k x (or_intror Hx))) by exact Hnext.
        rewrite <- !app_assoc. reflexivity.
Qed.

(** X18: a path that is one ellipsis, searched for all matches, finds
    the document and every node below it, each once, a node before the
    nodes below it and children in their order. *)
Theorem Json_dom_seek_ellipsis
    (this : Json_dom) (path_leg : Json_path_leg) (auto_wrap : bool) :
  m_leg_type path_leg = jpl_ellipsis ->
  Json_dom_seek this [path_leg] [] auto_wrap false =
  mk_ptr [] this :: nodes_under this [].
Proof.
  intros Hleg. unfold Json_dom_seek. cbn [app seek_from andb]. unfold find_children.
  cbn [fold_left fst snd ptr_at ptr_dom].
  rewrite (ellipsis_collects path_leg auto_wrap this Hleg [] [] []) by (intros p []).
  reflexivity.
Qed.

(** ** A search for one match *)

(** The search for one match, [s1], against the search for all
    matches, [s2]: it has the first hit of that search, and the two are
    in the same state as long as there is no hit. *)
Definition first_of (s1 s2 : Json_dom_vector * Json_dom_vector) : Prop :=
  snd s1 = firstn 1 (snd s2) /\ (snd s2 = [] -> s1 = s2).

Lemma first_of_same (duplicates result : Json_dom_vector) :
  (length result <= 1)%nat -> first_of (duplicates, result) (duplicates, result).
Proof.
  intros Hlen. split; [|reflexivity]. cbn [snd].
  destruct result as [|x [|y l]]; try reflexivity. cbn [length] in Hlen. lia.
Qed.

Lemma first_of_found (d1 d2 more : Json_dom_vector) (p : dom_ptr) :
  first_of (d1, [p]) (d2, p :: more).
Proof. split; [reflexivity|discriminate]. Qed.

Lemma add_if_missing_extends (candidate : dom_ptr) (duplicates result : Json_dom_vector) :
  exists more, snd (add_if_missing candidate duplicates result) = result ++ more.
Proof.
  unfold add_if_missing. destruct (existsb _ duplicates); cbn [snd].
  - exists []. rewrite app_nil_r. reflexivity.
  - exists [candidate]. reflexivity.
Qed.

Lemma add_cells_extends (this_at : list nat) (m_v : list Json_dom) (cells : list nat) :
  forall duplicates result,
    exists more, snd (add_cells this_at m_v false cells duplicates result) = result ++ more.
Proof.
  induction cells as [|i cells IH]; intros duplicates result; cbn [add_cells].
  - exists []. rewrite app_nil_r. reflexivity.
  - assert (Hstep : exists more,
               snd (match nth_error m_v i with
                    | Some child => add_if_missing (mk_ptr (this_at ++ [i]) child)
                                                   duplicates result
                    | None => (duplicates, result)
                    end) = result ++ more).
    { destruct (nth_error m_v i); [apply add_if_missing_extends|].
      exists []. rewrite app_nil_r. reflexivity. }
    destruct (match nth_error m_v i with Some _ => _ | None => _ end) as [d r].
    destruct Hstep as [more1 Hr]. cbn [snd] in Hr. subst r.
    unfold is_seek_done. cbn [andb].
    destruct (IH d (result ++ more1)) as [more2 Hmore]. exists (more1 ++ more2).
    rewrite Hmore, app_assoc. reflexivity.
Qed.

Lemma add_members_extends (this_at : list nat) (members : Json_object_map) :
  forall idx duplicates result,
    exists more,
      snd (add_members this_at false members idx duplicates result) = result ++ more.
Proof.
  induction members as [|[key child] members IH]; intros idx duplicates result;
    cbn [add_members].
  - exists []. rewrite app_nil_r. reflexivity.
  - destruct (add_if_missing_extends (mk_ptr (this_at ++ [idx]) child) duplicates result)
      as [more1 Hr].
    destruct (add_if_missing _ duplicates result) as [d r]. cbn [snd] in Hr. subst r.
    unfold is_seek_done. cbn [andb].
    destruct (IH (S idx) d (result ++ more1)) as [more2 Hmore]. exists (more1 ++ more2).
    rewrite Hmore, app_assoc. reflexivity.
Qed.

Lemma find_child_doms_extends (this : Json_dom) (this_at : list nat)
                              (path_leg : Json_path_leg) (auto_wrap : bool)
                              (duplicates result : Json_dom_vector) :
  m_leg_type path_leg <> jpl_ellipsis ->
  exists more,
    snd (find_child_doms this this_at path_leg auto_wrap false duplicates result) =
    result ++ more.
Proof.
  intros Hleg.
  assert (Hsame : exists more, snd (duplicates, result) = result ++ more)
    by (exists []; rewrite app_nil_r; reflexivity).
  destruct this; cbn [find_child_doms]; unfold is_seek_done; cbn [andb];
    (destruct (auto_wrap && negb _ && is_autowrap path_leg);
     [destruct (negb _); [apply add_if_missing_extends|exact Hsame]|]);
    destruct (m_leg_type path_leg); try exact Hsame; try contradiction.
  - destruct (within_bounds _); [|exact Hsame].
    destruct (nth_error _ _); [apply add_if_missing_extends|exact Hsame].
  - destruct (get_array_range _ _). apply add_cells_extends.
  - destruct (get_array_range _ _). apply add_cells_extends.
  - destruct (get _ _); [apply add_if_missing_extends|exact Hsame].
  - apply add_members_extends.
Qed.

Lemma add_if_missing_first (candidate : dom_ptr) (duplicates : Json_dom_vector) :
  add_if_missing candidate duplicates [] = (duplicates, []) \/
  add_if_missing candidate duplicates [] = (duplicates ++ [candidate], [candidate]).
Proof. unfold add_if_missing. destruct (existsb _ duplicates); auto. Qed.

Lemma add_cells_first (this_at : list nat) (m_v : list Json_dom) (cells : list nat) :
  forall duplicates,
    first_of (add_cells this_at m_v true cells duplicates [])
             (add_cells this_at m_v false cells duplicates []).
Proof.
  induction cells as [|i cells IH]; intros duplicates; cbn [add_cells].
  - apply first_of_same. cbn [length]. lia.
  - assert (Hfound : forall p,
               first_of
                 (if is_seek_done [p] true then (duplicates ++ [p], [p])
                  else add_cells this_at m_v true cells (duplicates ++ [p]) [p])
                 (if is_seek_done [p] false then (duplicates ++ [p], [p])
                  else add_cells this_at m_v false cells (duplicates ++ [p]) [p])).
    { intros p. unfold is_seek_done. cbn [length Nat.ltb Nat.leb andb].
      destruct (add_cells_extends this_at m_v cells (duplicates ++ [p]) [p]) as [more Hmore].
      destruct (add_cells this_at m_v false cells (duplicates ++ [p]) [p]) as [d r].
      cbn [snd] in Hmore. subst r. apply first_of_found. }
    destruct (nth_error m_v i) as [child|].
    + destruct (add_if_missing_first (mk_ptr (this_at ++ [i]) child) duplicates)
        as [->| ->]; [|apply Hfound].
      unfold is_seek_done. cbn [length Nat.ltb Nat.leb andb]. apply IH.
    + unfold is_seek_done. cbn [length Nat.ltb Nat.leb andb]. apply IH.
Qed.

Lemma add_members_first (this_at : list nat) (members : Json_object_map) :
  forall idx duplicates,
    first_of (add_members this_at true members idx duplicates [])
             (add_members this_at false members idx duplicates []).
Proof.
  induction members as [|[key child] members IH]; intros idx duplicates;
    cbn [add_members].
  - apply first_of_same. cbn [length]. lia.
  - destruct (add_if_missing_first (mk_ptr (this_at ++ [idx]) child) duplicates)
      as [->| ->].
    + unfold is_seek_done. cbn [length Nat.ltb Nat.leb andb]. apply IH.
    + unfold is_seek_done. cbn [length Nat.ltb Nat.leb andb].
      destruct (add_members_extends this_at members (S idx)
                  (duplicates ++ [mk_ptr (this_at ++ [idx]) child])
                  [mk_ptr (this_at ++ [idx]) child]) as [more Hmore].
      destruct (add_members this_at false members (S idx) _ _) as [d r].
      cbn [snd] in Hmore. subst r. apply first_of_found.
Qed.

Lemma add_if_missing_one (candidate : dom_ptr) (duplicates : Json_dom_vector) :
  first_of (add_if_missing candidate duplicates []) (add_if_missing candidate duplicates []).
Proof.
  destruct (add_if_missing_first candidate duplicates) as [->| ->];
    apply first_of_same; cbn [length]; lia.
Qed.

Lemma find_child_doms_first (this : Json_dom) (this_at : list nat)
                            (path_leg : Json_path_leg) (auto_wrap : bool)
                            (s1 s2 : Json_dom_vector * Json_dom_vector) :
  m_leg_type path_leg <> jpl_ellipsis ->
  first_of s1 s2 ->
  first_of (find_child_doms this this_at path_leg auto_wrap true (fst s1) (snd s1))
           (find_child_doms this this_at path_leg auto_wrap false (fst s2) (snd s2)).
Proof.
  intros Hleg [Hfirst Hsame]. destruct s1 as [d1 r1], s2 as [d2 r2]. cbn [fst snd] in *.
  destruct r2 as [|x r2].
  - injection (Hsame eq_refl) as -> ->. clear Hfirst Hsame.
    assert (Hnone : first_of (d2, []) (d2, @nil dom_ptr))
      by (apply first_of_same; cbn [length]; lia).
    destruct this; cbn [find_child_doms]; unfold is_seek_done;
      cbn [length Nat.ltb Nat.leb andb];
      (destruct (auto_wrap && negb _ && is_autowrap path_leg);
       [destruct (negb _); [apply add_if_missing_one|exact Hnone]|]);
      destruct (m_leg_type path_leg); try exact Hnone; try contradiction.
    + destruct (within_bounds _); [|exact Hnone].
      destruct (nth_error _ _); [apply add_if_missing_one|exact Hnone].
    + destruct (get_array_range _ _). apply add_cells_first.
    + destruct (get_array_range _ _). apply add_cells_first.
    + destruct (get _ _); [apply add_if_missing_one|exact Hnone].
    + apply add_members_first.
  - change (firstn 1 (x :: r2)) with [x] in Hfirst. subst r1.
    assert (Hdone : find_child_doms this this_at path_leg auto_wrap true d1 [x] = (d1, [x])).
    { destruct this; reflexivity. }
    rewrite Hdone.
    destruct (find_child_doms_extends this this_at path_leg auto_wrap d2 (x :: r2) Hleg)
      as [more Hmore].
    destruct (find_child_doms this this_at path_leg auto_wrap false d2 (x :: r2)) as [d r].
    cbn [snd] in Hmore. subst r. apply first_of_found.
Qed.

Lemma find_children_first (path_leg : Json_path_leg) (auto_wrap : bool)
                          (hits : Json_dom_vector) :
  m_leg_type path_leg <> jpl_ellipsis ->
  snd (find_children path_leg auto_wrap true hits) =
  firstn 1 (snd (find_children path_leg auto_wrap false hits)).
Proof.
  intros Hleg. unfold find_children.
  assert (Hstart : first_of ([], []) (@nil dom_ptr, @nil dom_ptr))
    by (apply first_of_same; cbn [length]; lia).
  revert Hstart. generalize (@nil dom_ptr, @nil dom_ptr) at 1 3.
  generalize (@nil dom_ptr, @nil dom_ptr).
  induction hits as [|it hits IH]; intros s2 s1 Hfirst; cbn [fold_left].
  - apply Hfirst.
  - apply IH. apply find_child_doms_first; assumption.
Qed.

Lemma seek_from_first (path_leg_count : nat) (auto_wrap : bool)
                      (legs : list Json_path_leg) :
  forall path_idx hits,
    legs <> [] ->
    (path_idx + length legs = path_leg_count)%nat ->
    (forall leg, nth_error legs (length legs - 1) = Some leg ->
                 m_leg_type leg <> jpl_ellipsis) ->
    seek_from path_leg_count auto_wrap true legs path_idx hits =
    firstn 1 (seek_from path_leg_count auto_wrap false legs path_idx hits).
Proof.
  induction legs as [|path_leg legs IH]; intros path_idx hits Hlegs Hcount Hlast;
    [contradiction|].
  cbn [seek_from andb]. cbn [length] in Hcount.
  destruct legs as [|next legs].
  - cbn [length] in Hcount.
    replace (Nat.eqb path_idx (path_leg_count - 1)) with true
      by (symmetry; apply Nat.eqb_eq; lia).
    pose proof (find_children_first path_leg auto_wrap hits (Hlast path_leg eq_refl))
      as Hfirst.
    destruct (find_children path_leg auto_wrap true hits) as [d1 r1].
    destruct (find_children path_leg auto_wrap false hits) as [d2 r2].
    cbn [seek_from]. exact Hfirst.
  - replace (Nat.eqb path_idx (path_leg_count - 1)) with false
      by (symmetry; apply Nat.eqb_neq; cbn [length] in Hcount; lia).
    destruct (find_children path_leg auto_wrap false hits) as [d r].
    apply IH; [discriminate|cbn [length] in *; lia|].
    intros leg Hnth. apply Hlast.
    replace (length (path_leg :: next :: legs) - 1)%nat
      with (S (length (next :: legs) - 1)) by (cbn [length]; lia).
    exact Hnth.
Qed.

(** X19: a search for one match returns the first hit of the search for
    all matches, and nothing when that search finds nothing, if the
    path does not end in an ellipsis. *)
Theorem Json_dom_seek_first_hit
    (this : Json_dom) (path : list Json_path_leg) (auto_wrap : bool) :
  (forall leg, nth_error path (length path - 1) = Some leg ->
               m_leg_type leg <> jpl_ellipsis) ->
  Json_dom_seek this path [] auto_wrap true =
  firstn 1 (Json_dom_seek this path [] auto_wrap false).
Proof.
  intros Hlast. unfold Json_dom_seek. cbn [app].
  destruct path as [|leg path]; [reflexivity|].
  apply seek_from_first; [discriminate|reflexivity|exact Hlast].
Qed.

End Dom_seek.

Definition ellipsis_leg : Json_path_leg := mk_leg jpl_ellipsis EmptyString 0 false 0 false.

(** The document [1, {"a": [2], "b": 3}, 4]. *)
Definition seek_document : @Json_dom Integer_decimals :=
  Json_array [Json_int 1;
              Json_object [("a"%string, Json_array [Json_int 2]); ("b"%string, Json_int 3)];
              Json_int 4].

Lemma Json_dom_seek_ellipsis_witness :
  map ptr_at (Json_dom_seek seek_document [ellipsis_leg] [] false false) =
  [[]; [0]; [1]; [1; 0]; [1; 0; 0]; [1; 1]; [2]]%nat.
Proof.
  rewrite (Json_dom_seek_ellipsis seek_document ellipsis_leg false eq_refl). reflexivity.
Defined.

Lemma Json_dom_seek_first_hit_witness :
  map ptr_at (Json_dom_seek seek_document [ellipsis_leg; cell_leg 0] [] true false) =
  [[0]; [1]; [1; 0; 0]; [1; 1]; [2]]%nat /\
  map ptr_at (Json_dom_seek seek_document [ellipsis_leg; cell_leg 0] [] true true) =
  [[0]]%nat.
Proof.
  split; [reflexivity|].
  rewrite (Json_dom_seek_first_hit seek_document [ellipsis_leg; cell_leg 0] true).
  - reflexivity.
  - intros leg [= <-]. discriminate.
Defined.

(** ** The two searches of a DOM *)

Section Seek_of_a_dom_wrapper.
Context `{DL : Decimal_library}.

(** A wrapper over a node of the DOM, which it does not own, or the
    empty wrapper. *)
Definition node_wrapper := option dom_ptr.

(** [Json_wrapper::type()] of such a wrapper. *)
Definition node_kind (v : node_wrapper) : enum_json_type :=
  match v with
  | None => J_ERROR
  | Some p => json_type (ptr_dom p)
  end.

(** A binary type and a field type that [Json_wrapper::type()] maps to
    the kind: the search reads the kind of a value only through
    [type()]. *)
Definition kind_as_binary (t : enum_json_type) : json_binary.enum_type * enum_field_types :=
  match t with
  | J_NULL => (json_binary.LITERAL_NULL, MYSQL_TYPE_NULL)
  | J_DECIMAL => (json_binary.OPAQUE, MYSQL_TYPE_NEWDECIMAL)
  | J_INT => (json_binary.INT, MYSQL_TYPE_NULL)
  | J_UINT => (json_binary.UINT, MYSQL_TYPE_NULL)
  | J_DOUBLE => (json_binary.DOUBLE, MYSQL_TYPE_NULL)
  | J_STRING => (json_binary.STRING, MYSQL_TYPE_NULL)
  | J_OBJECT => (json_binary.OBJECT, MYSQL_TYPE_NULL)
  | J_ARRAY => (json_binary.ARRAY, MYSQL_TYPE_NULL)
  | J_BOOLEAN => (json_binary.LITERAL_TRUE, MYSQL_TYPE_NULL)
  | J_DATE => (json_binary.OPAQUE, MYSQL_TYPE_DATE)
  | J_TIME => (json_binary.OPAQUE, MYSQL_TYPE_TIME)
  | J_DATETIME => (json_binary.OPAQUE, MYSQL_TYPE_DATETIME)
  | J_TIMESTAMP => (json_binary.OPAQUE, MYSQL_TYPE_TIMESTAMP)
  | J_OPAQUE => (json_binary.OPAQUE, MYSQL_TYPE_NULL)
  | J_ERROR => (json_binary.ERROR, MYSQL_TYPE_NULL)
  end.

Definition node_type (v : node_wrapper) : json_binary.enum_type :=
  fst (kind_as_binary (node_kind v)).

Definition node_field_type (v : node_wrapper) : enum_field_types :=
  snd (kind_as_binary (node_kind v)).

(** [Json_wrapper::length()]. *)
Definition node_length (v : node_wrapper) : nat :=
  match v with
  | None => 0
  | Some p =>
    match ptr_dom p with
    | Json_array m_v => length m_v
    | Json_object m_map => cardinality m_map
    | _ => 1
    end
  end.

(** [Json_wrapper::operator[]] on an array, and the value of the member
    that the object iterator has reached after [index] steps. *)
Definition node_element (v : node_wrapper) (index : nat) : node_wrapper :=
  match v with
  | None => None
  | Some p =>
    match ptr_dom p with
    | Json_array m_v =>
      match nth_error m_v index with
      | Some child => Some (mk_ptr (ptr_at p ++ [index]) child)
      | None => None
      end
    | Json_object m_map =>
      match nth_error m_map index with
      | Some (_, child) => Some (mk_ptr (ptr_at p ++ [index]) child)
      | None => None
      end
    | _ => None
    end
  end.

(** [Json_wrapper::lookup]: the wrapper is empty when the object has no
    such member. *)
Definition node_lookup (v : node_wrapper) (key : string) : node_wrapper :=
  match v with
  | None => None
  | Some p =>
    match ptr_dom p with
    | Json_object m_map =>
      match get m_map key with
      | Some child => Some (mk_ptr (ptr_at p ++ [map_find_index key m_map]) child)
      | None => None
      end
    | _ => None
    end
  end.

(** The wrapper that [seek_no_ellipsis] pushes for a hit in a DOM: a
    wrapper that owns a clone of the node. *)
Definition clone_wrapper (v : node_wrapper) : Json_wrapper :=
  Json_wrapper_of_dom (option_map ptr_dom v).

(** [Json_wrapper::seek] on a wrapper over a DOM, called with an empty
    vector of hits: the error flag and the hits. *)
Definition Json_wrapper_seek (w : Json_wrapper) (path : list Json_path_leg)
                             (auto_wrap only_need_one : bool)
  : bool * list Json_wrapper :=
  let hits : list Json_wrapper := [] in
  match m_dom_value w with
  | None => (false, hits)
  | Some m_dom_value =>
    if negb (contains_ellipsis path) then
      let (err, found) :=
        seek_no_ellipsis node_type node_field_type node_length node_element node_lookup
                         (Some (mk_ptr [] m_dom_value)) path [] 0 (length path)
                         auto_wrap only_need_one in
      (err, hits ++ map clone_wrapper found)
    else
      let dhits := Json_dom_seek m_dom_value path [] auto_wrap only_need_one in
      (false, hits ++ map (fun dom => Json_wrapper_of_dom (Some (ptr_dom dom))) dhits)
  end.

#[local] Abbreviation node_targets :=
  (leg_targets node_type node_field_type node_length node_element node_lookup).
#[local] Abbreviation node_hits :=
  (all_hits node_type node_field_type node_length node_element node_lookup).

Lemma node_binary_type (v : node_wrapper) :
  binary_type node_type node_field_type v = node_kind v.
Proof.
  unfold binary_type, node_type, node_field_type. destruct (node_kind v); reflexivity.
Qed.

Lemma node_binary_length (v : node_wrapper) :
  enum_json_type_eqb (node_kind v) J_ARRAY = true ->
  binary_length node_type node_length v = node_length v.
Proof.
  unfold binary_length, node_type. destruct (node_kind v); try discriminate. reflexivity.
Qed.

(** The bounds of a range lie within the array. *)
Lemma get_array_range_bound (leg : Json_path_leg) (array_length : nat) :
  (snd (get_array_range leg array_length) <= array_length)%nat.
Proof.
  unfold get_array_range, last_array_index, first_array_index, resolve_index.
  destruct (m_leg_type leg); cbn [snd position within_bounds]; try lia;
    destruct (Nat.ltb_spec (m_last_array_index leg) array_length);
    destruct (m_last_array_index_from_end leg); lia.
Qed.

(** *** What one leg leads to *)

Fixpoint cell_ptrs (this_at : list nat) (m_v : list Json_dom) (cells : list nat)
  : Json_dom_vector :=
  match cells with
  | [] => []
  | i :: more =>
    match nth_error m_v i with
    | Some child => mk_ptr (this_at ++ [i]) child :: cell_ptrs this_at m_v more
    | None => cell_ptrs this_at m_v more
    end
  end.

Fixpoint member_ptrs (this_at : list nat) (members : Json_object_map) (idx : nat)
  : Json_dom_vector :=
  match members with
  | [] => []
  | (_, child) :: more => mk_ptr (this_at ++ [idx]) child :: member_ptrs this_at more (S idx)
  end.

(** The nodes that one leg other than an ellipsis leads to from the
    node [p]. *)
Definition dom_targets (auto_wrap : bool) (path_leg : Json_path_leg) (p : dom_ptr)
  : Json_dom_vector :=
  if auto_wrap && negb (enum_json_type_eqb (json_type (ptr_dom p)) J_ARRAY) &&
     is_autowrap path_leg
  then [p]
  else
    match m_leg_type path_leg, ptr_dom p with
    | jpl_array_cell, Json_array m_v =>
      let idx := first_array_index path_leg (length m_v) in
      if within_bounds idx then cell_ptrs (ptr_at p) m_v [position idx] else []
    | (jpl_array_range | jpl_array_cell_wildcard), Json_array m_v =>
      let (m_begin, m_end) := get_array_range path_leg (length m_v) in
      cell_ptrs (ptr_at p) m_v (seq m_begin (m_end - m_begin))
    | jpl_member, Json_object m_map =>
      match get m_map (m_member_name path_leg) with
      | Some child =>
        [mk_ptr (ptr_at p ++ [map_find_index (m_member_name path_leg) m_map]) child]
      | None => []
      end
    | jpl_member_wildcard, Json_object m_map => member_ptrs (ptr_at p) m_map 0
    | _, _ => []
    end.

Lemma cell_ptrs_elements (p : dom_ptr) (m_v : list Json_dom) (cells : list nat) :
  ptr_dom p = Json_array m_v ->
  (forall i, In i cells -> (i < length m_v)%nat) ->
  map (node_element (Some p)) cells = map Some (cell_ptrs (ptr_at p) m_v cells).
Proof.
  intros Hdom. induction cells as [|i cells IH]; intros Hin; [reflexivity|].
  cbn [map cell_ptrs]. unfold node_element at 1. rewrite Hdom.
  destruct (nth_error m_v i) as [child|] eqn:Hchild.
  - cbn [map]. f_equal. apply IH. intros j Hj. apply Hin. right. exact Hj.
  - apply nth_error_None in Hchild. specialize (Hin i (or_introl eq_refl)). lia.
Qed.

Lemma member_ptrs_elements (p : dom_ptr) (m_map : Json_object_map) :
  ptr_dom p = Json_object m_map ->
  forall members idx,
    skipn idx m_map = members ->
    map (node_element (Some p)) (seq idx (length members)) =
    map Some (member_ptrs (ptr_at p) members idx).
Proof.
  intros Hdom. induction members as [|[key child] members IH]; intros idx Hskip;
    [reflexivity|].
  cbn [length seq map member_ptrs]. unfold node_element at 1. rewrite Hdom.
  assert (Hchild : nth_error m_map idx = Some (key, child)).
  { rewrite <- (Nat.add_0_r idx), <- nth_error_skipn, Hskip. reflexivity. }
  rewrite Hchild. f_equal. apply IH.
  replace (S idx) with (idx + 1)%nat by lia. rewrite <- drop_drop, Hskip. reflexivity.
Qed.

Lemma targets_agree (auto_wrap : bool) (path_leg : Json_path_leg) (p : dom_ptr) :
  node_targets auto_wrap path_leg (Some p) = map Some (dom_targets auto_wrap path_leg p).
Proof.
  unfold leg_targets, dom_targets. cbv zeta. rewrite node_binary_type.
  cbn [node_kind].
  destruct (auto_wrap && negb _ && is_autowrap path_leg); [reflexivity|].
  destruct p as [this_at this]. cbn [ptr_dom ptr_at].
  destruct (m_leg_type path_leg) eqn:Hleg.
  - (* member *)
    destruct this; try reflexivity;
      try (cbn [json_type];
           repeat (match goal with |- context [if ?c then _ else _] => destruct c end);
           reflexivity).
    cbn [json_type]. rewrite node_binary_type. unfold node_lookup. cbn [ptr_dom ptr_at].
    destruct (get m_map (m_member_name path_leg)) as [child|]; [|reflexivity].
    cbn [node_kind ptr_dom].
    destruct (enum_json_type_eqb (json_type child) J_ERROR) eqn:Herr; [|reflexivity].
    exfalso. destruct child; cbn [json_type] in Herr; try discriminate Herr.
    repeat (match type of Herr with context [if ?c then _ else _] => destruct c end);
      discriminate Herr.
  - (* array cell *)
    destruct (enum_json_type_eqb (json_type this) J_ARRAY) eqn:Harray.
    + destruct (json_type_array this Harray) as [m_v ->].
      rewrite node_binary_length by reflexivity. cbn [node_length ptr_dom].
      destruct (within_bounds _) eqn:Hin; [|reflexivity].
      cbn [cell_ptrs]. unfold node_element. cbn [ptr_dom ptr_at].
      destruct (nth_error m_v _) as [child|] eqn:Hchild; [reflexivity|].
      apply nth_error_None in Hchild. unfold first_array_index, resolve_index in Hin, Hchild.
      cbn [within_bounds position] in Hin, Hchild. apply Nat.ltb_lt in Hin.
      destruct (m_first_array_index_from_end path_leg); [|lia].
      rewrite (proj2 (Nat.ltb_lt _ _) Hin) in Hchild. lia.
    + destruct this; try reflexivity. discriminate Harray.
  - (* array range *)
    destruct (enum_json_type_eqb (json_type this) J_ARRAY) eqn:Harray.
    + destruct (json_type_array this Harray) as [m_v ->].
      rewrite node_binary_length by reflexivity. cbn [node_length ptr_dom].
      pose proof (get_array_range_bound path_leg (length m_v)) as Hbound.
      destruct (get_array_range path_leg (length m_v)) as [m_begin m_end].
      cbn [snd] in Hbound.
      apply (cell_ptrs_elements (mk_ptr this_at (Json_array m_v)) m_v); [reflexivity|].
      intros i Hi. apply in_seq in Hi. lia.
    + destruct this; try reflexivity. discriminate Harray.
  - (* member wildcard *)
    destruct this; try reflexivity;
      try (cbn [json_type];
           repeat (match goal with |- context [if ?c then _ else _] => destruct c end);
           reflexivity).
    cbn [json_type node_length ptr_dom]. unfold cardinality.
    apply (member_ptrs_elements (mk_ptr this_at (Json_object m_map)) m_map);
      reflexivity.
  - (* cell wildcard *)
    destruct (enum_json_type_eqb (json_type this) J_ARRAY) eqn:Harray.
    + destruct (json_type_array this Harray) as [m_v ->].
      rewrite node_binary_length by reflexivity. cbn [node_length ptr_dom].
      pose proof (get_array_range_bound path_leg (length m_v)) as Hbound.
      destruct (get_array_range path_leg (length m_v)) as [m_begin m_end].
      cbn [snd] in Hbound.
      apply (cell_ptrs_elements (mk_ptr this_at (Json_array m_v)) m_v); [reflexivity|].
      intros i Hi. apply in_seq in Hi. lia.
    + destruct this; try reflexivity. discriminate Harray.
  - (* ellipsis *)
    destruct this; reflexivity.
Qed.

(** *** Places that are not above one another *)

Definition apart (a b : list nat) : Prop := forall k, a <> b ++ k /\ b <> a ++ k.

(** The place [t] is the place [h] or the place of a child of it. *)
Definition near (t h : list nat) : Prop := t = h \/ exists i, t = h ++ [i].

Fixpoint all_apart (places : list (list nat)) : Prop :=
  match places with
  | [] => True
  | a :: rest => (forall b, In b rest -> apart a b) /\ all_apart rest
  end.

Lemma apart_sym (a b : list nat) : apart a b -> apart b a.
Proof. intros H k. destruct (H k). split; assumption. Qed.

Lemma apart_neq (a b : list nat) : apart a b -> a <> b.
Proof. intros H. destruct (H []) as [Hab _]. rewrite app_nil_r in Hab. exact Hab. Qed.

Lemma comparable_prefixes (a : list nat) : forall b x y,
  a ++ x = b ++ y -> (exists k, a = b ++ k) \/ (exists k, b = a ++ k).
Proof.
  induction a as [|n a IH]; intros [|m b] x y Heq.
  - left. exists []. reflexivity.
  - right. exists (m :: b). reflexivity.
  - left. exists (n :: a). reflexivity.
  - cbn [app] in Heq. injection Heq as <- Heq.
    destruct (IH b x y Heq) as [[k ->]|[k ->]]; [left|right]; exists k; reflexivity.
Qed.

Lemma near_apart (h h' t t' : list nat) :
  apart h h' -> near t h -> near t' h' -> apart t t'.
Proof.
  intros Hapart Ht Ht'.
  assert (Hs : exists s, t = h ++ s)
    by (destruct Ht as [->|[i ->]]; [exists []; rewrite app_nil_r|eexists]; reflexivity).
  assert (Hs' : exists s, t' = h' ++ s)
    by (destruct Ht' as [->|[i ->]]; [exists []; rewrite app_nil_r|eexists]; reflexivity).
  destruct Hs as [s ->], Hs' as [s' ->]. intros k. split; intros Heq.
  - rewrite <- app_assoc in Heq.
    destruct (comparable_prefixes _ _ _ _ Heq) as [[k0 E]|[k0 E]];
      [apply (proj1 (Hapart k0) E)|apply (proj2 (Hapart k0) E)].
  - rewrite <- app_assoc in Heq.
    destruct (comparable_prefixes _ _ _ _ Heq) as [[k0 E]|[k0 E]];
      [apply (proj2 (Hapart k0) E)|apply (proj1 (Hapart k0) E)].
Qed.

Lemma children_apart (h : list nat) (i j : nat) : i <> j -> apart (h ++ [i]) (h ++ [j]).
Proof.
  intros Hij k. split; intros Heq; rewrite <- app_assoc in Heq;
    apply app_inv_head in Heq; cbn [app] in Heq; congruence.
Qed.

Lemma all_apart_app (l1 l2 : list (list nat)) :
  all_apart l1 -> all_apart l2 -> (forall a b, In a l1 -> In b l2 -> apart a b) ->
  all_apart (l1 ++ l2).
Proof.
  induction l1 as [|a l1 IH]; intros H1 H2 Hcross; [exact H2|].
  cbn [app all_apart] in *. destruct H1 as [Ha H1]. split.
  - intros b Hb. apply in_app_iff in Hb. destruct Hb as [Hb|Hb];
      [apply Ha; exact Hb|apply Hcross; [left; reflexivity|exact Hb]].
  - apply IH; [exact H1|exact H2|]. intros x y Hx Hy. apply Hcross; [right|]; assumption.
Qed.

Lemma all_apart_NoDup (places : list (list nat)) : all_apart places -> List.NoDup places.
Proof.
  induction places as [|a rest IH]; intros H; constructor.
  - intros Hin. apply (apart_neq a a); [|reflexivity]. apply (proj1 H). exact Hin.
  - apply IH. apply H.
Qed.

Lemma cell_ptrs_places (this_at : list nat) (m_v : list Json_dom) (cells : list nat)
                       (t : dom_ptr) :
  In t (cell_ptrs this_at m_v cells) -> exists i, In i cells /\ ptr_at t = this_at ++ [i].
Proof.
  induction cells as [|i cells IH]; cbn [cell_ptrs]; [intros []|].
  destruct (nth_error m_v i) as [child|].
  - intros [<-|Hin]; [exists i; split; [left|]; reflexivity|].
    destruct (IH Hin) as (j & Hj & Hp). exists j. split; [right; exact Hj|exact Hp].
  - intros Hin. destruct (IH Hin) as (j & Hj & Hp). exists j. split; [right; exact Hj|exact Hp].
Qed.

Lemma cell_ptrs_apart (this_at : list nat) (m_v : list Json_dom) (cells : list nat) :
  List.NoDup cells -> all_apart (map ptr_at (cell_ptrs this_at m_v cells)).
Proof.
  induction 1 as [|i cells Hfresh Hnodup IH]; cbn [cell_ptrs]; [exact I|].
  destruct (nth_error m_v i) as [child|]; [|exact IH]. cbn [map all_apart ptr_at]. split; [|exact IH].
  intros b Hb. apply in_map_iff in Hb. destruct Hb as (t & <- & Ht).
  destruct (cell_ptrs_places _ _ _ _ Ht) as (j & Hj & ->).
  apply children_apart. intros ->. contradiction.
Qed.

Lemma member_ptrs_places (this_at : list nat) (members : Json_object_map) (t : dom_ptr) :
  forall idx, In t (member_ptrs this_at members idx) ->
              exists i, (idx <= i)%nat /\ ptr_at t = this_at ++ [i].
Proof.
  induction members as [|[key child] members IH]; intros idx; cbn [member_ptrs];
    [intros []|].
  intros [<-|Hin]; [exists idx; split; [lia|reflexivity]|].
  destruct (IH (S idx) Hin) as (j & Hj & Hp). exists j. split; [lia|exact Hp].
Qed.

Lemma member_ptrs_apart (this_at : list nat) (members : Json_object_map) :
  forall idx, all_apart (map ptr_at (member_ptrs this_at members idx)).
Proof.
  induction members as [|[key child] members IH]; intros idx; cbn [member_ptrs];
    [exact I|].
  cbn [map all_apart ptr_at]. split; [|apply IH].
  intros b Hb. apply in_map_iff in Hb. destruct Hb as (t & <- & Ht).
  destruct (member_ptrs_places _ _ _ _ Ht) as (j & Hj & ->).
  apply children_apart. lia.
Qed.

Lemma dom_targets_near (auto_wrap : bool) (path_leg : Json_path_leg) (p t : dom_ptr) :
  In t (dom_targets auto_wrap path_leg p) -> near (ptr_at t) (ptr_at p).
Proof.
  unfold dom_targets.
  destruct (auto_wrap && negb _ && is_autowrap path_leg);
    [intros [<-|[]]; left; reflexivity|].
  destruct (m_leg_type path_leg), (ptr_dom p); try (intros []).
  - destruct (get _ _); [|intros []]. intros [<-|[]]. right. eexists. reflexivity.
  - destruct (within_bounds _); [|intros []]. intros Hin.
    destruct (cell_ptrs_places _ _ _ _ Hin) as (i & _ & ->). right. eexists. reflexivity.
  - destruct (get_array_range _ _). intros Hin.
    destruct (cell_ptrs_places _ _ _ _ Hin) as (i & _ & ->). right. eexists. reflexivity.
  - intros Hin.
    destruct (member_ptrs_places _ _ _ _ Hin) as (i & _ & ->). right. eexists. reflexivity.
  - destruct (get_array_range _ _). intros Hin.
    destruct (cell_ptrs_places _ _ _ _ Hin) as (i & _ & ->). right. eexists. reflexivity.
Qed.

Lemma dom_targets_apart (auto_wrap : bool) (path_leg : Json_path_leg) (p : dom_ptr) :
  all_apart (map ptr_at (dom_targets auto_wrap path_leg p)).
Proof.
  unfold dom_targets.
  destruct (auto_wrap && negb _ && is_autowrap path_leg);
    [split; [intros b []|exact I]|].
  destruct (m_leg_type path_leg), (ptr_dom p); try exact I.
  - destruct (get _ _); [|exact I]. split; [intros b []|exact I].
  - destruct (within_bounds _); [|exact I]. apply cell_ptrs_apart.
    constructor; [intros []|constructor].
  - destruct (get_array_range _ _). apply cell_ptrs_apart. apply seq_NoDup.
  - apply member_ptrs_apart.
  - destruct (get_array_range _ _). apply cell_ptrs_apart. apply seq_NoDup.
Qed.

Lemma flat_targets_apart (auto_wrap : bool) (path_leg : Json_path_leg)
                         (hits : Json_dom_vector) :
  all_apart (map ptr_at hits) ->
  all_apart (map ptr_at (flat_map (dom_targets auto_wrap path_leg) hits)).
Proof.
  induction hits as [|h hits IH]; intros Hapart; [exact I|].
  cbn [flat_map map all_apart] in *. destruct Hapart as [Hh Hrest].
  rewrite map_app. apply all_apart_app.
  - apply dom_targets_apart.
  - apply IH. exact Hrest.
  - intros a b Ha Hb. apply in_map_iff in Ha, Hb.
    destruct Ha as (t & <- & Ht), Hb as (t' & <- & Ht').
    apply in_flat_map in Ht'. destruct Ht' as (h' & Hh' & Ht').
    apply (near_apart (ptr_at h) (ptr_at h')).
    + apply Hh. apply in_map. exact Hh'.
    + apply (dom_targets_near _ _ _ _ Ht).
    + apply (dom_targets_near _ _ _ _ Ht').
Qed.

(** *** The search of a leg without duplicates in sight *)

(** Adding each of [new] unless it is a duplicate. *)
Definition add_all (new : Json_dom_vector) (st : Json_dom_vector * Json_dom_vector)
  : Json_dom_vector * Json_dom_vector :=
  fold_left (fun st t => add_if_missing t (fst st) (snd st)) new st.

Lemma add_all_fresh (new : Json_dom_vector) : forall seen,
  List.NoDup (map ptr_at new) ->
  (forall t, In t new -> ~ In (ptr_at t) (map ptr_at seen)) ->
  add_all new (seen, seen) = (seen ++ new, seen ++ new).
Proof.
  induction new as [|t new IH]; intros seen Hnodup Hfresh.
  - cbn. rewrite app_nil_r. reflexivity.
  - unfold add_all. cbn [fold_left fst snd]. unfold add_if_missing.
    destruct (existsb (same_ptr t) seen) eqn:Hseen.
    + apply seen_iff in Hseen. destruct (Hfresh t (or_introl eq_refl) Hseen).
    + fold (add_all new (seen ++ [t], seen ++ [t])).
      cbn [map] in Hnodup. apply List.NoDup_cons_iff in Hnodup. destruct Hnodup as [Ht Hnodup].
      rewrite IH; [rewrite <- !app_assoc; reflexivity|exact Hnodup|].
      intros t' Ht' Hin. rewrite map_app, in_app_iff in Hin. destruct Hin as [Hin|[Heq|[]]].
      * apply (Hfresh t' (or_intror Ht') Hin).
      * apply Ht. cbn [map] in Heq. rewrite Heq. apply in_map. exact Ht'.
Qed.

Lemma add_cells_all (this_at : list nat) (m_v : list Json_dom) (cells : list nat) :
  forall duplicates result,
    add_cells this_at m_v false cells duplicates result =
    add_all (cell_ptrs this_at m_v cells) (duplicates, result).
Proof.
  induction cells as [|i cells IH]; intros duplicates result; [reflexivity|].
  cbn [add_cells cell_ptrs]. destruct (nth_error m_v i) as [child|].
  - unfold add_all. cbn [fold_left fst snd].
    destruct (add_if_missing _ duplicates result) as [d r].
    unfold is_seek_done. cbn [andb]. apply IH.
  - unfold is_seek_done. cbn [andb]. apply IH.
Qed.

Lemma add_members_all (this_at : list nat) (members : Json_object_map) :
  forall idx duplicates result,
    add_members this_at false members idx duplicates result =
    add_all (member_ptrs this_at members idx) (duplicates, result).
Proof.
  induction members as [|[key child] members IH]; intros idx duplicates result;
    [reflexivity|].
  cbn [add_members member_ptrs]. unfold add_all. cbn [fold_left fst snd].
  destruct (add_if_missing _ duplicates result) as [d r].
  unfold is_seek_done. cbn [andb]. apply IH.
Qed.

Lemma find_child_doms_all (auto_wrap : bool) (path_leg : Json_path_leg) (p : dom_ptr)
                          (duplicates result : Json_dom_vector) :
  m_leg_type path_leg <> jpl_ellipsis ->
  ~ In (ptr_at p) (map ptr_at result) ->
  find_child_doms (ptr_dom p) (ptr_at p) path_leg auto_wrap false duplicates result =
  add_all (dom_targets auto_wrap path_leg p) (duplicates, result).
Proof.
  intros Hleg Hunseen. unfold dom_targets. destruct p as [this_at this].
  cbn [ptr_at ptr_dom] in *.
  assert (Hseen : seen_already result (mk_ptr this_at this) = false).
  { unfold seen_already. destruct (existsb _ result) eqn:E; [|reflexivity].
    apply seen_iff in E. contradiction. }
  destruct this; cbn [find_child_doms]; unfold is_seek_done; cbn [andb];
    rewrite Hseen; cbn [negb];
    (destruct (auto_wrap && negb _ && is_autowrap path_leg); [reflexivity|]);
    destruct (m_leg_type path_leg); try reflexivity; try contradiction.
  - destruct (within_bounds _); [|reflexivity]. cbn [cell_ptrs].
    destruct (nth_error _ _); reflexivity.
  - destruct (get_array_range _ _). apply add_cells_all.
  - destruct (get_array_range _ _). apply add_cells_all.
  - destruct (get _ _); reflexivity.
  - apply add_members_all.
Qed.

Lemma find_children_all (auto_wrap : bool) (path_leg : Json_path_leg) :
  m_leg_type path_leg <> jpl_ellipsis ->
  forall hits seen,
    all_apart (map ptr_at hits) ->
    (forall t, In t seen ->
               exists h', near (ptr_at t) h' /\
                          forall h, In h hits -> apart h' (ptr_at h)) ->
    fold_left (fun st it =>
                 find_child_doms (ptr_dom it) (ptr_at it) path_leg auto_wrap false
                                 (fst st) (snd st))
              hits (seen, seen) =
    (seen ++ flat_map (dom_targets auto_wrap path_leg) hits,
     seen ++ flat_map (dom_targets auto_wrap path_leg) hits).
Proof.
  intros Hleg. induction hits as [|h hits IH]; intros seen Hapart Hseen.
  - cbn. rewrite app_nil_r. reflexivity.
  - cbn [fold_left fst snd flat_map]. cbn [map all_apart] in Hapart.
    destruct Hapart as [Hh Hrest].
    assert (Hfresh : forall t, near (ptr_at t) (ptr_at h) ->
                               ~ In (ptr_at t) (map ptr_at seen)).
    { intros t Ht Hin. apply in_map_iff in Hin. destruct Hin as (t' & Heq & Hin).
      destruct (Hseen t' Hin) as (h' & Hnear & Hall).
      apply (apart_neq (ptr_at t') (ptr_at t)); [|exact Heq].
      apply (near_apart h' (ptr_at h)); [|exact Hnear|exact Ht].
      apply Hall. left. reflexivity. }
    rewrite find_child_doms_all; [|exact Hleg|apply Hfresh; left; reflexivity].
    rewrite add_all_fresh.
    + rewrite IH; [rewrite <- !app_assoc; reflexivity|exact Hrest|].
      intros t Ht. apply in_app_iff in Ht. destruct Ht as [Ht|Ht].
      * destruct (Hseen t Ht) as (h' & Hnear & Hall). exists h'. split; [exact Hnear|].
        intros h0 Hh0. apply Hall. right. exact Hh0.
      * exists (ptr_at h). split; [apply (dom_targets_near _ _ _ _ Ht)|].
        intros h0 Hh0. apply Hh. apply in_map. exact Hh0.
    + apply all_apart_NoDup. apply dom_targets_apart.
    + intros t Ht. apply Hfresh. apply (dom_targets_near _ _ _ _ Ht).
Qed.

(** The search for all matches, leg by leg, finds what the search of
    the wrapper finds value by value. *)
Lemma seek_from_all (path_leg_count : nat) (auto_wrap : bool) (legs : list Json_path_leg) :
  contains_ellipsis legs = false ->
  forall path_idx hits,
    all_apart (map ptr_at hits) ->
    flat_map (node_hits auto_wrap legs) (map Some hits) =
    map Some (seek_from path_leg_count auto_wrap false legs path_idx hits).
Proof.
  induction legs as [|leg legs IH]; intros Hfree path_idx hits Hapart.
  - cbn [seek_from]. induction hits as [|h hits IHh]; [reflexivity|].
    cbn [map flat_map]. cbn [map all_apart] in Hapart. rewrite IHh by apply Hapart.
    reflexivity.
  - assert (Hfree' := Hfree). cbn [contains_ellipsis existsb] in Hfree'.
    apply orb_false_iff in Hfree'. destruct Hfree' as [Hleg Hrest].
    assert (Hleg' : m_leg_type leg <> jpl_ellipsis)
      by (intros E; rewrite E in Hleg; discriminate).
    cbn [seek_from andb]. unfold find_children.
    rewrite (find_children_all auto_wrap leg Hleg' hits [] Hapart) by (intros t []).
    cbn [app]. rewrite <- (IH Hrest) by (apply flat_targets_apart; exact Hapart).
    rewrite flat_map_map.
    clear Hapart. induction hits as [|h hits IHh]; [reflexivity|].
    cbn [flat_map map]. rewrite IHh, map_app, flat_map_app.
    rewrite (all_hits_cons _ _ _ _ _ auto_wrap leg legs (Some h) Hfree), targets_agree.
    reflexivity.
Qed.

(** X20: for a wrapper over a DOM, [Json_wrapper::seek] never fails and
    returns, for every path, clones of exactly the nodes that
    [Json_dom::seek] finds, in the same order: the fast track for paths
    without ellipsis finds what the general search finds. *)
Theorem Json_wrapper_seek_finds_dom_hits
    (dom : Json_dom) (path : list Json_path_leg) (auto_wrap only_need_one : bool) :
  Json_wrapper_seek (Json_wrapper_of_dom (Some dom)) path auto_wrap only_need_one =
  (false,
   map (fun hit => Json_wrapper_of_dom (Some (ptr_dom hit)))
       (Json_dom_seek dom path [] auto_wrap only_need_one)).
Proof.
  unfold Json_wrapper_seek. cbn [m_dom_value Json_wrapper_of_dom app].
  destruct (contains_ellipsis path) eqn:Hfree; [reflexivity|]. cbn [negb].
  assert (Hall : node_hits auto_wrap path (Some (mk_ptr [] dom)) =
                 map Some (Json_dom_seek dom path [] auto_wrap false)).
  { unfold Json_dom_seek. cbn [app].
    rewrite <- (seek_from_all (length path) auto_wrap path Hfree 0 [mk_ptr [] dom])
      by (split; [intros b []|exact I]).
    cbn [map flat_map]. rewrite app_nil_r. reflexivity. }
  unfold seek_no_ellipsis. rewrite Nat.sub_0_r, drop_0, firstn_all.
  destruct only_need_one.
  - rewrite seek_first_hit by exact Hfree. rewrite Hall.
    assert (Hlast : forall leg, nth_error path (length path - 1) = Some leg ->
                                m_leg_type leg <> jpl_ellipsis).
    { intros leg Hleg E. apply nth_error_In in Hleg. unfold contains_ellipsis in Hfree.
      assert (Hex : existsb (fun l => match m_leg_type l with jpl_ellipsis => true
                                                         | _ => false end) path = true).
      { apply existsb_exists. exists leg. split; [exact Hleg|]. rewrite E. reflexivity. }
      congruence. }
    assert (Hfirst : Json_dom_seek dom path [] auto_wrap true =
                     firstn 1 (Json_dom_seek dom path [] auto_wrap false)).
    { unfold Json_dom_seek. cbn [app]. destruct path as [|leg0 path]; [reflexivity|].
      apply seek_from_first; [discriminate|reflexivity|exact Hlast]. }
    rewrite Hfirst, <- !firstn_map, map_map. reflexivity.
  - rewrite seek_all_accumulates by exact Hfree. cbn [app]. rewrite Hall, map_map.
    reflexivity.
Qed.

End Seek_of_a_dom_wrapper.

(** ** Numbers are ordered by their values *)

(** Settle a comparison of rationals by a strict inequality. *)
Ltac below_by H :=
  match goal with
  | |- context [(?x ?= ?y)%Q] =>
    replace (x ?= y)%Q with Lt by (symmetry; apply Qlt_alt; exact H)
  end.

Ltac above_by H :=
  match goal with
  | |- context [(?x ?= ?y)%Q] =>
    replace (x ?= y)%Q with Gt by (symmetry; apply Qgt_alt; exact H)
  end.

Section Numbers_by_value.
Context `{DL : Decimal_library} {LAWS : @Decimal_laws DL}.

(** The numbers that [compare] compares without rounding: integers in
    the range of their kind and decimals. *)
Definition exact_number (d : Json_dom) : bool :=
  match d with
  | Json_int _ | Json_decimal _ => true
  | Json_uint u => 0 <=? u
  | _ => false
  end.

(** The rational that a number denotes. *)
Definition number_value (d : Json_dom) : Q :=
  match d with
  | Json_int i => inject_Z i
  | Json_uint u => inject_Z u
  | Json_decimal m => dec_value m
  | Json_double f => double_value f
  | _ => 0
  end.

Lemma Qcompare_int (a b : Z) : (inject_Z a ?= inject_Z b)%Q = (a ?= b).
Proof. unfold Qcompare, inject_Z. cbn [Qnum Qden]. rewrite !Z.mul_1_r. reflexivity. Qed.

Lemma compare_numbers_Z_value (a b : Z) :
  compare_numbers a b = Z_of_comparison (a ?= b).
Proof.
  unfold compare_numbers. cbn [lt_op eq_op Comparable_Z].
  destruct (Z.ltb_spec a b) as [Hlt|Hge].
  - rewrite (proj2 (Z.compare_lt_iff a b) Hlt). reflexivity.
  - destruct (Z.eqb_spec a b) as [->|Hne].
    + rewrite Z.compare_refl. reflexivity.
    + rewrite (proj2 (Z.compare_gt_iff a b)) by lia. reflexivity.
Qed.

Lemma compare_json_int_uint_value (a b : Z) :
  0 <= b -> compare_json_int_uint a b = Z_of_comparison (a ?= b).
Proof.
  intros Hb. unfold compare_json_int_uint. destruct (Z.ltb_spec a 0) as [Hneg|Hpos].
  - rewrite (proj2 (Z.compare_lt_iff a b)) by lia. reflexivity.
  - apply compare_numbers_Z_value.
Qed.

Lemma Z_of_comparison_opp (c : comparison) : - Z_of_comparison c = Z_of_comparison (CompOpp c).
Proof. destruct c; reflexivity. Qed.

Lemma decimal_sign_cases (a : my_decimal) :
  my_decimal_is_zero a = false ->
  (dec_sign a = true /\ (dec_value a < 0)%Q) \/ (dec_sign a = false /\ (0 < dec_value a)%Q).
Proof.
  intros Hz. pose proof (dec_sign_spec a Hz) as Hsign.
  destruct (dec_sign a).
  - left. split; [reflexivity|]. apply Hsign. reflexivity.
  - right. split; [reflexivity|].
    destruct (Qlt_le_dec 0 (dec_value a)) as [Hpos|Hle]; [exact Hpos|].
    apply Qle_lt_or_eq in Hle. destruct Hle as [Hneg|Heq].
    + apply Hsign in Hneg. discriminate.
    + apply my_decimal_is_zero_spec in Heq. congruence.
Qed.

Lemma compare_json_decimal_int_value (a : my_decimal) (b : Z) :
  compare_json_decimal_int a b = Z_of_comparison (dec_value a ?= inject_Z b)%Q.
Proof.
  unfold compare_json_decimal_int. destruct (my_decimal_is_zero a) eqn:Hz.
  - apply my_decimal_is_zero_spec in Hz. rewrite Hz.
    change 0%Q with (inject_Z 0). rewrite Qcompare_int.
    destruct (Z.eqb_spec b 0) as [->|Hne]; [reflexivity|].
    destruct (Z.ltb_spec 0 b).
    + rewrite (proj2 (Z.compare_lt_iff 0 b)) by lia. reflexivity.
    + rewrite (proj2 (Z.compare_gt_iff 0 b)) by lia. reflexivity.
  - destruct (decimal_sign_cases a Hz) as [[Hsign Hneg]|[Hsign Hpos]]; rewrite Hsign.
    + destruct (Z.eqb_spec b 0) as [->|Hne].
      * below_by Hneg. reflexivity.
      * destruct (Z.ltb_spec b 0) as [Hb|Hb]; cbn [Bool.eqb negb].
        -- rewrite (my_decimal_cmp_exact a (longlong2decimal b)) by (rewrite Hz; reflexivity).
           rewrite (longlong2decimal_exact b). reflexivity.
        -- assert (Hlt : (dec_value a < inject_Z b)%Q).
           { apply (Qlt_trans _ 0); [exact Hneg|]. unfold Qlt, inject_Z. cbn. lia. }
           below_by Hlt. reflexivity.
    + destruct (Z.eqb_spec b 0) as [->|Hne].
      * above_by Hpos. reflexivity.
      * destruct (Z.ltb_spec b 0) as [Hb|Hb]; cbn [Bool.eqb negb].
        -- assert (Hgt : (inject_Z b < dec_value a)%Q).
           { apply (Qlt_trans _ 0); [|exact Hpos]. unfold Qlt, inject_Z. cbn. lia. }
           above_by Hgt. reflexivity.
        -- rewrite (my_decimal_cmp_exact a (longlong2decimal b)) by (rewrite Hz; reflexivity).
           rewrite (longlong2decimal_exact b). reflexivity.
Qed.

Lemma compare_json_decimal_uint_value (a : my_decimal) (b : Z) :
  0 <= b ->
  compare_json_decimal_uint a b = Z_of_comparison (dec_value a ?= inject_Z b)%Q.
Proof.
  intros Hb. unfold compare_json_decimal_uint. destruct (my_decimal_is_zero a) eqn:Hz.
  - apply my_decimal_is_zero_spec in Hz. rewrite Hz.
    change 0%Q with (inject_Z 0). rewrite Qcompare_int.
    destruct (Z.eqb_spec b 0) as [->|Hne]; [reflexivity|].
    rewrite (proj2 (Z.compare_lt_iff 0 b)) by lia. reflexivity.
  - destruct (decimal_sign_cases a Hz) as [[Hsign Hneg]|[Hsign Hpos]]; rewrite Hsign.
    + assert (Hlt : (dec_value a < inject_Z b)%Q).
      { apply (Qlt_le_trans _ 0); [exact Hneg|]. unfold Qle, inject_Z. cbn. lia. }
      below_by Hlt. reflexivity.
    + destruct (Z.eqb_spec b 0) as [->|Hne].
      * above_by Hpos. reflexivity.
      * rewrite (my_decimal_cmp_exact a (ulonglong2decimal b)) by (rewrite Hz; reflexivity).
        rewrite (ulonglong2decimal_exact b). reflexivity.
Qed.

Lemma compare_decimals_value (a b : my_decimal) :
  (if my_decimal_is_zero a && my_decimal_is_zero b then 0 else my_decimal_cmp a b) =
  Z_of_comparison (dec_value a ?= dec_value b)%Q.
Proof.
  destruct (my_decimal_is_zero a && my_decimal_is_zero b) eqn:Hz.
  - apply andb_true_iff in Hz. destruct Hz as [Ha Hb].
    apply my_decimal_is_zero_spec in Ha, Hb. rewrite Ha, Hb. reflexivity.
  - apply my_decimal_cmp_exact. exact Hz.
Qed.

(** X21: [compare] orders the numbers it compares without rounding
    (INT, UINT and DECIMAL values, of the same kind or not) by the
    rationals they denote, and so it orders two doubles. *)
Theorem compare_numbers_by_value (a b : Json_dom) :
  (exact_number a = true /\ exact_number b = true) \/
  (json_type a = J_DOUBLE /\ json_type b = J_DOUBLE) ->
  compare a b = Z_of_comparison (number_value a ?= number_value b)%Q.
Proof.
  intros [[Ha Hb]|[Ha Hb]].
  - destruct a as [ |?|i|u|?|m|?|? ?|? ?|?|?]; try discriminate Ha;
      destruct b as [ |?|i'|u'|?|m'|?|? ?|? ?|?|?]; try discriminate Hb;
      cbn [exact_number] in Ha, Hb; cbn [number_value];
      rewrite ?Z.leb_le in *.
    + cbn. rewrite Qcompare_int. apply compare_numbers_Z_value.
    + cbn. rewrite Qcompare_int. apply compare_json_int_uint_value. exact Hb.
    + cbn. rewrite compare_json_decimal_int_value, Z_of_comparison_opp, Qcompare_antisym.
      reflexivity.
    + cbn. rewrite Qcompare_int, compare_json_int_uint_value by exact Ha.
      rewrite Z_of_comparison_opp, <- Z.compare_antisym. reflexivity.
    + cbn. rewrite Qcompare_int. apply compare_numbers_Z_value.
    + cbn. rewrite compare_json_decimal_uint_value by exact Ha.
      rewrite Z_of_comparison_opp, Qcompare_antisym. reflexivity.
    + cbn. apply compare_json_decimal_int_value.
    + cbn. apply compare_json_decimal_uint_value. exact Hb.
    + cbn. apply compare_decimals_value.
  - destruct a as [ |?|?|?|f|?|?|? ?|t ft|?|?]; try discriminate Ha;
      [|cbn [json_type] in Ha;
        repeat (match type of Ha with context [if ?c then _ else _] => destruct c end);
        discriminate Ha].
    destruct b as [ |?|?|?|f'|?|?|? ?|t' ft'|?|?]; try discriminate Hb;
      [|cbn [json_type] in Hb;
        repeat (match type of Hb with context [if ?c then _ else _] => destruct c end);
        discriminate Hb].
    cbn. unfold compare_numbers. cbn [lt_op eq_op Comparable_double number_value].
    unfold double_value, Qcompare. cbn [Qnum Qden].
    rewrite <- Zmult_compare_compat_r by reflexivity.
    destruct (Z.ltb_spec (d_scaled f) (d_scaled f')) as [Hlt|Hge].
    + rewrite (proj2 (Z.compare_lt_iff _ _) Hlt). reflexivity.
    + destruct (Z.eqb_spec (d_scaled f) (d_scaled f')) as [->|Hne].
      * rewrite Z.compare_refl. reflexivity.
      * rewrite (proj2 (Z.compare_gt_iff _ _)) by lia. reflexivity.
Qed.

End Numbers_by_value.

Definition decimal_4 : @Json_dom Integer_decimals := Json_decimal (4 : @my_decimal Integer_decimals).

Lemma compare_numbers_by_value_witness :
  compare (Json_uint 3) decimal_4 = -1.
Proof.
  rewrite (@compare_numbers_by_value Integer_decimals Integer_decimals_laws
             (Json_uint 3) decimal_4 (or_introl (conj eq_refl eq_refl))).
  reflexivity.
Defined.

(** ** A double against an integer *)

Section Double_against_integer.
Context `{DL : Decimal_library} {LAWS : @Decimal_laws DL}.

(** Rounding a magnitude that needs more than 53 bits: it lies between
    two neighbouring multiples of 2^k, the lower one with 53 bits, and is
    rounded to one of them, to itself when it is one. *)
Lemma round_to_double_neighbours (n : Z) :
  0 < Z.log2 n - 52 ->
  let k := Z.log2 n - 52 in
  exists q r,
    n = q * 2 ^ k + r /\ 0 <= r < 2 ^ k /\ 2 ^ 52 <= q /\
    ((r = 0 /\ round_to_double n = n) \/
     (0 < r /\ (round_to_double n = q * 2 ^ k \/ round_to_double n = (q + 1) * 2 ^ k))).
Proof.
  intros Hk k. subst k.
  assert (Hn : 0 < n).
  { destruct (Z.lt_ge_cases 0 n) as [H|H]; [exact H|].
    rewrite (Z.log2_nonpos n H) in Hk. lia. }
  set (k := Z.log2 n - 52) in *.
  assert (Hpow : 0 < 2 ^ k) by (apply Z.pow_pos_nonneg; lia).
  pose proof (Z.log2_spec n Hn) as [Hlow Hhigh].
  exists (n / 2 ^ k), (n mod 2 ^ k).
  pose proof (Z.div_mod n (2 ^ k) ltac:(lia)) as Hdm.
  pose proof (Z.mod_pos_bound n (2 ^ k) Hpow) as Hr.
  split; [lia|]. split; [exact Hr|]. split.
  - apply Z.div_le_lower_bound; [exact Hpow|].
    rewrite <- Z.pow_add_r by lia. replace (k + 52) with (Z.log2 n) by (subst k; lia).
    exact Hlow.
  - destruct (Z.eq_dec (n mod 2 ^ k) 0) as [Hzero|Hpos].
    + left. split; [exact Hzero|]. apply round_to_double_exact.
      fold k. rewrite Hzero, Z.eqb_refl. apply orb_true_r.
    + right. split; [lia|]. unfold round_to_double. fold k.
      destruct (Z.leb_spec k 0); [lia|].
      destruct (_ || _); [right|left]; reflexivity.
Qed.

Lemma round_to_double_small (n : Z) : Z.log2 n - 52 <= 0 -> round_to_double n = n.
Proof.
  intros Hk. unfold round_to_double. destruct (Z.leb_spec (Z.log2 n - 52) 0); [reflexivity|lia].
Qed.

(** The magnitude of a double is a multiple of 2^k as soon as it has at
    least 53 + k bits. *)
Lemma double_magnitude_multiple (a : double) (k : Z) :
  is_double a = true -> 0 < k -> k <= Z.log2 (d_mag a) - 52 ->
  exists m, d_mag a = m * 2 ^ k.
Proof.
  unfold is_double. rewrite !andb_true_iff. intros [_ Hfit] Hk Hle. cbv zeta in Hfit.
  apply orb_true_iff in Hfit. destruct Hfit as [Hfit|Hfit]; [apply Z.leb_le in Hfit; lia|].
  apply Z.eqb_eq in Hfit.
  pose proof (Z.div_mod (d_mag a) (2 ^ (Z.log2 (d_mag a) - 52))
                        ltac:(apply Z.pow_nonzero; lia)) as Hdm.
  exists (d_mag a / 2 ^ (Z.log2 (d_mag a) - 52) * 2 ^ (Z.log2 (d_mag a) - 52 - k)).
  rewrite <- Z.mul_assoc, <- Z.pow_add_r by lia.
  replace (Z.log2 (d_mag a) - 52 - k + k) with (Z.log2 (d_mag a) - 52) by lia. lia.
Qed.

(** No double lies strictly between a magnitude and the double it is
    rounded to. *)
Lemma no_double_between (a : double) (n : Z) :
  is_double a = true -> 0 <= n ->
  (n <= d_mag a -> round_to_double n <= d_mag a) /\
  (d_mag a <= n -> d_mag a <= round_to_double n).
Proof.
  intros Ha Hn.
  destruct (Z.le_gt_cases (Z.log2 n - 52) 0) as [Hsmall|Hk].
  { rewrite (round_to_double_small n Hsmall). split; intros H; exact H. }
  destruct (round_to_double_neighbours n Hk) as (q & r & Hsplit & Hr & Hq & Hround).
  cbv zeta in *. set (k := Z.log2 n - 52) in *.
  assert (Hpow : 0 < 2 ^ k) by (apply Z.pow_pos_nonneg; lia).
  assert (Hnpos : 0 < n) by nia.
  split.
  - intros Hle.
    assert (Hlog : Z.log2 n <= Z.log2 (d_mag a)) by (apply Z.log2_le_mono; exact Hle).
    destruct (double_magnitude_multiple a k Ha Hk ltac:(lia)) as [m Hm].
    destruct Hround as [[Hzero ->]|[Hpos [-> | ->]]]; [exact Hle|nia|].
    assert (q < m) by nia. nia.
  - intros Hle.
    assert (Hbelow : q * 2 ^ k <= round_to_double n)
      by (destruct Hround as [[Hzero ->]|[Hpos [-> | ->]]]; nia).
    destruct (Z.le_gt_cases (d_mag a) 0) as [Hzero|Hmpos]; [nia|].
    assert (Hlog : Z.log2 (d_mag a) <= Z.log2 n) by (apply Z.log2_le_mono; exact Hle).
    destruct (Z.eq_dec (Z.log2 (d_mag a)) (Z.log2 n)) as [Heq|Hne].
    + destruct (double_magnitude_multiple a k Ha Hk ltac:(lia)) as [m Hm].
      assert (m <= q) by nia. nia.
    + pose proof (Z.log2_spec (d_mag a) Hmpos) as [_ Hhigh].
      assert (Hstep : 2 ^ Z.succ (Z.log2 (d_mag a)) <= 2 ^ Z.log2 n)
        by (apply Z.pow_le_mono_r; lia).
      assert (Hq2 : 2 ^ Z.log2 n = 2 ^ 52 * 2 ^ k).
      { rewrite <- Z.pow_add_r by lia. f_equal. subst k. lia. }
      nia.
Qed.

(** The double nearest to an integer is an integer. *)
Lemma round_to_double_integer (n : Z) :
  0 <= n -> exists c, round_to_double (n * 2 ^ 1074) = c * 2 ^ 1074.
Proof.
  intros Hn.
  destruct (Z.le_gt_cases (Z.log2 (n * 2 ^ 1074) - 52) 0) as [Hsmall|Hk].
  { exists n. apply round_to_double_small. exact Hsmall. }
  destruct (Z.le_gt_cases 1074 (Z.log2 (n * 2 ^ 1074) - 52)) as [Hbig|Hmid].
  - unfold round_to_double.
    destruct (Z.leb_spec (Z.log2 (n * 2 ^ 1074) - 52) 0); [lia|].
    set (k := Z.log2 (n * 2 ^ 1074) - 52) in *.
    match goal with |- exists c, ?q' * 2 ^ k = _ => exists (q' * 2 ^ (k - 1074)) end.
    rewrite <- Z.mul_assoc, <- Z.pow_add_r by lia. f_equal. f_equal. lia.
  - exists n. apply round_to_double_exact.
    set (k := Z.log2 (n * 2 ^ 1074) - 52) in *.
    replace (2 ^ 1074) with (2 ^ (1074 - k) * 2 ^ k)
      by (rewrite <- Z.pow_add_r by lia; f_equal; lia).
    rewrite Z.mul_assoc, Z.mod_mul by (apply Z.pow_nonzero; lia).
    rewrite Z.eqb_refl. apply orb_true_r.
Qed.

Lemma Qcompare_double_int (a : double) (b : Z) :
  (double_value a ?= inject_Z b)%Q = (d_scaled a ?= b * 2 ^ 1074).
Proof.
  unfold Qcompare, double_value, inject_Z. cbn [Qnum Qden].
  rewrite Z.mul_1_r, two_pow_1074. reflexivity.
Qed.

(** [compare_json_decimal_double] is exact when the double has a decimal
    of equal value. *)
Lemma compare_json_decimal_double_value (x y : my_decimal) (a : double) :
  (dec_value y == double_value a)%Q ->
  compare_json_decimal_double x a = Z_of_comparison (dec_value x ?= double_value a)%Q.
Proof.
  intros Hy. unfold compare_json_decimal_double. cbn [lt_op eq_op Comparable_double].
  change (d_scaled double_zero) with 0.
  assert (Hneg : d_scaled a < 0 -> (double_value a < 0)%Q)
    by (apply double_value_negative).
  assert (Hpos : 0 < d_scaled a -> (0 < double_value a)%Q)
    by (intros H; unfold double_value, Qlt; cbn [Qnum Qden]; lia).
  assert (Hzero : d_scaled a = 0 -> (double_value a == 0)%Q)
    by (apply double_value_zero).
  assert (Hexact : my_decimal_is_zero x = false ->
                   (let (code, b_dec) := double2decimal a in
                    match code with
                    | E_DEC_OK => my_decimal_cmp x b_dec
                    | E_DEC_OVERFLOW => if dec_sign x then 1 else -1
                    | E_DEC_TRUNCATED =>
                      let cmp := my_decimal_cmp x b_dec in
                      if cmp =? 0 then (if dec_sign x then 1 else -1) else cmp
                    | E_DEC_OTHER => 1
                    end) = Z_of_comparison (dec_value x ?= double_value a)%Q).
  { intros Hz. pose proof (double2decimal_complete a y Hy) as Hcode.
    pose proof (double2decimal_ok a) as Hok.
    destruct (double2decimal a) as [code b_dec]. cbn [fst snd] in *. subst code.
    rewrite my_decimal_cmp_exact by (rewrite Hz; reflexivity).
    rewrite (Hok eq_refl). reflexivity. }
  destruct (my_decimal_is_zero x) eqn:Hz.
  - apply my_decimal_is_zero_spec in Hz. rewrite Hz, andb_false_r. cbn [negb Bool.eqb].
    destruct (Z.ltb_spec (d_scaled a) 0) as [Ha|Ha]; cbn [negb].
    + above_by (Hneg Ha). reflexivity.
    + destruct (Z.eqb_spec (d_scaled a) 0) as [E|N].
      * rewrite (Hzero E). reflexivity.
      * below_by (Hpos ltac:(lia)). reflexivity.
  - rewrite andb_true_r. specialize (Hexact eq_refl).
    destruct (decimal_sign_cases x Hz) as [[Hsign Hx]|[Hsign Hx]]; rewrite Hsign in *;
      destruct (Z.ltb_spec (d_scaled a) 0) as [Ha|Ha]; cbn [negb Bool.eqb].
    + destruct (Z.eqb_spec (d_scaled a) 0); [lia|]. exact Hexact.
    + assert (Hlt : (dec_value x < double_value a)%Q).
      { apply (Qlt_le_trans _ 0); [exact Hx|].
        unfold double_value, Qle. cbn [Qnum Qden]. lia. }
      below_by Hlt. reflexivity.
    + assert (Hgt : (double_value a < dec_value x)%Q)
        by (apply (Qlt_trans _ 0); [apply Hneg; exact Ha|exact Hx]).
      above_by Hgt. reflexivity.
    + destruct (Z.eqb_spec (d_scaled a) 0) as [E|N]; [|exact Hexact].
      rewrite (Hzero E). above_by Hx. reflexivity.
Qed.

(** The comparison of a double with the double nearest to an integer
    decides the comparison with the integer, unless the two doubles are
    equal. *)
Lemma double_against_nearest (a : double) (b : Z) :
  is_double a = true ->
  (d_scaled a < d_scaled (double_of_int b) -> d_scaled a < b * 2 ^ 1074) /\
  (d_scaled (double_of_int b) < d_scaled a -> b * 2 ^ 1074 < d_scaled a) /\
  exists c, d_scaled (double_of_int b) = c * 2 ^ 1074.
Proof.
  intros Ha.
  assert (Hp : 0 < 2 ^ 1074) by (apply Z.pow_pos_nonneg; lia).
  assert (Hmag : 0 <= d_mag a).
  { unfold is_double in Ha. rewrite !andb_true_iff in Ha. apply Z.leb_le. apply Ha. }
  destruct (no_double_between a (Z.abs b * 2 ^ 1074) Ha ltac:(nia)) as [Hup Hdown].
  destruct (round_to_double_integer (Z.abs b) ltac:(lia)) as [c Hc].
  pose proof (round_to_double_nonneg (Z.abs b * 2 ^ 1074) ltac:(nia)) as Hr.
  unfold double_of_int, d_scaled. cbn [d_neg d_mag].
  destruct (Z.ltb_spec b 0) as [Hb|Hb].
  - split; [|split].
    + destruct (d_neg a); [|lia]. intros Hlt.
      destruct (Z.le_gt_cases (d_mag a) (Z.abs b * 2 ^ 1074)) as [Hle|Hgt]; [|nia].
      specialize (Hdown Hle). lia.
    + destruct (d_neg a).
      * intros Hlt.
        destruct (Z.le_gt_cases (Z.abs b * 2 ^ 1074) (d_mag a)) as [Hle|Hgt]; [|nia].
        specialize (Hup Hle). lia.
      * intros _. nia.
    + exists (- c). rewrite Hc. lia.
  - replace (Z.abs b) with b in * by lia. split; [|split].
    + destruct (d_neg a).
      * intros Hlt. destruct (Z.eq_dec b 0) as [->|Hne]; [|nia].
        change (round_to_double (0 * 2 ^ 1074)) with 0 in Hlt. lia.
      * intros Hlt.
        destruct (Z.le_gt_cases (b * 2 ^ 1074) (d_mag a)) as [Hle|Hgt]; [|exact Hgt].
        specialize (Hup Hle). lia.
    + destruct (d_neg a); [lia|]. intros Hlt.
      destruct (Z.le_gt_cases (d_mag a) (b * 2 ^ 1074)) as [Hle|Hgt]; [|exact Hgt].
      specialize (Hdown Hle). lia.
    + exists c. exact Hc.
Qed.

Lemma compare_json_double_integer_value (a : double) (b : Z) (b_dec : my_decimal) :
  is_double a = true -> (dec_value b_dec == inject_Z b)%Q ->
  (if lt_op a (double_of_int b) then -1
   else if lt_op (double_of_int b) a then 1
   else - compare_json_decimal_double b_dec a) =
  Z_of_comparison (double_value a ?= inject_Z b)%Q.
Proof.
  intros Ha Hb. cbn [lt_op Comparable_double]. rewrite Qcompare_double_int.
  destruct (double_against_nearest a b Ha) as (Hbelow & Habove & c & Hc).
  destruct (Z.ltb_spec (d_scaled a) (d_scaled (double_of_int b))) as [Hlt|Hge].
  - rewrite (proj2 (Z.compare_lt_iff _ _) (Hbelow Hlt)). reflexivity.
  - destruct (Z.ltb_spec (d_scaled (double_of_int b)) (d_scaled a)) as [Hgt|Hle].
    + rewrite (proj2 (Z.compare_gt_iff _ _) (Habove Hgt)). reflexivity.
    + assert (Heq : d_scaled a = c * 2 ^ 1074) by lia.
      rewrite (compare_json_decimal_double_value b_dec (longlong2decimal c) a).
      * rewrite Hb, Z_of_comparison_opp, Qcompare_antisym, Qcompare_double_int.
        reflexivity.
      * rewrite longlong2decimal_exact. symmetry. apply double_value_eq_int. exact Heq.
Qed.

(** X22: [compare] orders a finite double and an integer, signed or
    unsigned and in either order, by the rationals they denote, also
    where the integer is not a double. *)
Theorem compare_double_with_integer (f : double) (n : Json_dom) :
  is_double f = true ->
  exact_number n = true -> json_type n <> J_DECIMAL ->
  compare (Json_double f) n =
  Z_of_comparison (double_value f ?= number_value n)%Q /\
  compare n (Json_double f) =
  Z_of_comparison (number_value n ?= double_value f)%Q.
Proof.
  intros Hf Hn Hkind.
  assert (Hflip : forall x y, - Z_of_comparison (x ?= y)%Q = Z_of_comparison (y ?= x)%Q)
    by (intros x y; rewrite Z_of_comparison_opp, Qcompare_antisym; reflexivity).
  destruct n as [ |?|i|u|?|m|?|? ?|? ?|?|?]; try discriminate Hn.
  - pose proof (compare_json_double_integer_value f i (longlong2decimal i) Hf
                  (longlong2decimal_exact i)) as Hvalue.
    split; [exact Hvalue|]. cbn [number_value]. rewrite <- Hflip, <- Hvalue. reflexivity.
  - pose proof (compare_json_double_integer_value f u (ulonglong2decimal u) Hf
                  (ulonglong2decimal_exact u)) as Hvalue.
    split; [exact Hvalue|]. cbn [number_value]. rewrite <- Hflip, <- Hvalue. reflexivity.
  - contradiction Hkind. reflexivity.
Qed.

End Double_against_integer.

Lemma compare_double_with_integer_witness :
  @compare Integer_decimals (Json_double double_1_0000000000001) (Json_int 1) = 1.
Proof.
  destruct (@compare_double_with_integer Integer_decimals Integer_decimals_laws
              double_1_0000000000001 (Json_int 1)) as [Hvalue _].
  - vm_compute. reflexivity.
  - reflexivity.
  - discriminate.
  - rewrite Hvalue. vm_compute. reflexivity.
Defined.

(** ** The order of whole documents *)

Section Document_order.
Context `{DL : Decimal_library} {LAWS : @Decimal_laws DL}.

(** The documents on which the order is considered: arrays and objects
    of scalars with values in the range of their C++ types, doubles
    finite, and no decimals. *)
Fixpoint ordered_document (d : Json_dom) : bool :=
  match d with
  | Json_array m_v => forallb ordered_document m_v
  | Json_object m_map => forallb (fun kv => ordered_document (snd kv)) m_map
  | Json_double f => is_double f
  | Json_decimal _ => false
  | _ => integer_scalar d
  end.

(** [compare] is transitive at three values. *)
Definition transitive_at (a b c : Json_dom) : Prop :=
  (compare a b <= 0 -> compare b c <= 0 -> compare a c <= 0) /\
  (compare a b < 0 -> compare b c <= 0 -> compare a c < 0) /\
  (compare a b <= 0 -> compare b c < 0 -> compare a c < 0) /\
  (compare a b = 0 -> compare b c = 0 -> compare a c = 0).

(** The same, in one piece. *)
Definition chain (p q r : Z) : Prop :=
  p <= 0 -> q <= 0 -> r <= 0 /\ (r = 0 <-> p = 0 /\ q = 0).

Lemma chain_spec (p q r : Z) :
  chain p q r <->
  (p <= 0 -> q <= 0 -> r <= 0) /\ (p < 0 -> q <= 0 -> r < 0) /\
  (p <= 0 -> q < 0 -> r < 0) /\ (p = 0 -> q = 0 -> r = 0).
Proof. unfold chain. lia. Qed.

(** The first pair that differs decides. *)
Lemma chain_lex (p q r p' q' r' : Z) :
  chain p q r -> chain p' q' r' ->
  chain (if p =? 0 then p' else p) (if q =? 0 then q' else q) (if r =? 0 then r' else r).
Proof.
  unfold chain. intros H H'.
  destruct (Z.eqb_spec p 0), (Z.eqb_spec q 0), (Z.eqb_spec r 0); lia.
Qed.

Lemma Z_of_comparison_sign (x y : Z) :
  (Z_of_comparison (x ?= y) <= 0 <-> x <= y) /\
  (Z_of_comparison (x ?= y) < 0 <-> x < y) /\
  (Z_of_comparison (x ?= y) = 0 <-> x = y).
Proof. destruct (Z.compare_spec x y); cbn; lia. Qed.

Lemma Z_of_Qcomparison_sign (x y : Q) :
  (Z_of_comparison (x ?= y)%Q <= 0 <-> (x <= y)%Q) /\
  (Z_of_comparison (x ?= y)%Q < 0 <-> (x < y)%Q) /\
  (Z_of_comparison (x ?= y)%Q = 0 <-> (x == y)%Q).
Proof.
  rewrite Qle_alt, Qlt_alt, Qeq_alt.
  destruct (x ?= y)%Q; cbn; repeat split; intros; try lia; try discriminate;
    try reflexivity; congruence.
Qed.

(** Values of different precedence compare by precedence, which is
    transitive. *)
Lemma transitive_by_precedence (a b c : Json_dom) :
  ~ (precedence (json_type a) = precedence (json_type b) /\
     precedence (json_type b) = precedence (json_type c)) ->
  transitive_at a b c.
Proof.
  intros Hclasses. unfold transitive_at.
  pose proof (compare_by_precedence a b) as Hab.
  pose proof (compare_by_precedence b c) as Hbc.
  pose proof (compare_by_precedence a c) as Hac.
  pose proof (Z_of_comparison_sign (precedence (json_type a)) (precedence (json_type b))).
  pose proof (Z_of_comparison_sign (precedence (json_type b)) (precedence (json_type c))).
  pose proof (Z_of_comparison_sign (precedence (json_type a)) (precedence (json_type c))).
  destruct (Z.eq_dec (precedence (json_type a)) (precedence (json_type b))) as [Eab|Nab];
    destruct (Z.eq_dec (precedence (json_type b)) (precedence (json_type c))) as [Ebc|Nbc].
  - tauto.
  - rewrite (Hbc Nbc), (Hac ltac:(lia)). lia.
  - rewrite (Hab Nab), (Hac ltac:(lia)). lia.
  - rewrite (Hab Nab), (Hbc Nbc).
    destruct (Z.eq_dec (precedence (json_type a)) (precedence (json_type c))) as [Eac|Nac];
      [lia|]. rewrite (Hac Nac). lia.
Qed.

(** Numbers are compared by value. *)
Definition is_number (d : Json_dom) : bool :=
  match d with Json_int _ | Json_uint _ | Json_double _ => true | _ => false end.

Lemma compare_doubles_value (f f' : double) :
  compare_numbers f f' = Z_of_comparison (double_value f ?= double_value f')%Q.
Proof.
  unfold compare_numbers. cbn [lt_op eq_op Comparable_double].
  unfold double_value, Qcompare. cbn [Qnum Qden].
  rewrite <- Zmult_compare_compat_r by reflexivity.
  destruct (Z.ltb_spec (d_scaled f) (d_scaled f')) as [Hlt|Hge].
  - rewrite (proj2 (Z.compare_lt_iff _ _) Hlt). reflexivity.
  - destruct (Z.eqb_spec (d_scaled f) (d_scaled f')) as [->|Hne].
    + rewrite Z.compare_refl. reflexivity.
    + rewrite (proj2 (Z.compare_gt_iff _ _)) by lia. reflexivity.
Qed.

Lemma numbers_by_value (a b : Json_dom) :
  is_number a = true -> is_number b = true ->
  ordered_document a = true -> ordered_document b = true ->
  compare a b = Z_of_comparison (number_value a ?= number_value b)%Q.
Proof.
  assert (Hflip : forall x y, - Z_of_comparison (x ?= y)%Q = Z_of_comparison (y ?= x)%Q)
    by (intros x y; rewrite Z_of_comparison_opp, Qcompare_antisym; reflexivity).
  intros Ha Hb Hoa Hob.
  destruct a as [ |?|i|u|f|?|?|? ?|? ?|?|?]; try discriminate Ha;
    destruct b as [ |?|i'|u'|f'|?|?|? ?|? ?|?|?]; try discriminate Hb;
    cbn [ordered_document integer_scalar] in Hoa, Hob; cbn [number_value];
    rewrite ?andb_true_iff, ?Z.leb_le in *.
  - cbn. rewrite Qcompare_int. apply compare_numbers_Z_value.
  - cbn. rewrite Qcompare_int. apply compare_json_int_uint_value. apply Hob.
  - cbn. rewrite <- Hflip. f_equal.
    apply (compare_json_double_integer_value f' i (longlong2decimal i) Hob
             (longlong2decimal_exact i)).
  - cbn. rewrite Qcompare_int, compare_json_int_uint_value by apply Hoa.
    rewrite Z_of_comparison_opp, <- Z.compare_antisym. reflexivity.
  - cbn. rewrite Qcompare_int. apply compare_numbers_Z_value.
  - cbn. rewrite <- Hflip. f_equal.
    apply (compare_json_double_integer_value f' u (ulonglong2decimal u) Hob
             (ulonglong2decimal_exact u)).
  - apply (compare_json_double_integer_value f i' (longlong2decimal i') Hoa
             (longlong2decimal_exact i')).
  - apply (compare_json_double_integer_value f u' (ulonglong2decimal u') Hoa
             (ulonglong2decimal_exact u')).
  - cbn. apply compare_doubles_value.
Qed.

Lemma transitive_by_value (a b c : Json_dom) (va vb vc : Q) :
  compare a b = Z_of_comparison (va ?= vb)%Q ->
  compare b c = Z_of_comparison (vb ?= vc)%Q ->
  compare a c = Z_of_comparison (va ?= vc)%Q ->
  transitive_at a b c.
Proof.
  unfold transitive_at. intros -> -> ->.
  destruct (Z_of_Qcomparison_sign va vb) as (-> & -> & ->).
  destruct (Z_of_Qcomparison_sign vb vc) as (-> & -> & ->).
  destruct (Z_of_Qcomparison_sign va vc) as (-> & -> & ->).
  split; [apply Qle_trans|]. split; [apply Qlt_le_trans|]. split; [apply Qle_lt_trans|].
  intros -> ->. reflexivity.
Qed.

Lemma transitive_by_key (a b c : Json_dom) :
  integer_scalar a = true -> integer_scalar b = true -> integer_scalar c = true ->
  transitive_at a b c.
Proof.
  intros Ha Hb Hc.
  destruct (sgn_agree _ _ (scalar_keys_order a b Ha Hb)) as (Hab_le & Hab_lt & Hab_eq).
  destruct (sgn_agree _ _ (scalar_keys_order b c Hb Hc)) as (Hbc_le & Hbc_lt & Hbc_eq).
  destruct (sgn_agree _ _ (scalar_keys_order a c Ha Hc)) as (Hac_le & Hac_lt & Hac_eq).
  destruct (key_order_transitive (scalar_key a) (scalar_key b) (scalar_key c))
    as (Hle & Hlt1 & Hlt2).
  split; [|split; [|split]].
  - intros H1 H2. apply Hac_le, Hle; [apply Hab_le|apply Hbc_le]; assumption.
  - intros H1 H2. apply Hac_lt, Hlt1; [apply Hab_lt|apply Hbc_le]; assumption.
  - intros H1 H2. apply Hac_lt, Hlt2; [apply Hab_le|apply Hbc_lt]; assumption.
  - intros H1 H2. apply Hac_eq.
    apply Hab_eq, key_order_zero in H1. apply Hbc_eq, key_order_zero in H2.
    rewrite H1, H2. apply key_order_refl.
Qed.

(** *** Arrays *)

(** The comparison of two arrays: the first pair of elements that
    differ decides, and otherwise the lengths do. *)
Definition compare_arrays (a b : list Json_dom) : Z :=
  match compare_elements_with compare a b with
  | Some cmp => cmp
  | None => compare_numbers (length a) (length b)
  end.

Lemma compare_arrays_spec (a b : list Json_dom) :
  compare (Json_array a) (Json_array b) = compare_arrays a b.
Proof. reflexivity. Qed.

Lemma compare_arrays_cons (x y : Json_dom) (a b : list Json_dom) :
  compare_arrays (x :: a) (y :: b) =
  if compare x y =? 0 then compare_arrays a b else compare x y.
Proof.
  unfold compare_arrays. cbn [compare_elements_with length].
  destruct (compare x y =? 0); reflexivity.
Qed.

Lemma compare_arrays_nil_l (b : list Json_dom) :
  compare_arrays [] b <= 0 /\ (compare_arrays [] b = 0 <-> b = []).
Proof.
  unfold compare_arrays, compare_numbers. cbn [compare_elements_with length lt_op eq_op
                                                Comparable_nat].
  destruct b; cbn; split; try lia; split; intros; try discriminate; try lia; reflexivity.
Qed.

Lemma compare_arrays_nil_r (a : list Json_dom) :
  0 <= compare_arrays a [] /\ (compare_arrays a [] = 0 <-> a = []).
Proof.
  unfold compare_arrays, compare_numbers.
  destruct a; cbn; split; try lia; split; intros; try discriminate; try lia; reflexivity.
Qed.

Lemma arrays_transitive (a : list Json_dom) :
  (forall x, In x a -> forall y z,
     ordered_document y = true -> ordered_document z = true -> transitive_at x y z) ->
  forall b c,
    forallb ordered_document b = true -> forallb ordered_document c = true ->
    chain (compare_arrays a b) (compare_arrays b c) (compare_arrays a c).
Proof.
  induction a as [|x a IH]; intros Helements b c Hob Hoc.
  - pose proof (compare_arrays_nil_l b) as [Hb Hb0].
    pose proof (compare_arrays_nil_l c) as [Hc Hc0].
    unfold chain. destruct b as [|y b].
    + assert (compare_arrays [] [] = 0) by reflexivity. lia.
    + destruct c as [|z c].
      * pose proof (compare_arrays_nil_r (y :: b)) as [Hbc Hbc0].
        assert (compare_arrays (y :: b) [] <> 0) by (rewrite Hbc0; discriminate). lia.
      * assert (compare_arrays [] (z :: c) <> 0) by (rewrite Hc0; discriminate).
        assert (compare_arrays [] (y :: b) <> 0) by (rewrite Hb0; discriminate). lia.
  - destruct b as [|y b].
    + pose proof (compare_arrays_nil_r (x :: a)) as [Hab Hab0].
      assert (compare_arrays (x :: a) [] <> 0) by (rewrite Hab0; discriminate).
      unfold chain. lia.
    + destruct c as [|z c].
      * pose proof (compare_arrays_nil_r (y :: b)) as [Hbc Hbc0].
        assert (compare_arrays (y :: b) [] <> 0) by (rewrite Hbc0; discriminate).
        unfold chain. lia.
      * rewrite !compare_arrays_cons.
        cbn [forallb] in Hob, Hoc. apply andb_true_iff in Hob, Hoc.
        destruct Hob as [Hy Hob], Hoc as [Hz Hoc].
        apply chain_lex.
        -- apply chain_spec. apply (Helements x (or_introl eq_refl) y z Hy Hz).
        -- apply (IH (fun e He => Helements e (or_intror He)) b c Hob Hoc).
Qed.

(** *** Objects *)

Definition compare_keys (k1 k2 : string) : Z :=
  compare_json_strings (uchars k1) (String.length k1) (uchars k2) (String.length k2).

Lemma compare_keys_transitive (k1 k2 k3 : string) :
  (compare_keys k1 k2 <= 0 -> compare_keys k2 k3 <= 0 -> compare_keys k1 k3 <= 0) /\
  (compare_keys k1 k2 < 0 -> compare_keys k2 k3 <= 0 -> compare_keys k1 k3 < 0) /\
  (compare_keys k1 k2 <= 0 -> compare_keys k2 k3 < 0 -> compare_keys k1 k3 < 0) /\
  (compare_keys k1 k2 = 0 -> compare_keys k2 k3 = 0 -> compare_keys k1 k3 = 0).
Proof.
  unfold compare_keys. rewrite <- !uchars_length.
  change (compare_json_strings (uchars k1) (length (uchars k1))
                               (uchars k2) (length (uchars k2)))
    with (key_order (uchars k1) (uchars k2)).
  change (compare_json_strings (uchars k2) (length (uchars k2))
                               (uchars k3) (length (uchars k3)))
    with (key_order (uchars k2) (uchars k3)).
  change (compare_json_strings (uchars k1) (length (uchars k1))
                               (uchars k3) (length (uchars k3)))
    with (key_order (uchars k1) (uchars k3)).
  destruct (key_order_transitive (uchars k1) (uchars k2) (uchars k3)) as (Hle & Hlt1 & Hlt2).
  split; [exact Hle|]. split; [exact Hlt1|]. split; [exact Hlt2|].
  intros H1 H2. apply key_order_zero in H1, H2. rewrite H1, H2. apply key_order_refl.
Qed.

Definition compare_members (m1 m2 : Json_object_map) : Z :=
  compare_members_with compare m1 m2.

Lemma compare_members_cons (k1 k2 : string) (v1 v2 : Json_dom) (m1 m2 : Json_object_map) :
  compare_members ((k1, v1) :: m1) ((k2, v2) :: m2) =
  if compare_keys k1 k2 =? 0
  then (if compare v1 v2 =? 0 then compare_members m1 m2 else compare v1 v2)
  else compare_keys k1 k2.
Proof.
  unfold compare_members, compare_keys. cbn [compare_members_with].
  destruct (compare_json_strings _ _ _ _ =? 0); [|reflexivity].
  destruct (compare v1 v2 =? 0); reflexivity.
Qed.

Lemma members_transitive (m1 : Json_object_map) :
  (forall k x, In (k, x) m1 -> forall y z,
     ordered_document y = true -> ordered_document z = true -> transitive_at x y z) ->
  forall m2 m3,
    length m1 = length m2 -> length m2 = length m3 ->
    forallb (fun kv => ordered_document (snd kv)) m2 = true ->
    forallb (fun kv => ordered_document (snd kv)) m3 = true ->
    chain (compare_members m1 m2) (compare_members m2 m3) (compare_members m1 m3).
Proof.
  induction m1 as [|[k1 v1] m1 IH]; intros Hvalues [|[k2 v2] m2] [|[k3 v3] m3] H12 H23 Ho2 Ho3;
    try discriminate H12; try discriminate H23.
  - assert (compare_members [] [] = 0) by reflexivity. unfold chain. lia.
  - rewrite !compare_members_cons.
    cbn [forallb snd] in Ho2, Ho3. apply andb_true_iff in Ho2, Ho3.
    destruct Ho2 as [Hy Ho2], Ho3 as [Hz Ho3].
    apply chain_lex; [apply chain_spec; apply compare_keys_transitive|].
    apply chain_lex.
    + apply chain_spec. apply (Hvalues k1 v1 (or_introl eq_refl) v2 v3 Hy Hz).
    + apply (IH (fun k e He => Hvalues k e (or_intror He)) m2 m3); [| |exact Ho2|exact Ho3].
      * cbn [length] in H12. lia.
      * cbn [length] in H23. lia.
Qed.

Lemma compare_objects_spec (m1 m2 : Json_object_map) :
  compare (Json_object m1) (Json_object m2) =
  if Nat.ltb (length m1) (length m2) then -1
  else if Nat.eqb (length m1) (length m2) then compare_members m1 m2 else 1.
Proof.
  cbn [compare json_type]. change (type_comparison_at J_OBJECT J_OBJECT) with 0.
  cbn [Z.eqb negb]. unfold cardinality, compare_numbers.
  cbn [lt_op eq_op Comparable_nat].
  destruct (Nat.ltb (length m1) (length m2)); [reflexivity|].
  destruct (Nat.eqb (length m1) (length m2)); reflexivity.
Qed.

(** *** All documents *)

Lemma ordered_document_cases (d : Json_dom) :
  ordered_document d = true ->
  (is_number d = true /\ precedence (json_type d) = 1) \/
  (integer_scalar d = true /\ precedence (json_type d) <> 1 /\
   precedence (json_type d) <> 3 /\ precedence (json_type d) <> 4) \/
  (exists m_v, d = Json_array m_v /\ precedence (json_type d) = 4) \/
  (exists m_map, d = Json_object m_map /\ precedence (json_type d) = 3).
Proof.
  destruct d as [ |?|?|?|?|?|?|mytype ?|t ft|m_v|m_map]; cbn [ordered_document]; intros Ho;
    try discriminate Ho;
    try (left; split; reflexivity);
    try (right; left; split; [exact Ho|]; cbn; repeat split; discriminate);
    try (right; right; left; eexists; split; reflexivity);
    try (right; right; right; eexists; split; reflexivity).
  right. left. split; [exact Ho|]. cbn [integer_scalar] in Ho.
  apply andb_true_iff in Ho. destruct Ho as [_ Hft].
  unfold MYSQL_TYPE_TIME, MYSQL_TYPE_DATETIME, MYSQL_TYPE_DATE, MYSQL_TYPE_TIMESTAMP in *.
  cbn [json_type].
  unfold MYSQL_TYPE_TIME, MYSQL_TYPE_DATETIME, MYSQL_TYPE_DATE, MYSQL_TYPE_TIMESTAMP.
  destruct (ft =? 11); [cbn; repeat split; discriminate|].
  destruct (ft =? 12); [cbn; repeat split; discriminate|].
  destruct (ft =? 10); [cbn; repeat split; discriminate|].
  destruct (ft =? 7); [cbn; repeat split; discriminate|]. discriminate Hft.
Qed.

(** The values directly below a document. *)
Definition child_of (x a : Json_dom) : Prop :=
  match a with
  | Json_array m_v => In x m_v
  | Json_object m_map => exists k, In (k, x) m_map
  | _ => False
  end.

Lemma transitive_step (a b c : Json_dom) :
  (forall x, child_of x a -> forall y z,
     ordered_document x = true -> ordered_document y = true ->
     ordered_document z = true -> transitive_at x y z) ->
  ordered_document a = true -> ordered_document b = true -> ordered_document c = true ->
  transitive_at a b c.
Proof.
  intros IH Ha Hb Hc.
  destruct (Z.eq_dec (precedence (json_type a)) (precedence (json_type b))) as [Eab|Nab];
    [|apply transitive_by_precedence; tauto].
  destruct (Z.eq_dec (precedence (json_type b)) (precedence (json_type c))) as [Ebc|Nbc];
    [|apply transitive_by_precedence; tauto].
  destruct (ordered_document_cases a Ha) as [[Na Pa]|[[Sa Pa]|[[la [Da Pa]]|[ma [Da Pa]]]]];
    destruct (ordered_document_cases b Hb) as [[Nb Pb]|[[Sb Pb]|[[lb [Db Pb]]|[mb [Db Pb]]]]];
    destruct (ordered_document_cases c Hc) as [[Nc Pc]|[[Sc Pc]|[[lc [Dc Pc]]|[mc [Dc Pc]]]]];
    try lia.
  - apply (transitive_by_value a b c (number_value a) (number_value b) (number_value c));
      apply numbers_by_value; assumption.
  - apply transitive_by_key; assumption.
  - subst a b c. unfold transitive_at. rewrite !compare_arrays_spec.
    cbn [ordered_document] in Ha, Hb, Hc.
    apply chain_spec. apply (arrays_transitive la); [|exact Hb|exact Hc].
    intros x Hx y z Hy Hz. apply IH; try assumption.
    rewrite forallb_forall in Ha. apply Ha. exact Hx.
  - subst a b c. unfold transitive_at. rewrite !compare_objects_spec.
    cbn [ordered_document] in Ha, Hb, Hc.
    assert (Hmembers : forall k x, In (k, x) ma -> forall y z,
               ordered_document y = true -> ordered_document z = true ->
               transitive_at x y z).
    { intros k x Hx y z Hy Hz. apply IH; try assumption; [exists k; exact Hx|].
      rewrite forallb_forall in Ha. apply (Ha (k, x) Hx). }
    destruct (Nat.ltb_spec (length ma) (length mb));
      destruct (Nat.ltb_spec (length mb) (length mc));
      destruct (Nat.ltb_spec (length ma) (length mc));
      destruct (Nat.eqb_spec (length ma) (length mb));
      destruct (Nat.eqb_spec (length mb) (length mc));
      destruct (Nat.eqb_spec (length ma) (length mc));
      try lia; try (repeat split; intros; lia).
    apply chain_spec. apply (members_transitive ma Hmembers mb mc); assumption.
Qed.

Lemma documents_transitive (a : Json_dom) :
  forall b c,
    ordered_document a = true -> ordered_document b = true -> ordered_document c = true ->
    transitive_at a b c.
Proof.
  induction a as [a Hscalar|m_v IH|m_map IH] using Json_dom_induction;
    intros b c; apply transitive_step.
  - intros x Hx. destruct a; try discriminate Hscalar; destruct Hx.
  - intros x Hx y z. apply (IH x Hx).
  - intros x [k Hx] y z. apply (IH k x Hx).
Qed.

(** X23: on documents made of arrays, objects and scalars other than
    decimals, with every scalar in the range of its C++ type and every
    double finite, [compare] is transitive: if a is not above b and b is
    not above c then a is not above c, strictly below as soon as one of
    the two steps is strict; and values that compare equal to a common
    value compare equal to each other. *)
Theorem compare_transitive_on_documents (a b c : Json_dom) :
  ordered_document a = true -> ordered_document b = true -> ordered_document c = true ->
  (compare a b <= 0 -> compare b c <= 0 -> compare a c <= 0) /\
  (compare a b < 0 -> compare b c <= 0 -> compare a c < 0) /\
  (compare a b <= 0 -> compare b c < 0 -> compare a c < 0) /\
  (compare a b = 0 -> compare b c = 0 -> compare a c = 0).
Proof. apply documents_transitive. Qed.

End Document_order.

(** The double 1.5. *)
Definition double_1_5 : double := mk_double false (3 * 2 ^ 1073).

Definition array_of_1 : @Json_dom Integer_decimals := Json_array [Json_int 1].
Definition array_of_1_5 : @Json_dom Integer_decimals := Json_array [Json_double double_1_5].
Definition array_of_2 : @Json_dom Integer_decimals := Json_array [Json_uint 2].

Lemma compare_transitive_on_documents_witness :
  compare array_of_1 array_of_1_5 < 0 /\ compare array_of_1_5 array_of_2 < 0 /\
  compare array_of_1 array_of_2 < 0.
Proof.
  assert (H1 : compare array_of_1 array_of_1_5 < 0) by (vm_compute; reflexivity).
  assert (H2 : compare array_of_1_5 array_of_2 < 0) by (vm_compute; reflexivity).
  split; [exact H1|]. split; [exact H2|].
  destruct (@compare_transitive_on_documents Integer_decimals Integer_decimals_laws
              array_of_1 array_of_1_5 array_of_2) as (_ & Hlt & _).
  - vm_compute. reflexivity.
  - vm_compute. reflexivity.
  - vm_compute. reflexivity.
  - apply Hlt; lia.
Defined.

(** * Sort keys of numbers *)

(** ** Decimal numerals

    [make_json_numeric_sort_key] reads the text of a number, "either on
    scientific format (such as 1.234e2) or on plain format (such as
    12.34)".  For an INT or UINT the text is written by
    [longlong10_to_str]; for a DECIMAL and a DOUBLE it comes from
    [my_decimal2string] and [my_gcvt], which are not part of
    json_dom.cc. *)

(** A numeral: whether it begins with a minus sign, the digits before
    the point, the digits after it (no point is written when there are
    none), and, in scientific format, the characters after the [e]. *)
Record numeral := mk_numeral {
  n_minus : bool;
  n_integer : list Z;
  n_fraction : list Z;
  n_exponent : option (list Z)
}.

Definition numeral_text (n : numeral) : list Z :=
  (if n_minus n then [45] else []) ++ n_integer n ++
  (match n_fraction n with [] => [] | _ :: _ => 46 :: n_fraction n end) ++
  (match n_exponent n with None => [] | Some e => 101 :: e end).

(** The number that a row of digits denotes. *)
Definition digits_value (ds : list Z) : Z :=
  fold_left (fun acc c => 10 * acc + (c - 48)) ds 0.

Fixpoint strip_zeros (ds : list Z) : list Z :=
  match ds with
  | [] => []
  | c :: rest => if c =? 48 then strip_zeros rest else ds
  end.

Definition mantissa (n : numeral) : list Z := n_integer n ++ n_fraction n.

(** The digits from the first that is not zero on. *)
Definition significant (n : numeral) : list Z := strip_zeros (mantissa n).

(** The exponent after the [e], as [my_strtoll] reads it. *)
Definition written_exponent (n : numeral) : Z :=
  match n_exponent n with None => 0 | Some e => my_strtoll e end.

(** The rational that the numeral denotes. *)
Definition numeral_value (n : numeral) : Q :=
  let magnitude :=
    (inject_Z (digits_value (mantissa n)) *
     10 ^ (written_exponent n - Z.of_nat (length (n_fraction n))))%Q in
  if n_minus n then (- magnitude)%Q else magnitude.

(** The digits are digits, and in scientific format one digit stands
    before the point, which is zero only in a numeral of zero. *)
Definition well_formed (n : numeral) : Prop :=
  Forall is_digit (n_integer n) /\ Forall is_digit (n_fraction n) /\
  (n_exponent n <> None ->
   exists d, n_integer n = [d] /\ (d = 48 -> significant n = [])).

(** The decimal exponent of the first significant digit. *)
Definition decimal_exponent (n : numeral) : Z :=
  written_exponent n + Z.of_nat (length (significant n))
  - Z.of_nat (length (n_fraction n)) - 1.

(** The key of a number with the decimal exponent [exp] and the
    significant digits [ds]: the tag, the exponent, the digits and the
    padding. *)
Definition numeral_bytes (negative : bool) (exp : Z) (ds : list Z) : list Z :=
  (if negative then JSON_KEY_NUMBER_NEG else JSON_KEY_NUMBER_POS)
    :: exponent_bytes (if negative then - exp else exp)
    ++ map (digit_byte negative) ds
    ++ repeat (if negative then 57 else 48) (MAX_NUMBER_SORT_PAD - (3 + length ds)).

(** The key of the number that a numeral denotes. *)
Definition numeral_key (negative : bool) (n : numeral) : list Z :=
  match significant n with
  | [] => [JSON_KEY_NUMBER_ZERO]
  | _ :: _ => numeral_bytes negative (decimal_exponent n) (significant n)
  end.

(** *** The parts of a numeral's text *)

Lemma find_index_app_none (p : Z -> bool) (l1 l2 : list Z) :
  Forall (fun c => p c = false) l1 ->
  find_index p (l1 ++ l2) = (length l1 + find_index p l2)%nat.
Proof.
  induction 1 as [|c l Hc _ IH]; cbn [find_index length app]; [reflexivity|].
  rewrite Hc, IH. reflexivity.
Qed.

Lemma is_digit_my_isdigit (c : Z) : is_digit c -> my_isdigit c = true.
Proof. unfold is_digit, my_isdigit. intros H. apply andb_true_iff. split; lia. Qed.

Lemma filter_digits (ds : list Z) : Forall is_digit ds -> List.filter my_isdigit ds = ds.
Proof.
  induction 1 as [|c l Hc _ IH]; [reflexivity|].
  cbn [List.filter]. rewrite (is_digit_my_isdigit c Hc), IH. reflexivity.
Qed.

Lemma strip_zeros_digits (ds : list Z) : Forall is_digit ds -> Forall is_digit (strip_zeros ds).
Proof.
  induction 1 as [|c l Hc Hl IH]; [constructor|].
  cbn [strip_zeros]. destruct (c =? 48); [exact IH|constructor; assumption].
Qed.

Lemma strip_zeros_length (ds : list Z) : (length (strip_zeros ds) <= length ds)%nat.
Proof.
  induction ds as [|c l IH]; [reflexivity|].
  cbn [strip_zeros]. destruct (c =? 48); cbn [length]; lia.
Qed.

(** The first digit that is left is not zero. *)
Lemma strip_zeros_leading (ds : list Z) :
  Forall is_digit ds ->
  strip_zeros ds = [] \/ exists c r, strip_zeros ds = c :: r /\ 49 <= c <= 57.
Proof.
  induction 1 as [|c l Hc Hl IH]; [left; reflexivity|].
  cbn [strip_zeros]. destruct (Z.eqb_spec c 48) as [->|Hne]; [exact IH|].
  right. exists c, l. split; [reflexivity|]. unfold is_digit in Hc. lia.
Qed.

Lemma strip_zeros_value (ds : list Z) : digits_value (strip_zeros ds) = digits_value ds.
Proof.
  induction ds as [|c l IH]; [reflexivity|].
  cbn [strip_zeros]. destruct (Z.eqb_spec c 48) as [->|Hne]; [|reflexivity].
  rewrite IH. reflexivity.
Qed.

(** In a row of digits the first significant one is found after the
    leading zeros. *)
Lemma first_significant_of_digits (ds : list Z) :
  Forall is_digit ds ->
  skipn (find_index is_non_zero_digit ds) ds = strip_zeros ds /\
  (find_index is_non_zero_digit ds + length (strip_zeros ds))%nat = length ds.
Proof.
  induction 1 as [|c l Hc Hl IH]; [split; reflexivity|].
  cbn [find_index strip_zeros]. unfold is_digit in Hc.
  destruct (Z.eqb_spec c 48) as [->|Hne].
  - change (is_non_zero_digit 48) with false. cbn [skipn length]. destruct IH as [IH1 IH2].
    split; [exact IH1|lia].
  - rewrite is_non_zero_digit_leading by lia. split; reflexivity.
Qed.

(** The digits before the point, the point if digits follow it, and
    those digits: where the first significant digit is, which digits are
    copied from there on, and the distance between the point and the
    first significant digit as the source computes the exponent from
    it. *)
Lemma first_significant_of_mantissa (int frac : list Z) :
  Forall is_digit int -> Forall is_digit frac ->
  let chars := int ++ match frac with [] => [] | _ :: _ => 46 :: frac end in
  let first := find_index is_non_zero_digit chars in
  List.filter my_isdigit (skipn first chars) = strip_zeros (int ++ frac) /\
  (strip_zeros (int ++ frac) = [] -> first = length chars) /\
  (strip_zeros (int ++ frac) <> [] ->
   (first < length chars)%nat /\
   (if Nat.ltb first (length int)
    then Z.of_nat (length int) - Z.of_nat first - 1
    else Z.of_nat (length int) - Z.of_nat first) =
   Z.of_nat (length (strip_zeros (int ++ frac))) - Z.of_nat (length frac) - 1).
Proof.
  intros Hint Hfrac. induction Hint as [|c int Hc Hint IH].
  - cbn [app length]. destruct frac as [|f frac]; cbn zeta.
    + split; [reflexivity|]. split; [reflexivity|]. intros H. contradiction.
    + change (find_index is_non_zero_digit (46 :: f :: frac))
        with (S (find_index is_non_zero_digit (f :: frac))).
      destruct (first_significant_of_digits (f :: frac) Hfrac) as [Hskip Hlen].
      cbn [skipn]. rewrite Hskip.
      split; [apply filter_digits, strip_zeros_digits; exact Hfrac|].
      split.
      * intros Hnil. rewrite Hnil in Hlen. cbn [length] in *. lia.
      * intros Hsome.
        assert (Hpos : (0 < length (strip_zeros (f :: frac)))%nat)
          by (destruct (strip_zeros (f :: frac)); [contradiction|cbn; lia]).
        cbn [length] in *. split; [lia|]. cbn [Nat.ltb Nat.leb]. lia.
  - cbn zeta in IH. cbn zeta. cbn [app find_index strip_zeros length]. unfold is_digit in Hc.
    destruct (Z.eqb_spec c 48) as [->|Hne].
    + change (is_non_zero_digit 48) with false. cbn [skipn].
      destruct IH as (IH1 & IH2 & IH3). split; [exact IH1|].
      split; [intros Hnil; rewrite (IH2 Hnil); reflexivity|].
      intros Hsome. destruct (IH3 Hsome) as [Hlt Hexp]. split; [lia|].
      change (Nat.ltb (S ?a) (S ?b)) with (Nat.ltb a b).
      rewrite <- Hexp. destruct (Nat.ltb _ _); lia.
    + rewrite is_non_zero_digit_leading by lia. cbn [skipn].
      assert (Hfilter : List.filter my_isdigit
                          (c :: int ++ match frac with [] => [] | _ :: _ => 46 :: frac end) =
                        c :: int ++ frac).
      { cbn [List.filter]. rewrite (is_digit_my_isdigit c Hc). f_equal.
        rewrite List.filter_app, (filter_digits int Hint).
        destruct frac as [|f frac]; [reflexivity|].
        cbn [List.filter]. change (my_isdigit 46) with false.
        f_equal. exact (filter_digits (f :: frac) Hfrac). }
      split; [exact Hfilter|]. split; [discriminate|].
      intros _. split; [lia|]. cbn [Nat.ltb Nat.leb length].
      rewrite length_app. lia.
Qed.

(** *** The key that is written for a numeral *)

Lemma holds_digit_chars (negative : bool) (l : list Z) :
  forall (k : Wrapper_sort_key) (bs : list Z),
  holds k bs -> (length bs + length (List.filter my_isdigit l) <= m_length k)%nat ->
  let k' := fold_left
              (fun to ch =>
                 if my_isdigit ch then
                   (if negative then key_append to ((57 - ch + 48) mod 256)
                    else key_append to ch)
                 else to) l k in
  holds k' (bs ++ map (digit_byte negative) (List.filter my_isdigit l)) /\
  m_length k' = m_length k.
Proof.
  induction l as [|c l IH]; intros k bs Hk Hfit; cbn [fold_left List.filter map].
  - rewrite app_nil_r. auto.
  - cbn [List.filter] in Hfit. destruct (my_isdigit c) eqn:Hd.
    + cbn [length map] in *.
      destruct (holds_append k bs (digit_byte negative c) Hk ltac:(lia)) as [Hk' Hlen'].
      assert (Happ : (if negative then key_append k ((57 - c + 48) mod 256)
                      else key_append k c) = key_append k (digit_byte negative c))
        by (destruct negative; reflexivity).
      rewrite Happ.
      destruct (IH _ _ Hk') as [Hfinal Hlen''].
      { rewrite length_app. cbn [length]. lia. }
      cbn zeta in *. rewrite <- app_assoc in Hfinal. cbn [app] in Hfinal.
      split; [exact Hfinal|congruence].
    + apply IH; assumption.
Qed.

(** The text of a numeral up to the exponent, and the exponent. *)
Lemma numeral_text_parts (n : numeral) :
  Forall is_digit (n_integer n) -> Forall is_digit (n_fraction n) ->
  let sign := if n_minus n then [45] else [] in
  let chars := n_integer n ++ match n_fraction n with [] => [] | _ :: _ => 46 :: n_fraction n end in
  let text := numeral_text n in
  let end_of_digits := find_index (Z.eqb 101) text in
  end_of_digits = length (sign ++ chars) /\
  firstn end_of_digits text = sign ++ chars /\
  find_index is_non_zero_digit (sign ++ chars) =
    (length sign + find_index is_non_zero_digit chars)%nat /\
  find_index (Z.eqb 46) (sign ++ chars) = (length sign + length (n_integer n))%nat /\
  match n_exponent n with
  | None => Nat.eqb end_of_digits (length text) = true
  | Some e => Nat.eqb end_of_digits (length text) = false /\
              skipn (S end_of_digits) text = e
  end.
Proof.
  intros Hint Hfrac sign chars text end_of_digits.
  assert (Htext : text = (sign ++ chars) ++
                         match n_exponent n with None => [] | Some e => 101 :: e end).
  { unfold text, numeral_text, sign, chars. rewrite <- !app_assoc. reflexivity. }
  assert (Hsign : forall p : Z -> bool, p 45 = false ->
                                         Forall (fun c => p c = false) sign).
  { intros p Hp. unfold sign. destruct (n_minus n); repeat constructor. exact Hp. }
  assert (Hdigits : forall (p : Z -> bool) (ds : list Z),
             (forall c, is_digit c -> p c = false) -> Forall is_digit ds ->
             Forall (fun c => p c = false) ds).
  { intros p ds Hp Hds. eapply Forall_impl; [exact Hds|]. exact Hp. }
  assert (He : forall c, is_digit c -> (101 =? c) = false)
    by (intros c Hc; unfold is_digit in Hc; apply Z.eqb_neq; lia).
  assert (Hpt : forall c, is_digit c -> (46 =? c) = false)
    by (intros c Hc; unfold is_digit in Hc; apply Z.eqb_neq; lia).
  assert (Hnot_e : Forall (fun c => (101 =? c) = false) (sign ++ chars)).
  { apply Forall_app. split; [apply Hsign; reflexivity|]. unfold chars.
    apply Forall_app. split; [apply Hdigits; assumption|].
    destruct (n_fraction n) as [|f frac] eqn:Hf; [constructor|].
    constructor; [reflexivity|apply Hdigits; assumption]. }
  assert (Hend : end_of_digits = length (sign ++ chars)).
  { unfold end_of_digits. rewrite Htext, find_index_app_none by exact Hnot_e.
    destruct (n_exponent n); cbn [find_index]; [rewrite Z.eqb_refl|]; lia. }
  split; [exact Hend|]. rewrite Hend.
  split; [rewrite Htext; apply take_app_length|].
  split.
  { rewrite find_index_app_none; [reflexivity|]. apply Hsign. reflexivity. }
  split.
  { rewrite find_index_app_none by (apply Hsign; reflexivity). f_equal.
    unfold chars. rewrite find_index_app_none by (apply Hdigits; assumption).
    destruct (n_fraction n); cbn [find_index]; [|rewrite Z.eqb_refl]; lia. }
  rewrite Htext. destruct (n_exponent n) as [e|].
  - split.
    + apply Nat.eqb_neq. rewrite (length_app (sign ++ chars)). cbn [length]. lia.
    + change (S (length (sign ++ chars))) with (1 + length (sign ++ chars))%nat.
      rewrite Nat.add_comm, <- drop_drop, drop_app_length. reflexivity.
  - rewrite app_nil_r. apply Nat.eqb_refl.
Qed.

(** What [make_json_numeric_sort_key] writes for the text of a numeral
    into a buffer with room for the padded key. *)
Lemma numeral_key_written (n : numeral) (negative : bool) (k : Wrapper_sort_key) :
  holds k [] -> (MAX_NUMBER_SORT_PAD <= m_length k)%nat ->
  well_formed n -> (length (significant n) <= 85)%nat ->
  holds (make_json_numeric_sort_key (numeral_text n) negative k) (numeral_key negative n).
Proof.
  intros Hk Hroom (Hint & Hfrac & Hsci) Hlen.
  rewrite MAX_NUMBER_SORT_PAD_value in Hroom.
  destruct (numeral_text_parts n Hint Hfrac) as (Hend & Hprefix & Hfirst & Hpoint & Hexp).
  destruct (first_significant_of_mantissa _ _ Hint Hfrac) as (Hdigits & Hzero & Hsome).
  cbn zeta in *.
  set (sign := if n_minus n then [45] else []) in *.
  set (chars := n_integer n ++
                match n_fraction n with [] => [] | _ :: _ => 46 :: n_fraction n end) in *.
  set (first := find_index is_non_zero_digit chars) in *.
  unfold make_json_numeric_sort_key. rewrite Hprefix, Hfirst, Hpoint.
  unfold numeral_key, decimal_exponent, significant, mantissa in *.
  destruct (strip_zeros (n_integer n ++ n_fraction n)) as [|c sig] eqn:Hsig.
  - rewrite (Hzero eq_refl), Hend, length_app, Nat.eqb_refl.
    apply (holds_append _ [] JSON_KEY_NUMBER_ZERO Hk). cbn [length]. lia.
  - destruct (Hsome ltac:(discriminate)) as [Hlt Hdistance].
    assert (Hne : Nat.eqb (length sign + first) (find_index (Z.eqb 101) (numeral_text n))
                  = false)
      by (apply Nat.eqb_neq; rewrite Hend, length_app; lia).
    rewrite Hne.
    assert (Hexponent :
      (if negb (Nat.eqb (find_index (Z.eqb 101) (numeral_text n))
                        (length (numeral_text n)))
       then my_strtoll (skipn (S (find_index (Z.eqb 101) (numeral_text n)))
                              (numeral_text n))
       else if Nat.ltb (length sign + first) (length sign + length (n_integer n))
            then Z.of_nat (length sign + length (n_integer n))
                 - Z.of_nat (length sign + first) - 1
            else Z.of_nat (length sign + length (n_integer n))
                 - Z.of_nat (length sign + first)) =
      written_exponent n + Z.of_nat (length (c :: sig))
      - Z.of_nat (length (n_fraction n)) - 1).
    { unfold written_exponent. destruct (n_exponent n) as [e|].
      - destruct Hexp as [-> ->]. cbn [negb].
        destruct (Hsci ltac:(discriminate)) as (d & Hd & Hd0). rewrite Hd in Hsig.
        cbn [app strip_zeros] in Hsig.
        destruct (Z.eqb_spec d 48) as [Hz|Hnz]; [specialize (Hd0 Hz); discriminate|].
        rewrite <- Hsig. cbn [length]. lia.
      - rewrite Hexp. cbn [negb]. rewrite Z.add_0_l, <- Hdistance.
        assert (Hltb : Nat.ltb (length sign + first) (length sign + length (n_integer n)) =
                       Nat.ltb first (length (n_integer n))).
        { destruct (Nat.ltb_spec first (length (n_integer n)));
            [apply Nat.ltb_lt|apply Nat.ltb_ge]; lia. }
        rewrite Hltb. destruct (Nat.ltb first (length (n_integer n))); lia. }
    rewrite Hexponent.
    set (exp := written_exponent n + Z.of_nat (length (c :: sig))
                - Z.of_nat (length (n_fraction n)) - 1).
    set (tag := if negative then JSON_KEY_NUMBER_NEG else JSON_KEY_NUMBER_POS).
    assert (Htag : (if negative then key_append k JSON_KEY_NUMBER_NEG
                    else key_append k JSON_KEY_NUMBER_POS) = key_append k tag)
      by (destruct negative; reflexivity).
    rewrite Htag.
    assert (Hskip : skipn (length sign + first) (sign ++ chars) = skipn first chars).
    { rewrite <- drop_drop, drop_app_length. reflexivity. }
    rewrite Hskip.
    destruct (holds_append k [] tag Hk ltac:(cbn; lia)) as [H1 L1].
    cbn [app] in H1.
    destruct (holds_copy_int _ _ (int2store (if negative then - exp else exp)) 2 false H1)
      as [H2 L2]; [cbn [length]; lia|reflexivity|].
    fold (exponent_bytes (if negative then - exp else exp)) in H2.
    pose proof (exponent_bytes_length (if negative then - exp else exp)) as Hel.
    destruct (holds_digit_chars negative (skipn first chars) _ _ H2) as [H3 L3].
    { rewrite Hdigits, length_app. cbn [length] in *. lia. }
    cbn zeta in H3, L3. rewrite Hdigits in H3.
    match type of H3 with holds ?k3 ?bs3 =>
      destruct (holds_pad_till k3 bs3 (if negative then 57 else 48) MAX_NUMBER_SORT_PAD H3)
        as [H4 _]
    end.
    { rewrite MAX_NUMBER_SORT_PAD_value, !length_app, length_map. cbn [length] in *. lia. }
    { rewrite MAX_NUMBER_SORT_PAD_value. lia. }
    rewrite !length_app, length_map in H4. cbn [length] in H4.
    rewrite Hel in H4. unfold numeral_bytes. cbn [app] in H4. rewrite <- !app_assoc in H4.
    cbn [app Nat.add length] in H4 |- *. exact H4.
Qed.

(** *** Rows of digits and their values *)

Lemma digits_value_from (ds : list Z) : forall acc : Z,
  fold_left (fun acc c => 10 * acc + (c - 48)) ds acc =
  acc * 10 ^ Z.of_nat (length ds) + digits_value ds.
Proof.
  unfold digits_value. induction ds as [|c ds IH]; intros acc.
  - cbn. lia.
  - cbn [fold_left length]. rewrite IH, (IH (10 * 0 + (c - 48))).
    rewrite Nat2Z.inj_succ, Z.pow_succ_r by lia. ring.
Qed.

Lemma digits_value_cons (c : Z) (ds : list Z) :
  digits_value (c :: ds) = (c - 48) * 10 ^ Z.of_nat (length ds) + digits_value ds.
Proof.
  unfold digits_value at 1. cbn [fold_left]. rewrite digits_value_from. ring.
Qed.

Lemma digits_value_app (a b : list Z) :
  digits_value (a ++ b) = digits_value a * 10 ^ Z.of_nat (length b) + digits_value b.
Proof.
  unfold digits_value at 1. rewrite fold_left_app, digits_value_from. reflexivity.
Qed.

Lemma digits_value_bound (ds : list Z) :
  Forall is_digit ds -> 0 <= digits_value ds < 10 ^ Z.of_nat (length ds).
Proof.
  induction 1 as [|c ds Hc _ IH]; [cbn; lia|].
  rewrite digits_value_cons. cbn [length]. rewrite Nat2Z.inj_succ, Z.pow_succ_r by lia.
  unfold is_digit in Hc. nia.
Qed.

Lemma digits_value_zeros (k : nat) : digits_value (repeat 48 k) = 0.
Proof.
  induction k as [|k IH]; [reflexivity|].
  cbn [repeat]. rewrite digits_value_cons, IH. lia.
Qed.

(** A row that begins with a digit other than zero. *)
Lemma digits_value_leading (c : Z) (ds : list Z) :
  49 <= c -> Forall is_digit ds -> 10 ^ Z.of_nat (length ds) <= digits_value (c :: ds).
Proof.
  intros Hc Hds. rewrite digits_value_cons.
  pose proof (digits_value_bound ds Hds). nia.
Qed.

(** Rows of equally many digits are ordered as their values are. *)
Lemma digits_lex (a : list Z) : forall b : list Z,
  Forall is_digit a -> Forall is_digit b -> length a = length b ->
  (digits_value a < digits_value b -> lex_lt a b) /\
  (digits_value a = digits_value b -> a = b).
Proof.
  induction a as [|x a IH]; intros [|y b] Ha Hb Hlen; try discriminate Hlen.
  - split; [cbn; lia|reflexivity].
  - inversion Ha as [|? ? Hx Ha']; subst. inversion Hb as [|? ? Hy Hb']; subst.
    cbn [length] in Hlen. injection Hlen as Hlen.
    rewrite !digits_value_cons, <- Hlen.
    pose proof (digits_value_bound a Ha') as Hba.
    pose proof (digits_value_bound b Hb') as Hbb. rewrite <- Hlen in Hbb.
    destruct (IH b Ha' Hb' Hlen) as [IHlt IHeq].
    assert (Hp : 0 < 10 ^ Z.of_nat (length a)) by (apply Z.pow_pos_nonneg; lia).
    destruct (Z.lt_trichotomy x y) as [Hlt|[->|Hgt]].
    + split; [intros _; apply lex_lt_head; exact Hlt|]. intros Heq. nia.
    + split.
      * intros Hv. apply (lex_lt_app_l [y]). apply IHlt. lia.
      * intros Hv. f_equal. apply IHeq. lia.
    + split; intros Hv; nia.
Qed.

(** *** The bytes of the exponent *)

(** The two bytes of the exponent are those of the exponent plus 2^15,
    most significant first. *)
Lemma exponent_bytes_biased (exp : Z) :
  - 2 ^ 15 <= exp < 2 ^ 15 -> exponent_bytes exp = rev (int_store 2 (exp + 2 ^ 15)).
Proof.
  intros He. unfold exponent_bytes, copy_integer, int2store.
  assert (Hl : forall v, length (int_store 2 v) = 2%nat) by reflexivity.
  rewrite Hl. change (2 - Nat.min 2 2)%nat with 0%nat. rewrite drop_0.
  rewrite !(int_store_snoc 1), !rev_app_distr. cbn [rev app].
  change (Z.of_nat 1) with 1. change (256 ^ 1) with 256.
  assert (Hq : forall v, 0 <= v < 2 ^ 16 -> 0 <= v / 256 < 256).
  { intros v Hv. split; [apply Z.div_pos; lia|apply Z.div_lt_upper_bound; lia]. }
  assert (Hshift : forall v k, int_store 1 (v + k * 256) = int_store 1 v)
    by (intros; apply (int_store_shift 1)).
  destruct (Z_lt_le_dec exp 0) as [Hneg|Hpos].
  - assert (Hu : exp mod 2 ^ 16 = exp + 2 ^ 16)
      by (symmetry; apply (Z.mod_unique _ _ (-1)); lia).
    rewrite Hu.
    replace (exp + 2 ^ 16) with (exp + 2 ^ 15 + 128 * 256) by lia.
    rewrite Hshift, Z.div_add by lia.
    pose proof (Hq (exp + 2 ^ 15) ltac:(lia)) as Hb.
    assert (Hsmall : (exp + 2 ^ 15) / 256 < 128)
      by (apply Z.div_lt_upper_bound; lia).
    rewrite (Z.mod_small ((exp + 2 ^ 15) / 256 + 128)) by lia.
    rewrite (Z.mod_small ((exp + 2 ^ 15) / 256)) by lia.
    rewrite lxor_sign_bit by lia.
    destruct (Z.ltb_spec ((exp + 2 ^ 15) / 256 + 128) 128); [lia|].
    f_equal. lia.
  - rewrite (Z.mod_small exp (2 ^ 16)) by lia.
    replace (exp + 2 ^ 15) with (exp + 128 * 256) by lia.
    rewrite Hshift, Z.div_add by lia.
    pose proof (Hq exp ltac:(lia)) as Hb.
    assert (Hsmall : exp / 256 < 128) by (apply Z.div_lt_upper_bound; lia).
    rewrite (Z.mod_small (exp / 256 + 128)) by lia.
    rewrite (Z.mod_small (exp / 256)) by lia.
    rewrite lxor_sign_bit by lia.
    destruct (Z.ltb_spec (exp / 256) 128); [reflexivity|lia].
Qed.

(** A smaller exponent of 16 bits has the smaller bytes. *)
Lemma exponent_bytes_order (e1 e2 : Z) :
  - 2 ^ 15 <= e1 -> e1 < e2 -> e2 < 2 ^ 15 ->
  lex_lt (exponent_bytes e1) (exponent_bytes e2).
Proof.
  intros H1 H12 H2. rewrite !exponent_bytes_biased by lia.
  destruct (int_store_mono 2 (e1 + 2 ^ 15) (e2 + 2 ^ 15) ltac:(lia)) as [Hlex|Hhigh];
    [exact Hlex|].
  exfalso. change (Z.of_nat 2) with 2 in Hhigh.
  rewrite !Z.div_small in Hhigh by lia. lia.
Qed.

(** *** The order of the keys of numbers of one sign *)

(** The significant digits with the padding that follows them. *)
Definition padded (ds : list Z) : list Z := ds ++ repeat 48 (85 - length ds).

(** The significant digits as a number of 85 digits. *)
Definition scaled (ds : list Z) : Z := digits_value (padded ds).

Lemma padded_length (ds : list Z) : (length ds <= 85)%nat -> length (padded ds) = 85%nat.
Proof. intros H. unfold padded. rewrite length_app, repeat_length. lia. Qed.

Lemma padded_digits (ds : list Z) : Forall is_digit ds -> Forall is_digit (padded ds).
Proof.
  intros H. unfold padded. apply Forall_app. split; [exact H|].
  apply List.Forall_forall. intros c Hc. apply repeat_spec in Hc. subst c.
  unfold is_digit. lia.
Qed.

Lemma scaled_value (ds : list Z) :
  scaled ds = digits_value ds * 10 ^ Z.of_nat (85 - length ds).
Proof.
  unfold scaled, padded. rewrite digits_value_app, repeat_length, digits_value_zeros. lia.
Qed.

Lemma scaled_bounds (c : Z) (ds : list Z) :
  49 <= c -> Forall is_digit (c :: ds) -> (length (c :: ds) <= 85)%nat ->
  10 ^ 84 <= scaled (c :: ds) < 10 ^ 85.
Proof.
  intros Hc Hds Hlen. unfold scaled.
  pose proof (digits_value_bound _ (padded_digits _ Hds)) as Hb.
  rewrite padded_length in Hb by exact Hlen. change (Z.of_nat 85) with 85 in Hb.
  split; [|apply Hb]. fold (scaled (c :: ds)). rewrite scaled_value.
  inversion Hds as [|? ? _ Hds']; subst.
  pose proof (digits_value_leading c ds Hc Hds') as Hlead.
  cbn [length] in *.
  assert (Hsplit : 10 ^ 84 = 10 ^ Z.of_nat (length ds) * 10 ^ Z.of_nat (85 - S (length ds))).
  { rewrite <- Z.pow_add_r by lia. f_equal. lia. }
  rewrite Hsplit. apply Z.mul_le_mono_nonneg_r; [|exact Hlead].
  apply Z.pow_nonneg. lia.
Qed.

Lemma numeral_bytes_positive (exp : Z) (ds : list Z) :
  (length ds <= 85)%nat ->
  numeral_bytes false exp ds =
  [JSON_KEY_NUMBER_POS] ++ exponent_bytes exp ++ padded ds.
Proof.
  intros Hlen. unfold numeral_bytes, padded, digit_byte.
  rewrite map_id, MAX_NUMBER_SORT_PAD_value.
  replace (88 - (3 + length ds))%nat with (85 - length ds)%nat by lia. reflexivity.
Qed.

Lemma numeral_bytes_negative (exp : Z) (ds : list Z) :
  Forall is_digit ds -> (length ds <= 85)%nat ->
  numeral_bytes true exp ds =
  [JSON_KEY_NUMBER_NEG] ++ exponent_bytes (- exp) ++ map (fun ch => 105 - ch) (padded ds).
Proof.
  intros Hds Hlen. unfold numeral_bytes, padded.
  rewrite digit_byte_inverted by exact Hds. rewrite map_app, MAX_NUMBER_SORT_PAD_value.
  replace (88 - (3 + length ds))%nat with (85 - length ds)%nat by lia.
  assert (Hpad : map (fun ch => 105 - ch) (repeat 48 (85 - length ds)) =
                 repeat 57 (85 - length ds)).
  { induction (85 - length ds)%nat as [|k IH]; [reflexivity|].
    cbn [repeat map]. rewrite IH. reflexivity. }
  rewrite Hpad. reflexivity.
Qed.

(** The order of two numbers given by their exponents and digits:
    the exponents decide, and the digits when the exponents agree. *)
Definition normal_order (e1 e2 : Z) (s1 s2 : list Z) : comparison :=
  if e1 =? e2 then scaled s1 ?= scaled s2 else e1 ?= e2.

Lemma numeral_bytes_less (e1 e2 : Z) (s1 s2 : list Z) :
  Forall is_digit s1 -> Forall is_digit s2 ->
  (length s1 <= 85)%nat -> (length s2 <= 85)%nat ->
  - 2 ^ 15 < e1 < 2 ^ 15 -> - 2 ^ 15 < e2 < 2 ^ 15 ->
  normal_order e1 e2 s1 s2 = Lt ->
  lex_lt (numeral_bytes false e1 s1) (numeral_bytes false e2 s2) /\
  lex_lt (numeral_bytes true e2 s2) (numeral_bytes true e1 s1).
Proof.
  intros Hs1 Hs2 Hl1 Hl2 He1 He2. unfold normal_order.
  rewrite !numeral_bytes_positive, !numeral_bytes_negative by assumption.
  destruct (Z.eqb_spec e1 e2) as [->|Hne]; intros Horder.
  - rewrite Z.compare_lt_iff in Horder.
    destruct (digits_lex (padded s1) (padded s2)) as [Hlex _];
      [apply padded_digits; assumption|apply padded_digits; assumption
      |rewrite !padded_length by assumption; reflexivity|].
    specialize (Hlex Horder). split.
    + apply lex_lt_app_l, lex_lt_app_l. exact Hlex.
    + apply lex_lt_app_l, lex_lt_app_l.
      apply lex_lt_map; [intros; lia|exact Hlex].
  - rewrite Z.compare_lt_iff in Horder. split.
    + apply lex_lt_app_l, lex_lt_app_r, exponent_bytes_order; lia.
    + apply lex_lt_app_l, lex_lt_app_r, exponent_bytes_order; lia.
Qed.

Lemma numeral_bytes_equal (negative : bool) (e1 e2 : Z) (s1 s2 : list Z) :
  Forall is_digit s1 -> Forall is_digit s2 ->
  (length s1 <= 85)%nat -> (length s2 <= 85)%nat ->
  normal_order e1 e2 s1 s2 = Eq ->
  numeral_bytes negative e1 s1 = numeral_bytes negative e2 s2.
Proof.
  intros Hs1 Hs2 Hl1 Hl2. unfold normal_order.
  destruct (Z.eqb_spec e1 e2) as [->|Hne]; intros Horder.
  - rewrite Z.compare_eq_iff in Horder.
    destruct (digits_lex (padded s1) (padded s2)) as [_ Heq];
      [apply padded_digits; assumption|apply padded_digits; assumption
      |rewrite !padded_length by assumption; reflexivity|].
    specialize (Heq Horder).
    destruct negative;
      rewrite ?numeral_bytes_positive, ?numeral_bytes_negative by assumption;
      rewrite Heq; reflexivity.
  - rewrite Z.compare_eq_iff in Horder. contradiction.
Qed.

Lemma normal_order_antisym (e1 e2 : Z) (s1 s2 : list Z) :
  normal_order e2 e1 s2 s1 = CompOpp (normal_order e1 e2 s1 s2).
Proof.
  unfold normal_order. rewrite (Z.eqb_sym e2 e1).
  destruct (e1 =? e2); apply Z.compare_antisym.
Qed.

(** The keys of two numbers of the same sign, other than zero. *)
Lemma numeral_bytes_order (negative : bool) (e1 e2 : Z) (s1 s2 : list Z) :
  Forall is_digit s1 -> Forall is_digit s2 ->
  (length s1 <= 85)%nat -> (length s2 <= 85)%nat ->
  - 2 ^ 15 < e1 < 2 ^ 15 -> - 2 ^ 15 < e2 < 2 ^ 15 ->
  Z.sgn (key_order (numeral_bytes negative e1 s1) (numeral_bytes negative e2 s2)) =
  Z_of_comparison (if negative then CompOpp (normal_order e1 e2 s1 s2)
                   else normal_order e1 e2 s1 s2).
Proof.
  intros Hs1 Hs2 Hl1 Hl2 He1 He2.
  destruct (normal_order e1 e2 s1 s2) eqn:Horder.
  - rewrite (numeral_bytes_equal negative e1 e2 s1 s2) by assumption.
    rewrite key_order_refl. destruct negative; reflexivity.
  - destruct (numeral_bytes_less e1 e2 s1 s2) as [Hpos Hneg]; try assumption.
    destruct negative; cbn [CompOpp Z_of_comparison].
    + apply (lex_lt_key_order _ _ Hneg).
    + apply (lex_lt_key_order _ _ Hpos).
  - pose proof (normal_order_antisym e1 e2 s1 s2) as Hflip.
    rewrite Horder in Hflip. cbn [CompOpp] in Hflip.
    destruct (numeral_bytes_less e2 e1 s2 s1) as [Hpos Hneg]; try assumption.
    destruct negative; cbn [CompOpp Z_of_comparison].
    + apply (lex_lt_key_order _ _ Hneg).
    + apply (lex_lt_key_order _ _ Hpos).
Qed.

(** *** The values of numerals *)

Lemma ten_power_positive (z : Z) : (0 < 10 ^ z)%Q.
Proof. apply Qpower_0_lt. reflexivity. Qed.

Lemma ten_power_plus (a b : Z) : (10 ^ (a + b) == 10 ^ a * 10 ^ b)%Q.
Proof. apply Qpower_plus. discriminate. Qed.

Lemma ten_power_integer (k : Z) : 0 <= k -> (inject_Z (10 ^ k) == 10 ^ k)%Q.
Proof. intros Hk. apply (Zpower_Qpower 10 k Hk). Qed.

(** The value of a number given by its exponent and its digits as a
    number of 85 digits. *)
Definition normal_value (exp : Z) (M : Z) : Q := (inject_Z M * 10 ^ (exp - 84))%Q.

Lemma normal_value_less (e1 e2 M1 M2 : Z) :
  e1 < e2 -> M1 < 10 ^ 85 -> 10 ^ 84 <= M2 ->
  (normal_value e1 M1 < normal_value e2 M2)%Q.
Proof.
  intros He H1 H2. unfold normal_value.
  apply Qlt_le_trans with (y := (10 ^ (e1 + 1))%Q).
  - replace (e1 + 1) with (85 + (e1 - 84)) by lia.
    rewrite ten_power_plus, <- (ten_power_integer 85) by lia.
    apply Qmult_lt_compat_r; [apply ten_power_positive|].
    rewrite <- Zlt_Qlt. exact H1.
  - apply Qle_trans with (y := (10 ^ e2)%Q).
    + apply Qpower_le_compat_l; [lia|discriminate].
    + replace e2 with (84 + (e2 - 84)) at 1 by lia.
      rewrite ten_power_plus, <- (ten_power_integer 84) by lia.
      apply Qmult_le_compat_r; [|apply Qlt_le_weak, ten_power_positive].
      rewrite <- Zle_Qle. exact H2.
Qed.

Lemma normal_value_order (e1 e2 M1 M2 : Z) :
  10 ^ 84 <= M1 < 10 ^ 85 -> 10 ^ 84 <= M2 < 10 ^ 85 ->
  (normal_value e1 M1 ?= normal_value e2 M2)%Q =
  if e1 =? e2 then M1 ?= M2 else e1 ?= e2.
Proof.
  intros H1 H2. destruct (Z.eqb_spec e1 e2) as [->|Hne].
  - unfold normal_value. pose proof (ten_power_positive (e2 - 84)) as Hp.
    destruct (Z.compare_spec M1 M2) as [->|Hlt|Hgt].
    + apply Qeq_alt. reflexivity.
    + apply Qlt_alt. apply Qmult_lt_compat_r; [exact Hp|]. rewrite <- Zlt_Qlt. exact Hlt.
    + apply Qgt_alt. apply Qmult_lt_compat_r; [exact Hp|]. rewrite <- Zlt_Qlt. exact Hgt.
  - destruct (Z.compare_spec e1 e2) as [Heq|Hlt|Hgt]; [contradiction| |].
    + apply Qlt_alt. apply normal_value_less; lia.
    + apply Qgt_alt. apply normal_value_less; lia.
Qed.

(** The magnitude that a numeral denotes. *)
Definition numeral_magnitude (n : numeral) : Q :=
  (inject_Z (digits_value (mantissa n)) *
   10 ^ (written_exponent n - Z.of_nat (length (n_fraction n))))%Q.

Lemma numeral_value_signed (n : numeral) :
  numeral_value n = if n_minus n then (- numeral_magnitude n)%Q else numeral_magnitude n.
Proof. reflexivity. Qed.

(** A numeral without significant digits denotes zero. *)
Lemma numeral_magnitude_zero (n : numeral) :
  significant n = [] -> (numeral_magnitude n == 0)%Q.
Proof.
  intros Hsig. unfold numeral_magnitude.
  rewrite <- strip_zeros_value. fold (significant n). rewrite Hsig.
  change (digits_value []) with 0. apply Qmult_0_l.
Qed.

(** The magnitude of a numeral with significant digits, by its decimal
    exponent and those digits. *)
Lemma numeral_magnitude_normal (n : numeral) :
  (length (significant n) <= 85)%nat ->
  (numeral_magnitude n == normal_value (decimal_exponent n) (scaled (significant n)))%Q.
Proof.
  intros Hlen. unfold numeral_magnitude, normal_value, decimal_exponent.
  rewrite <- strip_zeros_value. fold (significant n).
  rewrite scaled_value, inject_Z_mult, ten_power_integer by lia.
  rewrite <- Qmult_assoc, <- ten_power_plus.
  replace (Z.of_nat (85 - length (significant n)) +
           (written_exponent n + Z.of_nat (length (significant n))
            - Z.of_nat (length (n_fraction n)) - 1 - 84))
    with (written_exponent n - Z.of_nat (length (n_fraction n))) by lia.
  reflexivity.
Qed.

Lemma numeral_magnitude_positive (n : numeral) :
  well_formed n -> significant n <> [] -> (length (significant n) <= 85)%nat ->
  (0 < numeral_magnitude n)%Q.
Proof.
  intros (Hint & Hfrac & _) Hsig Hlen. rewrite numeral_magnitude_normal by exact Hlen.
  assert (Hds : Forall is_digit (significant n)).
  { apply strip_zeros_digits. unfold mantissa. apply Forall_app. auto. }
  destruct (strip_zeros_leading (mantissa n)) as [Hnil|(c & r & Hcr & Hc)].
  { unfold mantissa. apply Forall_app. auto. }
  { contradiction. }
  fold (significant n) in Hcr. rewrite Hcr in *.
  pose proof (scaled_bounds c r ltac:(lia) Hds Hlen) as Hb.
  unfold normal_value.
  apply Qmult_lt_0_compat; [|apply ten_power_positive].
  change 0%Q with (inject_Z 0). rewrite <- Zlt_Qlt. lia.
Qed.

(** *** The order of the keys of numbers *)

(** A numeral whose key is written in full and reads back: it is well
    formed, has at most 85 significant digits and an exponent of 16
    bits, and the sign that [make_json_numeric_sort_key] is told is the
    sign of the numeral, unless it denotes zero. *)
Definition keyed (negative : bool) (n : numeral) : Prop :=
  well_formed n /\ (length (significant n) <= 85)%nat /\
  - 2 ^ 15 < decimal_exponent n < 2 ^ 15 /\
  (significant n <> [] -> n_minus n = negative).

Lemma Qcompare_opp (x y : Q) : (- x ?= - y)%Q = (y ?= x)%Q.
Proof.
  unfold Qcompare, Qopp. cbn [Qnum Qden].
  rewrite !Z.mul_opp_l. apply Z.compare_opp.
Qed.

Lemma significant_digits (n : numeral) : well_formed n -> Forall is_digit (significant n).
Proof.
  intros (Hint & Hfrac & _). apply strip_zeros_digits. unfold mantissa.
  apply Forall_app. auto.
Qed.

(** A keyed numeral denotes zero and has the key of zero, or has
    significant digits that begin with a digit other than zero. *)
Lemma keyed_cases (negative : bool) (n : numeral) :
  keyed negative n ->
  (numeral_key negative n = [JSON_KEY_NUMBER_ZERO] /\ (numeral_magnitude n == 0)%Q) \/
  (numeral_key negative n =
     numeral_bytes negative (decimal_exponent n) (significant n) /\
   n_minus n = negative /\
   (0 < numeral_magnitude n)%Q /\
   (numeral_magnitude n ==
    normal_value (decimal_exponent n) (scaled (significant n)))%Q /\
   10 ^ 84 <= scaled (significant n) < 10 ^ 85).
Proof.
  intros (Hwf & Hlen & Hexp & Hsign).
  pose proof (significant_digits n Hwf) as Hds.
  pose proof Hwf as (Hint & Hfrac & _).
  destruct (strip_zeros_leading (mantissa n)) as [Hnil|(c & r & Hcr & Hc)].
  { unfold mantissa. apply Forall_app. auto. }
  - left. fold (significant n) in Hnil. unfold numeral_key. rewrite Hnil.
    split; [reflexivity|apply numeral_magnitude_zero; exact Hnil].
  - right. fold (significant n) in Hcr.
    assert (Hsome : significant n <> []) by (rewrite Hcr; discriminate).
    split; [unfold numeral_key; rewrite Hcr; reflexivity|].
    split; [apply Hsign; exact Hsome|].
    split; [apply numeral_magnitude_positive; assumption|].
    split; [apply numeral_magnitude_normal; exact Hlen|].
    rewrite Hcr in *. apply (scaled_bounds c r); [lia|assumption|assumption].
Qed.

Lemma numeral_bytes_tag (negative : bool) (exp : Z) (ds : list Z) :
  exists rest,
    numeral_bytes negative exp ds =
    (if negative then JSON_KEY_NUMBER_NEG else JSON_KEY_NUMBER_POS) :: rest.
Proof. eexists. reflexivity. Qed.

(** The keys of two numbers, compared by [memcmp] and then by length,
    are ordered as the values of the numerals they were made from. *)
Lemma numeral_keys_order (f1 f2 : bool) (n1 n2 : numeral) :
  keyed f1 n1 -> keyed f2 n2 ->
  Z.sgn (key_order (numeral_key f1 n1) (numeral_key f2 n2)) =
  Z_of_comparison (numeral_value n1 ?= numeral_value n2)%Q.
Proof.
  intros H1 H2.
  pose proof H1 as (Hwf1 & Hlen1 & Hexp1 & _). pose proof H2 as (Hwf2 & Hlen2 & Hexp2 & _).
  pose proof (significant_digits n1 Hwf1) as Hds1.
  pose proof (significant_digits n2 Hwf2) as Hds2.
  assert (Hzero : forall n, (numeral_magnitude n == 0)%Q -> (numeral_value n == 0)%Q).
  { intros n Hn. rewrite numeral_value_signed. destruct (n_minus n); rewrite Hn; reflexivity. }
  assert (Hneg : forall x : Q, (0 < x)%Q -> (- x < 0)%Q).
  { intros x Hx. apply (Qopp_lt_compat 0 x) in Hx. exact Hx. }
  destruct (keyed_cases f1 n1 H1) as [[K1 Z1]|(K1 & S1 & P1 & V1 & B1)];
    destruct (keyed_cases f2 n2 H2) as [[K2 Z2]|(K2 & S2 & P2 & V2 & B2)];
    rewrite K1, K2.
  - rewrite key_order_refl, (Hzero n1 Z1), (Hzero n2 Z2). reflexivity.
  - rewrite (Hzero n1 Z1), (numeral_value_signed n2), S2.
    destruct (numeral_bytes_tag f2 (decimal_exponent n2) (significant n2)) as [rest ->].
    destruct f2.
    + rewrite key_order_head by discriminate.
      replace (0 ?= - numeral_magnitude n2)%Q with Gt
        by (symmetry; apply Qgt_alt, Hneg; exact P2).
      reflexivity.
    + rewrite key_order_head by discriminate.
      replace (0 ?= numeral_magnitude n2)%Q with Lt
        by (symmetry; apply Qlt_alt; exact P2).
      reflexivity.
  - rewrite (Hzero n2 Z2), (numeral_value_signed n1), S1.
    destruct (numeral_bytes_tag f1 (decimal_exponent n1) (significant n1)) as [rest ->].
    destruct f1.
    + rewrite key_order_head by discriminate.
      replace (- numeral_magnitude n1 ?= 0)%Q with Lt
        by (symmetry; apply Qlt_alt, Hneg; exact P1).
      reflexivity.
    + rewrite key_order_head by discriminate.
      replace (numeral_magnitude n1 ?= 0)%Q with Gt
        by (symmetry; apply Qgt_alt; exact P1).
      reflexivity.
  - rewrite (numeral_value_signed n1), (numeral_value_signed n2), S1, S2.
    assert (Hsame : (numeral_magnitude n1 ?= numeral_magnitude n2)%Q =
                    normal_order (decimal_exponent n1) (decimal_exponent n2)
                                 (significant n1) (significant n2)).
    { rewrite V1, V2. apply normal_value_order; assumption. }
    destruct f1, f2.
    + rewrite numeral_bytes_order by assumption.
      rewrite Qcompare_opp, <- Qcompare_antisym, Hsame. reflexivity.
    + destruct (numeral_bytes_tag true (decimal_exponent n1) (significant n1))
        as [rest1 ->].
      destruct (numeral_bytes_tag false (decimal_exponent n2) (significant n2))
        as [rest2 ->].
      rewrite key_order_head by discriminate.
      replace (- numeral_magnitude n1 ?= numeral_magnitude n2)%Q with Lt
        by (symmetry; apply Qlt_alt; apply Qlt_trans with (y := 0%Q); [apply Hneg|];
            assumption).
      reflexivity.
    + destruct (numeral_bytes_tag false (decimal_exponent n1) (significant n1))
        as [rest1 ->].
      destruct (numeral_bytes_tag true (decimal_exponent n2) (significant n2))
        as [rest2 ->].
      rewrite key_order_head by discriminate.
      replace (numeral_magnitude n1 ?= - numeral_magnitude n2)%Q with Gt
        by (symmetry; apply Qgt_alt; apply Qlt_trans with (y := 0%Q); [apply Hneg|];
            assumption).
      reflexivity.
    + rewrite numeral_bytes_order by assumption. rewrite Hsame. reflexivity.
Qed.

(** ** The keys of the numbers of a document *)

(** The digits that [longlong10_to_str] writes denote the number. *)
Lemma decimal_digits_value (fuel : nat) : forall n : Z,
  0 <= n < 10 ^ Z.of_nat fuel -> digits_value (rev (decimal_digits_rev fuel n)) = n.
Proof.
  induction fuel as [|fuel IH]; intros n Hn.
  - cbn in Hn. cbn. lia.
  - cbn [decimal_digits_rev rev]. rewrite digits_value_app. cbn [length].
    change (digits_value [48 + n mod 10]) with (10 * 0 + (48 + n mod 10 - 48)).
    rewrite Nat2Z.inj_succ, Z.pow_succ_r in Hn by lia.
    pose proof (Z.div_mod n 10 ltac:(lia)) as Hdm.
    destruct (Z.eqb_spec (n / 10) 0) as [Hz|Hnz].
    + change (digits_value (rev [])) with 0. lia.
    + rewrite IH.
      * change (10 ^ Z.of_nat 1) with 10. lia.
      * split; [apply Z.div_pos; lia|apply Z.div_lt_upper_bound; lia].
Qed.

(** The numeral that [longlong10_to_str] writes. *)
Definition integer_numeral (i : Z) : numeral :=
  mk_numeral (i <? 0) (rev (decimal_digits_rev 20 (Z.abs i))) [] None.

Lemma integer_text (i : Z) : longlong10_to_str i = numeral_text (integer_numeral i).
Proof.
  unfold longlong10_to_str, numeral_text, integer_numeral.
  cbn [n_minus n_integer n_fraction n_exponent]. rewrite !app_nil_r.
  destruct (Z.ltb_spec i 0).
  - rewrite Z.abs_neq by lia. reflexivity.
  - rewrite Z.abs_eq by lia. reflexivity.
Qed.

Lemma integer_value (i : Z) :
  Z.abs i < 10 ^ 20 -> (numeral_value (integer_numeral i) == inject_Z i)%Q.
Proof.
  intros Hi. unfold numeral_value, integer_numeral, mantissa, written_exponent.
  cbn [n_minus n_integer n_fraction n_exponent length]. rewrite app_nil_r.
  rewrite decimal_digits_value by (change (Z.of_nat 20) with 20; lia).
  change (10 ^ (0 - Z.of_nat 0))%Q with 1%Q.
  destruct (Z.ltb_spec i 0); rewrite Qmult_1_r.
  - rewrite Z.abs_neq by lia. unfold Qeq, Qopp, inject_Z. cbn [Qnum Qden]. lia.
  - rewrite Z.abs_eq by lia. reflexivity.
Qed.

Lemma integer_keyed (i : Z) : Z.abs i < 10 ^ 20 -> keyed (i <? 0) (integer_numeral i).
Proof.
  intros Hi.
  assert (Hds : Forall is_digit (rev (decimal_digits_rev 20 (Z.abs i))))
    by (apply Forall_rev, decimal_digits_rev_digits; lia).
  assert (Hlen : (length (significant (integer_numeral i)) <= 20)%nat).
  { unfold significant, mantissa, integer_numeral. cbn [n_integer n_fraction].
    rewrite app_nil_r.
    pose proof (strip_zeros_length (rev (decimal_digits_rev 20 (Z.abs i)))) as Hs.
    rewrite length_rev in Hs. pose proof (decimal_digits_rev_length 20 (Z.abs i)). lia. }
  repeat split.
  - exact Hds.
  - constructor.
  - intros H. contradiction.
  - lia.
  - unfold decimal_exponent, written_exponent. cbn [integer_numeral n_exponent n_fraction length].
    lia.
  - unfold decimal_exponent, written_exponent. cbn [integer_numeral n_exponent n_fraction length].
    lia.
Qed.

Section Sort_keys_of_numbers.
Context `{DL : Decimal_library} {LAWS : @Decimal_laws DL} `{SL : String_library}.

Definition is_numeric (d : Json_dom) : bool :=
  match d with
  | Json_int _ | Json_uint _ | Json_double _ | Json_decimal _ => true
  | _ => false
  end.

(** The text that [make_sort_key] hands to [make_json_numeric_sort_key]
    for a number, and the sign it tells. *)
Definition number_text (d : Json_dom) : list Z :=
  match d with
  | Json_int i => longlong10_to_str i
  | Json_uint u => longlong10_to_str u
  | Json_decimal m => my_decimal2string m
  | Json_double f => my_gcvt f
  | _ => []
  end.

Definition number_sign (d : Json_dom) : bool :=
  match d with
  | Json_int i => i <? 0
  | Json_decimal m => dec_sign m
  | Json_double f => lt_op f double_zero
  | _ => false
  end.

(** The text of the number [d] is a numeral of the value [v] whose key
    is written in full. *)
Definition printed_as (d : Json_dom) (v : Q) : Prop :=
  exists n, number_text d = numeral_text n /\ keyed (number_sign d) n /\
            (numeral_value n == v)%Q.

(** An INT or UINT is printed as its value. *)
Lemma integer_printed (d : Json_dom) :
  match d with Json_int _ | Json_uint _ => integer_scalar d = true | _ => False end ->
  printed_as d (number_value d).
Proof.
  destruct d as [ |b|i|u|f|m|s|mytype v|t ft|l|l]; try contradiction;
    cbn [integer_scalar]; rewrite andb_true_iff, Z.leb_le, Z.ltb_lt; intros [Hlo Hhi].
  - exists (integer_numeral i). split; [apply integer_text|].
    split; [apply integer_keyed; lia|apply integer_value; lia].
  - exists (integer_numeral u). split; [apply integer_text|].
    split; [|apply integer_value; lia].
    pose proof (integer_keyed u ltac:(lia)) as Hk.
    destruct (Z.ltb_spec u 0); [lia|]. exact Hk.
Qed.

(** The key that is written for a number. *)
Lemma number_key_written (d : Json_dom) (to : list Z) (n : numeral) :
  is_numeric d = true -> number_text d = numeral_text n -> keyed (number_sign d) n ->
  (MAX_NUMBER_SORT_PAD <= length to)%nat ->
  sort_key_bytes d to = numeral_key (number_sign d) n.
Proof.
  intros Hd Htext (Hwf & Hlen & _) Hroom.
  pose proof (holds_new to (length to) eq_refl) as Hk.
  unfold sort_key_bytes. apply holds_written.
  destruct d as [ |b|i|u|f|m|s|mytype v|t ft|l|l]; try discriminate Hd;
    cbn [number_text number_sign] in *;
    cbn [make_sort_key json_type get_int get_uint get_double get_decimal_data fst];
    rewrite Htext; apply numeral_key_written; assumption.
Qed.

Lemma numeral_key_tag (negative : bool) (n : numeral) :
  exists tag r, numeral_key negative n = tag :: r /\ tag_precedence tag = 1.
Proof.
  unfold numeral_key. destruct (significant n).
  - exists JSON_KEY_NUMBER_ZERO, []. split; reflexivity.
  - destruct negative; eexists; eexists; (split; [reflexivity|reflexivity]).
Qed.

(** The keys of two numbers are ordered as the values of the numerals
    that were printed for them. *)
Lemma number_keys_by_printed_value (a b : Json_dom) (ta tb : list Z) (va vb : Q) :
  is_numeric a = true -> is_numeric b = true ->
  printed_as a va -> printed_as b vb ->
  (MAX_NUMBER_SORT_PAD <= length ta)%nat -> (MAX_NUMBER_SORT_PAD <= length tb)%nat ->
  Z.sgn (key_order (sort_key_bytes a ta) (sort_key_bytes b tb)) =
  Z_of_comparison (va ?= vb)%Q.
Proof.
  intros Ha Hb (na & Hta & Hka & Hva) (nb & Htb & Hkb & Hvb) Hra Hrb.
  rewrite (number_key_written a ta na Ha Hta Hka Hra).
  rewrite (number_key_written b tb nb Hb Htb Hkb Hrb).
  rewrite numeral_keys_order by assumption. rewrite Hva, Hvb. reflexivity.
Qed.

(** *** Numbers are compared by value *)

(** The values in the range of their C++ types: a DOUBLE is a finite
    binary64 value, the other scalars are as [integer_scalar] says. *)
Definition in_range (d : Json_dom) : bool :=
  match d with
  | Json_decimal _ => true
  | Json_double f => is_double f
  | _ => integer_scalar d
  end.

(** Where a DECIMAL meets a DOUBLE: the double has a decimal of its
    value, so that [double2decimal] converts it without rounding. *)
Definition decimal_of_double (a b : Json_dom) : Prop :=
  match a, b with
  | Json_decimal _, Json_double f | Json_double f, Json_decimal _ =>
    exists y : my_decimal, (dec_value y == double_value f)%Q
  | _, _ => True
  end.

Lemma numbers_compared_by_value (a b : Json_dom) :
  is_numeric a = true -> is_numeric b = true ->
  in_range a = true -> in_range b = true -> decimal_of_double a b ->
  compare a b = Z_of_comparison (number_value a ?= number_value b)%Q.
Proof.
  intros Ha Hb Hra Hrb Hdd.
  destruct a as [ |?|i|u|f|m|?|? ?|? ?|?|?]; try discriminate Ha;
    destruct b as [ |?|i'|u'|f'|m'|?|? ?|? ?|?|?]; try discriminate Hb;
    try (apply numbers_by_value; solve [reflexivity|assumption]);
    cbn [in_range integer_scalar] in Hra, Hrb; cbn [number_value decimal_of_double] in *;
    rewrite ?andb_true_iff, ?Z.leb_le, ?Z.ltb_lt in *.
  - cbn -[compare_json_decimal_int]. rewrite compare_json_decimal_int_value.
    rewrite Z_of_comparison_opp, Qcompare_antisym. reflexivity.
  - cbn -[compare_json_decimal_uint]. rewrite compare_json_decimal_uint_value by lia.
    rewrite Z_of_comparison_opp, Qcompare_antisym. reflexivity.
  - destruct Hdd as [y Hy]. cbn -[compare_json_decimal_double].
    rewrite (compare_json_decimal_double_value m' y f Hy).
    rewrite Z_of_comparison_opp, Qcompare_antisym. reflexivity.
  - cbn -[compare_json_decimal_int]. apply compare_json_decimal_int_value.
  - cbn -[compare_json_decimal_uint]. apply compare_json_decimal_uint_value. lia.
  - destruct Hdd as [y Hy]. cbn -[compare_json_decimal_double].
    apply (compare_json_decimal_double_value m y f' Hy).
  - cbn. apply compare_decimals_value.
Qed.

(** *** The keys of scalars *)

(** The scalars whose keys are considered: values in the range of
    their C++ types, and for a DECIMAL or DOUBLE a text that is a
    numeral of its value, in plain or in scientific format. *)
Definition sortable (d : Json_dom) : Prop :=
  in_range d = true /\
  match d with
  | Json_decimal _ | Json_double _ => printed_as d (number_value d)
  | _ => True
  end.

Lemma sortable_printed (d : Json_dom) :
  sortable d -> is_numeric d = true -> printed_as d (number_value d).
Proof.
  intros [Hr Hp] Hd.
  destruct d as [ |?|i|u|f|m|?|? ?|? ?|?|?]; try discriminate Hd;
    try exact Hp; apply integer_printed; exact Hr.
Qed.

Lemma sortable_integer_scalar (d : Json_dom) :
  sortable d -> is_numeric d = false -> integer_scalar d = true.
Proof.
  intros [Hr _] Hd. destruct d; try discriminate Hd; exact Hr.
Qed.

(** The numbers are the scalars of precedence 1. *)
Lemma numeric_precedence (d : Json_dom) :
  in_range d = true ->
  (is_numeric d = true -> precedence (json_type d) = 1) /\
  (is_numeric d = false -> precedence (json_type d) <> 1).
Proof.
  intros Hr.
  destruct d as [ |?|i|u|f|m|?|? ?|t ft|?|?]; try discriminate Hr;
    (split; intros Hd; try discriminate Hd; cbn; try reflexivity; try discriminate).
  cbn [in_range integer_scalar] in Hr. apply andb_true_iff in Hr. destruct Hr as [_ Hft].
  apply temporal_field_type in Hft. destruct Hft as [-> | [-> | [-> | ->]]]; discriminate.
Qed.

(** The key of a scalar begins with the tag of its precedence. *)
Lemma sortable_key_tag (d : Json_dom) (to : list Z) :
  sortable d -> room_for d to ->
  exists tag r, sort_key_bytes d to = tag :: r /\
                tag_precedence tag = precedence (json_type d).
Proof.
  intros Hd Hroom. pose proof Hd as [Hr _].
  destruct (is_numeric d) eqn:Hnum.
  - destruct (sortable_printed d Hd Hnum) as (n & Htext & Hk & _).
    rewrite (number_key_written d to n Hnum Htext Hk (proj1 Hroom)).
    rewrite (proj1 (numeric_precedence d Hr) Hnum). apply numeral_key_tag.
  - pose proof (sortable_integer_scalar d Hd Hnum) as Hi.
    rewrite (scalar_key_written d to Hi Hroom). apply scalar_key_tag. exact Hi.
Qed.

Lemma Z_of_comparison_sgn (c : comparison) : Z.sgn (Z_of_comparison c) = Z_of_comparison c.
Proof. destruct c; reflexivity. Qed.

(** The keys of two scalars, compared by [memcmp] and then by length,
    have the sign of [compare]. *)
Lemma sortable_keys_order (a b : Json_dom) (ta tb : list Z) :
  room_for a ta -> room_for b tb ->
  sortable a -> sortable b -> decimal_of_double a b ->
  Z.sgn (key_order (sort_key_bytes a ta) (sort_key_bytes b tb)) = Z.sgn (compare a b).
Proof.
  intros Hra Hrb Ha Hb Hdd.
  pose proof Ha as [Hina _]. pose proof Hb as [Hinb _].
  destruct (Z.eq_dec (precedence (json_type a)) (precedence (json_type b))) as [Hsame|Hne].
  - destruct (is_numeric a) eqn:Hna; destruct (is_numeric b) eqn:Hnb.
    + rewrite (number_keys_by_printed_value a b ta tb (number_value a) (number_value b));
        try assumption; try (apply sortable_printed; assumption);
        try apply Hra; try apply Hrb.
      rewrite (numbers_compared_by_value a b) by assumption.
      symmetry. apply Z_of_comparison_sgn.
    + exfalso. apply (proj2 (numeric_precedence b Hinb) Hnb).
      rewrite <- Hsame. apply (proj1 (numeric_precedence a Hina) Hna).
    + exfalso. apply (proj2 (numeric_precedence a Hina) Hna).
      rewrite Hsame. apply (proj1 (numeric_precedence b Hinb) Hnb).
    + pose proof (sortable_integer_scalar a Ha Hna) as Hia.
      pose proof (sortable_integer_scalar b Hb Hnb) as Hib.
      rewrite !scalar_key_written by assumption.
      apply scalar_keys_order; assumption.
  - destruct (sortable_key_tag a ta Ha Hra) as (tag_a & ra & -> & Hta).
    destruct (sortable_key_tag b tb Hb Hrb) as (tag_b & rb & -> & Htb).
    rewrite (compare_by_precedence a b Hne).
    assert (Htags : tag_a <> tag_b) by congruence.
    rewrite key_order_head by assumption.
    pose proof (tag_precedence_mono tag_a tag_b) as Hab.
    pose proof (tag_precedence_mono tag_b tag_a) as Hba.
    destruct (Z.compare_spec (precedence (json_type a)) (precedence (json_type b)));
      cbn [Z_of_comparison]; lia.
Qed.

(** C4, amended: take two scalars with values in the range of their C++
    types, where the text printed for a DECIMAL or DOUBLE is a numeral
    of its value, in plain or scientific format, with at most 85
    significant digits and an exponent of 16 bits, and where a DOUBLE
    that meets a DECIMAL has a decimal of its value; the buffers hold
    the padded digits of a number and the whole of a string.  The
    written keys compared by [memcmp] over the shorter key and then by
    length (the shorter first) have the sign of [compare]; [memcmp]
    alone cannot tell a string from a longer one that it begins, because
    no length is written after a string that fits.  Whatever numerals
    are printed for two numbers, their keys are ordered as the values of
    those numerals.  The key of an object or array is its tag and its
    length in four bytes, most significant first, and the warning is
    pushed; two containers of one kind and one length have equal keys,
    also where [compare] tells them apart. *)
Theorem sort_key_order_scalars_and_containers
    (a b : Json_dom) (ta tb : list Z) :
  room_for a ta -> room_for b tb ->
  (sortable a -> sortable b -> decimal_of_double a b ->
   Z.sgn (key_order (sort_key_bytes a ta) (sort_key_bytes b tb)) =
   Z.sgn (compare a b)) /\
  (forall va vb : Q,
     is_numeric a = true -> is_numeric b = true ->
     printed_as a va -> printed_as b vb ->
     Z.sgn (key_order (sort_key_bytes a ta) (sort_key_bytes b tb)) =
     Z_of_comparison (va ?= vb)%Q) /\
  (is_container a = true ->
   sort_key_bytes a ta = container_key a /\
   length (sort_key_bytes a ta) = 5%nat /\
   snd (make_sort_key a ta (length ta)) = [ER_NOT_SUPPORTED_YET_sorting_of_non_scalar] /\
   (json_type b = json_type a ->
    wrapper_length (Json_wrapper_of_dom (Some b)) =
    wrapper_length (Json_wrapper_of_dom (Some a)) ->
    sort_key_bytes b tb = sort_key_bytes a ta /\
    key_order (sort_key_bytes a ta) (sort_key_bytes b tb) = 0)) /\
  (exists c1 c2 : Json_dom,
     is_container c1 = true /\ json_type c2 = json_type c1 /\
     wrapper_length (Json_wrapper_of_dom (Some c2)) =
     wrapper_length (Json_wrapper_of_dom (Some c1)) /\
     compare c1 c2 <> 0).
Proof.
  intros Hra Hrb.
  assert (H5a : (5 <= length ta)%nat)
    by (destruct Hra as [H _]; rewrite MAX_NUMBER_SORT_PAD_value in H; lia).
  assert (H5b : (5 <= length tb)%nat)
    by (destruct Hrb as [H _]; rewrite MAX_NUMBER_SORT_PAD_value in H; lia).
  split; [|split].
  - intros Ha Hb Hdd. apply sortable_keys_order; assumption.
  - intros va vb Ha Hb Hpa Hpb.
    apply number_keys_by_printed_value; try assumption; [apply Hra|apply Hrb].
  - apply container_sort_keys; assumption.
Qed.

End Sort_keys_of_numbers.

(** *** The keys of concrete numbers *)

(** The key of a text, written into a buffer of 100 zero bytes. *)
Definition key_of_text (text : string) (negative : bool) : list Z :=
  let key := make_json_numeric_sort_key (uchars text) negative
                                        (mk_sort_key zeroed_buffer 100 0) in
  take (m_pos key) (m_buffer key).

(** The tag, the two bytes of the exponent and the digits, with the
    padding left out. *)
Definition key_head (text : string) (negative : bool) : list Z :=
  take 6 (key_of_text text negative).

(** Texts in plain and in scientific format: the exponent is read
    after the [e] or counted from the point, a number is keyed alike
    in both formats, and the keys are ordered as the numbers are. *)
Lemma keys_of_plain_and_scientific_texts :
  key_head "1.5e-3" false = [JSON_KEY_NUMBER_POS; 127; 253; 49; 53; 48] /\
  key_of_text "0.0015" false = key_of_text "1.5e-3" false /\
  key_of_text "1500" false = key_of_text "1.5e3" false /\
  key_of_text "12.34" false = key_of_text "1.234e1" false /\
  key_head "12.34" false = [JSON_KEY_NUMBER_POS; 128; 1; 49; 50; 51] /\
  key_head "-2.5e2" true = [JSON_KEY_NUMBER_NEG; 127; 254; 55; 52; 57] /\
  key_of_text "-250" true = key_of_text "-2.5e2" true /\
  key_of_text "0.0" false = [JSON_KEY_NUMBER_ZERO] /\
  key_of_text "-0" false = [JSON_KEY_NUMBER_ZERO] /\
  length (key_of_text "1e308" false) = 88%nat /\
  Z.sgn (key_order (key_of_text "1.5e-3" false) (key_of_text "2e-3" false)) = -1 /\
  Z.sgn (key_order (key_of_text "9.9e-4" false) (key_of_text "1.5e-3" false)) = -1 /\
  Z.sgn (key_order (key_of_text "1.7976931348623157e308" false)
                   (key_of_text "1e-323" false)) = 1 /\
  Z.sgn (key_order (key_of_text "-2.5e2" true) (key_of_text "-2.5e-2" true)) = -1 /\
  Z.sgn (key_order (key_of_text "-1e-5" true) (key_of_text "0" false)) = -1.
Proof. repeat split; vm_compute; reflexivity. Qed.

(** *** A double whose text is rounded

    The key of a double is made from the text printed for it, and
    [compare] compares its value.  The two agree as long as the text is
    a numeral of the value.  2^62 = 4611686018427387904 has 19
    significant digits: when the text printed for it has fewer, its key
    is out of order against the key of one of the integers next to it. *)

Definition two_to_62 : double := mk_double false (2 ^ 62 * 2 ^ 1074).

Lemma integer_normal_value (X : Z) : (inject_Z X == normal_value 18 (X * 10 ^ 66))%Q.
Proof.
  unfold normal_value. rewrite inject_Z_mult, ten_power_integer by lia.
  rewrite <- Qmult_assoc, <- ten_power_plus.
  change (10 ^ (66 + (18 - 84)))%Q with 1%Q. rewrite Qmult_1_r. reflexivity.
Qed.

Section Rounded_double.
Context `{DL : Decimal_library} {LAWS : @Decimal_laws DL} `{SL : String_library}.

Lemma rounded_text_off_by_more_than_one (n : numeral) :
  keyed false n -> (length (significant n) < 19)%nat ->
  (numeral_value n < inject_Z (2 ^ 62 - 1))%Q \/ (inject_Z (2 ^ 62 + 1) < numeral_value n)%Q.
Proof.
  intros Hk Hlen.
  destruct (keyed_cases false n Hk) as [[_ Hzero]|(_ & Hsign & _ & Hvalue & Hbounds)].
  - left. rewrite numeral_value_signed.
    destruct (n_minus n); rewrite Hzero; reflexivity.
  - rewrite numeral_value_signed, Hsign.
    set (e := decimal_exponent n) in *. set (M := scaled (significant n)) in *.
    assert (Hmultiple : exists j, M = j * 10 ^ 67).
    { exists (digits_value (significant n) * 10 ^ Z.of_nat (18 - length (significant n))).
      unfold M. rewrite scaled_value, <- Z.mul_assoc. f_equal.
      change 67 with (Z.of_nat 67). rewrite <- Z.pow_add_r by lia. f_equal. lia. }
    destruct Hmultiple as [j Hj].
    assert (Hcompare : forall X, 10 ^ 84 <= X * 10 ^ 66 < 10 ^ 85 ->
              (numeral_magnitude n ?= inject_Z X)%Q =
              if e =? 18 then M ?= X * 10 ^ 66 else e ?= 18).
    { intros X HX. rewrite Hvalue, (integer_normal_value X).
      apply normal_value_order; assumption. }
    destruct (Z.lt_trichotomy e 18) as [Hlt|[Heq|Hgt]].
    + left. apply Qlt_alt. rewrite Hcompare by lia.
      destruct (Z.eqb_spec e 18); [lia|]. apply Z.compare_lt_iff. exact Hlt.
    + destruct (Z_lt_le_dec M ((2 ^ 62 - 1) * 10 ^ 66)) as [Hbelow|Habove].
      * left. apply Qlt_alt. rewrite Hcompare by lia.
        destruct (Z.eqb_spec e 18); [|lia]. apply Z.compare_lt_iff. exact Hbelow.
      * right. apply Qgt_alt. rewrite Hcompare by lia.
        destruct (Z.eqb_spec e 18); [|lia]. apply Z.compare_gt_iff. lia.
    + right. apply Qgt_alt. rewrite Hcompare by lia.
      destruct (Z.eqb_spec e 18); [lia|]. apply Z.compare_gt_iff. exact Hgt.
Qed.

Lemma two_to_62_among_integers :
  compare (Json_double two_to_62) (Json_int (2 ^ 62 - 1)) = 1 /\
  compare (Json_double two_to_62) (Json_int (2 ^ 62 + 1)) = -1.
Proof.
  split.
  - rewrite (numbers_by_value (Json_double two_to_62) (Json_int (2 ^ 62 - 1)));
      try reflexivity.
  - rewrite (numbers_by_value (Json_double two_to_62) (Json_int (2 ^ 62 + 1)));
      try reflexivity.
Qed.

(** If the text printed for the double 2^62 is a numeral with fewer
    than 19 significant digits, then the key of the double is out of
    order against the key of the integer below it or of the integer
    above it. *)
Lemma rounded_double_key_out_of_order (n : numeral) (to : list Z) :
  my_gcvt two_to_62 = numeral_text n -> keyed false n ->
  (length (significant n) < 19)%nat -> (MAX_NUMBER_SORT_PAD <= length to)%nat ->
  Z.sgn (key_order (sort_key_bytes (Json_double two_to_62) to)
                   (sort_key_bytes (Json_int (2 ^ 62 - 1)) to)) <>
  Z.sgn (compare (Json_double two_to_62) (Json_int (2 ^ 62 - 1))) \/
  Z.sgn (key_order (sort_key_bytes (Json_double two_to_62) to)
                   (sort_key_bytes (Json_int (2 ^ 62 + 1)) to)) <>
  Z.sgn (compare (Json_double two_to_62) (Json_int (2 ^ 62 + 1))).
Proof.
  intros Htext Hk Hlen Hroom.
  destruct two_to_62_among_integers as [-> ->].
  assert (Hprinted : printed_as (Json_double two_to_62) (numeral_value n)).
  { exists n. split; [exact Htext|]. split; [exact Hk|reflexivity]. }
  assert (Hkey : forall X, - 2 ^ 63 <= X < 2 ^ 63 ->
            Z.sgn (key_order (sort_key_bytes (Json_double two_to_62) to)
                             (sort_key_bytes (Json_int X) to)) =
            Z_of_comparison (numeral_value n ?= inject_Z X)%Q).
  { intros X HX.
    apply (number_keys_by_printed_value (Json_double two_to_62) (Json_int X) to to);
      try reflexivity; try assumption.
    apply (integer_printed (Json_int X)). cbn [integer_scalar].
    apply andb_true_iff. split; [apply Z.leb_le|apply Z.ltb_lt]; lia. }
  rewrite !Hkey by lia.
  destruct (rounded_text_off_by_more_than_one n Hk Hlen) as [Hbelow|Habove].
  - left. below_by Hbelow. discriminate.
  - right. above_by Habove. discriminate.
Qed.

End Rounded_double.

(** C4 fails as stated.  The strings "a" and "a" followed by a NUL byte
    compare as -1, yet their keys leave two zeroed buffers of 100 bytes
    byte for byte equal, so that no [memcmp] tells them apart; and the
    keys of "a" and "ab" agree on the two bytes that both have.  And
    whatever the libraries are: when the text printed for the double
    2^62 is a numeral with fewer than 19 significant digits, the key of
    the double is out of order against the key of the integer 2^62 - 1
    or of the integer 2^62 + 1. *)
Lemma sort_key_memcmp_differs_from_compare :
  (compare string_a string_a_nul = -1 /\
   m_buffer (key_into_zeroed_buffer string_a) =
   m_buffer (key_into_zeroed_buffer string_a_nul) /\
   memcmp (m_buffer (key_into_zeroed_buffer string_a))
          (m_buffer (key_into_zeroed_buffer string_a_nul)) 100 = 0 /\
   compare string_a string_ab = -1 /\
   m_pos (key_into_zeroed_buffer string_a) = 2%nat /\
   m_pos (key_into_zeroed_buffer string_ab) = 3%nat /\
   memcmp (m_buffer (key_into_zeroed_buffer string_a))
          (m_buffer (key_into_zeroed_buffer string_ab)) 2 = 0) /\
  (forall (DL : Decimal_library) (LAWS : @Decimal_laws DL) (SL : String_library)
          (n : numeral),
     my_gcvt two_to_62 = numeral_text n -> keyed false n ->
     (length (significant n) < 19)%nat ->
     Z.sgn (key_order (sort_key_bytes (Json_double two_to_62) zeroed_buffer)
                      (sort_key_bytes (Json_int (2 ^ 62 - 1)) zeroed_buffer)) <>
     Z.sgn (compare (Json_double two_to_62) (Json_int (2 ^ 62 - 1))) \/
     Z.sgn (key_order (sort_key_bytes (Json_double two_to_62) zeroed_buffer)
                      (sort_key_bytes (Json_int (2 ^ 62 + 1)) zeroed_buffer)) <>
     Z.sgn (compare (Json_double two_to_62) (Json_int (2 ^ 62 + 1)))).
Proof.
  split; [repeat split; vm_compute; reflexivity|].
  intros DL LAWS SL n Htext Hk Hlen.
  apply (rounded_double_key_out_of_order n zeroed_buffer Htext Hk Hlen).
  vm_compute. lia.
Qed.

(** *** A witness with a fraction *)

(** A number formatter that prints the doubles that are multiples of
    one half, and the others down to the half below their magnitude. *)
#[export] Instance Halves_gcvt : String_library := {|
  my_gcvt := fun d =>
    let twice := Z.quot (2 * d_scaled d) (2 ^ 1074) in
    (if twice <? 0 then [45] else []) ++
    rev (decimal_digits_rev 20 (Z.abs twice / 2)) ++
    (if Z.odd twice then [46; 53] else [])
|}.

Definition numeral_1_5 : numeral := mk_numeral false [49] [53] None.

Lemma numeral_1_5_keyed : keyed false numeral_1_5.
Proof.
  assert (Hdigit : forall c, 48 <= c <= 57 -> Forall is_digit [c])
    by (intros c Hc; constructor; [exact Hc|constructor]).
  split; [|split; [vm_compute; lia|split; [vm_compute; split; reflexivity|reflexivity]]].
  split; [apply Hdigit; lia|]. split; [apply Hdigit; lia|].
  intros H. exfalso. apply H. reflexivity.
Qed.

Lemma numeral_1_5_value : (numeral_value numeral_1_5 == double_value double_1_5)%Q.
Proof. vm_compute. reflexivity. Qed.

Lemma sort_key_order_scalars_and_containers_witness :
  let a : @Json_dom Integer_decimals := Json_double double_1_5 in
  let b : @Json_dom Integer_decimals := Json_int 2 in
  room_for a zeroed_buffer /\ room_for b zeroed_buffer /\
  compare a b = -1 /\
  Z.sgn (key_order (@sort_key_bytes Integer_decimals Halves_gcvt a zeroed_buffer)
                   (@sort_key_bytes Integer_decimals Halves_gcvt b zeroed_buffer)) =
  Z.sgn (compare a b).
Proof.
  intros a b.
  assert (Hra : room_for a zeroed_buffer) by (split; vm_compute; lia).
  assert (Hrb : room_for b zeroed_buffer) by (split; vm_compute; lia).
  split; [exact Hra|]. split; [exact Hrb|]. split; [reflexivity|].
  refine (proj1 (@sort_key_order_scalars_and_containers
                   Integer_decimals Integer_decimals_laws Halves_gcvt
                   a b zeroed_buffer zeroed_buffer Hra Hrb) _ _ _).
  - split; [reflexivity|]. exists numeral_1_5.
    split; [reflexivity|]. split; [exact numeral_1_5_keyed|exact numeral_1_5_value].
  - split; [reflexivity|exact I].
  - exact I.
Defined.
